(** * react-component-usage-counter: the import and usage extractors

    A shallow embedding of [script-func-comp.js].  JavaScript strings are
    sequences of UTF-16 code units, regular expressions are interpreted by a
    backtracking matcher that follows the ECMAScript matching rules, and the
    three global tables are threaded through the functions as an explicit
    state. *)

From Stdlib Require Import List NArith Bool Arith Lia String Ascii.
From Stdlib Require Import DecimalString.
Import ListNotations.

Set Implicit Arguments.

(** ** Strings *)

Module Str.

(** A UTF-16 code unit. *)
Definition cu := N.

(** A JavaScript string value. *)
Definition t := list cu.

(** The code units of an ASCII literal. *)
Definition lit (s : string) : t :=
  map N_of_ascii (list_ascii_of_string s).

(** The code unit of an ASCII character. *)
Definition ch (a : ascii) : cu := N_of_ascii a.

Definition quote : cu := 34%N.      (* the double quote *)
Definition apostrophe : cu := 39%N.
Definition newline : cu := 10%N.

Fixpoint eqb (a b : t) : bool :=
  match a, b with
  | [], [] => true
  | x :: a', y :: b' => N.eqb x y && eqb a' b'
  | _, _ => false
  end.

(** [WhiteSpace] and [LineTerminator] of ECMAScript: what [\s] matches and
    what [String.prototype.trim] strips. *)
Definition isSpace (c : cu) : bool :=
  existsb (N.eqb c)
    [9; 10; 11; 12; 13; 32; 160; 5760; 8192; 8193; 8194; 8195; 8196; 8197;
     8198; 8199; 8200; 8201; 8202; 8232; 8233; 8239; 8287; 12288; 65279]%N.

(** What [\w] matches: [A-Za-z0-9_]. *)
Definition isWord (c : cu) : bool :=
  ((48 <=? c) && (c <=? 57) || (65 <=? c) && (c <=? 90) || (c =? 95)
   || (97 <=? c) && (c <=? 122))%N.

Definition isLineTerminator (c : cu) : bool :=
  existsb (N.eqb c) [10; 13; 8232; 8233]%N.

Fixpoint trimStart (s : t) : t :=
  match s with
  | c :: s' => if isSpace c then trimStart s' else s
  | [] => []
  end.

Definition trimEnd (s : t) : t := rev (trimStart (rev s)).

(** [s.trim()] *)
Definition trim (s : t) : t := trimEnd (trimStart s).

Fixpoint startsWith (p s : t) : bool :=
  match p, s with
  | [], _ => true
  | x :: p', y :: s' => N.eqb x y && startsWith p' s'
  | _ :: _, [] => false
  end.

(** [s.split(sep)] for a non-empty separator.  [skip] counts the code units
    of a separator that has been recognised and is still to be passed over;
    [cur] is the current piece, reversed. *)
Fixpoint splitAux (sep : t) (skip : nat) (cur : t) (s : t) : list t :=
  match s with
  | [] => [rev cur]
  | c :: s' =>
      match skip with
      | S n => splitAux sep n cur s'
      | O =>
          if startsWith sep s
          then rev cur :: splitAux sep (List.length sep - 1) [] s'
          else splitAux sep 0 (c :: cur) s'
      end
  end.

Definition split (sep s : t) : list t := splitAux sep 0 [] s.

(** [a[0]] of an array of strings that [split] returned (never empty). *)
Definition first (a : list t) : t := hd [] a.

(** [s.substring(1)] *)
Definition substring1 (s : t) : t := tl s.

(** [a.includes(x)] on an array of strings. *)
Definition includes (a : list t) (x : t) : bool := existsb (eqb x) a.

(** Lexicographic order on code units: the order of the default
    [Array.prototype.sort]. *)
Fixpoint leb (a b : t) : bool :=
  match a, b with
  | [], _ => true
  | _ :: _, [] => false
  | x :: a', y :: b' => (x <? y)%N || (N.eqb x y && leb a' b')
  end.

(** Decimal rendering of a length, as template literals do. *)
Definition ofNat (n : nat) : t := lit (NilZero.string_of_uint (Nat.to_uint n)).

End Str.

(** ** Regular expressions *)

Module RegExp.

Import Str.

Inductive clsItem : Type :=
| CChar (c : cu)
| CRange (lo hi : cu)
| CSpace                      (* \s *)
| CWord.                      (* \w *)

Definition inItem (c : cu) (i : clsItem) : bool :=
  match i with
  | CChar x => N.eqb c x
  | CRange lo hi => ((lo <=? c) && (c <=? hi))%N
  | CSpace => isSpace c
  | CWord => isWord c
  end.

Definition inClass (neg : bool) (items : list clsItem) (c : cu) : bool :=
  xorb neg (existsb (inItem c) items).

(** The fragment of the pattern language that the program's patterns use.
    No pattern has a capture group under a quantifier, so the reset of
    captures at each iteration is not modelled. *)
Inductive regex : Type :=
| Eps
| Chr (c : cu)
| Any                                   (* .  *)
| Cls (neg : bool) (items : list clsItem)
| Seq (r1 r2 : regex)
| Alt (r1 r2 : regex)
| Star (greedy : bool) (r : regex)      (* r* and r*? *)
| Group (n : nat) (r : regex)           (* the n-th capture group *)
| NotAhead (r : regex)                  (* (?!r) *)
| NotBehind (items : list clsItem)      (* (?<![items]) *)
| WordB                                 (* \b *)
| Bol                                   (* ^ *)
| Eol.                                  (* $ *)

Definition Plus (r : regex) : regex := Seq r (Star true r).

Fixpoint Lit (s : t) : regex :=
  match s with
  | [] => Eps
  | c :: s' => Seq (Chr c) (Lit s')
  end.

Definition space : regex := Cls false [CSpace].

(** The matcher's state: the code unit before the current position, the
    input from the current position on, the position, the captures. *)
Record mstate : Type := MState {
  prev : option cu;
  rest : t;
  pos : nat;
  caps : list (nat * t)
}.

Definition advance (c : cu) (s' : t) (s : mstate) : mstate :=
  MState (Some c) s' (S (pos s)) (caps s).

Definition setCap (n : nat) (v : t) (s : mstate) : mstate :=
  MState (prev s) (rest s) (pos s) ((n, v) :: caps s).

Definition isWordAt (o : option cu) : bool :=
  match o with Some c => isWord c | None => false end.

Definition orElse (A : Type) (a b : option A) : option A :=
  match a with Some _ => a | None => b end.

(** The loop of a star: an iteration that consumes nothing is rejected, so
    the number of iterations is at most the length of the remaining input,
    and [fuel] one more than that never runs out.  A greedy star tries
    another iteration first, a lazy one tries what follows first. *)
Fixpoint starLoop (body : (mstate -> option mstate) -> mstate -> option mstate)
         (greedy : bool) (k : mstate -> option mstate) (fuel : nat) (s : mstate)
  : option mstate :=
  match fuel with
  | O => None
  | S fuel' =>
      let again :=
        body (fun s' => if pos s' =? pos s then None
                        else starLoop body greedy k fuel' s') s in
      if greedy then orElse again (k s) else orElse (k s) again
  end.

(** The backtracking matcher, in continuation style as in the language
    specification: [matcher r k s] matches [r] at [s] and hands every way of
    doing so to [k], in priority order, until [k] accepts. *)
Fixpoint matcher (r : regex) (k : mstate -> option mstate) (s : mstate)
  : option mstate :=
  match r with
  | Eps => k s
  | Chr c =>
      match rest s with
      | x :: s' => if N.eqb x c then k (advance x s' s) else None
      | [] => None
      end
  | Any =>
      match rest s with
      | x :: s' => if isLineTerminator x then None else k (advance x s' s)
      | [] => None
      end
  | Cls neg items =>
      match rest s with
      | x :: s' => if inClass neg items x then k (advance x s' s) else None
      | [] => None
      end
  | Seq r1 r2 => matcher r1 (matcher r2 k) s
  | Alt r1 r2 => orElse (matcher r1 k s) (matcher r2 k s)
  | Star greedy r1 =>
      starLoop (matcher r1) greedy k (S (List.length (rest s))) s
  | Group n r1 =>
      matcher r1
        (fun s' => k (setCap n (firstn (pos s' - pos s) (rest s)) s')) s
  | NotAhead r1 =>
      match matcher r1 Some s with
      | Some _ => None
      | None => k s
      end
  | NotBehind items =>
      match prev s with
      | Some c => if inClass false items c then None else k s
      | None => k s
      end
  | WordB =>
      if xorb (isWordAt (prev s)) (isWordAt (hd_error (rest s)))
      then k s else None
  | Bol => match prev s with None => k s | Some _ => None end
  | Eol => match rest s with [] => k s | _ :: _ => None end
  end.

(** A match: where it starts, where it ends, its captures. *)
Record jsmatch : Type := JsMatch {
  index : nat;
  endIndex : nat;
  groups : list (nat * t)
}.

(** [match[n]]; the patterns' groups always take part in a match. *)
Fixpoint group (n : nat) (g : list (nat * t)) : t :=
  match g with
  | [] => []
  | (m, v) :: g' => if m =? n then v else group n g'
  end.

(** One [exec]: the leftmost position at or after the current one where the
    pattern matches. *)
Fixpoint search (r : regex) (p : option cu) (s : t) (i : nat)
  : option (jsmatch * mstate) :=
  match matcher r Some (MState p s i []) with
  | Some e => Some (JsMatch i (pos e) (caps e), e)
  | None =>
      match s with
      | [] => None
      | c :: s' => search r (Some c) s' (S i)
      end
  end.

(** [while ((match = re.exec(content)) !== null)] for a global pattern whose
    [lastIndex] is 0: each [exec] resumes where the previous match ended.
    Every pattern of the program consumes input, so a match is never empty
    (an empty one would stall [lastIndex]; the scan stops there). *)
Fixpoint scan (r : regex) (fuel : nat) (p : option cu) (s : t) (i : nat)
  : list jsmatch :=
  match fuel with
  | O => []
  | S fuel' =>
      match search r p s i with
      | None => []
      | Some (m, e) =>
          m :: (if endIndex m =? index m then []
                else scan r fuel' (prev e) (rest e) (pos e))
      end
  end.

Definition execAll (r : regex) (content : t) : list jsmatch :=
  scan r (S (List.length content)) None content 0.

End RegExp.

(** ** Objects used as dictionaries *)

Module Obj.

Import Str.

(** The own properties of an object created by [{}], in insertion order. *)
Definition t (V : Type) : Type := list (Str.t * V).

Fixpoint get (V : Type) (o : t V) (k : Str.t) : option V :=
  match o with
  | [] => None
  | (k', v) :: o' => if Str.eqb k k' then Some v else get o' k
  end.

(** [o[k] = v]: an existing property keeps its place, a new one goes last. *)
Fixpoint set (V : Type) (o : t V) (k : Str.t) (v : V) : t V :=
  match o with
  | [] => [(k, v)]
  | (k', v') :: o' =>
      if Str.eqb k k' then (k', v) :: o' else (k', v') :: set o' k v
  end.

(** The properties every object inherits from [Object.prototype]; each is a
    function, or for [__proto__] the prototype object: truthy, and neither a
    [Set] nor an array. *)
Definition prototypeNames : list Str.t :=
  map lit
    ["constructor"; "__defineGetter__"; "__defineSetter__"; "hasOwnProperty";
     "__lookupGetter__"; "__lookupSetter__"; "isPrototypeOf";
     "propertyIsEnumerable"; "toString"; "valueOf"; "__proto__";
     "toLocaleString"]%string.

Inductive property (V : Type) : Type :=
| Own (v : V)
| Inherited
| Absent.

Arguments Inherited {V}.
Arguments Absent {V}.

(** What reading [o[k]] finds. *)
Definition lookup (V : Type) (o : t V) (k : Str.t) : property V :=
  match get o k with
  | Some v => Own v
  | None => if includes prototypeNames k then Inherited else Absent
  end.

Definition isDigit (c : cu) : bool := ((48 <=? c) && (c <=? 57))%N.

Definition toNumber (k : Str.t) : N :=
  fold_left (fun n c => (10 * n + (c - 48))%N) k 0%N.

(** An array index: the canonical decimal form of an integer below
    [2^32 - 1].  Such keys come first in [Object.keys], in numeric order. *)
Definition isArrayIndex (k : Str.t) : bool :=
  match k with
  | [] => false
  | c :: k' =>
      forallb isDigit k
      && (negb (N.eqb c 48) || match k' with [] => true | _ => false end)
      && (List.length k <=? 10)
      && (toNumber k <? 4294967295)%N
  end.

Fixpoint insertIndex (k : Str.t) (l : list Str.t) : list Str.t :=
  match l with
  | [] => [k]
  | k' :: l' =>
      if (toNumber k <=? toNumber k')%N then k :: l else k' :: insertIndex k l'
  end.

(** [Object.keys(o)] *)
Definition keys (V : Type) (o : t V) : list Str.t :=
  let ks := map fst o in
  fold_right insertIndex [] (filter isArrayIndex ks)
  ++ filter (fun k => negb (isArrayIndex k)) ks.

(** [Object.values(o)], in the order of [keys]. *)
Definition values (V : Type) (o : t V) : list V :=
  flat_map (fun k => match get o k with Some v => [v] | None => [] end)
    (keys o).

End Obj.

(** ** The program *)

Import Str RegExp.

Declare Scope regex_scope.
Delimit Scope regex_scope with re.
Infix ">>" := Seq (at level 60, right associativity) : regex_scope.
Local Open Scope regex_scope.

(** *** Configuration *)

Definition targetPackageName : Str.t := lit "your-package-name".

(** *** Patterns for the import styles

    [targetPackageName] has no pattern syntax character, so it is spliced in
    as a literal.  (In the pattern texts quoted below a blank separates a
    star from a closing parenthesis.) *)

Definition quoteClass : regex := Cls false [CChar apostrophe; CChar quote].

(** [import\s+{([^}]* )}\s+from\s+['"]your-package-name['"]] *)
Definition namedImportPattern : regex :=
  Lit (lit "import") >> Plus space >> Chr (ch "{")
  >> Group 1 (Star true (Cls true [CChar (ch "}")])) >> Chr (ch "}")
  >> Plus space >> Lit (lit "from") >> Plus space
  >> quoteClass >> Lit targetPackageName >> quoteClass.

(** [import\s+([^{\s]+)\s+from\s+['"]your-package-name['"]] *)
Definition defaultImportPattern : regex :=
  Lit (lit "import") >> Plus space
  >> Group 1 (Plus (Cls true [CChar (ch "{"); CSpace]))
  >> Plus space >> Lit (lit "from") >> Plus space
  >> quoteClass >> Lit targetPackageName >> quoteClass.

(** [import\s+\*\s+as\s+([^\s]+)\s+from\s+['"]your-package-name['"]] *)
Definition namespaceImportPattern : regex :=
  Lit (lit "import") >> Plus space >> Chr (ch "*") >> Plus space
  >> Lit (lit "as") >> Plus space
  >> Group 1 (Plus (Cls true [CSpace]))
  >> Plus space >> Lit (lit "from") >> Plus space
  >> quoteClass >> Lit targetPackageName >> quoteClass.

(** [(?:const|let|var)] *)
Definition declarator : regex :=
  Alt (Lit (lit "const")) (Alt (Lit (lit "let")) (Lit (lit "var"))).

(** [\s+=\s+require\s*\(\s*['"]your-package-name['"]\s*\)] *)
Definition requireTail : regex :=
  Plus space >> Chr (ch "=") >> Plus space >> Lit (lit "require")
  >> Star true space >> Chr (ch "(") >> Star true space
  >> quoteClass >> Lit targetPackageName >> quoteClass
  >> Star true space >> Chr (ch ")").

(** [(?:const|let|var)\s+{([^}]* )}\s+=\s+require\s*\(\s*['"]your-package-name['"]\s*\)] *)
Definition requirePattern : regex :=
  declarator >> Plus space >> Chr (ch "{")
  >> Group 1 (Star true (Cls true [CChar (ch "}")])) >> Chr (ch "}")
  >> requireTail.

(** [(?:const|let|var)\s+([^{\s]+)\s+=\s+require\s*\(\s*['"]your-package-name['"]\s*\)] *)
Definition requireDefaultPattern : regex :=
  declarator >> Plus space
  >> Group 1 (Plus (Cls true [CChar (ch "{"); CSpace]))
  >> requireTail.

(** *** Patterns built from a symbol name

    The source splices the name into the pattern text unescaped.  A code
    unit that is not a pattern syntax character stands for itself; [.], [^]
    and [$] keep their pattern meaning.  A name with any other syntax
    character (a backslash, a quantifier, a bracket, a brace, a bar) gives a
    pattern outside this model: [None]. *)

Definition isOtherSyntax (c : cu) : bool :=
  existsb (N.eqb c)
    [ch "\"; ch "*"; ch "+"; ch "?"; ch "("; ch ")"; ch "["; ch "]";
     ch "{"; ch "}"; ch "|"].

Definition spliceChar (c : cu) : option regex :=
  if isOtherSyntax c then None
  else if N.eqb c (ch ".") then Some Any
  else if N.eqb c (ch "^") then Some Bol
  else if N.eqb c (ch "$") then Some Eol
  else Some (Chr c).

Fixpoint splice (name : Str.t) : option regex :=
  match name with
  | [] => Some Eps
  | c :: name' =>
      match spliceChar c, splice name' with
      | Some a, Some b => Some (a >> b)
      | _, _ => None
      end
  end.

(** [[\w-]] *)
Definition wordOrHyphen : regex := Cls false [CWord; CChar (ch "-")].

(** [[^>]*?(?:>|/>)] *)
Definition tagTail : regex :=
  Star false (Cls true [CChar (ch ">")]) >> Alt (Chr (ch ">")) (Lit (lit "/>")).

(** [[A-Za-z0-9_]+] *)
Definition memberName : regex :=
  Plus (Cls false [CRange (ch "A") (ch "Z"); CRange (ch "a") (ch "z");
                   CRange (ch "0") (ch "9"); CChar (ch "_")]).

(** [<${component}(?![\w-])(?![\w-])[^>]*?(?:>|/>)] *)
Definition jsxPattern (component : regex) : regex :=
  Chr (ch "<") >> component >> NotAhead wordOrHyphen >> NotAhead wordOrHyphen
  >> tagTail.

(** [<${namespaceAlias}\.([A-Za-z0-9_]+)(?![\w-])[^>]*?(?:>|/>)] *)
Definition namespaceJSXPattern (namespaceAlias : regex) : regex :=
  Chr (ch "<") >> namespaceAlias >> Chr (ch ".") >> Group 1 memberName
  >> NotAhead wordOrHyphen >> tagTail.

(** [${namespaceAlias}\.([A-Za-z0-9_]+)\s*\(] *)
Definition namespaceFuncPattern (namespaceAlias : regex) : regex :=
  namespaceAlias >> Chr (ch ".") >> Group 1 memberName
  >> Star true space >> Chr (ch "(").

(** [(?<![.<])\b${component}\s*\(] *)
Definition functionCallPattern (component : regex) : regex :=
  NotBehind [CChar (ch "."); CChar (ch "<")] >> WordB >> component
  >> Star true space >> Chr (ch "(").

(** *** The global tables *)

(** A [Set] of file paths, in insertion order. *)
Definition fileSet : Type := list Str.t.

Definition setAdd (s : fileSet) (x : Str.t) : fileSet :=
  if includes s x then s else s ++ [x].

Record state : Type := State {
  componentUsage : Obj.t fileSet;
  componentInstancesJSX : Obj.t (list Str.t);
  componentInstancesFunc : Obj.t (list Str.t)
}.

Definition initial : state := State [] [] [].

(** How a call ends: it returns, it throws (with the tables as they were
    left), or it builds a pattern outside the model. *)
Inductive result (A : Type) : Type :=
| Returned (a : A)
| Threw (a : A)
| Unmodelled.

Arguments Unmodelled {A}.

Definition bind (A B : Type) (x : result A) (f : A -> result B) (onThrow : A -> B)
  : result B :=
  match x with
  | Returned a => f a
  | Threw a => Threw (onThrow a)
  | Unmodelled => Unmodelled
  end.

(** [for (x of l) body(x)] over a table that the body may leave by a throw. *)
Fixpoint forEach (A X : Type) (body : X -> A -> result A) (l : list X) (a : A)
  : result A :=
  match l with
  | [] => Returned a
  | x :: l' =>
      match body x a with
      | Returned a' => forEach body l' a'
      | other => other
      end
  end.

(** *** findImports *)

(** [if (!componentUsage[component]) componentUsage[component] = new Set();
     componentUsage[component].add(filePath);]
    When [component] names an inherited property, the test finds a truthy
    value, no set is created, and [.add] is not a function: a [TypeError]. *)
Definition addImport (filePath component : Str.t) (u : Obj.t fileSet)
  : result (Obj.t fileSet) :=
  match Obj.lookup u component with
  | Obj.Own s => Returned (Obj.set u component (setAdd s filePath))
  | Obj.Inherited => Threw u
  | Obj.Absent => Returned (Obj.set u component (setAdd [] filePath))
  end.

(** [match[1].split(",").map((s) => s.trim().split(" as ")[0].trim())] *)
Definition namedComponent (s : Str.t) : Str.t :=
  trim (first (split (lit " as ") (trim s))).

Definition namedComponents (m : jsmatch) : list Str.t :=
  map namedComponent (split (lit ",") (group 1 (groups m))).

(** [match[1].split(",").map((s) => s.trim().split(" as ")[0].split(":")[0].trim())] *)
Definition requireComponent (s : Str.t) : Str.t :=
  trim (first (split (lit ":") (first (split (lit " as ") (trim s))))).

Definition requireComponents (m : jsmatch) : list Str.t :=
  map requireComponent (split (lit ",") (group 1 (groups m))).

(** The default import loop's body. *)
Definition addDefaultImport (filePath : Str.t) (m : jsmatch) (u : Obj.t fileSet)
  : result (Obj.t fileSet) :=
  let defaultComponent := trim (group 1 (groups m)) in
  if negb (Str.eqb defaultComponent targetPackageName)
  then addImport filePath defaultComponent u
  else Returned u.

(** The namespace import loop's body: the key is the alias behind a star. *)
Definition addNamespaceImport (filePath : Str.t) (m : jsmatch) (u : Obj.t fileSet)
  : result (Obj.t fileSet) :=
  let namespaceAlias := trim (group 1 (groups m)) in
  addImport filePath (ch "*" :: namespaceAlias) u.

(** The default require loop's body. *)
Definition addRequireDefault (filePath : Str.t) (m : jsmatch) (u : Obj.t fileSet)
  : result (Obj.t fileSet) :=
  addImport filePath (trim (group 1 (groups m))) u.

Definition andThen (A : Type) (x : result A) (f : A -> result A) : result A :=
  match x with
  | Returned a => f a
  | other => other
  end.

(** The five loops, in the order of the source; each scans [content] from
    its start ([lastIndex] is reset on entry). *)
Definition findImports (content filePath : Str.t) (u : Obj.t fileSet)
  : result (Obj.t fileSet) :=
  andThen
    (forEach (fun m => forEach (addImport filePath) (namedComponents m))
       (execAll namedImportPattern content) u) (fun u =>
  andThen
    (forEach (addDefaultImport filePath)
       (execAll defaultImportPattern content) u) (fun u =>
  andThen
    (forEach (addNamespaceImport filePath)
       (execAll namespaceImportPattern content) u) (fun u =>
  andThen
    (forEach (fun m => forEach (addImport filePath) (requireComponents m))
       (execAll requirePattern content) u) (fun u =>
  forEach (addRequireDefault filePath)
    (execAll requireDefaultPattern content) u)))).

(** *** findComponentUsages *)

Definition instances : Type := Obj.t (list Str.t).

(** [if (!table[key]) table[key] = []; table[key].push(filePath)], [n]
    times over.  An inherited [key] is truthy and has no [push]. *)
Definition pushInstances (filePath key : Str.t) (n : nat) (table : instances)
  : result instances :=
  match n with
  | O => Returned table
  | S _ =>
      match Obj.lookup table key with
      | Obj.Own a => Returned (Obj.set table key (a ++ repeat filePath n))
      | Obj.Inherited => Threw table
      | Obj.Absent => Returned (Obj.set table key (repeat filePath n))
      end
  end.

(** [${namespaceAlias}.${componentName}] *)
Definition fullComponentName (namespaceAlias : Str.t) (m : jsmatch) : Str.t :=
  namespaceAlias ++ ch "." :: group 1 (groups m).

(** [extractJSXUsage(content, component)], given the spliced name. *)
Definition extractJSXUsage (content : Str.t) (component : regex) : list jsmatch :=
  execAll (jsxPattern component) content.

(** The branch for a key that starts with a star. *)
Definition namespaceUsages (content filePath namespaceAlias : Str.t) (st : state)
  : result state :=
  match splice namespaceAlias with
  | None => Unmodelled
  | Some aliasRe =>
      let jsxNames :=
        map (fullComponentName namespaceAlias)
          (execAll (namespaceJSXPattern aliasRe) content) in
      let namespaceComponents := jsxNames in
      let funcNames :=
        filter (fun name => negb (includes namespaceComponents name))
          (map (fullComponentName namespaceAlias)
             (execAll (namespaceFuncPattern aliasRe) content)) in
      match forEach (fun name => pushInstances filePath name 1) jsxNames
              (componentInstancesJSX st) with
      | Returned jsx =>
          match forEach (fun name => pushInstances filePath name 1) funcNames
                  (componentInstancesFunc st) with
          | Returned func => Returned (State (componentUsage st) jsx func)
          | Threw func => Threw (State (componentUsage st) jsx func)
          | Unmodelled => Unmodelled
          end
      | Threw jsx =>
          Threw (State (componentUsage st) jsx (componentInstancesFunc st))
      | Unmodelled => Unmodelled
      end
  end.

(** [componentInstancesJSX[component]?.includes(filePath)]: [None] when the
    value is an inherited one, which has no [includes]. *)
Definition usedAsJSX (jsx : instances) (component filePath : Str.t)
  : option bool :=
  match Obj.lookup jsx component with
  | Obj.Own a => Some (includes a filePath)
  | Obj.Inherited => None
  | Obj.Absent => Some false
  end.

(** The rest of the loop body, for a plain key. *)
Definition plainUsages (content filePath component : Str.t) (st : state)
  : result state :=
  match splice component with
  | None => Unmodelled
  | Some componentRe =>
      let jsxMatches := extractJSXUsage content componentRe in
      match pushInstances filePath component (List.length jsxMatches)
              (componentInstancesJSX st) with
      | Returned jsx =>
          let st1 := State (componentUsage st) jsx (componentInstancesFunc st) in
          match usedAsJSX jsx component filePath with
          | None => Threw st1
          | Some true => Returned st1
          | Some false =>
              let funcMatches :=
                List.length (execAll (functionCallPattern componentRe) content) in
              match pushInstances filePath component funcMatches
                      (componentInstancesFunc st) with
              | Returned func => Returned (State (componentUsage st) jsx func)
              | Threw func => Threw (State (componentUsage st) jsx func)
              | Unmodelled => Unmodelled
              end
          end
      | Threw jsx =>
          Threw (State (componentUsage st) jsx (componentInstancesFunc st))
      | Unmodelled => Unmodelled
      end
  end.

(** The loop body. *)
Definition componentUsages (content filePath component : Str.t) (st : state)
  : result state :=
  if startsWith [ch "*"] component
  then namespaceUsages content filePath (substring1 component) st
  else plainUsages content filePath component st.

Definition findComponentUsages (content filePath : Str.t) (st : state)
  : result state :=
  forEach (componentUsages content filePath) (Obj.keys (componentUsage st)) st.

(** *** processFile and the walk *)

(** [processFile], after the file has been read.  Whatever is thrown is
    caught and logged, and the tables stay as they were left: the result is
    the tables and whether an error was logged.  [None]: a pattern outside
    the model was built. *)
Definition processFile (filePath content : Str.t) (st : state)
  : option (state * bool) :=
  match findImports content filePath (componentUsage st) with
  | Returned u =>
      let st1 := State u (componentInstancesJSX st) (componentInstancesFunc st) in
      if 0 <? List.length (Obj.keys u)
      then
        match findComponentUsages content filePath st1 with
        | Returned st2 => Some (st2, false)
        | Threw st2 => Some (st2, true)
        | Unmodelled => None
        end
      else Some (st1, false)
  | Threw u =>
      Some (State u (componentInstancesJSX st) (componentInstancesFunc st), true)
  | Unmodelled => None
  end.

(** A file that the walk hands to [processFile]: its path relative to the
    working directory, and its text. *)
Definition file : Type := (Str.t * Str.t)%type.

(** The effect of [walkDirectory] on the tables: the files it reaches are
    processed one after the other, in the order of the walk.  The result is
    the tables and the paths of the files for which an error was logged. *)
Fixpoint walk (files : list file) (st : state) : option (state * list Str.t) :=
  match files with
  | [] => Some (st, [])
  | (filePath, content) :: files' =>
      match processFile filePath content st with
      | Some (st', failed) =>
          match walk files' st' with
          | Some (st'', errors) =>
              Some (st'', if failed then filePath :: errors else errors)
          | None => None
          end
      | None => None
      end
  end.

(** *** generateReport *)

Fixpoint insertBy (A : Type) (le : A -> A -> bool) (x : A) (l : list A) : list A :=
  match l with
  | [] => [x]
  | y :: l' => if le x y then x :: l else y :: insertBy le x l'
  end.

(** [Array.prototype.sort]: a stable sort; [le a b] says that the comparator
    does not put [b] before [a]. *)
Definition sortBy (A : Type) (le : A -> A -> bool) (l : list A) : list A :=
  fold_right (insertBy le) [] l.

(** [a.sort()] on strings. *)
Definition sortStrings (l : list Str.t) : list Str.t := sortBy Str.leb l.

Definition count (x : Str.t) (l : list Str.t) : nat :=
  List.length (filter (Str.eqb x) l).

Fixpoint distinct (l : list Str.t) : list Str.t :=
  match l with
  | [] => []
  | x :: l' => x :: filter (fun y => negb (Str.eqb x y)) (distinct l')
  end.

(** [Object.values(table).reduce((sum, instances) => sum + instances.length, 0)] *)
Definition totalInstances (table : instances) : nat :=
  fold_left (fun sum a => sum + List.length a) (Obj.values table) 0.

(** [table[key]] for a key of the table. *)
Definition valueOf (V : Type) (table : Obj.t (list V)) (key : Str.t) : list V :=
  match Obj.get table key with Some v => v | None => [] end.

Definition nl : Str.t := [newline].

Definition rule : Str.t :=
  lit "------------------------------------------" ++ nl.

(** The block of one imported component. *)
Definition importedBlock (u : Obj.t fileSet) (component : Str.t) : Str.t :=
  let files := valueOf u component in
  component ++ lit ":" ++ nl
  ++ lit "  Imported in " ++ ofNat (List.length files) ++ lit " file(s):" ++ nl
  ++ List.concat (map (fun f => lit "    - " ++ f ++ nl) files)
  ++ nl.

(** The files of an instance list with their counts: the sorted keys of
    [fileGroups].  (A path ends in one of the scanned extensions, so it never
    names an inherited property.) *)
Definition fileGroups (occurrences : list Str.t) : list (Str.t * nat) :=
  map (fun f => (f, count f occurrences)) (sortStrings (distinct occurrences)).

(** The block of one used component; [verb] is "Used as JSX " or
    "Called as function ". *)
Definition usageBlock (verb : Str.t) (table : instances) (component : Str.t)
  : Str.t :=
  let occurrences := valueOf table component in
  component ++ lit ":" ++ nl
  ++ lit "  " ++ verb ++ ofNat (List.length occurrences) ++ lit " time(s) in:" ++ nl
  ++ List.concat
       (map (fun g => lit "    - " ++ fst g ++ lit " (" ++ ofNat (snd g)
                      ++ lit " instance(s))" ++ nl)
          (fileGroups occurrences))
  ++ nl.

(** Keys by descending number of occurrences. *)
Definition sortedByCount (table : instances) : list Str.t :=
  sortBy (fun a b =>
            List.length (valueOf table b) <=? List.length (valueOf table a))
    (Obj.keys table).

Definition usageSection (none verb : Str.t) (table : instances) : Str.t :=
  if List.length (Obj.keys table) =? 0
  then none ++ nl ++ nl
  else List.concat (map (usageBlock verb table) (sortedByCount table)).

(** [usedComponentsSet.has(c)] *)
Definition isUsed (st : state) (c : Str.t) : bool :=
  includes (Obj.keys (componentInstancesJSX st)
            ++ Obj.keys (componentInstancesFunc st)) c.

Definition unusedComponents (st : state) : list Str.t :=
  filter (fun c => negb (isUsed st c) && negb (startsWith [ch "*"] c))
    (Obj.keys (componentUsage st)).

(** The lines of the last block. *)
Definition unusedSection (st : state) : Str.t :=
  if List.length (unusedComponents st) =? 0
  then lit "All imported components are used." ++ nl ++ nl
  else List.concat (map (fun c => c ++ nl) (sortStrings (unusedComponents st))) ++ nl.

(** The report up to the time stamp. *)
Definition reportHead : Str.t :=
  lit "Component Usage Report for " ++ [quote] ++ targetPackageName ++ [quote]
  ++ lit " package" ++ nl
  ++ lit "Generated on: ".

(** The report after the time stamp. *)
Definition reportBody (st : state) : Str.t :=
  let totalImportedComponents := List.length (Obj.keys (componentUsage st)) in
  let totalJSXInstances := totalInstances (componentInstancesJSX st) in
  let totalFuncInstances := totalInstances (componentInstancesFunc st) in
  let totalAllInstances := totalJSXInstances + totalFuncInstances in
  nl
  ++ lit "==========================================" ++ nl ++ nl
  ++ lit "SUMMARY" ++ nl ++ rule
  ++ lit "Total imported components: " ++ ofNat totalImportedComponents ++ nl
  ++ lit "Total component instances: " ++ ofNat totalAllInstances ++ nl
  ++ lit "  - JSX usage (<Component/>): " ++ ofNat totalJSXInstances ++ nl
  ++ lit "  - Function calls (Component()): " ++ ofNat totalFuncInstances
  ++ nl ++ nl
  ++ lit "IMPORTED COMPONENTS" ++ nl ++ rule
  ++ List.concat (map (importedBlock (componentUsage st))
               (sortStrings (Obj.keys (componentUsage st))))
  ++ lit "JSX COMPONENT USAGE (<Component />)" ++ nl ++ rule
  ++ usageSection (lit "No JSX usage found.") (lit "Used as JSX ")
       (componentInstancesJSX st)
  ++ lit "FUNCTION CALL USAGE (Component())" ++ nl ++ rule
  ++ usageSection (lit "No function call usage found.")
       (lit "Called as function ") (componentInstancesFunc st)
  ++ lit "COMPONENTS WITH NO USAGE FOUND" ++ nl ++ rule
  ++ unusedSection st.

(** [generateReport()]; [now] is [new Date().toISOString()]. *)
Definition generateReport (now : Str.t) (st : state) : Str.t :=
  reportHead ++ now ++ reportBody st.

(** [main]: the walk from the empty tables, then the report.  [None]: a
    pattern outside the model was built on the way. *)
Definition main (now : Str.t) (files : list file) : option Str.t :=
  match walk files initial with
  | Some (st, _) => Some (generateReport now st)
  | None => None
  end.

(** ** The merged variant

    The second script of the repository keeps one instance table for both
    kinds of usage.  Its [findImports], [processFile] and walk are those
    above (but for the missing reset of [lastIndex]); the usage patterns,
    the loop body and the last block of the report differ. *)

Module Merged.

Record state : Type := State {
  componentUsage : Obj.t fileSet;
  componentInstances : Obj.t (list Str.t)
}.

Definition initial : state := State [] [].

(** [${namespaceAlias}\.([A-Za-z0-9_]+)] *)
Definition namespacePattern (namespaceAlias : regex) : regex :=
  namespaceAlias >> Chr (ch ".") >> Group 1 memberName.

(** [[\s/>]] *)
Definition tagEnd : regex :=
  Cls false [CSpace; CChar (ch "/"); CChar (ch ">")].

(** [<${component}[\s/>]|<${component}\.[A-Za-z0-9_]+[\s/>]] *)
Definition jsxPattern (component : regex) : regex :=
  Alt (Chr (ch "<") >> component >> tagEnd)
      (Chr (ch "<") >> component >> Chr (ch ".") >> memberName >> tagEnd).

(** [\b${component}\(] *)
Definition functionCallPattern (component : regex) : regex :=
  WordB >> component >> Chr (ch "(").

(** The loop body: every match pushes the file, whatever its kind. *)
Definition componentUsages (content filePath component : Str.t) (st : state)
  : result state :=
  if startsWith [ch "*"] component
  then
    let namespaceAlias := substring1 component in
    match splice namespaceAlias with
    | None => Unmodelled
    | Some aliasRe =>
        match forEach (fun name => pushInstances filePath name 1)
                (map (fullComponentName namespaceAlias)
                   (execAll (namespacePattern aliasRe) content))
                (componentInstances st) with
        | Returned t => Returned (State (componentUsage st) t)
        | Threw t => Threw (State (componentUsage st) t)
        | Unmodelled => Unmodelled
        end
    end
  else
    match splice component with
    | None => Unmodelled
    | Some componentRe =>
        let jsx := List.length (execAll (jsxPattern componentRe) content) in
        let calls :=
          List.length (execAll (functionCallPattern componentRe) content) in
        match andThen (pushInstances filePath component jsx (componentInstances st))
                (pushInstances filePath component calls) with
        | Returned t => Returned (State (componentUsage st) t)
        | Threw t => Threw (State (componentUsage st) t)
        | Unmodelled => Unmodelled
        end
    end.

Definition findComponentUsages (content filePath : Str.t) (st : state)
  : result state :=
  forEach (componentUsages content filePath) (Obj.keys (componentUsage st)) st.

Definition processFile (filePath content : Str.t) (st : state)
  : option (state * bool) :=
  match findImports content filePath (componentUsage st) with
  | Returned u =>
      let st1 := State u (componentInstances st) in
      if 0 <? List.length (Obj.keys u)
      then
        match findComponentUsages content filePath st1 with
        | Returned st2 => Some (st2, false)
        | Threw st2 => Some (st2, true)
        | Unmodelled => None
        end
      else Some (st1, false)
  | Threw u => Some (State u (componentInstances st), true)
  | Unmodelled => None
  end.

Fixpoint walk (files : list file) (st : state) : option (state * list Str.t) :=
  match files with
  | [] => Some (st, [])
  | (filePath, content) :: files' =>
      match processFile filePath content st with
      | Some (st', failed) =>
          match walk files' st' with
          | Some (st'', errors) =>
              Some (st'', if failed then filePath :: errors else errors)
          | None => None
          end
      | None => None
      end
  end.

(** [Object.keys(componentUsage).filter((c) => !componentInstances[c])]: an
    array, and an inherited value, are truthy. *)
Definition unusedComponents (st : state) : list Str.t :=
  filter (fun c =>
            match Obj.lookup (componentInstances st) c with
            | Obj.Absent => true
            | _ => false
            end)
    (Obj.keys (componentUsage st)).

End Merged.


From Stdlib Require Import Permutation Sorted.

(** ** The walk over the directory tree

    [walkDirectory], the part of [processFile] that reads the file, and
    [main], over the file system and the path module as the script sees
    them: what [readdir], [stat] and [readFile] answer for a path, and what
    [path.join], [path.extname] and [path.relative(process.cwd(), .)]
    return.  The promises either resolve or reject; a rejection is an
    exception at the [await]. *)

Module Fs.

(** What the script asks of a [Stats] object. *)
Inductive stats : Type :=
| Directory          (* isDirectory() *)
| RegularFile        (* isFile() *)
| OtherKind.         (* neither: a socket, a device, ... *)

Record platform : Type := Platform {
  readdir : Str.t -> option (list Str.t);   (* [None]: the promise rejects *)
  stat : Str.t -> option stats;
  readFile : Str.t -> option Str.t;
  pathJoin : Str.t -> Str.t -> Str.t;
  pathExtname : Str.t -> Str.t;
  pathRelative : Str.t -> Str.t     (* path.relative(process.cwd(), .) *)
}.

(** What [console.error] is called with. *)
Inductive event : Type :=
| WalkingError (dirPath : Str.t)       (* Error walking directory ... *)
| ProcessingError (filePath : Str.t).  (* Error processing file ... *)

(** The three tables and the errors logged so far, oldest first. *)
Record run : Type := Run {
  tables : state;
  logged : list event
}.

Definition logError (e : event) (r : run) : run :=
  Run (tables r) (logged r ++ [e]).

Definition fileExtensions : list Str.t :=
  map lit [".ts"; ".tsx"; ".js"; ".jsx"]%string.

Definition ignorePatterns : list Str.t :=
  map lit ["node_modules"; "dist"; "build"; ".git"]%string.

(** [s.includes(pattern)] on strings: [pattern] occurs somewhere in [s]. *)
Fixpoint includesText (s pattern : Str.t) : bool :=
  startsWith pattern s
  || match s with
     | [] => false
     | _ :: s' => includesText s' pattern
     end.

(** [ignorePatterns.some((pattern) => entryPath.includes(pattern))] *)
Definition ignored (entryPath : Str.t) : bool :=
  existsb (fun pattern => includesText entryPath pattern) ignorePatterns.

(** [processFile(filePath)]: the file is read, and its text is processed
    under the path relative to the working directory.  A rejection of
    [readFile] and whatever the processing throws are caught and logged
    with the path as given.  [None]: a pattern outside the model was
    built. *)
Definition processFile (os : platform) (filePath : Str.t) (r : run)
  : option run :=
  match readFile os filePath with
  | None => Some (logError (ProcessingError filePath) r)
  | Some content =>
      let fileRelativePath := pathRelative os filePath in
      match processFile fileRelativePath content (tables r) with
      | Some (st, failed) =>
          Some (if failed
                then logError (ProcessingError filePath) (Run st (logged r))
                else Run st (logged r))
      | None => None
      end
  end.

(** The loop over the entries of a directory; [walkInto] is the recursive
    call.  The result says whether an exception (a rejected [stat]) left
    the loop.  [walkDirectory] and [processFile] catch what they throw, so
    they return normally. *)
Fixpoint forEntries (os : platform) (walkInto : Str.t -> run -> option run)
         (dirPath : Str.t) (entries : list Str.t) (r : run)
  : option (run * bool) :=
  match entries with
  | [] => Some (r, false)
  | entry :: entries' =>
      let entryPath := pathJoin os dirPath entry in
      if ignored entryPath then forEntries os walkInto dirPath entries' r
      else
        match stat os entryPath with
        | None => Some (r, true)
        | Some Directory =>
            match walkInto entryPath r with
            | Some r' => forEntries os walkInto dirPath entries' r'
            | None => None
            end
        | Some RegularFile =>
            if includes fileExtensions (pathExtname os entryPath)
            then
              match processFile os entryPath r with
              | Some r' => forEntries os walkInto dirPath entries' r'
              | None => None
              end
            else forEntries os walkInto dirPath entries' r
        | Some OtherKind => forEntries os walkInto dirPath entries' r
        end
  end.

(** [walkDirectory(dirPath)].  [fuel] bounds the depth of the recursion
    (a cycle of links makes the script recurse for ever); [None]: the bound
    was reached, or a pattern outside the model was built. *)
Fixpoint walkDirectory (os : platform) (fuel : nat) (dirPath : Str.t) (r : run)
  : option run :=
  match fuel with
  | O => None
  | S fuel' =>
      match readdir os dirPath with
      | None => Some (logError (WalkingError dirPath) r)
      | Some entries =>
          match forEntries os (walkDirectory os fuel') dirPath entries r with
          | Some (r', false) => Some r'
          | Some (r', true) => Some (logError (WalkingError dirPath) r')
          | None => None
          end
      end
  end.

(** [main], up to the report: [argument] is [process.argv[2]], [cwd] is
    [process.cwd()]; an argument that is missing or empty is falsy, and the
    working directory is walked.  The result is the text handed to
    [writeFile] and what was logged. *)
Definition main (os : platform) (fuel : nat) (argument : option Str.t)
           (cwd now : Str.t) : option (Str.t * list event) :=
  let targetDir :=
    match argument with
    | Some (c :: a) => c :: a
    | _ => cwd
    end in
  match walkDirectory os fuel targetDir (Run initial []) with
  | Some r => Some (generateReport now (tables r), logged r)
  | None => None
  end.

End Fs.

(** ** The merged variant and [lastIndex]

    The five import patterns are global, and [findImports] of the merged
    script does not reset their [lastIndex].  A loop that runs until [exec]
    returns [null] leaves [lastIndex] at 0; a loop that is left by a throw
    leaves it at the end of the match whose names were being registered,
    and the next call of [findImports] resumes the scan from there. *)

Module LastIndex.

(** The [lastIndex] of each of the five patterns. *)
Record cursors : Type := Cursors {
  named : nat;
  default : nat;
  namespace : nat;
  require : nat;
  requireDefault : nat
}.

Definition start : cursors := Cursors 0 0 0 0 0.

(** The code unit before position [n]. *)
Definition before (n : nat) (content : Str.t) : option cu :=
  match n with
  | O => None
  | S k => nth_error content k
  end.

(** The matches that the loop [while ((match = re.exec(content)) !== null)]
    meets when [re.lastIndex] is [lastIndex] at its start: [exec] fails at
    once when [lastIndex] is beyond the end of the text. *)
Definition execAllFrom (r : regex) (content : Str.t) (lastIndex : nat)
  : list jsmatch :=
  if List.length content <? lastIndex then []
  else scan r (S (List.length content)) (before lastIndex content)
         (skipn lastIndex content) lastIndex.

(** The loop over the matches, with the [lastIndex] it leaves behind. *)
Fixpoint whileExec (A : Type) (body : jsmatch -> A -> result A)
         (matches : list jsmatch) (a : A) : result A * nat :=
  match matches with
  | [] => (Returned a, 0)
  | m :: matches' =>
      match body m a with
      | Returned a' => whileExec body matches' a'
      | other => (other, endIndex m)
      end
  end.

(** [findImports] of the merged script: the loops of the split script,
    each from where its pattern was left. *)
Definition findImports (content filePath : Str.t) (u : Obj.t fileSet)
           (cs : cursors) : result (Obj.t fileSet) * cursors :=
  match whileExec (fun m => forEach (addImport filePath) (namedComponents m))
          (execAllFrom namedImportPattern content (named cs)) u with
  | (Returned u1, i1) =>
      match whileExec (addDefaultImport filePath)
              (execAllFrom defaultImportPattern content (default cs)) u1 with
      | (Returned u2, i2) =>
          match whileExec (addNamespaceImport filePath)
                  (execAllFrom namespaceImportPattern content (namespace cs))
                  u2 with
          | (Returned u3, i3) =>
              match whileExec
                      (fun m => forEach (addImport filePath) (requireComponents m))
                      (execAllFrom requirePattern content (require cs)) u3 with
              | (Returned u4, i4) =>
                  match whileExec (addRequireDefault filePath)
                          (execAllFrom requireDefaultPattern content
                             (requireDefault cs)) u4 with
                  | (r5, i5) => (r5, Cursors i1 i2 i3 i4 i5)
                  end
              | (r4, i4) => (r4, Cursors i1 i2 i3 i4 (requireDefault cs))
              end
          | (r3, i3) =>
              (r3, Cursors i1 i2 i3 (require cs) (requireDefault cs))
          end
      | (r2, i2) =>
          (r2, Cursors i1 i2 (namespace cs) (require cs) (requireDefault cs))
      end
  | (r1, i1) =>
      (r1, Cursors i1 (default cs) (namespace cs) (require cs)
             (requireDefault cs))
  end.

(** [processFile] of the merged script, after the file has been read. *)
Definition processFile (filePath content : Str.t)
           (st : Merged.state) (cs : cursors)
  : option (Merged.state * cursors * bool) :=
  match findImports content filePath (Merged.componentUsage st) cs with
  | (Returned u, cs') =>
      let st1 := Merged.State u (Merged.componentInstances st) in
      if 0 <? List.length (Obj.keys u)
      then
        match Merged.findComponentUsages content filePath st1 with
        | Returned st2 => Some (st2, cs', false)
        | Threw st2 => Some (st2, cs', true)
        | Unmodelled => None
        end
      else Some (st1, cs', false)
  | (Threw u, cs') =>
      Some (Merged.State u (Merged.componentInstances st), cs', true)
  | (Unmodelled, _) => None
  end.

Fixpoint walk (files : list file) (st : Merged.state) (cs : cursors)
  : option (Merged.state * cursors * list Str.t) :=
  match files with
  | [] => Some (st, cs, [])
  | (filePath, content) :: files' =>
      match processFile filePath content st cs with
      | Some (st', cs', failed) =>
          match walk files' st' cs' with
          | Some (st'', cs'', errors) =>
              Some (st'', cs'', if failed then filePath :: errors else errors)
          | None => None
          end
      | None => None
      end
  end.

End LastIndex.
(** * Vocabulary of the statements *)

(** Every file recorded for a key stays recorded. *)
Definition grows (u u' : Obj.t fileSet) : Prop :=
  forall k f, In f (valueOf u k) -> In f (valueOf u' k).

(** A name: not empty, no white space in it. *)
Definition isName (s : Str.t) : bool :=
  negb (Str.eqb s []) && forallb (fun c => negb (isSpace c)) s.

(** [import <clause> from "your-package-name"], on a line of its own. *)
Definition importLine (clause : string) : Str.t :=
  lit "import " ++ lit clause ++ lit " from " ++ [quote] ++ targetPackageName
  ++ [quote] ++ lit ";" ++ nl.

(** [const <binding> = require("your-package-name")], on a line of its own. *)
Definition requireLine (binding : string) : Str.t :=
  lit "const " ++ lit binding ++ lit " = require(" ++ [quote]
  ++ targetPackageName ++ [quote] ++ lit ");" ++ nl.

Definition appJs : Str.t := lit "src/App.js".

(** A file with the default import of [name] and a markup use of it. *)
Definition defaultImportFile (name : Str.t) : Str.t :=
  lit "import " ++ name ++ lit " from " ++ [quote] ++ targetPackageName
  ++ [quote] ++ lit ";" ++ nl ++ lit "const a = <" ++ name ++ lit " />;".


(** The code unit before the position reached by reading [w]. *)
Definition lastOr (p : option cu) (w : Str.t) : option cu :=
  fold_left (fun _ c => Some c) w p.

(** From [s], reading [w] leads to [s']. *)
Definition stepsTo (s : mstate) (w : Str.t) (s' : mstate) : Prop :=
  rest s = w ++ rest s'
  /\ pos s' = List.length w + pos s
  /\ prev s' = lastOr (prev s) w.

(** A pattern without capture groups. *)
Fixpoint noGroups (r : regex) : bool :=
  match r with
  | Seq r1 r2 | Alt r1 r2 => noGroups r1 && noGroups r2
  | Star _ r1 => noGroups r1
  | Group _ _ => false
  | _ => true
  end.

(** The matcher's state at the end of [pre], in front of [suf]. *)
Definition stateAt (pre suf : Str.t) : mstate :=
  MState (lastOr None pre) suf (List.length pre) [].

(** A symbol name without pattern syntax characters: spliced into a
    pattern, it is a literal. *)
Definition isPlain (name : Str.t) : bool :=
  forallb (fun c => negb (isOtherSyntax c
                          || N.eqb c (ch ".") || N.eqb c (ch "^")
                          || N.eqb c (ch "$"))) name.

(** The class of [[A-Za-z0-9_]]. *)
Definition isMemberChar (c : cu) : bool :=
  inClass false [CRange (ch "A") (ch "Z"); CRange (ch "a") (ch "z");
                 CRange (ch "0") (ch "9"); CChar (ch "_")] c.

(** The class of [[\w-]]: what may not follow the name in a tag. *)
Definition isWordOrHyphen (c : cu) : bool :=
  inClass false [CWord; CChar (ch "-")] c.

(** The text starts with a code unit that is a word character or a hyphen. *)
Definition startsWithWordOrHyphen (post : Str.t) : bool :=
  match post with
  | c :: _ => isWordOrHyphen c
  | [] => false
  end.

(** The tables a call leaves behind, when it is within the model. *)
Definition finalState (A : Type) (r : result A) : option A :=
  match r with
  | Returned a => Some a
  | Threw a => Some a
  | Unmodelled => None
  end.

(** [t'] is [t] with [a k] more occurrences of [f] at the end of the list
    of each key [k]. *)
Definition pushes (f : Str.t) (t t' : instances) (a : Str.t -> nat) : Prop :=
  forall k, valueOf t' k = valueOf t k ++ repeat f (a k).

(** The usage keys that a symbol table key can add to: a plain key, itself;
    a namespace key, the members of its alias. *)
Definition owns (symbol key : Str.t) : Prop :=
  if startsWith [ch "*"] symbol
  then exists member,
      key = substring1 symbol ++ ch "." :: member
      /\ Forall (fun c => isMemberChar c = true) member
  else key = symbol.

(** No file is recorded both as a markup user and as a caller of one key. *)
Definition disambiguated (st : state) : Prop :=
  forall key f,
    In f (valueOf (componentInstancesJSX st) key) ->
    ~ In f (valueOf (componentInstancesFunc st) key).

(** A plain key of the symbol table has no dot in it. *)
Definition undotted (symbol : Str.t) : Prop :=
  startsWith [ch "*"] symbol = false -> ~ In (ch ".") symbol.

(** The symbol table keeps its keys, and keeps them distinct. *)
Definition extends (u u' : Obj.t fileSet) : Prop :=
  (forall k, In k (Obj.keys u) -> In k (Obj.keys u'))
  /\ (NoDup (map fst u) -> NoDup (map fst u')).

(** While a file [f] is searched: the keys that have [f] so far are owned by
    the symbols already handled, and none has it in both tables. *)
Definition searched (f : Str.t) (done : list Str.t) (st : state) : Prop :=
  (forall k,
      In f (valueOf (componentInstancesJSX st) k)
      \/ In f (valueOf (componentInstancesFunc st) k) ->
      exists s, In s done /\ owns s k)
  /\ (forall k,
         In f (valueOf (componentInstancesJSX st) k) ->
         ~ In f (valueOf (componentInstancesFunc st) k)).

(** Between two states, what is recorded for the files other than [f] is
    the same. *)
Definition sameOthers (f : Str.t) (st st' : state) : Prop :=
  forall k g, g <> f ->
    (In g (valueOf (componentInstancesJSX st') k)
     <-> In g (valueOf (componentInstancesJSX st) k))
    /\ (In g (valueOf (componentInstancesFunc st') k)
        <-> In g (valueOf (componentInstancesFunc st) k)).

(** The invariant of the walk: only files already processed are recorded,
    no file is recorded twice over for a key, the symbol table's keys are
    distinct. *)
Definition walked (processed : list Str.t) (st : state) : Prop :=
  (forall k g,
      In g (valueOf (componentInstancesJSX st) k)
      \/ In g (valueOf (componentInstancesFunc st) k) ->
      In g processed)
  /\ disambiguated st
  /\ NoDup (map fst (componentUsage st)).

(** Two files: the first imports [Button] and [NS] and uses them as markup,
    the second calls them. *)
Definition demoFiles : list file :=
  [ (appJs,
     importLine "{ Button }" ++ importLine "* as NS"
     ++ lit "const a = <Button kind='x' />; const b = <NS.Card>text</NS.Card>;");
    (lit "src/util.js",
     lit "export const c = Button (1) + NS.Card(2) + obj.Button(3);") ].

(** A default import whose name has a dot, next to a namespace import. *)
Definition dottedFile : Str.t :=
  importLine "NS.Card" ++ importLine "* as NS" ++ lit "<NSxCard> NS.Card(1)".

(** A call with a blank between the name and the parenthesis. *)
Definition spacedCallFile : Str.t :=
  importLine "{ Button }" ++ lit "render(Button (props));".

(** Opening, closing and longer tags. *)
Definition tagsFile : Str.t :=
  lit "<Button a='1'></Button><Buttons/><Button-x/><NS.Card/></NS.Card><NS.Cards/>".

(** The keys that [findImports] adds for a text when it returns. *)
Definition importedNames (content : Str.t) : list Str.t :=
  flat_map namedComponents (execAll namedImportPattern content)
  ++ filter (fun c => negb (Str.eqb c targetPackageName))
       (map (fun m => trim (group 1 (groups m)))
          (execAll defaultImportPattern content))
  ++ map (fun m => ch "*" :: trim (group 1 (groups m)))
       (execAll namespaceImportPattern content)
  ++ flat_map requireComponents (execAll requirePattern content)
  ++ map (fun m => trim (group 1 (groups m)))
       (execAll requireDefaultPattern content).

(** One of the files imports the symbol. *)
Definition importedIn (files : list file) (symbol : Str.t) : Prop :=
  exists f, In f files /\ In symbol (importedNames (snd f)).

(** Both tables get occurrences of [f] only. *)
Definition onlyPushes (f : Str.t) (st st' : state) : Prop :=
  exists a b,
    pushes f (componentInstancesJSX st) (componentInstancesJSX st') a
    /\ pushes f (componentInstancesFunc st) (componentInstancesFunc st') b.

(** [src/a.js] calls [Button] and does not import it; [src/b.js], walked
    after it, imports it; [src/c.js] calls it again. *)
Definition lateImportFiles : list file :=
  [ (lit "src/a.js", lit "Button(1);");
    (lit "src/b.js", importLine "{ Button }");
    (lit "src/c.js", lit "Button(2); Button(3);") ].

(** No key of an instance table has an empty list. *)
Definition nonEmptyLists (t : instances) : Prop :=
  forall k v, Obj.get t k = Some v -> v <> [].

Definition nonEmptyTables (st : state) : Prop :=
  nonEmptyLists (componentInstancesJSX st)
  /\ nonEmptyLists (componentInstancesFunc st).

(** The first line of the report. *)
Definition titleLine : Str.t :=
  lit "Component Usage Report for " ++ [quote] ++ targetPackageName ++ [quote]
  ++ lit " package".

(** [X] and [Y] are imported, [X] is used, a namespace is imported and not
    used. *)
Definition unusedFiles : list file :=
  [ (appJs,
     importLine "{ X, Y }" ++ importLine "* as NS" ++ lit "const a = <X />;") ].

(** The lines of a text. *)
Definition lines (text : Str.t) : list Str.t := split nl text.

(** Two moments at which the tool is run. *)
Definition morning : Str.t := lit "2026-01-05T08:30:00.000Z".
Definition evening : Str.t := lit "2026-01-05T19:45:12.345Z".

(** The usage keys of the markup matches, and of the call matches, that a
    namespace alias has in a text. *)
Definition namespaceJSXNames (namespaceAlias content : Str.t) : list Str.t :=
  map (fullComponentName namespaceAlias)
    (execAll (namespaceJSXPattern (Lit namespaceAlias)) content).

Definition namespaceCallNames (namespaceAlias content : Str.t) : list Str.t :=
  map (fullComponentName namespaceAlias)
    (execAll (namespaceFuncPattern (Lit namespaceAlias)) content).

(** A pattern that cannot match without reading a code unit. *)
Fixpoint consumes (r : regex) : bool :=
  match r with
  | Chr _ | Any | Cls _ _ => true
  | Seq r1 r2 => consumes r1 || consumes r2
  | Alt r1 r2 => consumes r1 && consumes r2
  | Group _ r1 => consumes r1
  | _ => false
  end.

(** A named import with a renamed binding, and a destructured require with
    one. *)
Definition renamedImports : Str.t :=
  importLine "{ A, B as C }" ++ requireLine "{ D, E: F }".

(** A default require and a default import, both bound to the module's own
    name. *)
Definition selfNamedImports : Str.t :=
  requireLine "your-package-name" ++ importLine "your-package-name".

(** What [findComponentUsages] splices into its patterns for a key of the
    symbol table: the key itself, or the alias behind the star. *)
Definition splicedText (symbol : Str.t) : Str.t :=
  if startsWith [ch "*"] symbol then substring1 symbol else symbol.

(** None of the characters [\ * + ? ( ) [ ] { } |] is spliced in for the
    key: its patterns are within the model. *)
Definition spliceable (symbol : Str.t) : bool :=
  forallb (fun c => negb (isOtherSyntax c)) (splicedText symbol).

(** No text of the files imports a name with one of these characters. *)
Definition spliceableImports (files : list file) : bool :=
  forallb (fun f => forallb spliceable (importedNames (snd f))) files.

(** The text imports a name that every object inherits. *)
Definition importsPrototypeName (content : Str.t) : bool :=
  existsb (includes Obj.prototypeNames) (importedNames content).

(** No text of the files imports a name that every object inherits. *)
Definition noInheritedImports (files : list file) : bool :=
  forallb (fun f => negb (importsPrototypeName (snd f))) files.

(** A source file with a dotted default import in a comment, a namespace
    import, a tag and a call of a member. *)
Definition commentedImportFile : Str.t :=
  lit "// " ++ importLine "NS.Card" ++ importLine "* as NS"
  ++ lit "export const a = [<NSxCard />, NS.Card(1)];".


(** The default import of [toString], and after it the default require
    bound to the module's own name. *)
Definition inheritedThenSelfNamed : Str.t :=
  importLine "toString" ++ requireLine "your-package-name".

(** [src/a.js] imports [A]; [src/b.js], walked after it, imports
    [toString] and calls [A]. *)
Definition callAfterInheritedImport : list file :=
  [ (lit "src/a.js", importLine "{ A }");
    (lit "src/b.js", importLine "{ toString }" ++ lit "A(1);") ].

(** The default import of [$], and a call of it. *)
Definition dollarFiles : list file :=
  [ (appJs, importLine "$" ++ lit "$('#root').show();") ].

(** ** Vocabulary of the further properties *)

(** No key of the table is a name that every object inherits. *)
Definition noInheritedKey (V : Type) (u : Obj.t V) : Prop :=
  forall k, In k (Obj.keys u) -> ~ In k Obj.prototypeNames.

(** The text has an import of a name that every object inherits. *)
Definition importsInherited (content : Str.t) : Prop :=
  exists c, In c (importedNames content) /\ In c Obj.prototypeNames.

(** The same, as a test. *)
Definition importsInheritedb (content : Str.t) : bool :=
  existsb (includes Obj.prototypeNames) (importedNames content).

(** Three files; the second imports [toString]. *)
Definition inheritedImportFiles : list file :=
  [ (lit "src/a.js", importLine "{ A, B }" ++ lit "const x = <A />;");
    (lit "src/b.js", importLine "{ C, toString, D }" ++ lit "A(1);");
    (lit "src/c.js", importLine "{ A }" ++ importLine "{ A }" ++ lit "B(2);") ].

(** White space, and not empty: what [\s+] reads. *)
Definition blank (ws : Str.t) : Prop :=
  ws <> [] /\ Forall (fun c => isSpace c = true) ws.

(** One of the two quote characters. *)
Definition isQuote (c : cu) : bool :=
  inClass false [CChar apostrophe; CChar quote] c.

(** The end of an import statement: white space, [from], white space, and
    the module name between two quote characters. *)
Definition fromClause (text : Str.t) : Prop :=
  exists ws1 ws2 q1 q2,
    text = ws1 ++ lit "from" ++ ws2 ++ q1 :: targetPackageName ++ [q2]
    /\ blank ws1 /\ blank ws2 /\ isQuote q1 = true /\ isQuote q2 = true.

(** The end of a require declaration: [= require("your-package-name")],
    with the white space that the pattern allows. *)
Definition requireClause (text : Str.t) : Prop :=
  exists ws1 ws2 ws3 ws4 ws5 q1 q2,
    text = ws1 ++ ch "=" :: ws2 ++ lit "require" ++ ws3 ++ ch "(" :: ws4
           ++ q1 :: targetPackageName ++ q2 :: ws5 ++ [ch ")"]
    /\ blank ws1 /\ blank ws2
    /\ Forall (fun c => isSpace c = true) ws3
    /\ Forall (fun c => isSpace c = true) ws4
    /\ Forall (fun c => isSpace c = true) ws5
    /\ isQuote q1 = true /\ isQuote q2 = true.

Definition isDeclarator (d : Str.t) : Prop :=
  d = lit "const" \/ d = lit "let" \/ d = lit "var".

(** [\s+from\s+['"]your-package-name['"]]: the end of the three import
    patterns. *)
Definition fromTail : regex :=
  Plus space >> Lit (lit "from") >> Plus space
  >> quoteClass >> Lit targetPackageName >> quoteClass.

(** The module name between two quote characters occurs in the text. *)
Fixpoint namesModule (content : Str.t) : bool :=
  match content with
  | [] => false
  | q :: content' =>
      (isQuote q && startsWith targetPackageName content'
       && match skipn (List.length targetPackageName) content' with
          | q' :: _ => isQuote q'
          | [] => false
          end)
      || namesModule content'
  end.

(** Imports from a sub-path of the module and from a module whose name
    ends like it. *)
Definition otherModuleFile : Str.t :=
  lit "import { A } from 'your-package-name/sub';" ++ nl
  ++ lit "import B from '@scope/your-package-name-extra';" ++ nl
  ++ lit "const C = require(`your-package-name`); <A/>; B(1);".

(** A named import over several lines, with a comma after the last name. *)
Definition trailingCommaFile : Str.t :=
  lit "import {" ++ nl ++ lit "  Button," ++ nl ++ lit "  Card," ++ nl
  ++ lit "} from " ++ [quote] ++ targetPackageName ++ [quote] ++ lit ";" ++ nl
  ++ lit "render(<div>text</div>);".

(** A word boundary between the end of [before] and the start of [text]:
    what [\b] tests. *)
Definition atWordBoundary (before text : Str.t) : bool :=
  xorb (isWordAt (lastOr None before)) (isWordAt (hd_error text)).

(** [src/App.js] imports [Button]; [src/page.js], walked after it, uses it
    as markup, [src/util.js] calls it. *)
Definition usageFiles : list file :=
  [ (appJs, importLine "{ Button }");
    (lit "src/page.js", lit "export const p = <Button kind='x'>text</Button>;");
    (lit "src/util.js", lit "export const u = Button (1);") ].

(** The usage tables have entries only under keys that an imported symbol
    owns, and only for the files in [processed]. *)
Definition accounted (processed : list Str.t) (st : state) : Prop :=
  forall k g,
    In g (valueOf (componentInstancesJSX st) k)
    \/ In g (valueOf (componentInstancesFunc st) k) ->
    (exists s, In s (Obj.keys (componentUsage st)) /\ owns s k)
    /\ In g processed.

(** In the order of the default sort: by code units, ascending. *)
Definition ascending (l : list Str.t) : Prop :=
  StronglySorted (fun a b => Str.leb a b = true) l.

(** By number of occurrences in the table, descending. *)
Definition byDescendingCount (table : instances) (l : list Str.t) : Prop :=
  StronglySorted
    (fun a b => List.length (valueOf table b) <= List.length (valueOf table a)) l.

(** The keys of the table that have [n] occurrences, in the order of [l]. *)
Definition withCount (table : instances) (n : nat) (l : list Str.t)
  : list Str.t :=
  filter (fun k => List.length (valueOf table k) =? n) l.

(** A file that the directory walk handed to [processFile] and that could
    be read: its path passed the two filters of [walkDirectory]. *)
Definition scanned (os : Fs.platform) (entry : Str.t * Str.t) : Prop :=
  Fs.readFile os (fst entry) = Some (snd entry)
  /\ Fs.ignored (fst entry) = false
  /\ Fs.stat os (fst entry) = Some Fs.RegularFile
  /\ includes Fs.fileExtensions (Fs.pathExtname os (fst entry)) = true.

(** The files as [processFile] names them: by the path relative to the
    working directory. *)
Definition relativeTo (os : Fs.platform) (seen : list (Str.t * Str.t))
  : list file :=
  map (fun entry => (Fs.pathRelative os (fst entry), snd entry)) seen.

(** From [r] to [r']: the files of [seen] were processed in this order, and
    errors were logged. *)
Definition processes (os : Fs.platform) (seen : list (Str.t * Str.t))
           (r r' : Fs.run) : Prop :=
  (exists errors,
      walk (relativeTo os seen) (Fs.tables r) = Some (Fs.tables r', errors))
  /\ Forall (scanned os) seen
  /\ exists events, Fs.logged r' = Fs.logged r ++ events.

(** A disk for the examples: paths are joined with a slash, the extension
    is what follows the last dot, and the working directory is [proj]. *)
Definition diskJoin (dirPath entry : Str.t) : Str.t := dirPath ++ ch "/" :: entry.

Fixpoint diskExtname (p : Str.t) : Str.t :=
  match p with
  | [] => []
  | c :: p' =>
      if existsb (N.eqb (ch ".")) p' then diskExtname p'
      else if N.eqb c (ch ".") && negb (existsb (N.eqb (ch "/")) p') then p
           else []
  end.

Definition diskRelative (p : Str.t) : Str.t :=
  if startsWith (lit "proj/") p then skipn 5 p else p.

Definition diskListings : list (Str.t * list Str.t) :=
  [ (lit "proj", [lit "src"; lit "build"; lit "README.md"]);
    (lit "proj/src",
     [lit "App.js"; lit "distance.js"; lit "gone"; lit "util.js"]);
    (lit "proj/build", [lit "bundle.js"]) ].

Definition diskStats : list (Str.t * Fs.stats) :=
  [ (lit "proj/src", Fs.Directory);
    (lit "proj/build", Fs.Directory);
    (lit "proj/README.md", Fs.RegularFile);
    (lit "proj/src/App.js", Fs.RegularFile);
    (lit "proj/src/distance.js", Fs.RegularFile);
    (lit "proj/src/util.js", Fs.RegularFile);
    (lit "proj/build/bundle.js", Fs.RegularFile) ].

Definition diskTexts : list (Str.t * Str.t) :=
  [ (lit "proj/README.md", lit "Button(0)");
    (lit "proj/src/App.js", importLine "{ Button }" ++ lit "const a = <Button />;");
    (lit "proj/src/distance.js", lit "Button(1);");
    (lit "proj/src/util.js", lit "Button(2);");
    (lit "proj/build/bundle.js", lit "Button(3);") ].

Definition disk : Fs.platform :=
  Fs.Platform (Obj.get diskListings) (Obj.get diskStats) (Obj.get diskTexts)
    diskJoin diskExtname diskRelative.

(** No key of the table starts with a star. *)
Definition noStarKey (t : instances) : Prop :=
  forall k, In k (Obj.keys t) -> startsWith [ch "*"] k = false.

(** A namespace import whose members are used as markup and called. *)
Definition namespaceUseFile : Str.t :=
  importLine "* as NS" ++ lit "const a = <NS.Card />; NS.format(1);".

(** The five loops of [findImports] over given lists of matches. *)
Definition importLoops (filePath : Str.t) (l1 l2 l3 l4 l5 : list jsmatch)
           (u : Obj.t fileSet) : result (Obj.t fileSet) :=
  andThen
    (forEach (fun m => forEach (addImport filePath) (namedComponents m)) l1 u)
    (fun u =>
  andThen (forEach (addDefaultImport filePath) l2 u) (fun u =>
  andThen (forEach (addNamespaceImport filePath) l3 u) (fun u =>
  andThen
    (forEach (fun m => forEach (addImport filePath) (requireComponents m)) l4 u)
    (fun u =>
  forEach (addRequireDefault filePath) l5 u)))).

(** The names that the loops register for these matches. *)
Definition loopNames (l1 l2 l3 l4 l5 : list jsmatch) : list Str.t :=
  flat_map namedComponents l1
  ++ filter (fun c => negb (Str.eqb c targetPackageName))
       (map (fun m => trim (group 1 (groups m))) l2)
  ++ map (fun m => ch "*" :: trim (group 1 (groups m))) l3
  ++ flat_map requireComponents l4
  ++ map (fun m => trim (group 1 (groups m))) l5.

(** The names of a text's imports other than the named import lists. *)
Definition otherThanNamed (content : Str.t) : list Str.t :=
  loopNames [] (execAll defaultImportPattern content)
    (execAll namespaceImportPattern content)
    (execAll requirePattern content)
    (execAll requireDefaultPattern content).

(** Two files for the merged script: the first registers [toString], the
    second, shorter, imports [Button]. *)
Definition staleFiles : list file :=
  [ (lit "src/a.js", importLine "{ toString }");
    (lit "src/b.js", importLine "{ Card }") ].

(** The matches are not empty, lie within the text, and each starts where
    the one before it ended or later. *)
Definition apart (content : Str.t) (l : list jsmatch) : Prop :=
  StronglySorted (fun a b => endIndex a <= index b) l
  /\ Forall (fun m => index m < endIndex m
                      /\ endIndex m <= List.length content) l.

(** The class [[\s/>]] of the merged script's markup pattern. *)
Definition isTagEnd (c : cu) : bool :=
  inClass false [CSpace; CChar (ch "/"); CChar (ch ">")] c.

(** A method call, a closing tag of a namespace member, and a markup use
    of a member of a plain symbol. *)
Definition mergedUseFile : Str.t :=
  lit "obj.Button(1); </NS.Card>; <Button.Group>".
(** * Properties *)

Unset Implicit Arguments.

(** ** Strings *)

Lemma str_eqb_eq (a b : Str.t) : Str.eqb a b = true <-> a = b.
Proof.
  revert b; induction a as [|x a IH]; intros [|y b]; simpl; split;
    try congruence; try reflexivity.
  - intros H. apply andb_true_iff in H as [H1 H2].
    apply N.eqb_eq in H1. apply IH in H2. congruence.
  - intros H. injection H as -> ->.
    apply andb_true_iff. split; [apply N.eqb_refl | now apply IH].
Qed.

Lemma str_eqb_refl (a : Str.t) : Str.eqb a a = true.
Proof. now apply str_eqb_eq. Qed.

Lemma str_eqb_neq (a b : Str.t) : Str.eqb a b = false <-> a <> b.
Proof.
  split.
  - intros H E. apply str_eqb_eq in E. congruence.
  - intros H. destruct (Str.eqb a b) eqn:E; [|reflexivity].
    apply str_eqb_eq in E. contradiction.
Qed.

Lemma str_eqb_sym (a b : Str.t) : Str.eqb a b = Str.eqb b a.
Proof.
  destruct (Str.eqb a b) eqn:E.
  - apply str_eqb_eq in E. subst. symmetry. apply str_eqb_refl.
  - symmetry. apply str_eqb_neq. apply str_eqb_neq in E. congruence.
Qed.

Lemma str_eq_dec (a b : Str.t) : {a = b} + {a <> b}.
Proof.
  destruct (Str.eqb a b) eqn:E.
  - left. now apply str_eqb_eq.
  - right. now apply str_eqb_neq.
Qed.

Lemma includes_In (l : list Str.t) (x : Str.t) : includes l x = true <-> In x l.
Proof.
  unfold includes. rewrite existsb_exists. split.
  - intros [y [Hy E]]. apply str_eqb_eq in E. now subst.
  - intros H. exists x. split; [assumption | apply str_eqb_refl].
Qed.

Lemma includes_not_In (l : list Str.t) (x : Str.t) :
  includes l x = false <-> ~ In x l.
Proof.
  rewrite <- includes_In. destruct (includes l x); split; congruence.
Qed.

(** ** Objects *)

Lemma get_set_same (V : Type) (o : Obj.t V) k v : Obj.get (Obj.set o k v) k = Some v.
Proof.
  induction o as [|[k' v'] o IH]; simpl.
  - now rewrite str_eqb_refl.
  - destruct (Str.eqb k k') eqn:E; simpl; rewrite E; [reflexivity | exact IH].
Qed.

Lemma get_set_other (V : Type) (o : Obj.t V) k k' v :
  k <> k' -> Obj.get (Obj.set o k v) k' = Obj.get o k'.
Proof.
  intros Hne. induction o as [|[k0 v0] o IH]; simpl.
  - assert (Str.eqb k' k = false) as -> by (apply str_eqb_neq; congruence).
    reflexivity.
  - destruct (Str.eqb k k0) eqn:E; simpl.
    + apply str_eqb_eq in E. subst k0.
      assert (Str.eqb k' k = false) as -> by (apply str_eqb_neq; congruence).
      reflexivity.
    + destruct (Str.eqb k' k0); [reflexivity | exact IH].
Qed.

Lemma get_In_fst (V : Type) (o : Obj.t V) k :
  Obj.get o k <> None <-> In k (map fst o).
Proof.
  induction o as [|[k' v'] o IH]; simpl.
  - split; [congruence | contradiction].
  - destruct (Str.eqb k k') eqn:E.
    + apply str_eqb_eq in E. subst. split; [now left | congruence].
    + apply str_eqb_neq in E. rewrite IH. split; [now right |].
      intros [H | H]; [congruence | assumption].
Qed.

Lemma insertIndex_In k x l : In x (Obj.insertIndex k l) <-> x = k \/ In x l.
Proof.
  induction l as [|y l IH]; simpl.
  - intuition.
  - destruct (Obj.toNumber k <=? Obj.toNumber y)%N; simpl.
    + intuition.
    + rewrite IH. intuition.
Qed.

Lemma sortIndex_In x l : In x (fold_right Obj.insertIndex [] l) <-> In x l.
Proof.
  induction l as [|y l IH]; simpl.
  - reflexivity.
  - rewrite insertIndex_In, IH. intuition.
Qed.

Lemma keys_In_fst (V : Type) (o : Obj.t V) k :
  In k (Obj.keys o) <-> In k (map fst o).
Proof.
  unfold Obj.keys. rewrite in_app_iff, sortIndex_In, !filter_In.
  destruct (Obj.isArrayIndex k); simpl; intuition congruence.
Qed.

Lemma keys_In_get (V : Type) (o : Obj.t V) k :
  In k (Obj.keys o) <-> Obj.get o k <> None.
Proof. now rewrite keys_In_fst, get_In_fst. Qed.

Lemma keys_set (V : Type) (o : Obj.t V) k v k' :
  In k' (Obj.keys (Obj.set o k v)) <-> k' = k \/ In k' (Obj.keys o).
Proof.
  rewrite !keys_In_get. destruct (str_eq_dec k k') as [-> | Hne].
  - rewrite get_set_same. split; [now left | congruence].
  - rewrite get_set_other by assumption. split; [now right |].
    intros [H | H]; [congruence | assumption].
Qed.

Lemma valueOf_set_same (V : Type) (o : Obj.t (list V)) k v :
  valueOf (Obj.set o k v) k = v.
Proof. unfold valueOf. now rewrite get_set_same. Qed.

Lemma valueOf_set_other (V : Type) (o : Obj.t (list V)) k k' v :
  k <> k' -> valueOf (Obj.set o k v) k' = valueOf o k'.
Proof. intros H. unfold valueOf. now rewrite get_set_other. Qed.

Lemma lookup_own (V : Type) (o : Obj.t V) k v :
  Obj.lookup o k = Obj.Own v <-> Obj.get o k = Some v.
Proof.
  unfold Obj.lookup. destruct (Obj.get o k).
  - split; congruence.
  - destruct (includes Obj.prototypeNames k); split; congruence.
Qed.

(** ** Loops over a table *)

Lemma forEach_app (A X : Type) (body : X -> A -> result A) l1 l2 a :
  forEach body (l1 ++ l2) a
  = match forEach body l1 a with
    | Returned a1 => forEach body l2 a1
    | other => other
    end.
Proof.
  revert a; induction l1 as [|x l1 IH]; intros a; simpl.
  - reflexivity.
  - destruct (body x a); auto.
Qed.

(** A loop that returns has run every one of its iterations to its end. *)
Lemma forEach_returned_split (A X : Type) (body : X -> A -> result A) l1 x l2 a a' :
  forEach body (l1 ++ x :: l2) a = Returned a' ->
  exists a1 a2,
    forEach body l1 a = Returned a1 /\ body x a1 = Returned a2
    /\ forEach body l2 a2 = Returned a'.
Proof.
  rewrite forEach_app. destruct (forEach body l1 a) as [a1|?|]; try discriminate.
  simpl. destruct (body x a1) as [a2|?|] eqn:E; try discriminate.
  intros H. now exists a1, a2.
Qed.

(** An invariant of the iterations that return is one of the loop. *)
Lemma forEach_returned_inv (A X : Type) (body : X -> A -> result A) (P : A -> Prop) l :
  (forall x a a', In x l -> P a -> body x a = Returned a' -> P a') ->
  forall a a', P a -> forEach body l a = Returned a' -> P a'.
Proof.
  induction l as [|x l IH]; intros Hstep a a' Ha; simpl.
  - intros [= <-]. exact Ha.
  - destruct (body x a) as [a1|?|] eqn:E; try discriminate.
    apply IH.
    + intros y b b' Hy. apply Hstep. now right.
    + eapply Hstep; eauto. now left.
Qed.

(** ** The symbol table grows *)

Lemma grows_refl u : grows u u.
Proof. intros k f H. exact H. Qed.

Lemma grows_trans u v w : grows u v -> grows v w -> grows u w.
Proof. intros H1 H2 k f H. apply H2, H1, H. Qed.

Lemma setAdd_In s x y : In y (setAdd s x) <-> y = x \/ In y s.
Proof.
  unfold setAdd. destruct (includes s x) eqn:E.
  - apply includes_In in E. split; [now right | intros [-> | H]; assumption].
  - rewrite in_app_iff. simpl. intuition.
Qed.

Lemma valueOf_get (V : Type) (o : Obj.t (list V)) k v :
  Obj.get o k = Some v -> valueOf o k = v.
Proof. unfold valueOf. now intros ->. Qed.

Lemma valueOf_absent (V : Type) (o : Obj.t (list V)) k :
  Obj.get o k = None -> valueOf o k = [].
Proof. unfold valueOf. now intros ->. Qed.

Lemma lookup_absent (V : Type) (o : Obj.t V) k :
  Obj.lookup o k = Obj.Absent -> Obj.get o k = None.
Proof.
  unfold Obj.lookup. destruct (Obj.get o k); [discriminate | reflexivity].
Qed.

Lemma lookup_inherited (V : Type) (o : Obj.t V) k :
  Obj.lookup o k = Obj.Inherited <->
  Obj.get o k = None /\ In k Obj.prototypeNames.
Proof.
  unfold Obj.lookup. destruct (Obj.get o k).
  - split; [discriminate | intros [? _]; discriminate].
  - destruct (includes Obj.prototypeNames k) eqn:E.
    + apply includes_In in E. tauto.
    + apply includes_not_In in E. split; [discriminate | tauto].
Qed.

(** What a successful [addImport] leaves in the table. *)
Lemma addImport_returned f c u u' :
  addImport f c u = Returned u' ->
  forall k g, In g (valueOf u' k) <-> (k = c /\ g = f) \/ In g (valueOf u k).
Proof.
  unfold addImport. destruct (Obj.lookup u c) as [s| |] eqn:E; try discriminate.
  - apply lookup_own in E. intros [= <-] k g.
    destruct (str_eq_dec c k) as [<- | Hne].
    + rewrite valueOf_set_same, setAdd_In, (valueOf_get _ _ _ _ E). intuition.
    + rewrite valueOf_set_other by assumption. intuition congruence.
  - apply lookup_absent in E. intros [= <-] k g.
    destruct (str_eq_dec c k) as [<- | Hne].
    + rewrite valueOf_set_same, setAdd_In, (valueOf_absent _ _ _ E). simpl. intuition.
    + rewrite valueOf_set_other by assumption. intuition congruence.
Qed.

Lemma addImport_adds f c u u' :
  addImport f c u = Returned u' -> In f (valueOf u' c).
Proof. intros H. apply (addImport_returned _ _ _ _ H). now left. Qed.

Lemma addImport_grows f c u u' : addImport f c u = Returned u' -> grows u u'.
Proof. intros H k g Hg. apply (addImport_returned _ _ _ _ H). now right. Qed.

(** [addImport] throws exactly on the names that every object inherits. *)
Lemma addImport_threw f c u :
  (exists u', addImport f c u = Threw u') <->
  Obj.get u c = None /\ In c Obj.prototypeNames.
Proof.
  unfold addImport. rewrite <- lookup_inherited.
  destruct (Obj.lookup u c); split.
  - intros [u' H]. discriminate.
  - discriminate.
  - reflexivity.
  - intros _. now exists u.
  - intros [u' H]. discriminate.
  - discriminate.
Qed.

Lemma forEach_grows (X : Type) (body : X -> Obj.t fileSet -> result (Obj.t fileSet)) l :
  (forall x u u', body x u = Returned u' -> grows u u') ->
  forall u u', forEach body l u = Returned u' -> grows u u'.
Proof.
  intros Hb u u' H.
  revert u H. induction l as [|x l IH]; intros u; simpl.
  - intros [= <-]. apply grows_refl.
  - destruct (body x u) as [u1|?|] eqn:E; try discriminate.
    intros H. eapply grows_trans; [eapply Hb; eauto | now apply IH].
Qed.

(** In a loop that returns, what an iteration recorded is still there at
    the end. *)
Lemma forEach_records (X : Type) (body : X -> Obj.t fileSet -> result (Obj.t fileSet))
      (key : X -> Str.t) f l :
  (forall x u u', body x u = Returned u' -> grows u u') ->
  (forall x u u', body x u = Returned u' -> In f (valueOf u' (key x))) ->
  forall u u' x, forEach body l u = Returned u' -> In x l ->
                 In f (valueOf u' (key x)).
Proof.
  intros Hg Hk u u' x H Hx.
  apply in_split in Hx as [l1 [l2 ->]].
  apply forEach_returned_split in H as [u1 [u2 [_ [H2 H3]]]].
  eapply forEach_grows; eauto.
Qed.

Lemma addDefaultImport_grows f m u u' :
  addDefaultImport f m u = Returned u' -> grows u u'.
Proof.
  unfold addDefaultImport.
  destruct (negb _); [apply addImport_grows | intros [= <-]; apply grows_refl].
Qed.

(** The five loops of a [findImports] that returns. *)
Lemma findImports_returned content f u u' :
  findImports content f u = Returned u' ->
  exists u1 u2 u3 u4,
    forEach (fun m => forEach (addImport f) (namedComponents m))
      (execAll namedImportPattern content) u = Returned u1
    /\ forEach (addDefaultImport f) (execAll defaultImportPattern content) u1
       = Returned u2
    /\ forEach (addNamespaceImport f) (execAll namespaceImportPattern content) u2
       = Returned u3
    /\ forEach (fun m => forEach (addImport f) (requireComponents m))
         (execAll requirePattern content) u3 = Returned u4
    /\ forEach (addRequireDefault f) (execAll requireDefaultPattern content) u4
       = Returned u'.
Proof.
  unfold findImports, andThen.
  destruct (forEach _ (execAll namedImportPattern content) u) as [u1|?|] eqn:E1;
    try discriminate.
  destruct (forEach _ (execAll defaultImportPattern content) u1) as [u2|?|] eqn:E2;
    try discriminate.
  destruct (forEach _ (execAll namespaceImportPattern content) u2) as [u3|?|] eqn:E3;
    try discriminate.
  destruct (forEach _ (execAll requirePattern content) u3) as [u4|?|] eqn:E4;
    try discriminate.
  intros H. exists u1, u2, u3, u4. repeat split; assumption.
Qed.

Lemma inner_loop_grows f (l : list Str.t) u u' :
  forEach (addImport f) l u = Returned u' -> grows u u'.
Proof. apply forEach_grows. intros x; apply addImport_grows. Qed.

Lemma named_loop_grows f (names : jsmatch -> list Str.t) l u u' :
  forEach (fun m => forEach (addImport f) (names m)) l u = Returned u' ->
  grows u u'.
Proof.
  apply forEach_grows. intros m a a'. apply inner_loop_grows.
Qed.

Lemma default_loop_grows f l u u' :
  forEach (addDefaultImport f) l u = Returned u' -> grows u u'.
Proof. apply forEach_grows. intros m; apply addDefaultImport_grows. Qed.

Lemma namespace_loop_grows f l u u' :
  forEach (addNamespaceImport f) l u = Returned u' -> grows u u'.
Proof.
  apply forEach_grows. intros m a a'. unfold addNamespaceImport.
  apply addImport_grows.
Qed.

Lemma requireDefault_loop_grows f l u u' :
  forEach (addRequireDefault f) l u = Returned u' -> grows u u'.
Proof.
  apply forEach_grows. intros m a a'. unfold addRequireDefault.
  apply addImport_grows.
Qed.

(** A list loop inside a match loop: every name of every match is recorded. *)
Lemma named_loop_records f (names : jsmatch -> list Str.t) l u u' m c :
  forEach (fun m => forEach (addImport f) (names m)) l u = Returned u' ->
  In m l -> In c (names m) -> In f (valueOf u' c).
Proof.
  intros H Hm Hc.
  apply in_split in Hm as [l1 [l2 ->]].
  apply forEach_returned_split in H as [u1 [u2 [_ [H2 H3]]]].
  apply (named_loop_grows _ _ _ _ _ H3).
  eapply (forEach_records _ (addImport f) (fun c => c)); eauto.
  - intros x a a'. apply addImport_grows.
  - intros x a a'. apply addImport_adds.
Qed.

(** ** Splitting and trimming *)

Lemma isName_cons s :
  isName s = true ->
  exists c s', s = c :: s' /\ isSpace c = false
               /\ forallb (fun c => negb (isSpace c)) s' = true.
Proof.
  unfold isName. destruct s as [|c s']; simpl; [discriminate |].
  intros H. apply andb_true_iff in H as [Hc Hs].
  exists c, s'. repeat split; [now apply negb_true_iff | assumption].
Qed.

Lemma isName_snoc s :
  isName s = true ->
  exists s' c, s = s' ++ [c] /\ isSpace c = false.
Proof.
  intros H. unfold isName in H. apply andb_true_iff in H as [Hne Hall].
  destruct (@exists_last _ s) as [s' [c ->]].
  - intros ->. discriminate.
  - exists s', c. split; [reflexivity |].
    rewrite forallb_app in Hall. apply andb_true_iff in Hall as [_ Hc].
    simpl in Hc. rewrite andb_true_r in Hc. now apply negb_true_iff.
Qed.

Lemma isName_no_space s : isName s = true -> ~ In (ch " ") s.
Proof.
  intros H Hin. unfold isName in H. apply andb_true_iff in H as [_ H].
  rewrite forallb_forall in H. specialize (H _ Hin). discriminate.
Qed.

Lemma trimStart_pad pad c s :
  forallb isSpace pad = true -> isSpace c = false ->
  trimStart (pad ++ c :: s) = c :: s.
Proof.
  intros Hp Hc. induction pad as [|x pad IH]; simpl.
  - now rewrite Hc.
  - simpl in Hp. apply andb_true_iff in Hp as [Hx Hp]. rewrite Hx. now apply IH.
Qed.

Lemma trimStart_keeps l c s :
  isSpace c = false -> exists l', trimStart (l ++ c :: s) = l' ++ c :: s.
Proof.
  intros Hc. induction l as [|x l [l' IH]]; simpl.
  - rewrite Hc. now exists [].
  - destruct (isSpace x); [now exists l' | now exists (x :: l)].
Qed.

(** Trimming the end keeps everything up to the last code unit that is not
    white space. *)
Lemma trimEnd_keeps a c r :
  isSpace c = false -> exists r', trimEnd (a ++ c :: r) = a ++ c :: r'.
Proof.
  intros Hc. unfold trimEnd. rewrite rev_app_distr. simpl.
  rewrite <- app_assoc. simpl.
  destruct (trimStart_keeps (rev r) c (rev a) Hc) as [l' ->].
  exists (rev l'). rewrite rev_app_distr. simpl.
  now rewrite rev_involutive, <- app_assoc.
Qed.

Lemma trim_name s : isName s = true -> trim s = s.
Proof.
  intros H. unfold trim.
  destruct (isName_cons _ H) as [c [s' [-> [Hc _]]]].
  simpl. rewrite Hc.
  destruct (isName_snoc _ H) as [s0 [d [E Hd]]]. rewrite E.
  unfold trimEnd. rewrite rev_app_distr. simpl. rewrite Hd.
  now rewrite <- (rev_involutive s0) at 2.
Qed.

Lemma startsWith_app p s : startsWith p (p ++ s) = true.
Proof.
  induction p as [|x p IH]; simpl; [reflexivity |].
  now rewrite N.eqb_refl.
Qed.

(** The first piece of a split runs to the first place where the separator
    starts; it cannot start inside a text without the separator's first code
    unit. *)
Lemma first_split_before c0 sep' a b cur :
  ~ In c0 a ->
  first (splitAux (c0 :: sep') 0 cur (a ++ (c0 :: sep') ++ b)) = rev cur ++ a.
Proof.
  revert cur. induction a as [|x a IH]; intros cur Hn.
  - rewrite app_nil_r. simpl app.
    assert (startsWith (c0 :: sep') (c0 :: sep' ++ b) = true) as E
        by apply (startsWith_app (c0 :: sep') b).
    cbn [splitAux]. rewrite E. reflexivity.
  - assert (x <> c0) as Hx by (intros ->; apply Hn; now left).
    assert (~ In c0 a) as Ha by (intros H; apply Hn; now right).
    change ((x :: a) ++ (c0 :: sep') ++ b) with (x :: a ++ (c0 :: sep') ++ b).
    assert (startsWith (c0 :: sep') (x :: a ++ (c0 :: sep') ++ b) = false) as E.
    { simpl. apply andb_false_iff. left. apply N.eqb_neq. congruence. }
    cbn [splitAux]. rewrite E.
    rewrite IH by assumption. simpl. now rewrite <- app_assoc.
Qed.

Lemma first_split_any c0 sep' cur y :
  exists z, first (splitAux (c0 :: sep') 0 cur y) = rev cur ++ z.
Proof.
  revert cur. induction y as [|x y IH]; intros cur.
  - exists []. simpl. now rewrite app_nil_r.
  - cbn [splitAux].
    destruct (startsWith (c0 :: sep') (x :: y)).
    + exists []. simpl. now rewrite app_nil_r.
    + destruct (IH (x :: cur)) as [z ->]. exists (x :: z).
      simpl. now rewrite <- app_assoc.
Qed.

Lemma first_split_keeps c0 sep' a y cur :
  ~ In c0 a ->
  exists z, first (splitAux (c0 :: sep') 0 cur (a ++ y)) = rev cur ++ a ++ z.
Proof.
  revert cur. induction a as [|x a IH]; intros cur Hn.
  - simpl. apply first_split_any.
  - assert (x <> c0) as Hx by (intros ->; apply Hn; now left).
    assert (~ In c0 a) as Ha by (intros H; apply Hn; now right).
    change ((x :: a) ++ y) with (x :: a ++ y).
    assert (startsWith (c0 :: sep') (x :: a ++ y) = false) as E.
    { simpl. apply andb_false_iff. left. apply N.eqb_neq. congruence. }
    cbn [splitAux]. rewrite E.
    destruct (IH (x :: cur) Ha) as [z ->]. exists z.
    simpl. now rewrite <- app_assoc.
Qed.

(** [B as C]: the key is [B], whatever the alias. *)
Lemma namedComponent_alias pad b c rest :
  forallb isSpace pad = true -> isName b = true -> isName c = true ->
  namedComponent (pad ++ b ++ lit " as " ++ c ++ rest) = b.
Proof.
  intros Hp Hb Hc. unfold namedComponent, trim.
  destruct (isName_cons _ Hb) as [b0 [b' [Eb [Hb0 _]]]].
  destruct (isName_snoc _ Hc) as [c' [c1 [Ec Hc1]]].
  assert (trimStart (pad ++ b ++ lit " as " ++ c ++ rest)
          = b ++ lit " as " ++ c ++ rest) as ->.
  { rewrite Eb. simpl. now apply trimStart_pad. }
  assert (b ++ lit " as " ++ c ++ rest
          = (b ++ lit " as " ++ c') ++ c1 :: rest) as ->.
  { rewrite Ec, <- !app_assoc. reflexivity. }
  destruct (trimEnd_keeps (b ++ lit " as " ++ c') c1 rest Hc1) as [r' ->].
  rewrite <- !app_assoc.
  unfold split.
  change (lit " as " ++ c' ++ c1 :: r')
    with ((ch " " :: lit "as ") ++ (c' ++ c1 :: r')).
  change (lit " as ") with (ch " " :: lit "as ").
  rewrite first_split_before by now apply isName_no_space.
  simpl. fold (trim b). now apply trim_name.
Qed.

(** [B: C]: the key is [B], whatever the local name. *)
Lemma requireComponent_rename pad b rest :
  forallb isSpace pad = true -> isName b = true -> ~ In (ch ":") b ->
  requireComponent (pad ++ b ++ lit ":" ++ rest) = b.
Proof.
  intros Hp Hb Hcolon. unfold requireComponent, trim.
  destruct (isName_cons _ Hb) as [b0 [b' [Eb [Hb0 _]]]].
  assert (trimStart (pad ++ b ++ lit ":" ++ rest) = b ++ lit ":" ++ rest) as ->.
  { rewrite Eb. simpl. now apply trimStart_pad. }
  change (b ++ lit ":" ++ rest) with (b ++ ch ":" :: rest).
  destruct (trimEnd_keeps b (ch ":") rest eq_refl) as [r' ->].
  unfold split. change (lit " as ") with (ch " " :: lit "as ").
  assert (b ++ ch ":" :: r' = (b ++ [ch ":"]) ++ r') as ->
      by now rewrite <- app_assoc.
  destruct (first_split_keeps (ch " ") (lit "as ") (b ++ [ch ":"]) r' [])
    as [z ->].
  { rewrite in_app_iff. intros [H | [H | []]].
    - now apply (isName_no_space _ Hb).
    - discriminate. }
  simpl rev. simpl app at 1. rewrite <- app_assoc.
  change (lit ":") with (ch ":" :: []).
  change ([ch ":"] ++ z) with ((ch ":" :: []) ++ z).
  rewrite first_split_before by assumption.
  simpl. fold (trim b). now apply trim_name.
Qed.

(** ** When the import loops return *)

Lemma flat_map_if (X : Type) (p : Str.t -> bool) (g : X -> Str.t) l :
  flat_map (fun m => if p (g m) then [g m] else []) l = filter p (map g l).
Proof.
  induction l as [|x l IH]; simpl; [reflexivity |].
  destruct (p (g x)); simpl; now rewrite IH.
Qed.

Lemma flat_map_one (X : Type) (g : X -> Str.t) l :
  flat_map (fun m => [g m]) l = map g l.
Proof. induction l as [|x l IH]; simpl; [reflexivity | now rewrite IH]. Qed.

Lemma addImport_returns f c u :
  ~ In c Obj.prototypeNames -> exists u', addImport f c u = Returned u'.
Proof.
  intros Hc. unfold addImport. destruct (Obj.lookup u c) as [s| |] eqn:E.
  - eexists. reflexivity.
  - apply lookup_inherited in E as [_ E]. contradiction.
  - eexists. reflexivity.
Qed.

Lemma loop_returns (X : Type) (body : X -> Obj.t fileSet -> result (Obj.t fileSet))
      (names : X -> list Str.t) :
  (forall x u, (forall c, In c (names x) -> ~ In c Obj.prototypeNames) ->
               exists u', body x u = Returned u') ->
  forall l,
    (forall c, In c (flat_map names l) -> ~ In c Obj.prototypeNames) ->
    forall u, exists u', forEach body l u = Returned u'.
Proof.
  intros Hb l. induction l as [|x l IH]; intros Hn u.
  - exists u. reflexivity.
  - simpl in Hn. destruct (Hb x u) as [u1 E].
    + intros c Hc. apply Hn. rewrite in_app_iff. now left.
    + cbn [forEach]. rewrite E. apply IH.
      intros c Hc. apply Hn. rewrite in_app_iff. now right.
Qed.

Lemma import_loop_returns f l :
  (forall c, In c l -> ~ In c Obj.prototypeNames) ->
  forall u, exists u', forEach (addImport f) l u = Returned u'.
Proof.
  intros Hn. apply (loop_returns _ (addImport f) (fun c => [c])).
  - intros c u Hc. apply addImport_returns. apply Hc. now left.
  - intros c Hc. apply Hn. rewrite flat_map_one, map_id in Hc. exact Hc.
Qed.

Lemma addDefaultImport_returns f m u :
  (forall c,
      In c (if negb (Str.eqb (trim (group 1 (groups m))) targetPackageName)
            then [trim (group 1 (groups m))] else []) ->
      ~ In c Obj.prototypeNames) ->
  exists u', addDefaultImport f m u = Returned u'.
Proof.
  unfold addDefaultImport.
  destruct (negb (Str.eqb (trim (group 1 (groups m))) targetPackageName)).
  - intros H. apply addImport_returns. apply H. now left.
  - intros _. eexists. reflexivity.
Qed.

(** [findImports] returns when no imported name is one that every object
    inherits. *)
Lemma findImports_returns content f u :
  (forall c, In c (importedNames content) -> ~ In c Obj.prototypeNames) ->
  exists u', findImports content f u = Returned u'.
Proof.
  unfold importedNames. intros Hn. unfold findImports, andThen.
  destruct (loop_returns _ (fun m => forEach (addImport f) (namedComponents m))
              namedComponents
              (fun m a H => import_loop_returns f (namedComponents m) H a)
              (execAll namedImportPattern content)) with (u := u) as [u1 ->].
  { intros c Hc. apply Hn. rewrite !in_app_iff. auto. }
  destruct (loop_returns _ (addDefaultImport f)
              (fun m => if negb (Str.eqb (trim (group 1 (groups m)))
                                   targetPackageName)
                        then [trim (group 1 (groups m))] else [])
              (fun m a H => addDefaultImport_returns f m a H)
              (execAll defaultImportPattern content)) with (u := u1) as [u2 ->].
  { intros c Hc. apply Hn.
    rewrite (flat_map_if _ (fun c => negb (Str.eqb c targetPackageName))) in Hc.
    rewrite !in_app_iff. auto. }
  destruct (loop_returns _ (addNamespaceImport f)
              (fun m => [ch "*" :: trim (group 1 (groups m))])
              (fun m a H => addImport_returns f _ a (H _ (or_introl eq_refl)))
              (execAll namespaceImportPattern content)) with (u := u2) as [u3 ->].
  { intros c Hc. apply Hn. rewrite flat_map_one in Hc. rewrite !in_app_iff. auto. }
  destruct (loop_returns _ (fun m => forEach (addImport f) (requireComponents m))
              requireComponents
              (fun m a H => import_loop_returns f (requireComponents m) H a)
              (execAll requirePattern content)) with (u := u3) as [u4 ->].
  { intros c Hc. apply Hn. rewrite !in_app_iff. auto. }
  apply (loop_returns _ (addRequireDefault f)
           (fun m => [trim (group 1 (groups m))])
           (fun m a H => addImport_returns f _ a (H _ (or_introl eq_refl)))).
  intros c Hc. apply Hn. rewrite flat_map_one in Hc. rewrite !in_app_iff. auto.
Qed.

(** The condition on the names of a text, as a test that can be run. *)
Lemma no_inherited_name_check (names : list Str.t) :
  forallb (fun c => negb (includes Obj.prototypeNames c)) names = true ->
  forall c, In c names -> ~ In c Obj.prototypeNames.
Proof.
  intros H c Hc. rewrite forallb_forall in H. specialize (H c Hc).
  apply includes_not_In. now destruct (includes Obj.prototypeNames c).
Qed.

(** ** Import statements *)

(** C1, as stated, fails: for [import { A, B as C } from "your-package-name"]
    and for [const { A, B: C } = require("your-package-name")] the table gets
    the keys [A] and [B]; the local name [C] is not a key. *)
Lemma renamed_binding_keeps_exported_name :
  findImports (importLine "{ A, B as C }") appJs []
  = Returned [(lit "A", [appJs]); (lit "B", [appJs])]
  /\ findImports (requireLine "{ A, B: C }") appJs []
     = Returned [(lit "A", [appJs]); (lit "B", [appJs])]
  /\ Obj.get [(lit "A", [appJs]); (lit "B", [appJs])] (lit "C") = None.
Proof. repeat split; vm_compute; reflexivity. Qed.

(** C1, amended: in a file that imports no name that every object inherits,
    [findImports] returns, and every name of every named import list and of
    every destructured require of the file is then a key of the symbol
    table, mapped to a set that contains the file; the name is what stands
    before [ as ] (and, for a require, before the colon), trimmed: for
    [B as C] and for [B: C] the key is the exported name [B], and the local
    name is dropped. *)
Theorem imports_register_exported_names (content filePath : Str.t)
        (u : Obj.t fileSet) :
  (forall c, In c (importedNames content) -> ~ In c Obj.prototypeNames) ->
  exists u',
    findImports content filePath u = Returned u'
    /\ (forall m piece,
           In m (execAll namedImportPattern content) ->
           In piece (split (lit ",") (group 1 (groups m))) ->
           In filePath (valueOf u' (namedComponent piece)))
    /\ (forall m piece,
           In m (execAll requirePattern content) ->
           In piece (split (lit ",") (group 1 (groups m))) ->
           In filePath (valueOf u' (requireComponent piece)))
    /\ (forall pad b c rest,
           forallb isSpace pad = true -> isName b = true -> isName c = true ->
           namedComponent (pad ++ b ++ lit " as " ++ c ++ rest) = b)
    /\ (forall pad b rest,
           forallb isSpace pad = true -> isName b = true -> ~ In (ch ":") b ->
           requireComponent (pad ++ b ++ lit ":" ++ rest) = b).
Proof.
  intros Hn. destruct (findImports_returns content filePath u Hn) as [u' H].
  exists u'. split; [exact H |].
  destruct (findImports_returned _ _ _ _ H) as [u1 [u2 [u3 [u4 [H1 [H2 [H3 [H4 H5]]]]]]]].
  split; [| split; [| split]].
  - intros m piece Hm Hp.
    apply (requireDefault_loop_grows _ _ _ _ H5).
    apply (named_loop_grows _ _ _ _ _ H4).
    apply (namespace_loop_grows _ _ _ _ H3).
    apply (default_loop_grows _ _ _ _ H2).
    apply (named_loop_records _ _ _ _ _ m _ H1 Hm).
    unfold namedComponents. now apply in_map.
  - intros m piece Hm Hp.
    apply (requireDefault_loop_grows _ _ _ _ H5).
    apply (named_loop_records _ _ _ _ _ m _ H4 Hm).
    unfold requireComponents. now apply in_map.
  - apply namedComponent_alias.
  - apply requireComponent_rename.
Qed.

Lemma imports_register_exported_names_witness :
  (forall c, In c (importedNames renamedImports) -> ~ In c Obj.prototypeNames)
  /\ exists u',
      findImports renamedImports appJs [] = Returned u'
      /\ In appJs (valueOf u' (lit "B"))
      /\ In appJs (valueOf u' (lit "E")).
Proof.
  assert (forall c, In c (importedNames renamedImports) ->
                    ~ In c Obj.prototypeNames) as Hn.
  { apply no_inherited_name_check. vm_compute. reflexivity. }
  split; [exact Hn |].
  destruct (imports_register_exported_names renamedImports appJs [] Hn)
    as [u' [E [Hnamed [Hrequire _]]]].
  exists u'. split; [exact E |]. split.
  - apply (Hnamed (JsMatch 0 45 [(1%nat, lit " A, B as C ")]) (lit " B as C ")).
    + vm_compute. left. reflexivity.
    + vm_compute. right. left. reflexivity.
  - apply (Hrequire (JsMatch 47 95 [(1%nat, lit " D, E: F ")]) (lit " E: F ")).
    + vm_compute. left. reflexivity.
    + vm_compute. right. left. reflexivity.
Defined.

(** C3: the default import of a name that every object inherits, such as
    [constructor] or [toString].  The table is a plain object, so
    [componentUsage[name]] is the inherited value: no set is created, [.add]
    throws, [processFile] logs the error, the name is not added and the rest
    of the file is not looked at.  With any other name the same file gives a
    key and a markup occurrence. *)
Theorem default_import_of_inherited_name_is_lost :
  Forall
    (fun name =>
       findImports (defaultImportFile name) appJs [] = Threw []
       /\ walk [(appJs, defaultImportFile name)] initial
          = Some (initial, [appJs]))
    Obj.prototypeNames
  /\ walk [(appJs, defaultImportFile (lit "Card"))] initial
     = Some (State [(lit "Card", [appJs])] [(lit "Card", [appJs])] [], []).
Proof.
  split; [| vm_compute; reflexivity].
  unfold Obj.prototypeNames. cbn [map].
  repeat (constructor; [split; vm_compute; reflexivity |]).
  constructor.
Qed.

(** The guard of the default import loop: a match whose name is the module
    name leaves the table as it is; any other name goes to [addImport]. *)
Lemma default_import_guard filePath m u :
  (trim (group 1 (groups m)) = targetPackageName ->
   addDefaultImport filePath m u = Returned u)
  /\ (trim (group 1 (groups m)) <> targetPackageName ->
      addDefaultImport filePath m u
      = addImport filePath (trim (group 1 (groups m))) u).
Proof.
  unfold addDefaultImport. split; intros H.
  - rewrite H, str_eqb_refl. reflexivity.
  - apply str_eqb_neq in H. rewrite H. reflexivity.
Qed.

(** When [findImports] returns, every default import of a name other than
    the module name is in the table. *)
Lemma default_import_registered content filePath u u' :
  findImports content filePath u = Returned u' ->
  forall m, In m (execAll defaultImportPattern content) ->
            trim (group 1 (groups m)) <> targetPackageName ->
            In filePath (valueOf u' (trim (group 1 (groups m)))).
Proof.
  intros H m Hm Hne.
  destruct (findImports_returned _ _ _ _ H) as [u1 [u2 [u3 [u4 [H1 [H2 [H3 [H4 H5]]]]]]]].
  apply (requireDefault_loop_grows _ _ _ _ H5).
  apply (named_loop_grows _ _ _ _ _ H4).
  apply (namespace_loop_grows _ _ _ _ H3).
  apply in_split in Hm as [l1 [l2 E]]. rewrite E in H2.
  apply forEach_returned_split in H2 as [a1 [a2 [_ [Hb Hrest]]]].
  apply (default_loop_grows _ _ _ _ Hrest).
  rewrite (proj2 (default_import_guard filePath m a1) Hne) in Hb.
  now apply addImport_adds in Hb.
Qed.

(** C9: the default require loop has no guard, and still the key can be
    missing.  In [inheritedThenSelfNamed] the default import of [toString],
    a name that every object inherits, throws before the require loop is
    reached: the declaration [const your-package-name = require(...)] is a
    match of the pattern, the error is logged, and the module name is not a
    key.  In the merged script, which does not reset [lastIndex], a file
    that only has this declaration loses the key as well when the file
    before it failed in the same loop. *)
Theorem self_named_require_after_inherited_import_is_lost :
  map (fun m => trim (group 1 (groups m)))
    (execAll requireDefaultPattern inheritedThenSelfNamed) = [targetPackageName]
  /\ findImports inheritedThenSelfNamed appJs [] = Threw []
  /\ walk [(appJs, inheritedThenSelfNamed)] initial = Some (initial, [appJs])
  /\ findImports (requireLine "your-package-name") appJs []
     = Returned [(targetPackageName, [appJs])]
  /\ LastIndex.walk
       [(lit "src/a.js", requireLine "toString");
        (lit "src/b.js", requireLine "your-package-name")]
       Merged.initial LastIndex.start
     = Some (Merged.initial, LastIndex.start, [lit "src/a.js"]).
Proof. repeat split; vm_compute; reflexivity. Qed.

(** Without such an import the key is there: a default require whose
    binding is the module name is registered like any other; the guard of
    the default import loop has no counterpart in the default require loop.
    In a file that imports no name that every object inherits,
    [findImports] returns, and the file is then in the set of the key
    [your-package-name] for every such match, whereas a default import of
    that name leaves the table untouched. *)
Theorem require_default_has_no_self_guard (content filePath : Str.t)
        (u : Obj.t fileSet) :
  (forall c, In c (importedNames content) -> ~ In c Obj.prototypeNames) ->
  exists u',
    findImports content filePath u = Returned u'
    /\ (forall m,
           In m (execAll requireDefaultPattern content) ->
           trim (group 1 (groups m)) = targetPackageName ->
           In filePath (valueOf u' targetPackageName))
    /\ (forall m u0,
           trim (group 1 (groups m)) = targetPackageName ->
           addRequireDefault filePath m u0
           = addImport filePath targetPackageName u0
           /\ addDefaultImport filePath m u0 = Returned u0).
Proof.
  intros Hn. destruct (findImports_returns content filePath u Hn) as [u' H].
  exists u'. split; [exact H |]. split.
  - intros m Hm Hname.
    destruct (findImports_returned _ _ _ _ H) as [u1 [u2 [u3 [u4 [H1 [H2 [H3 [H4 H5]]]]]]]].
    apply in_split in Hm as [l1 [l2 E]]. rewrite E in H5.
    apply forEach_returned_split in H5 as [a1 [a2 [_ [Hb Hrest]]]].
    apply (requireDefault_loop_grows _ _ _ _ Hrest).
    unfold addRequireDefault in Hb. rewrite Hname in Hb.
    now apply addImport_adds in Hb.
  - intros m u0 Hname. split.
    + unfold addRequireDefault. now rewrite Hname.
    + now apply default_import_guard.
Qed.

Lemma require_default_has_no_self_guard_witness :
  (forall c, In c (importedNames selfNamedImports) -> ~ In c Obj.prototypeNames)
  /\ findImports selfNamedImports appJs [] = Returned [(targetPackageName, [appJs])]
  /\ findImports (importLine "your-package-name") appJs [] = Returned []
  /\ exists u',
      findImports selfNamedImports appJs [] = Returned u'
      /\ In appJs (valueOf u' targetPackageName).
Proof.
  assert (forall c, In c (importedNames selfNamedImports) ->
                    ~ In c Obj.prototypeNames) as Hn.
  { apply no_inherited_name_check. vm_compute. reflexivity. }
  split; [exact Hn |].
  split; [vm_compute; reflexivity |]. split; [vm_compute; reflexivity |].
  destruct (require_default_has_no_self_guard selfNamedImports appJs [] Hn)
    as [u' [E [Hreq _]]].
  exists u'. split; [exact E |].
  apply (Hreq (JsMatch 0 54 [(1%nat, targetPackageName)])).
  - vm_compute. left. reflexivity.
  - vm_compute. reflexivity.
Defined.

(** ** The matcher *)

Lemma stepsTo_refl s : stepsTo s [] s.
Proof. repeat split. Qed.

Lemma stepsTo_trans s w1 s1 w2 s2 :
  stepsTo s w1 s1 -> stepsTo s1 w2 s2 -> stepsTo s (w1 ++ w2) s2.
Proof.
  intros [R1 [P1 V1]] [R2 [P2 V2]]. repeat split.
  - now rewrite R1, R2, app_assoc.
  - rewrite P2, P1, length_app. lia.
  - unfold lastOr in *. now rewrite fold_left_app, <- V1.
Qed.

Lemma stepsTo_advance s x t :
  rest s = x :: t -> stepsTo s [x] (advance x t s).
Proof. intros E. repeat split. exact E. Qed.

Lemma orElse_some (A : Type) (a b : option A) e :
  orElse a b = Some e -> a = Some e \/ b = Some e.
Proof. destruct a; simpl; intros H; [now left | now right]. Qed.

(** A single code unit. *)
Lemma chr_inv c k s e :
  matcher (Chr c) k s = Some e ->
  exists t, rest s = c :: t /\ k (advance c t s) = Some e.
Proof.
  simpl. destruct (rest s) as [|x t]; [discriminate |].
  destruct (N.eqb x c) eqn:E; [|discriminate].
  apply N.eqb_eq in E. subst x. intros H. now exists t.
Qed.

Lemma cls_inv neg items k s e :
  matcher (Cls neg items) k s = Some e ->
  exists x t, rest s = x :: t /\ inClass neg items x = true
              /\ k (advance x t s) = Some e.
Proof.
  simpl. destruct (rest s) as [|x t]; [discriminate |].
  destruct (inClass neg items x) eqn:E; [|discriminate].
  intros H. now exists x, t.
Qed.

(** A literal text. *)
Lemma lit_inv w k s e :
  matcher (Lit w) k s = Some e ->
  exists s', stepsTo s w s' /\ caps s' = caps s /\ k s' = Some e.
Proof.
  revert s. induction w as [|c w IH]; intros s; simpl Lit.
  - simpl. intros H. exists s. split; [apply stepsTo_refl | now split].
  - change (matcher (Seq (Chr c) (Lit w)) k s)
      with (matcher (Chr c) (matcher (Lit w) k) s).
    intros H. apply chr_inv in H as [t [E H]].
    apply IH in H as [s' [St [Hc Hk]]].
    exists s'. split; [| now split].
    apply (stepsTo_trans s [c] (advance c t s) w s');
      [now apply stepsTo_advance | assumption].
Qed.

(** The loop of a star over a class reads code units of the class. *)
Lemma starLoop_cls_inv neg items greedy k fuel s e :
  starLoop (matcher (Cls neg items)) greedy k fuel s = Some e ->
  exists w s', stepsTo s w s' /\ caps s' = caps s
               /\ Forall (fun c => inClass neg items c = true) w
               /\ k s' = Some e.
Proof.
  revert s. induction fuel as [|fuel IH]; intros s; simpl; [discriminate |].
  assert (forall r,
             match rest s with
             | [] => None
             | x :: s' =>
                 if inClass neg items x
                 then (fun s'0 => if pos s'0 =? pos s then None
                                  else starLoop (matcher (Cls neg items)) greedy k fuel s'0)
                        (advance x s' s)
                 else None
             end = r -> r = Some e ->
             exists w s', stepsTo s w s' /\ caps s' = caps s
                          /\ Forall (fun c => inClass neg items c = true) w
                          /\ k s' = Some e) as Again.
  { intros r <-. destruct (rest s) as [|x t] eqn:E; [discriminate |].
    destruct (inClass neg items x) eqn:Ex; [|discriminate].
    cbv beta. destruct (pos (advance x t s) =? pos s); [discriminate |].
    intros H. apply IH in H as [w [s' [St [Hc [Hw Hk]]]]].
    exists (x :: w), s'. split; [| split; [| split]].
    - apply (stepsTo_trans s [x] (advance x t s) w s');
        [now apply stepsTo_advance | assumption].
    - exact Hc.
    - now constructor.
    - assumption. }
  assert (k s = Some e ->
          exists w s', stepsTo s w s' /\ caps s' = caps s
                       /\ Forall (fun c => inClass neg items c = true) w
                       /\ k s' = Some e) as Stop.
  { intros H. exists [], s.
    split; [apply stepsTo_refl | split; [reflexivity | split]];
      [constructor | assumption]. }
  destruct greedy; intros H; apply orElse_some in H as [H | H];
    eauto.
Qed.

Lemma star_cls_inv neg items greedy k s e :
  matcher (Star greedy (Cls neg items)) k s = Some e ->
  exists w s', stepsTo s w s' /\ caps s' = caps s
               /\ Forall (fun c => inClass neg items c = true) w
               /\ k s' = Some e.
Proof. apply starLoop_cls_inv. Qed.

Lemma plus_cls_inv neg items k s e :
  matcher (Plus (Cls neg items)) k s = Some e ->
  exists w s', w <> [] /\ stepsTo s w s' /\ caps s' = caps s
               /\ Forall (fun c => inClass neg items c = true) w
               /\ k s' = Some e.
Proof.
  unfold Plus.
  change (matcher (Seq (Cls neg items) (Star true (Cls neg items))) k s)
    with (matcher (Cls neg items) (matcher (Star true (Cls neg items)) k) s).
  intros H. apply cls_inv in H as [x [t [E [Hx H]]]].
  apply star_cls_inv in H as [w [s' [St [Hc [Hw Hk]]]]].
  exists (x :: w), s'. split; [| split; [| split; [| split]]].
  - discriminate.
  - apply (stepsTo_trans s [x] (advance x t s) w s');
      [now apply stepsTo_advance | assumption].
  - exact Hc.
  - now constructor.
  - assumption.
Qed.

(** A negative look-ahead for one code unit of a class. *)
Lemma notAhead_cls_inv neg items k s e :
  matcher (NotAhead (Cls neg items)) k s = Some e ->
  k s = Some e
  /\ forall c t, rest s = c :: t -> inClass neg items c = false.
Proof.
  simpl. destruct (rest s) as [|x t].
  - intros H. split; [assumption | discriminate].
  - destruct (inClass neg items x) eqn:E; [discriminate |].
    intros H. split; [assumption |]. now intros c t' [= <- <-].
Qed.

Lemma notBehind_inv items k s e :
  matcher (NotBehind items) k s = Some e ->
  k s = Some e
  /\ forall c, prev s = Some c -> inClass false items c = false.
Proof.
  cbn [matcher]. destruct (prev s) as [c|].
  - destruct (inClass false items c) eqn:E; [discriminate |].
    intros H. split; [assumption |]. now intros c' [= <-].
  - intros H. split; [assumption | intros c Hc; discriminate].
Qed.

Lemma wordB_inv k s e :
  matcher WordB k s = Some e ->
  k s = Some e
  /\ xorb (isWordAt (prev s)) (isWordAt (hd_error (rest s))) = true.
Proof.
  simpl. destruct (xorb _ _); [| discriminate]. now split.
Qed.

(** The continuation is entered on the spot. *)
Ltac now_here :=
  split; [apply stepsTo_refl | split; [assumption | reflexivity]].

(** Whatever the pattern, the continuation is entered at a state reached by
    reading on from the start state; a pattern without groups leaves the
    captures alone. *)
Lemma matcher_reaches r :
  forall k s e,
    matcher r k s = Some e ->
    exists w s', stepsTo s w s' /\ k s' = Some e
                 /\ (noGroups r = true -> caps s' = caps s).
Proof.
  induction r as [| c | | neg items | r1 IH1 r2 IH2 | r1 IH1 r2 IH2
                 | greedy r1 IH1 | n r1 IH1 | r1 IH1 | items | | |];
    intros k s e.
  - simpl. intros H. exists [], s. now_here.
  - intros H. apply chr_inv in H as [t [E H]].
    exists [c], (advance c t s).
    split; [now apply stepsTo_advance | split; [assumption | reflexivity]].
  - simpl. destruct (rest s) as [|x t] eqn:E; [discriminate |].
    destruct (isLineTerminator x); [discriminate |].
    intros H. exists [x], (advance x t s).
    split; [now apply stepsTo_advance | split; [assumption | reflexivity]].
  - intros H. apply cls_inv in H as [x [t [E [_ H]]]].
    exists [x], (advance x t s).
    split; [now apply stepsTo_advance | split; [assumption | reflexivity]].
  - simpl. intros H.
    apply IH1 in H as [w1 [s1 [St1 [H G1]]]].
    apply IH2 in H as [w2 [s2 [St2 [H G2]]]].
    exists (w1 ++ w2), s2. split; [eapply stepsTo_trans; eauto |].
    split; [assumption |].
    intros Hg. apply andb_true_iff in Hg as [Hg1 Hg2].
    now rewrite G2, G1.
  - simpl. intros H. apply orElse_some in H as [H | H].
    + apply IH1 in H as [w [s' [St [H G]]]]. exists w, s'.
      split; [assumption | split; [assumption |]].
      intros Hg. apply andb_true_iff in Hg as [Hg1 Hg2]. auto.
    + apply IH2 in H as [w [s' [St [H G]]]]. exists w, s'.
      split; [assumption | split; [assumption |]].
      intros Hg. apply andb_true_iff in Hg as [Hg1 Hg2]. auto.
  - cbn [matcher noGroups]. generalize (S (List.length (rest s))).
    intros fuel. revert s.
    induction fuel as [|fuel IHf]; intros s; simpl; [discriminate |].
    assert (k s = Some e ->
            exists w s', stepsTo s w s' /\ k s' = Some e
                         /\ (noGroups r1 = true -> caps s' = caps s)) as Stop.
    { intros H. exists [], s. now_here. }
    assert (matcher r1
              (fun s' => if pos s' =? pos s then None
                         else starLoop (matcher r1) greedy k fuel s') s = Some e ->
            exists w s', stepsTo s w s' /\ k s' = Some e
                         /\ (noGroups r1 = true -> caps s' = caps s)) as Again.
    { intros H. apply IH1 in H as [w1 [s1 [St1 [H G1]]]].
      destruct (pos s1 =? pos s); [discriminate |].
      apply IHf in H as [w2 [s2 [St2 [H G2]]]].
      exists (w1 ++ w2), s2. split; [eapply stepsTo_trans; eauto |].
      split; [assumption |]. intros Hg. now rewrite G2, G1. }
    destruct greedy; intros H; apply orElse_some in H as [H | H]; auto.
  - simpl. intros H. apply IH1 in H as [w [s1 [St [H _]]]].
    exists w, (setCap n (firstn (pos s1 - pos s) (rest s)) s1).
    split; [exact St |]. split; [assumption | discriminate].
  - simpl. destruct (matcher r1 Some s); [discriminate |].
    intros H. exists [], s. now_here.
  - intros H. apply notBehind_inv in H as [H _].
    exists [], s. now_here.
  - intros H. apply wordB_inv in H as [H _].
    exists [], s. now_here.
  - simpl. destruct (prev s); [discriminate |].
    intros H. exists [], s. now_here.
  - simpl. destruct (rest s); [| discriminate].
    intros H. exists [], s. now_here.
Qed.

(** ** The scan *)

Lemma lastOr_app p w1 w2 : lastOr p (w1 ++ w2) = lastOr (lastOr p w1) w2.
Proof. unfold lastOr. apply fold_left_app. Qed.

(** [exec] finds its match at some position at or after the current one. *)
Lemma search_inv r pre s m e :
  search r (lastOr None pre) s (List.length pre) = Some (m, e) ->
  exists skipped suf,
    s = skipped ++ suf
    /\ index m = List.length (pre ++ skipped)
    /\ matcher r Some (stateAt (pre ++ skipped) suf) = Some e
    /\ endIndex m = pos e /\ groups m = caps e.
Proof.
  revert pre. induction s as [|c s IH]; intros pre; simpl.
  - destruct (matcher r Some (MState (lastOr None pre) [] (List.length pre) []))
      as [e0|] eqn:E; [| discriminate].
    intros [= <- <-]. exists [], []. rewrite (app_nil_r pre). simpl.
    split; [reflexivity | split; [reflexivity | split; [exact E | now split]]].
  - destruct (matcher r Some (MState (lastOr None pre) (c :: s) (List.length pre) []))
      as [e0|] eqn:E.
    + intros [= <- <-]. exists [], (c :: s). rewrite (app_nil_r pre). simpl.
      split; [reflexivity | split; [reflexivity | split; [exact E | now split]]].
    + intros H.
      assert (search r (lastOr None (pre ++ [c])) s (List.length (pre ++ [c]))
              = Some (m, e)) as H'.
      { rewrite lastOr_app, length_app. simpl.
        replace (List.length pre + 1) with (S (List.length pre)) by lia.
        exact H. }
      apply IH in H' as [skipped [suf [Es [Ei [Em [Ee Eg]]]]]].
      exists (c :: skipped), suf. rewrite <- app_assoc in Ei, Em. simpl in Ei, Em.
      split; [simpl; now rewrite Es |].
      split; [exact Ei | split; [exact Em | now split]].
Qed.

(** Every match that the scan of a text reports is a match of the pattern at
    its index in that text. *)
Lemma scan_inv r fuel :
  forall pre s m,
    In m (scan r fuel (lastOr None pre) s (List.length pre)) ->
    exists pre' suf e,
      pre ++ s = pre' ++ suf
      /\ index m = List.length pre'
      /\ matcher r Some (stateAt pre' suf) = Some e
      /\ endIndex m = pos e /\ groups m = caps e.
Proof.
  induction fuel as [|fuel IH]; intros pre s m; simpl; [contradiction |].
  destruct (search r (lastOr None pre) s (List.length pre)) as [[m0 e0]|] eqn:E;
    [| contradiction].
  apply search_inv in E as [skipped [suf [Es [Ei [Em [Ee Eg]]]]]].
  intros [<- | Hin].
  - exists (pre ++ skipped), suf, e0. rewrite <- app_assoc, Es.
    split; [reflexivity | split; [exact Ei | split; [exact Em | now split]]].
  - destruct (endIndex m0 =? index m0); [contradiction |].
    destruct (matcher_reaches r Some _ _ Em) as [w [s' [[R [P V]] [[= ->] _]]]].
    simpl in R, P, V.
    assert (prev e0 = lastOr None ((pre ++ skipped) ++ w)) as Hp
        by now rewrite lastOr_app.
    assert (pos e0 = List.length ((pre ++ skipped) ++ w)) as Hl
        by (rewrite P, (length_app (pre ++ skipped) w); lia).
    rewrite Hp, Hl in Hin. apply IH in Hin as [pre' [suf' [e [Ec H]]]].
    exists pre', suf', e. split; [| exact H].
    rewrite <- Ec, Es, R, <- !app_assoc. reflexivity.
Qed.

Lemma execAll_inv r content m :
  In m (execAll r content) ->
  exists pre suf e,
    content = pre ++ suf
    /\ index m = List.length pre
    /\ matcher r Some (stateAt pre suf) = Some e
    /\ endIndex m = pos e /\ groups m = caps e.
Proof. intros H. apply (scan_inv r _ [] content m H). Qed.

(** ** The fuel of the loops is enough *)

(** A pattern that consumes hands on a state further on in the text. *)
Lemma matcher_progress r :
  forall k s e,
    matcher r k s = Some e ->
    exists w s', stepsTo s w s' /\ k s' = Some e
                 /\ (consumes r = true -> w <> []).
Proof.
  induction r as [| c | | neg items | r1 IH1 r2 IH2 | r1 IH1 r2 IH2
                 | greedy r1 IH1 | n r1 IH1 | r1 IH1 | items | | |];
    intros k s e H;
    try (apply matcher_reaches in H as [w [s' [St [H _]]]];
         exists w, s'; split; [exact St | split; [exact H | discriminate]]).
  - apply chr_inv in H as [t [E H]]. exists [c], (advance c t s).
    split; [now apply stepsTo_advance | split; [assumption | discriminate]].
  - simpl in H. destruct (rest s) as [|x t] eqn:E; [discriminate |].
    destruct (isLineTerminator x); [discriminate |].
    exists [x], (advance x t s).
    split; [now apply stepsTo_advance | split; [assumption | discriminate]].
  - apply cls_inv in H as [x [t [E [_ H]]]]. exists [x], (advance x t s).
    split; [now apply stepsTo_advance | split; [assumption | discriminate]].
  - simpl in H.
    apply IH1 in H as [w1 [s1 [St1 [H G1]]]].
    apply IH2 in H as [w2 [s2 [St2 [H G2]]]].
    exists (w1 ++ w2), s2. split; [eapply stepsTo_trans; eauto |].
    split; [assumption |]. simpl. intros Hc E.
    apply app_eq_nil in E as [-> ->].
    apply orb_true_iff in Hc as [Hc | Hc]; [now apply G1 | now apply G2].
  - simpl in H. apply orElse_some in H as [H | H].
    + apply IH1 in H as [w [s' [St [H G]]]]. exists w, s'.
      split; [assumption | split; [assumption |]].
      simpl. intros Hc. apply andb_true_iff in Hc as [Hc _]. auto.
    + apply IH2 in H as [w [s' [St [H G]]]]. exists w, s'.
      split; [assumption | split; [assumption |]].
      simpl. intros Hc. apply andb_true_iff in Hc as [_ Hc]. auto.
  - simpl in H. apply IH1 in H as [w [s1 [St [H G]]]].
    exists w, (setCap n (firstn (pos s1 - pos s) (rest s)) s1).
    split; [exact St | split; [assumption | exact G]].
Qed.

(** The matcher only asks its continuation about states further on. *)
Lemma matcher_local r :
  forall k1 k2 s,
    (forall w s', stepsTo s w s' -> k1 s' = k2 s') ->
    matcher r k1 s = matcher r k2 s.
Proof.
  induction r as [| c | | neg items | r1 IH1 r2 IH2 | r1 IH1 r2 IH2
                 | greedy r1 IH1 | n r1 IH1 | r1 IH1 | items | | |];
    intros k1 k2 s Hk; cbn [matcher];
    try (rewrite (Hk [] s (stepsTo_refl s)); reflexivity).
  - destruct (rest s) as [|x t] eqn:E; [reflexivity |].
    now rewrite (Hk [x] _ (stepsTo_advance s x t E)).
  - destruct (rest s) as [|x t] eqn:E; [reflexivity |].
    now rewrite (Hk [x] _ (stepsTo_advance s x t E)).
  - destruct (rest s) as [|x t] eqn:E; [reflexivity |].
    now rewrite (Hk [x] _ (stepsTo_advance s x t E)).
  - apply IH1. intros w1 s1 St1. apply IH2. intros w2 s2 St2.
    apply (Hk (w1 ++ w2)). eapply stepsTo_trans; eauto.
  - now rewrite (IH1 k1 k2 s Hk), (IH2 k1 k2 s Hk).
  - generalize (S (List.length (rest s))). intros fuel. revert s Hk.
    induction fuel as [|fuel IHf]; intros s Hk; cbn [starLoop]; [reflexivity |].
    rewrite (Hk [] s (stepsTo_refl s)).
    assert (matcher r1
              (fun s' => if pos s' =? pos s then None
                         else starLoop (matcher r1) greedy k1 fuel s') s
            = matcher r1
                (fun s' => if pos s' =? pos s then None
                           else starLoop (matcher r1) greedy k2 fuel s') s) as ->.
    { apply IH1. intros w1 s1 St1. destruct (pos s1 =? pos s); [reflexivity |].
      apply IHf. intros w2 s2 St2. apply (Hk (w1 ++ w2)).
      eapply stepsTo_trans; eauto. }
    reflexivity.
  - apply IH1. intros w s1 St. apply (Hk w).
    destruct St as [R [P V]]. repeat split; assumption.
Qed.

(** More fuel than the remaining input has code units changes nothing in
    the loop of a star: the fuel that [matcher] gives it never runs out. *)
Lemma starLoop_fuel r greedy k :
  forall n1 n2 s,
    List.length (rest s) < n1 -> List.length (rest s) < n2 ->
    starLoop (matcher r) greedy k n1 s = starLoop (matcher r) greedy k n2 s.
Proof.
  induction n1 as [|n1 IH]; intros n2 s H1 H2; [lia |].
  destruct n2 as [|n2]; [lia |]. cbn [starLoop].
  assert (matcher r
            (fun s' => if pos s' =? pos s then None
                       else starLoop (matcher r) greedy k n1 s') s
          = matcher r
              (fun s' => if pos s' =? pos s then None
                         else starLoop (matcher r) greedy k n2 s') s) as ->.
  { apply matcher_local. intros w s' [R [P _]].
    destruct (pos s' =? pos s) eqn:E; [reflexivity |].
    apply Nat.eqb_neq in E.
    assert (List.length (rest s) = List.length w + List.length (rest s')) as L
        by now rewrite R, length_app.
    assert (w <> []) as Hw by (intros ->; simpl in P; lia).
    destruct w as [|c w]; [contradiction |]. simpl in L.
    apply IH; lia. }
  reflexivity.
Qed.

(** A match of a pattern that consumes ends after its start, so the scan
    goes on after it, and with fuel over the length of the text the scan
    stops only when [exec] finds nothing more. *)
Lemma search_progress r p s i m e :
  consumes r = true ->
  search r p s i = Some (m, e) ->
  index m < endIndex m /\ List.length (rest e) < List.length s.
Proof.
  intros Hc. revert p i. induction s as [|c s IH]; intros p i; simpl.
  - destruct (matcher r Some (MState p [] i [])) as [e0|] eqn:E; [| discriminate].
    apply matcher_progress in E as [w [s' [[R [P _]] [[= ->] G]]]].
    specialize (G Hc). simpl in R. destruct w; [contradiction | discriminate].
  - destruct (matcher r Some (MState p (c :: s) i [])) as [e0|] eqn:E.
    + apply matcher_progress in E as [w [s' [[R [P _]] [[= ->] G]]]].
      specialize (G Hc). intros [= <- <-]. simpl in *.
      destruct w as [|x w]; [contradiction |].
      assert (List.length (c :: s) = List.length ((x :: w) ++ rest e0)) as L
          by now rewrite R.
      rewrite length_app in L. simpl in *. lia.
    + intros H. apply IH in H as [H1 H2]. split; [exact H1 | lia].
Qed.

Lemma scan_fuel r :
  consumes r = true ->
  forall n1 n2 p s i,
    List.length s < n1 -> List.length s < n2 ->
    scan r n1 p s i = scan r n2 p s i.
Proof.
  intros Hc. induction n1 as [|n1 IH]; intros n2 p s i H1 H2; [lia |].
  destruct n2 as [|n2]; [lia |]. cbn [scan].
  destruct (search r p s i) as [[m e]|] eqn:E; [| reflexivity].
  destruct (search_progress _ _ _ _ _ _ Hc E) as [Hi Hl].
  assert ((endIndex m =? index m) = false) as -> by (apply Nat.eqb_neq; lia).
  f_equal. apply IH; lia.
Qed.

(** ** The patterns built from a name *)

Lemma splice_plain name : isPlain name = true -> splice name = Some (Lit name).
Proof.
  induction name as [|c name IH]; [reflexivity |].
  unfold isPlain. cbn [forallb splice]. fold (isPlain name).
  intros H. apply andb_true_iff in H as [Hc Hn].
  rewrite (IH Hn). unfold spliceChar.
  apply negb_true_iff in Hc.
  apply orb_false_iff in Hc as [Hc H3]. apply orb_false_iff in Hc as [Hc H2].
  apply orb_false_iff in Hc as [H0 H1].
  now rewrite H0, H1, H2, H3.
Qed.

Lemma stateAt_rest pre suf : rest (stateAt pre suf) = suf.
Proof. reflexivity. Qed.


Lemma firstn_read w s s' :
  stepsTo s w s' -> firstn (pos s' - pos s) (rest s) = w.
Proof.
  intros [R [P _]]. rewrite R, P.
  replace (List.length w + pos s - pos s) with (List.length w + 0) by lia.
  rewrite firstn_app_2. simpl. apply app_nil_r.
Qed.

(** The captured member name of a namespace pattern. *)
Lemma member_group_inv k s e :
  matcher (Group 1 memberName) k s = Some e ->
  exists w s', w <> [] /\ stepsTo s w s'
               /\ Forall (fun c => isMemberChar c = true) w
               /\ k (setCap 1 w s') = Some e /\ caps s' = caps s.
Proof.
  cbn [matcher]. intros H.
  apply plus_cls_inv in H as [w [s' [Hne [St [Hc [Hw H]]]]]].
  rewrite (firstn_read _ _ _ St) in H.
  exists w, s'.
  split; [exact Hne | split; [exact St | split; [| split; [exact H | exact Hc]]]].
  exact Hw.
Qed.


(** A namespace call match: the alias, a dot, the captured member name,
    white space if any, and [(]. *)
Lemma namespaceFuncPattern_inv namespaceAlias s e :
  caps s = [] ->
  matcher (namespaceFuncPattern (Lit namespaceAlias)) Some s = Some e ->
  exists ws post,
    rest s = namespaceAlias ++ ch "." :: group 1 (caps e) ++ ws ++ ch "(" :: post
    /\ group 1 (caps e) <> []
    /\ Forall (fun c => isMemberChar c = true) (group 1 (caps e))
    /\ Forall (fun c => isSpace c = true) ws.
Proof.
  intros Hcaps. unfold namespaceFuncPattern.
  change (matcher (Lit namespaceAlias >> Chr (ch ".") >> Group 1 memberName
                   >> Star true space >> Chr (ch "(")) Some s)
    with (matcher (Lit namespaceAlias)
            (matcher (Chr (ch "."))
               (matcher (Group 1 memberName)
                  (matcher (Star true space)
                     (matcher (Chr (ch "(")) Some)))) s).
  intros H.
  apply lit_inv in H as [s1 [[R1 _] [C1 H]]].
  apply chr_inv in H as [t2 [E2 H]].
  apply member_group_inv in H as [w [s3 [Hne [[R3 _] [Hw [H C3]]]]]].
  apply star_cls_inv in H as [ws [s4 [[R4 _] [C4 [Hws H]]]]].
  apply chr_inv in H as [t5 [E5 [= <-]]].
  simpl in C1, C3, C4, R1, R3, R4.
  cbn [caps advance]. rewrite C4. cbn [group Nat.eqb].
  exists ws, t5. split; [| split; [| split]]; try assumption.
  - rewrite R1, E2, R3, R4, E5. reflexivity.
  - eapply Forall_impl; [| exact Hws]. intros c Hc.
    unfold inClass in Hc. simpl in Hc. now rewrite orb_false_r in Hc.
Qed.

(** A call match: the name at a word boundary, not right after a dot or
    [<], then white space if any, and [(]. *)
Lemma functionCallPattern_inv name s e :
  matcher (functionCallPattern (Lit name)) Some s = Some e ->
  exists ws post,
    rest s = name ++ ws ++ ch "(" :: post
    /\ Forall (fun c => isSpace c = true) ws
    /\ prev s <> Some (ch ".") /\ prev s <> Some (ch "<")
    /\ xorb (isWordAt (prev s)) (isWordAt (hd_error (rest s))) = true.
Proof.
  unfold functionCallPattern.
  change (matcher (NotBehind [CChar (ch "."); CChar (ch "<")] >> WordB
                   >> Lit name >> Star true space >> Chr (ch "(")) Some s)
    with (matcher (NotBehind [CChar (ch "."); CChar (ch "<")])
            (matcher WordB
               (matcher (Lit name)
                  (matcher (Star true space)
                     (matcher (Chr (ch "(")) Some)))) s).
  intros H.
  apply notBehind_inv in H as [H Hb].
  apply wordB_inv in H as [H Hw].
  apply lit_inv in H as [s1 [[R1 _] [_ H]]].
  apply star_cls_inv in H as [ws [s2 [[R2 _] [_ [Hws H]]]]].
  apply chr_inv in H as [t [E _]].
  exists ws, t. split; [| split; [| split; [| split]]].
  - rewrite R1, R2, E. reflexivity.
  - eapply Forall_impl; [| exact Hws]. intros c Hc.
    unfold inClass in Hc. simpl in Hc. now rewrite orb_false_r in Hc.
  - intros Hp. specialize (Hb _ Hp). discriminate.
  - intros Hp. specialize (Hb _ Hp). discriminate.
  - exact Hw.
Qed.

(** ** Pushing occurrences *)

Lemma pushes_none f t : pushes f t t (fun _ => 0).
Proof. intros k. simpl. now rewrite app_nil_r. Qed.

Lemma pushes_trans f t1 t2 t3 a b :
  pushes f t1 t2 a -> pushes f t2 t3 b -> pushes f t1 t3 (fun k => a k + b k).
Proof.
  intros H1 H2 k. rewrite (H2 k), (H1 k), <- app_assoc, repeat_app. reflexivity.
Qed.

Lemma pushes_ext f t t' a b :
  (forall k, a k = b k) -> pushes f t t' a -> pushes f t t' b.
Proof. intros E H k. rewrite <- E. apply H. Qed.

Lemma pushes_In f t t' a :
  pushes f t t' a ->
  forall k g, In g (valueOf t' k) <-> In g (valueOf t k) \/ (g = f /\ 0 < a k).
Proof.
  intros H k g. rewrite (H k), in_app_iff. split.
  - intros [Hg | Hg]; [now left | right].
    apply repeat_spec in Hg as Hg'. split; [assumption |].
    destruct (a k); [contradiction | lia].
  - intros [Hg | [-> Hg]]; [now left | right].
    destruct (a k); [lia | now left].
Qed.

Lemma count_app x l1 l2 : count x (l1 ++ l2) = count x l1 + count x l2.
Proof. unfold count. now rewrite filter_app, length_app. Qed.

Lemma count_repeat_same x n : count x (repeat x n) = n.
Proof.
  unfold count. induction n as [|n IH]; simpl; [reflexivity |].
  rewrite str_eqb_refl. simpl. now rewrite IH.
Qed.

Lemma count_repeat_other x y n : x <> y -> count x (repeat y n) = 0.
Proof.
  intros Hne. unfold count. induction n as [|n IH]; simpl; [reflexivity |].
  assert (Str.eqb x y = false) as -> by now apply str_eqb_neq.
  exact IH.
Qed.

Lemma count_pos_In x l : 0 < count x l <-> In x l.
Proof.
  unfold count. induction l as [|y l IH]; simpl.
  - split; [lia | contradiction].
  - destruct (Str.eqb x y) eqn:E; simpl.
    + apply str_eqb_eq in E. subst. split; [now left | lia].
    + apply str_eqb_neq in E. rewrite IH. split; [now right |].
      intros [H | H]; [congruence | assumption].
Qed.

Lemma pushes_count f t t' a :
  pushes f t t' a ->
  forall k, count f (valueOf t' k) = count f (valueOf t k) + a k.
Proof. intros H k. now rewrite (H k), count_app, count_repeat_same. Qed.

Lemma pushes_count_other f t t' a g :
  pushes f t t' a -> g <> f ->
  forall k, count g (valueOf t' k) = count g (valueOf t k).
Proof.
  intros H Hne k. rewrite (H k), count_app, count_repeat_other by assumption. lia.
Qed.

(** What [pushInstances] does when it returns, and when it throws. *)
Lemma pushInstances_returned f key n t t' :
  pushInstances f key n t = Returned t' ->
  pushes f t t' (fun k => if Str.eqb key k then n else 0).
Proof.
  unfold pushInstances. destruct n as [|n].
  - intros [= <-] k. destruct (Str.eqb key k); simpl; now rewrite app_nil_r.
  - destruct (Obj.lookup t key) as [a| |] eqn:E; try discriminate.
    + apply lookup_own in E. intros [= <-] k.
      destruct (Str.eqb key k) eqn:Ek.
      * apply str_eqb_eq in Ek. subst k.
        now rewrite valueOf_set_same, (valueOf_get _ _ _ _ E).
      * apply str_eqb_neq in Ek. rewrite valueOf_set_other by assumption.
        simpl. now rewrite app_nil_r.
    + apply lookup_absent in E. intros [= <-] k.
      destruct (Str.eqb key k) eqn:Ek.
      * apply str_eqb_eq in Ek. subst k.
        now rewrite valueOf_set_same, (valueOf_absent _ _ _ E).
      * apply str_eqb_neq in Ek. rewrite valueOf_set_other by assumption.
        simpl. now rewrite app_nil_r.
Qed.

Lemma pushInstances_threw f key n t t' :
  pushInstances f key n t = Threw t' -> t' = t.
Proof.
  unfold pushInstances. destruct n as [|n]; [discriminate |].
  destruct (Obj.lookup t key); try discriminate. now intros [= <-].
Qed.

Lemma pushInstances_modelled f key n t : pushInstances f key n t <> Unmodelled.
Proof.
  unfold pushInstances. destruct n as [|n]; [discriminate |].
  destruct (Obj.lookup t key); discriminate.
Qed.

(** A loop that pushes once for each name of a list: a name gets at most as
    many occurrences as it has in the list, and exactly as many when the
    loop returns. *)
Lemma push_loop_spec f names :
  forall t r t',
    forEach (fun name => pushInstances f name 1) names t = r ->
    finalState r = Some t' ->
    exists a,
      pushes f t t' a
      /\ (forall k, a k <= count k names)
      /\ (r = Returned t' -> forall k, a k = count k names).
Proof.
  induction names as [|name names IH]; intros t r t' Hr Hf.
  - simpl in Hr. subst r. injection Hf as <-.
    exists (fun _ => 0). split; [apply pushes_none |]. split; auto.
  - cbn [forEach] in Hr. destruct (pushInstances f name 1 t) as [t1|t1|] eqn:E.
    + destruct (IH t1 r t' Hr Hf) as [a [Ha [Hle Heq]]].
      apply pushInstances_returned in E.
      exists (fun k => (if Str.eqb name k then 1 else 0) + a k).
      split; [eapply pushes_trans; eauto |].
      assert (forall k, count k (name :: names)
                        = (if Str.eqb name k then 1 else 0) + count k names) as Hc.
      { intros k. unfold count. simpl. rewrite (str_eqb_sym k name).
        destruct (Str.eqb name k); reflexivity. }
      split.
      * intros k. rewrite Hc. specialize (Hle k). lia.
      * intros Hret k. rewrite Hc, (Heq Hret k). reflexivity.
    + subst r. injection Hf as <-. apply pushInstances_threw in E. subst t1.
      exists (fun _ => 0). split; [apply pushes_none |].
      split; [intros k; lia | discriminate].
    + now apply pushInstances_modelled in E.
Qed.

(** ** One symbol, one file *)

Lemma splice_noGroups name : forall re, splice name = Some re -> noGroups re = true.
Proof.
  induction name as [|c name IH]; simpl; intros re.
  - now intros [= <-].
  - destruct (spliceChar c) as [a|] eqn:Ea; [| discriminate].
    destruct (splice name) as [b|]; [| discriminate].
    intros [= <-]. simpl. rewrite (IH b eq_refl), andb_true_r.
    unfold spliceChar in Ea.
    destruct (isOtherSyntax c); [discriminate |].
    destruct (N.eqb c (ch ".")); [now injection Ea as <- |].
    destruct (N.eqb c (ch "^")); [now injection Ea as <- |].
    destruct (N.eqb c (ch "$")); now injection Ea as <-.
Qed.

(** Whatever the alias pattern, the member name that a namespace pattern
    captures is made of [[A-Za-z0-9_]]. *)
Lemma namespaceJSX_member re s e :
  noGroups re = true -> caps s = [] ->
  matcher (namespaceJSXPattern re) Some s = Some e ->
  Forall (fun c => isMemberChar c = true) (group 1 (caps e)).
Proof.
  intros Hre Hcaps. unfold namespaceJSXPattern.
  change (matcher (Chr (ch "<") >> re >> Chr (ch ".")
                   >> Group 1 memberName >> NotAhead wordOrHyphen >> tagTail)
            Some s)
    with (matcher (Chr (ch "<"))
            (matcher re
               (matcher (Chr (ch "."))
                  (matcher (Group 1 memberName)
                     (matcher (NotAhead wordOrHyphen)
                        (matcher tagTail Some))))) s).
  intros H. apply chr_inv in H as [t [E H]].
  apply matcher_reaches in H as [w1 [s1 [_ [H C1]]]]. specialize (C1 Hre).
  apply chr_inv in H as [t2 [E2 H]].
  apply member_group_inv in H as [w [s3 [Hne [_ [Hw [H C3]]]]]].
  apply notAhead_cls_inv in H as [H _].
  apply matcher_reaches in H as [w4 [s4 [_ [[= ->] G]]]].
  specialize (G eq_refl). simpl in G, C1, C3.
  rewrite G, C3, C1, Hcaps. exact Hw.
Qed.

Lemma namespaceFunc_member re s e :
  noGroups re = true -> caps s = [] ->
  matcher (namespaceFuncPattern re) Some s = Some e ->
  Forall (fun c => isMemberChar c = true) (group 1 (caps e)).
Proof.
  intros Hre Hcaps. unfold namespaceFuncPattern.
  change (matcher (re >> Chr (ch ".") >> Group 1 memberName
                   >> Star true space >> Chr (ch "(")) Some s)
    with (matcher re
            (matcher (Chr (ch "."))
               (matcher (Group 1 memberName)
                  (matcher (Star true space)
                     (matcher (Chr (ch "(")) Some)))) s).
  intros H.
  apply matcher_reaches in H as [w1 [s1 [_ [H C1]]]]. specialize (C1 Hre).
  apply chr_inv in H as [t2 [E2 H]].
  apply member_group_inv in H as [w [s3 [Hne [_ [Hw [H C3]]]]]].
  apply star_cls_inv in H as [ws [s4 [_ [C4 [_ H]]]]].
  apply chr_inv in H as [t5 [E5 [= <-]]].
  cbn [caps advance]. rewrite C4. cbn [caps setCap group Nat.eqb]. exact Hw.
Qed.

(** The names that a namespace key pushes to. *)
Lemma namespace_names_owned re namespaceAlias content pattern name :
  noGroups re = true ->
  (forall s e, caps s = [] -> matcher pattern Some s = Some e ->
               Forall (fun c => isMemberChar c = true) (group 1 (caps e))) ->
  In name (map (fullComponentName namespaceAlias) (execAll pattern content)) ->
  exists member,
    name = namespaceAlias ++ ch "." :: member
    /\ Forall (fun c => isMemberChar c = true) member.
Proof.
  intros Hre Hm Hin. apply in_map_iff in Hin as [m [<- Hin]].
  apply execAll_inv in Hin as [pre [suf [e [_ [_ [Hmatch [_ Hg]]]]]]].
  exists (group 1 (groups m)). split; [reflexivity |].
  rewrite Hg. apply (Hm (stateAt pre suf) e eq_refl Hmatch).
Qed.

Lemma usedAsJSX_spec jsx name f b :
  usedAsJSX jsx name f = Some b -> b = includes (valueOf jsx name) f.
Proof.
  unfold usedAsJSX. destruct (Obj.lookup jsx name) as [a| |] eqn:E; try discriminate.
  - apply lookup_own in E. intros [= <-]. now rewrite (valueOf_get _ _ _ _ E).
  - apply lookup_absent in E. intros [= <-]. now rewrite (valueOf_absent _ _ _ E).
Qed.

(** What the loop body does for a plain key. *)
Lemma plainUsages_spec content f name re st r st' :
  splice name = Some re ->
  plainUsages content f name st = r -> finalState r = Some st' ->
  componentUsage st' = componentUsage st
  /\ exists a b,
      pushes f (componentInstancesJSX st) (componentInstancesJSX st')
        (fun k => if Str.eqb name k then a else 0)
      /\ pushes f (componentInstancesFunc st) (componentInstancesFunc st')
           (fun k => if Str.eqb name k then b else 0)
      /\ (includes (valueOf (componentInstancesJSX st') name) f = true -> b = 0)
      /\ (r = Returned st' ->
          a = List.length (extractJSXUsage content re)
          /\ b = if includes (valueOf (componentInstancesJSX st') name) f
                 then 0
                 else List.length (execAll (functionCallPattern re) content)).
Proof.
  intros Hs Hr Hf. unfold plainUsages in Hr. rewrite Hs in Hr.
  assert (forall t, pushes f t t (fun k => if Str.eqb name k then 0 else 0)) as P0.
  { intros t k. destruct (Str.eqb name k); simpl; now rewrite app_nil_r. }
  destruct (pushInstances f name (List.length (extractJSXUsage content re))
              (componentInstancesJSX st)) as [jsx|jsx|] eqn:Ej.
  - apply pushInstances_returned in Ej.
    destruct (usedAsJSX jsx name f) as [[|]|] eqn:Eu.
    + apply usedAsJSX_spec in Eu. subst r. injection Hf as <-. simpl.
      split; [reflexivity |]. exists (List.length (extractJSXUsage content re)), 0.
      split; [exact Ej |]. split; [apply P0 |]. split; [reflexivity |].
      intros _. split; [reflexivity |]. now rewrite <- Eu.
    + apply usedAsJSX_spec in Eu.
      destruct (pushInstances f name
                  (List.length (execAll (functionCallPattern re) content))
                  (componentInstancesFunc st)) as [func|func|] eqn:Ef.
      * apply pushInstances_returned in Ef. subst r. injection Hf as <-. simpl.
        split; [reflexivity |].
        exists (List.length (extractJSXUsage content re)),
          (List.length (execAll (functionCallPattern re) content)).
        split; [exact Ej |]. split; [exact Ef |].
        split; [intros H; congruence |].
        intros _. split; [reflexivity |]. now rewrite <- Eu.
      * apply pushInstances_threw in Ef. subst func r. injection Hf as <-. simpl.
        split; [reflexivity |].
        exists (List.length (extractJSXUsage content re)), 0.
        split; [exact Ej |]. split; [apply P0 |]. split; [reflexivity |].
        discriminate.
      * now apply pushInstances_modelled in Ef.
    + subst r. injection Hf as <-. simpl.
      split; [reflexivity |]. exists (List.length (extractJSXUsage content re)), 0.
      split; [exact Ej |]. split; [apply P0 |]. split; [reflexivity |].
      discriminate.
  - apply pushInstances_threw in Ej. subst jsx r. injection Hf as <-. simpl.
    split; [reflexivity |]. exists 0, 0.
    split; [apply P0 |]. split; [apply P0 |]. split; [reflexivity |].
    discriminate.
  - now apply pushInstances_modelled in Ej.
Qed.

(** What the loop body does for a namespace key. *)
Lemma namespaceUsages_spec content f namespaceAlias re st r st' :
  splice namespaceAlias = Some re ->
  namespaceUsages content f namespaceAlias st = r -> finalState r = Some st' ->
  let jsxNames :=
    map (fullComponentName namespaceAlias)
      (execAll (namespaceJSXPattern re) content) in
  let funcNames :=
    filter (fun name => negb (includes jsxNames name))
      (map (fullComponentName namespaceAlias)
         (execAll (namespaceFuncPattern re) content)) in
  componentUsage st' = componentUsage st
  /\ exists a b,
      pushes f (componentInstancesJSX st) (componentInstancesJSX st') a
      /\ pushes f (componentInstancesFunc st) (componentInstancesFunc st') b
      /\ (forall k, a k <= count k jsxNames)
      /\ (forall k, b k <= count k funcNames)
      /\ (r = Returned st' ->
          forall k, a k = count k jsxNames /\ b k = count k funcNames).
Proof.
  intros Hs Hr Hf jsxNames funcNames.
  unfold namespaceUsages in Hr. rewrite Hs in Hr.
  fold jsxNames in Hr. fold funcNames in Hr.
  destruct (forEach (fun name => pushInstances f name 1) jsxNames
              (componentInstancesJSX st)) as [jsx|jsx|] eqn:Ej.
  - destruct (push_loop_spec f jsxNames _ _ jsx Ej eq_refl) as [a [Pa [La Ea]]].
    destruct (forEach (fun name => pushInstances f name 1) funcNames
                (componentInstancesFunc st)) as [func|func|] eqn:Ef.
    + destruct (push_loop_spec f funcNames _ _ func Ef eq_refl) as [b [Pb [Lb Eb]]].
      subst r. injection Hf as <-. simpl.
      split; [reflexivity |]. exists a, b. repeat split; auto.
    + destruct (push_loop_spec f funcNames _ _ func Ef eq_refl) as [b [Pb [Lb Eb]]].
      subst r. injection Hf as <-. simpl.
      split; [reflexivity |]. exists a, b. repeat split; auto; discriminate.
    + subst r. discriminate.
  - destruct (push_loop_spec f jsxNames _ _ jsx Ej eq_refl) as [a [Pa [La Ea]]].
    subst r. injection Hf as <-. simpl.
    split; [reflexivity |]. exists a, (fun _ => 0).
    split; [exact Pa |]. split; [apply pushes_none |].
    split; [exact La |]. split; [intros k; lia | discriminate].
  - subst r. discriminate.
Qed.

Lemma count_zero_not_In x l : count x l = 0 <-> ~ In x l.
Proof. rewrite <- count_pos_In. lia. Qed.

Lemma star_symbol symbol :
  startsWith [ch "*"] symbol = true -> symbol = ch "*" :: substring1 symbol.
Proof.
  destruct symbol as [|c symbol]; cbn [startsWith substring1 tl];
    [discriminate |].
  rewrite andb_true_r. intros H. apply N.eqb_eq in H. now rewrite <- H.
Qed.

(** What the loop body does, for any key: it only pushes the current file,
    only to usage keys that the symbol owns, and not to the call table for
    a key that it pushed to the markup table. *)
Lemma componentUsages_spec content f symbol st r st' :
  componentUsages content f symbol st = r -> finalState r = Some st' ->
  componentUsage st' = componentUsage st
  /\ exists a b,
      pushes f (componentInstancesJSX st) (componentInstancesJSX st') a
      /\ pushes f (componentInstancesFunc st) (componentInstancesFunc st') b
      /\ (forall k, 0 < a k \/ 0 < b k -> owns symbol k)
      /\ (forall k, 0 < a k -> b k = 0).
Proof.
  unfold componentUsages, owns. intros Hr Hf.
  destruct (startsWith [ch "*"] symbol) eqn:Estar.
  - destruct (splice (substring1 symbol)) as [re|] eqn:Es.
    + destruct (namespaceUsages_spec _ _ _ _ _ _ _ Es Hr Hf)
        as [Hu [a [b [Pa [Pb [La [Lb _]]]]]]].
      split; [exact Hu |]. exists a, b. split; [exact Pa |]. split; [exact Pb |].
      pose proof (splice_noGroups _ _ Es) as Hng.
      split.
      * intros k [Hk | Hk].
        -- assert (In k (map (fullComponentName (substring1 symbol))
                           (execAll (namespaceJSXPattern re) content))) as Hin.
           { apply count_pos_In. specialize (La k). lia. }
           eapply namespace_names_owned; eauto.
           intros s e. now apply namespaceJSX_member.
        -- assert (In k (filter
                           (fun name =>
                              negb (includes
                                      (map (fullComponentName (substring1 symbol))
                                         (execAll (namespaceJSXPattern re) content))
                                      name))
                           (map (fullComponentName (substring1 symbol))
                              (execAll (namespaceFuncPattern re) content)))) as Hin.
           { apply count_pos_In. specialize (Lb k). lia. }
           apply filter_In in Hin as [Hin _].
           eapply namespace_names_owned; eauto.
           intros s e. now apply namespaceFunc_member.
      * intros k Hk.
        assert (In k (map (fullComponentName (substring1 symbol))
                        (execAll (namespaceJSXPattern re) content))) as Hin.
        { apply count_pos_In. specialize (La k). lia. }
        assert (count k (filter
                           (fun name =>
                              negb (includes
                                      (map (fullComponentName (substring1 symbol))
                                         (execAll (namespaceJSXPattern re) content))
                                      name))
                           (map (fullComponentName (substring1 symbol))
                              (execAll (namespaceFuncPattern re) content))) = 0) as Hz.
        { apply count_zero_not_In. intros Hin'. apply filter_In in Hin' as [_ Hn].
          apply includes_In in Hin. rewrite Hin in Hn. discriminate. }
        specialize (Lb k). lia.
    + unfold namespaceUsages in Hr. rewrite Es in Hr. subst r. discriminate.
  - destruct (splice symbol) as [re|] eqn:Es.
    + destruct (plainUsages_spec _ _ _ _ _ _ _ Es Hr Hf)
        as [Hu [a [b [Pa [Pb [Hab _]]]]]].
      split; [exact Hu |].
      exists (fun k => if Str.eqb symbol k then a else 0),
        (fun k => if Str.eqb symbol k then b else 0).
      split; [exact Pa |]. split; [exact Pb |]. split.
      * intros k Hk. destruct (Str.eqb symbol k) eqn:E; [| lia].
        symmetry. now apply str_eqb_eq.
      * intros k Hk. destruct (Str.eqb symbol k) eqn:E; [| reflexivity].
        apply Hab. apply includes_In. apply (pushes_In _ _ _ _ Pa). right.
        split; [reflexivity |]. now rewrite str_eqb_refl.
    + unfold plainUsages in Hr. rewrite Es in Hr. subst r. discriminate.
Qed.

(** A loop whose iterations leave a final state has one itself, unless an
    iteration is outside the model. *)
Lemma forEach_final_inv (A X : Type) (body : X -> A -> result A)
      (P : list X -> A -> Prop) :
  (forall done x a r a',
      P done a -> body x a = r -> finalState r = Some a' ->
      P (done ++ [x]) a' /\ (forall l, r = Threw a' -> P (done ++ x :: l) a')) ->
  forall l done a r a',
    P done a -> forEach body l a = r -> finalState r = Some a' ->
    P (done ++ l) a'.
Proof.
  intros Hstep l. induction l as [|x l IH]; intros done a r a' Ha Hr Hf.
  - simpl in Hr. subst r. injection Hf as <-. now rewrite app_nil_r.
  - cbn [forEach] in Hr. destruct (body x a) as [a1|a1|] eqn:E.
    + destruct (Hstep done x a _ a1 Ha E eq_refl) as [H1 _].
      specialize (IH (done ++ [x]) a1 r a' H1 Hr Hf).
      now rewrite <- app_assoc in IH.
    + subst r. injection Hf as <-.
      destruct (Hstep done x a _ a1 Ha E eq_refl) as [_ H2].
      now apply H2.
    + subst r. discriminate.
Qed.

(** ** Ownership of usage keys *)

Lemma member_no_dot member :
  Forall (fun c => isMemberChar c = true) member -> ~ In (ch ".") member.
Proof.
  intros H Hin. rewrite Forall_forall in H. specialize (H _ Hin). discriminate.
Qed.

Lemma dot_split_unique a : forall a' m m',
  a ++ ch "." :: m = a' ++ ch "." :: m' ->
  ~ In (ch ".") m -> ~ In (ch ".") m' -> a = a'.
Proof.
  induction a as [|x a IH]; intros [|y a'] m m' E Hm Hm'; simpl in E.
  - reflexivity.
  - injection E as <- E. exfalso. apply Hm. rewrite E, in_app_iff. right. now left.
  - injection E as -> E. exfalso. apply Hm'. rewrite <- E, in_app_iff. right. now left.
  - injection E as <- E. f_equal. eapply IH; eauto.
Qed.

(** When the plain keys have no dot, a usage key has one owner. *)
Lemma owns_unique s s' k :
  undotted s -> undotted s' -> owns s k -> owns s' k -> s = s'.
Proof.
  unfold undotted, owns. intros Hs Hs'.
  destruct (startsWith [ch "*"] s) eqn:Es, (startsWith [ch "*"] s') eqn:Es'.
  - intros [m [-> Hm]] [m' [E Hm']].
    apply dot_split_unique in E; try now apply member_no_dot.
    rewrite (star_symbol _ Es), (star_symbol _ Es'). now rewrite E.
  - intros [m [-> Hm]] E. subst s'. exfalso. apply (Hs' eq_refl).
    rewrite in_app_iff. right. now left.
  - intros E [m [E' Hm]]. subst k. exfalso. apply (Hs eq_refl).
    rewrite E', in_app_iff. right. now left.
  - intros E E'. congruence.
Qed.

(** ** The symbol table's keys *)

Lemma extends_refl u : extends u u.
Proof. split; auto. Qed.

Lemma extends_trans u v w : extends u v -> extends v w -> extends u w.
Proof. intros [K1 N1] [K2 N2]. split; auto. Qed.

Lemma set_fst (V : Type) (o : Obj.t V) k v :
  map fst (Obj.set o k v)
  = if existsb (Str.eqb k) (map fst o) then map fst o else map fst o ++ [k].
Proof.
  induction o as [|[k' v'] o IH]; simpl; [reflexivity |].
  destruct (Str.eqb k k') eqn:E; simpl.
  - apply str_eqb_eq in E. now subst.
  - rewrite IH. now destruct (existsb (Str.eqb k) (map fst o)).
Qed.

Lemma set_NoDup (V : Type) (o : Obj.t V) k v :
  NoDup (map fst o) -> NoDup (map fst (Obj.set o k v)).
Proof.
  intros H. rewrite set_fst.
  destruct (existsb (Str.eqb k) (map fst o)) eqn:E; [assumption |].
  apply NoDup_app; [assumption | repeat constructor; intros [] |].
  intros x Hx [Ex | []]. subst x.
  assert (existsb (Str.eqb k) (map fst o) = true) as E'.
  { apply existsb_exists. exists k. split; [assumption | apply str_eqb_refl]. }
  congruence.
Qed.

Lemma addImport_extends f c u r u' :
  addImport f c u = r -> finalState r = Some u' -> extends u u'.
Proof.
  unfold addImport. intros <-.
  destruct (Obj.lookup u c); simpl; intros [= <-];
    try apply extends_refl;
    (split; [intros k Hk; apply keys_set; now right | apply set_NoDup]).
Qed.

(** A property that every iteration keeps, however it ends, is kept by the
    loop. *)
Lemma forEach_final_keeps (A X : Type) (body : X -> A -> result A)
      (R : A -> A -> Prop) :
  (forall a, R a a) -> (forall a b c, R a b -> R b c -> R a c) ->
  (forall x a r a', body x a = r -> finalState r = Some a' -> R a a') ->
  forall l a r a', forEach body l a = r -> finalState r = Some a' -> R a a'.
Proof.
  intros Hrefl Htrans Hstep l.
  induction l as [|x l IH]; intros a r a' Hr Hf.
  - simpl in Hr. subst r. injection Hf as <-. apply Hrefl.
  - cbn [forEach] in Hr. destruct (body x a) as [a1|a1|] eqn:E.
    + eapply Htrans; [eapply (Hstep x a _ a1 E eq_refl) | eapply IH; eauto].
    + subst r. injection Hf as <-. apply (Hstep x a _ a1 E eq_refl).
    + subst r. discriminate.
Qed.

Lemma andThen_final (A : Type) (x : result A) (g : A -> result A) a' :
  finalState (andThen x g) = Some a' ->
  (exists a1, x = Returned a1 /\ finalState (g a1) = Some a') \/ x = Threw a'.
Proof.
  destruct x as [a1|a1|]; simpl.
  - intros H. left. now exists a1.
  - intros [= <-]. now right.
  - discriminate.
Qed.

Lemma import_loop_extends f (l : list Str.t) u r u' :
  forEach (addImport f) l u = r -> finalState r = Some u' -> extends u u'.
Proof.
  apply forEach_final_keeps;
    [apply extends_refl | apply extends_trans | intros x; apply addImport_extends].
Qed.

Lemma findImports_extends content f u u' :
  finalState (findImports content f u) = Some u' -> extends u u'.
Proof.
  unfold findImports. intros H.
  assert (forall (names : jsmatch -> list Str.t) l a r a',
             forEach (fun m => forEach (addImport f) (names m)) l a = r ->
             finalState r = Some a' -> extends a a') as Hnamed.
  { intros names. apply forEach_final_keeps;
      [apply extends_refl | apply extends_trans |].
    intros m a r a'. apply import_loop_extends. }
  assert (forall (body : jsmatch -> Obj.t fileSet -> result (Obj.t fileSet)),
             (forall m a r a', body m a = r -> finalState r = Some a' -> extends a a') ->
             forall l a r a', forEach body l a = r -> finalState r = Some a' ->
                              extends a a') as Hloop.
  { intros body Hb. apply forEach_final_keeps;
      [apply extends_refl | apply extends_trans | exact Hb]. }
  assert (forall m a r a', addDefaultImport f m a = r -> finalState r = Some a' ->
                           extends a a') as Hd.
  { intros m a r a'. unfold addDefaultImport.
    destruct (negb _); [apply addImport_extends |].
    intros <- [= <-]. apply extends_refl. }
  assert (forall m a r a', addNamespaceImport f m a = r -> finalState r = Some a' ->
                           extends a a') as Hn.
  { intros m a r a'. apply addImport_extends. }
  assert (forall m a r a', addRequireDefault f m a = r -> finalState r = Some a' ->
                           extends a a') as Hrd.
  { intros m a r a'. apply addImport_extends. }
  apply andThen_final in H as [[u1 [E1 H]] | E1].
  2: { eapply Hnamed; [exact E1 | reflexivity]. }
  apply (Hnamed _ _ _ _ u1) in E1; [| reflexivity].
  apply andThen_final in H as [[u2 [E2 H]] | E2].
  2: { eapply extends_trans; [exact E1 |].
       eapply (Hloop _ Hd); [exact E2 | reflexivity]. }
  apply (Hloop _ Hd _ _ _ u2) in E2; [| reflexivity].
  apply andThen_final in H as [[u3 [E3 H]] | E3].
  2: { eapply extends_trans; [exact E1 |]. eapply extends_trans; [exact E2 |].
       eapply (Hloop _ Hn); [exact E3 | reflexivity]. }
  apply (Hloop _ Hn _ _ _ u3) in E3; [| reflexivity].
  apply andThen_final in H as [[u4 [E4 H]] | E4].
  2: { eapply extends_trans; [exact E1 |]. eapply extends_trans; [exact E2 |].
       eapply extends_trans; [exact E3 |].
       eapply Hnamed; [exact E4 | reflexivity]. }
  apply (Hnamed _ _ _ _ u4) in E4; [| reflexivity].
  eapply extends_trans; [exact E1 |]. eapply extends_trans; [exact E2 |].
  eapply extends_trans; [exact E3 |]. eapply extends_trans; [exact E4 |].
  eapply (Hloop _ Hrd); [reflexivity | exact H].
Qed.

Lemma insertIndex_NoDup k l : ~ In k l -> NoDup l -> NoDup (Obj.insertIndex k l).
Proof.
  induction l as [|y l IH]; simpl; intros Hk Hl.
  - repeat constructor. intros [].
  - destruct (Obj.toNumber k <=? Obj.toNumber y)%N.
    + now constructor.
    + inversion Hl as [|? ? Hy Hl']; subst. constructor.
      * rewrite insertIndex_In. intros [-> | H]; [apply Hk; now left | contradiction].
      * apply IH; [intros H; apply Hk; now right | assumption].
Qed.

Lemma keys_NoDup (V : Type) (o : Obj.t V) :
  NoDup (map fst o) -> NoDup (Obj.keys o).
Proof.
  intros H. unfold Obj.keys. apply NoDup_app.
  - assert (NoDup (filter Obj.isArrayIndex (map fst o))) as Hf
        by now apply NoDup_filter.
    induction (filter Obj.isArrayIndex (map fst o)) as [|x l IH]; simpl.
    + constructor.
    + inversion Hf; subst. apply insertIndex_NoDup; [| now apply IH].
      now rewrite sortIndex_In.
  - now apply NoDup_filter.
  - intros x Hx Hx'. rewrite sortIndex_In in Hx. apply filter_In in Hx as [_ Hx].
    apply filter_In in Hx' as [_ Hx']. rewrite Hx in Hx'. discriminate.
Qed.

(** ** The search of one file *)

Lemma searched_more f done done' st :
  (forall s, In s done -> In s done') -> searched f done st -> searched f done' st.
Proof.
  intros Hsub [H1 H2]. split; [| exact H2].
  intros k Hk. destruct (H1 k Hk) as [s [Hs Ho]]. exists s. auto.
Qed.

Lemma sameOthers_refl f st : sameOthers f st st.
Proof. intros k g _. split; reflexivity. Qed.

Lemma sameOthers_trans f st1 st2 st3 :
  sameOthers f st1 st2 -> sameOthers f st2 st3 -> sameOthers f st1 st3.
Proof.
  intros H1 H2 k g Hg. destruct (H1 k g Hg) as [A1 B1].
  destruct (H2 k g Hg) as [A2 B2]. split.
  - now rewrite A2, A1.
  - now rewrite B2, B1.
Qed.

(** One iteration of the loop keeps the invariant of the search. *)
Lemma componentUsages_searched content f done symbol st r st' :
  (forall s, In s (done ++ [symbol]) -> undotted s) ->
  ~ In symbol done ->
  searched f done st ->
  componentUsages content f symbol st = r -> finalState r = Some st' ->
  searched f (done ++ [symbol]) st'
  /\ sameOthers f st st'
  /\ componentUsage st' = componentUsage st.
Proof.
  intros Hgood Hnew [Hown Hdis] Hr Hf.
  destruct (componentUsages_spec _ _ _ _ _ _ Hr Hf)
    as [Hu [a [b [Pa [Pb [Hab Hexcl]]]]]].
  assert (forall k, owns symbol k ->
                    ~ In f (valueOf (componentInstancesJSX st) k)
                    /\ ~ In f (valueOf (componentInstancesFunc st) k)) as Hfresh.
  { intros k Hk. split; intros Hin.
    - destruct (Hown k (or_introl Hin)) as [s [Hs Ho]].
      apply Hnew. replace symbol with s; [assumption |].
      eapply owns_unique; eauto; apply Hgood; rewrite in_app_iff;
        [now left | right; now left].
    - destruct (Hown k (or_intror Hin)) as [s [Hs Ho]].
      apply Hnew. replace symbol with s; [assumption |].
      eapply owns_unique; eauto; apply Hgood; rewrite in_app_iff;
        [now left | right; now left]. }
  split; [| split; [| exact Hu]].
  - split.
    + intros k [Hk | Hk].
      * apply (pushes_In _ _ _ _ Pa) in Hk as [Hk | [_ Hk]].
        -- destruct (Hown k (or_introl Hk)) as [s [Hs Ho]].
           exists s. rewrite in_app_iff. auto.
        -- exists symbol. rewrite in_app_iff. split; [right; now left | auto].
      * apply (pushes_In _ _ _ _ Pb) in Hk as [Hk | [_ Hk]].
        -- destruct (Hown k (or_intror Hk)) as [s [Hs Ho]].
           exists s. rewrite in_app_iff. auto.
        -- exists symbol. rewrite in_app_iff. split; [right; now left | auto].
    + intros k Hj Hc.
      apply (pushes_In _ _ _ _ Pa) in Hj. apply (pushes_In _ _ _ _ Pb) in Hc.
      destruct Hj as [Hj | [_ Hj]], Hc as [Hc | [_ Hc]].
      * exact (Hdis k Hj Hc).
      * apply (proj1 (Hfresh k (Hab k (or_intror Hc))) Hj).
      * apply (proj2 (Hfresh k (Hab k (or_introl Hj))) Hc).
      * specialize (Hexcl k Hj). lia.
  - intros k g Hg. split.
    + rewrite (pushes_In _ _ _ _ Pa). intuition.
    + rewrite (pushes_In _ _ _ _ Pb). intuition.
Qed.

(** The loop over the symbol table keeps the invariant of the search. *)
Lemma findComponentUsages_searched content f l :
  forall done st r st',
    (forall s, In s (done ++ l) -> undotted s) ->
    NoDup (done ++ l) ->
    searched f done st ->
    forEach (componentUsages content f) l st = r -> finalState r = Some st' ->
    searched f (done ++ l) st'
    /\ sameOthers f st st'
    /\ componentUsage st' = componentUsage st.
Proof.
  induction l as [|x l IH]; intros done st r st' Hgood Hnd Hs Hr Hf.
  - simpl in Hr. subst r. injection Hf as <-. rewrite app_nil_r.
    split; [exact Hs | split; [apply sameOthers_refl | reflexivity]].
  - assert (~ In x done) as Hx.
    { intros Hin. apply NoDup_remove_2 in Hnd. apply Hnd.
      rewrite in_app_iff. now left. }
    assert (forall s, In s (done ++ [x]) -> undotted s) as Hgood1.
    { intros s Hin. apply Hgood. rewrite in_app_iff in *. simpl in *. tauto. }
    cbn [forEach] in Hr.
    destruct (componentUsages content f x st) as [st1|st1|] eqn:E.
    + destruct (componentUsages_searched _ _ _ _ _ _ _ Hgood1 Hx Hs E eq_refl)
        as [Hs1 [Ho1 Hu1]].
      assert (done ++ x :: l = (done ++ [x]) ++ l) as Eapp
          by now rewrite <- app_assoc.
      rewrite Eapp in *.
      destruct (IH (done ++ [x]) st1 r st' Hgood Hnd Hs1 Hr Hf) as [Hs2 [Ho2 Hu2]].
      split; [exact Hs2 |].
      split; [eapply sameOthers_trans; eauto | congruence].
    + subst r. injection Hf as <-.
      destruct (componentUsages_searched _ _ _ _ _ _ _ Hgood1 Hx Hs E eq_refl)
        as [Hs1 [Ho1 Hu1]].
      split; [| split; assumption].
      eapply searched_more; [| exact Hs1].
      intros s. rewrite !in_app_iff. simpl. tauto.
    + subst r. discriminate.
Qed.

(** ** The walk *)

Lemma findComponentUsages_usage content f st r st' :
  findComponentUsages content f st = r -> finalState r = Some st' ->
  componentUsage st' = componentUsage st.
Proof.
  unfold findComponentUsages.
  apply (forEach_final_keeps _ _ (componentUsages content f)
           (fun a b => componentUsage b = componentUsage a)).
  - reflexivity.
  - intros a b c H1 H2. congruence.
  - intros x a r0 a' Hr Hf.
    now destruct (componentUsages_spec _ _ _ _ _ _ Hr Hf) as [Hu _].
Qed.

(** The cases of [processFile]. *)
Lemma processFile_cases p c st st' flag :
  processFile p c st = Some (st', flag) ->
  exists u,
    finalState (findImports c p (componentUsage st)) = Some u
    /\ componentUsage st' = u
    /\ ((st' = State u (componentInstancesJSX st) (componentInstancesFunc st))
        \/ (exists r,
               findImports c p (componentUsage st) = Returned u
               /\ findComponentUsages c p
                    (State u (componentInstancesJSX st) (componentInstancesFunc st))
                  = r
               /\ finalState r = Some st'
               /\ (flag = false <-> r = Returned st'))).
Proof.
  unfold processFile.
  destruct (findImports c p (componentUsage st)) as [u|u|] eqn:Ei;
    [| intros [= <- <-]; exists u; simpl; auto | discriminate].
  destruct (0 <? List.length (Obj.keys u)).
  - destruct (findComponentUsages c p
                (State u (componentInstancesJSX st) (componentInstancesFunc st)))
      as [st2|st2|] eqn:Eu; [| | discriminate].
    + intros [= <- <-]. exists u. split; [reflexivity |].
      split; [now rewrite (findComponentUsages_usage _ _ _ _ _ Eu eq_refl) |].
      right. exists (Returned st2). repeat split; auto.
    + intros [= <- <-]. exists u. split; [reflexivity |].
      split; [now rewrite (findComponentUsages_usage _ _ _ _ _ Eu eq_refl) |].
      right. exists (Threw st2). repeat split; auto; discriminate.
  - intros [= <- <-]. exists u. simpl. auto.
Qed.

Lemma processFile_extends p c st st' flag :
  processFile p c st = Some (st', flag) ->
  extends (componentUsage st) (componentUsage st').
Proof.
  intros H. destruct (processFile_cases _ _ _ _ _ H) as [u [Hf [-> _]]].
  now apply (findImports_extends c p).
Qed.

Lemma walk_extends files :
  forall st st' errors,
    walk files st = Some (st', errors) ->
    extends (componentUsage st) (componentUsage st').
Proof.
  induction files as [|[p c] files IH]; intros st st' errors; simpl.
  - intros [= <- _]. apply extends_refl.
  - destruct (processFile p c st) as [[st1 flag]|] eqn:E; [| discriminate].
    destruct (walk files st1) as [[st2 errs]|] eqn:Ew; [| discriminate].
    intros [= <- _]. eapply extends_trans.
    + eapply processFile_extends; eauto.
    + eapply IH; eauto.
Qed.

(** Processing one more file keeps the invariant of the walk. *)
Lemma processFile_walked p c st st' flag processed :
  walked processed st -> ~ In p processed ->
  processFile p c st = Some (st', flag) ->
  (forall s, In s (Obj.keys (componentUsage st')) -> undotted s) ->
  walked (processed ++ [p]) st'.
Proof.
  intros [Hrec [Hdis Hnd]] Hp H Hgood.
  pose proof (processFile_extends _ _ _ _ _ H) as [_ Hnd'].
  specialize (Hnd' Hnd).
  destruct (processFile_cases _ _ _ _ _ H) as [u [Hf [Hu [-> | [r [Ei [Er [Hfin _]]]]]]]].
  - split; [| split; [exact Hdis | exact Hnd']].
    simpl. intros k g Hg. rewrite in_app_iff. left. eapply Hrec; eauto.
  - unfold findComponentUsages in Er.
    destruct (findComponentUsages_searched c p (Obj.keys u) []
                (State u (componentInstancesJSX st) (componentInstancesFunc st))
                r st') as [[_ Hs] [Ho _]]; auto.
    + simpl. intros s Hs. apply Hgood. now rewrite Hu.
    + simpl. apply keys_NoDup. now rewrite <- Hu.
    + split.
      * simpl. intros k Hk. exfalso. apply Hp. eapply Hrec; eauto.
      * simpl. intros k Hk. exfalso. apply Hp. eapply Hrec; eauto.
    + split; [| split; [| exact Hnd']].
      * intros k g Hg. rewrite in_app_iff.
        destruct (str_eq_dec g p) as [-> | Hne]; [right; now left | left].
        destruct (Ho k g Hne) as [A B]. simpl in A, B.
        apply (Hrec k g). tauto.
      * intros k g Hj Hc.
        destruct (str_eq_dec g p) as [-> | Hne]; [exact (Hs k Hj Hc) |].
        destruct (Ho k g Hne) as [A B]. simpl in A, B.
        apply (Hdis k g); tauto.
Qed.

Lemma walk_walked files :
  forall st processed st' errors,
    walked processed st ->
    NoDup (map fst files) ->
    (forall p, In p (map fst files) -> ~ In p processed) ->
    walk files st = Some (st', errors) ->
    (forall s, In s (Obj.keys (componentUsage st')) -> undotted s) ->
    walked (processed ++ map fst files) st'.
Proof.
  induction files as [|[p c] files IH]; intros st processed st' errors Hw Hnd Hnew.
  - simpl. intros [= <- _] _. now rewrite app_nil_r.
  - simpl. destruct (processFile p c st) as [[st1 flag]|] eqn:E; [| discriminate].
    destruct (walk files st1) as [[st2 errs]|] eqn:Ew; [| discriminate].
    intros [= <- _] Hgood. inversion Hnd as [|? ? Hp Hnd']; subst.
    assert (walked (processed ++ [p]) st1) as Hw1.
    { eapply processFile_walked; eauto.
      - apply Hnew. now left.
      - intros s Hs. apply Hgood. now apply (walk_extends _ _ _ _ Ew). }
    specialize (IH st1 (processed ++ [p]) st2 errs Hw1 Hnd').
    rewrite <- app_assoc in IH. apply IH; auto.
    intros q Hq. rewrite in_app_iff. intros [Hin | [<- | []]].
    + apply (Hnew q); [now right | assumption].
    + contradiction.
Qed.

Lemma initial_walked : walked [] initial.
Proof.
  split; [| split].
  - intros k g [H | H]; exact H.
  - intros k f H. destruct H.
  - constructor.
Qed.

(** ** Disambiguation *)

(** C2: the invariant is broken by a plain key with a dot in it.  The
    name is spliced into the patterns unescaped, so its dot stands for any
    code unit.  In [commentedImportFile] the commented line registers the
    plain key [NS.Card], whose markup pattern matches [<NSxCard />] (the
    text has no [<NS.Card]); the namespace key [*NS] finds no markup of a
    member and records the call [NS.Card(] under the usage key [NS.Card].
    So the one file is recorded for the one key both in the markup table
    and in the call table. *)
Theorem dotted_key_is_markup_and_call_in_one_file :
  execAll (Lit (lit "<NS.Card")) commentedImportFile = []
  /\ exists st,
      walk [(appJs, commentedImportFile)] initial = Some (st, [])
      /\ Obj.keys (componentUsage st) = [lit "NS.Card"; lit "*NS"]
      /\ valueOf (componentInstancesJSX st) (lit "NS.Card") = [appJs]
      /\ valueOf (componentInstancesFunc st) (lit "NS.Card") = [appJs]
      /\ ~ disambiguated st.
Proof.
  split; [vm_compute; reflexivity |].
  exists (State [(lit "NS.Card", [appJs]); (lit "*NS", [appJs])]
            [(lit "NS.Card", [appJs])] [(lit "NS.Card", [appJs])]).
  split; [vm_compute; reflexivity |].
  split; [vm_compute; reflexivity |].
  split; [vm_compute; reflexivity |].
  split; [vm_compute; reflexivity |].
  intros H. apply (H (lit "NS.Card") appJs); vm_compute; left; reflexivity.
Qed.

(** The same with the dotted import as a statement of its own. *)
Lemma dotted_plain_key_in_both_tables :
  exists st,
    walk [(appJs, dottedFile)] initial = Some (st, [])
    /\ In appJs (valueOf (componentInstancesJSX st) (lit "NS.Card"))
    /\ In appJs (valueOf (componentInstancesFunc st) (lit "NS.Card")).
Proof.
  eexists. split; [vm_compute; reflexivity |].
  split; vm_compute; left; reflexivity.
Qed.

(** A plain key with markup in the file: the call table is left alone. *)
Lemma plain_suppression content f name re st0 st1 :
  splice name = Some re ->
  plainUsages content f name st0 = Returned st1 ->
  extractJSXUsage content re <> [] ->
  componentInstancesFunc st1 = componentInstancesFunc st0.
Proof.
  intros Hs H Hne. unfold plainUsages in H. rewrite Hs in H.
  destruct (pushInstances f name (List.length (extractJSXUsage content re))
              (componentInstancesJSX st0)) as [jsx|jsx|] eqn:Ej; try discriminate.
  apply pushInstances_returned in Ej.
  destruct (usedAsJSX jsx name f) as [[|]|] eqn:Eu; try discriminate.
  - now injection H as <-.
  - apply usedAsJSX_spec in Eu. symmetry in Eu. apply includes_not_In in Eu.
    exfalso. apply Eu. apply (pushes_In _ _ _ _ Ej). right.
    split; [reflexivity |]. rewrite str_eqb_refl.
    destruct (extractJSXUsage content re); [contradiction | simpl; lia].
Qed.

(** A namespace member with markup in the file: no call is pushed for it. *)
Lemma namespace_suppression content f namespaceAlias re st0 st1 key :
  splice namespaceAlias = Some re ->
  namespaceUsages content f namespaceAlias st0 = Returned st1 ->
  In key (map (fullComponentName namespaceAlias)
            (execAll (namespaceJSXPattern re) content)) ->
  valueOf (componentInstancesFunc st1) key
  = valueOf (componentInstancesFunc st0) key.
Proof.
  intros Hs H Hin.
  destruct (namespaceUsages_spec _ _ _ _ _ _ _ Hs H eq_refl)
    as [_ [a [b [_ [Pb [_ [_ Heq]]]]]]].
  destruct (Heq eq_refl key) as [_ Hb].
  rewrite (Pb key), Hb.
  assert (count key
            (filter
               (fun name =>
                  negb (includes
                          (map (fullComponentName namespaceAlias)
                             (execAll (namespaceJSXPattern re) content)) name))
               (map (fullComponentName namespaceAlias)
                  (execAll (namespaceFuncPattern re) content))) = 0) as ->.
  { apply count_zero_not_In. intros Hin'. apply filter_In in Hin' as [_ Hn].
    apply includes_In in Hin. rewrite Hin in Hn. discriminate. }
  simpl. apply app_nil_r.
Qed.

(** Where the invariant holds: when the paths of the walk are distinct and
    no plain key of the symbol table has a dot in it, no file is recorded
    for one usage key both in the markup table and in the call table.  For
    a plain key the suppression is by file: with a markup match in the
    file, the call table is left as it is.  For a namespace member it is by
    membership in the set of the members that matched as markup in the
    file.  A key can still be markup in one file and a call in another. *)
Theorem usage_is_disambiguated (files : list file) (st : state)
        (errors : list Str.t) :
  NoDup (map fst files) ->
  walk files initial = Some (st, errors) ->
  (forall symbol, In symbol (Obj.keys (componentUsage st)) -> undotted symbol) ->
  disambiguated st
  /\ (forall content f name re st0 st1,
         splice name = Some re ->
         plainUsages content f name st0 = Returned st1 ->
         extractJSXUsage content re <> [] ->
         componentInstancesFunc st1 = componentInstancesFunc st0)
  /\ (forall content f namespaceAlias re st0 st1 key,
         splice namespaceAlias = Some re ->
         namespaceUsages content f namespaceAlias st0 = Returned st1 ->
         In key (map (fullComponentName namespaceAlias)
                   (execAll (namespaceJSXPattern re) content)) ->
         valueOf (componentInstancesFunc st1) key
         = valueOf (componentInstancesFunc st0) key)
  /\ (exists st2,
         walk demoFiles initial = Some (st2, [])
         /\ In appJs (valueOf (componentInstancesJSX st2) (lit "Button"))
         /\ In (lit "src/util.js")
              (valueOf (componentInstancesFunc st2) (lit "Button"))).
Proof.
  intros Hnd Hw Hgood. split; [| split; [| split]].
  - destruct (walk_walked files initial [] st errors initial_walked Hnd) as [_ [H _]];
      auto.
  - apply plain_suppression.
  - apply namespace_suppression.
  - eexists. split; [vm_compute; reflexivity |].
    split; vm_compute; left; reflexivity.
Qed.

Lemma usage_is_disambiguated_witness :
  NoDup (map fst demoFiles)
  /\ (exists st,
         walk demoFiles initial = Some (st, [])
         /\ (forall symbol,
                In symbol (Obj.keys (componentUsage st)) -> undotted symbol)
         /\ disambiguated st).
Proof.
  assert (NoDup (map fst demoFiles)) as Hnd.
  { repeat constructor; simpl; intuition discriminate. }
  split; [exact Hnd |].
  destruct (walk demoFiles initial) as [[st errors]|] eqn:E;
    [| vm_compute in E; discriminate].
  assert (errors = [] /\ Obj.keys (componentUsage st) = [lit "Button"; lit "*NS"])
    as [-> Hk].
  { vm_compute in E. injection E as <- <-. split; reflexivity. }
  assert (forall symbol,
             In symbol (Obj.keys (componentUsage st)) -> undotted symbol) as Hgood.
  { intros symbol. rewrite Hk. intros [<- | [<- | []]]; unfold undotted.
    - intros _. vm_compute. intuition discriminate.
    - vm_compute. discriminate. }
  exists st. split; [reflexivity |]. split; [exact Hgood |].
  exact (proj1 (usage_is_disambiguated demoFiles st [] Hnd E Hgood)).
Defined.

(** ** Where the usage patterns match *)

Lemma app_same_length (A : Type) (a a' b b' : list A) :
  List.length a = List.length a' -> a ++ b = a' ++ b' -> a = a' /\ b = b'.
Proof.
  revert a'. induction a as [|x a IH]; intros [|y a'] Hl E; simpl in *;
    try discriminate.
  - now split.
  - injection E as -> E. injection Hl as Hl.
    destruct (IH a' Hl E) as [-> ->]. now split.
Qed.

Lemma lastOr_snoc p w c : lastOr p (w ++ [c]) = Some c.
Proof. now rewrite lastOr_app. Qed.



(** Every call match of a plain name. *)
Lemma call_match_shape content name m :
  In m (execAll (functionCallPattern (Lit name)) content) ->
  exists pre ws post,
    content = pre ++ name ++ ws ++ ch "(" :: post
    /\ index m = List.length pre
    /\ Forall (fun c => isSpace c = true) ws
    /\ lastOr None pre <> Some (ch ".")
    /\ lastOr None pre <> Some (ch "<").
Proof.
  intros H. apply execAll_inv in H as [pre [suf [e [Ec [Ei [Hm _]]]]]].
  apply functionCallPattern_inv in Hm as [ws [post [R [Hws [Hd [Hl _]]]]]].
  simpl in R, Hd, Hl. exists pre, ws, post.
  split; [now rewrite Ec, R |]. repeat split; assumption.
Qed.

(** C4, as stated, fails: white space may stand between the name and the
    parenthesis.  The file has no [Button(], and one call-style occurrence
    of [Button] is recorded for it. *)
Lemma spaced_call_is_recorded :
  execAll (Lit (lit "Button(")) spacedCallFile = []
  /\ exists st,
      walk [(appJs, spacedCallFile)] initial = Some (st, [])
      /\ valueOf (componentInstancesFunc st) (lit "Button") = [appJs].
Proof.
  split; [vm_compute; reflexivity |].
  eexists. split; vm_compute; reflexivity.
Qed.

(** C4, amended: for a plain symbol without pattern syntax characters, every
    call-style match is the name followed by white space, if any, and [(],
    and the code unit before the name is neither a dot nor [<]; so the name
    in [obj.S(] is not a match.  The call table gets one entry for each
    match, or none at all when the file has the symbol as markup. *)
Theorem call_matches_allow_space (content name : Str.t) :
  isPlain name = true ->
  splice name = Some (Lit name)
  /\ (forall m,
         In m (execAll (functionCallPattern (Lit name)) content) ->
         exists pre ws post,
           content = pre ++ name ++ ws ++ ch "(" :: post
           /\ index m = List.length pre
           /\ Forall (fun c => isSpace c = true) ws
           /\ lastOr None pre <> Some (ch ".")
           /\ lastOr None pre <> Some (ch "<"))
  /\ (forall pre post m,
         content = pre ++ ch "." :: name ++ post ->
         In m (execAll (functionCallPattern (Lit name)) content) ->
         index m <> S (List.length pre))
  /\ (forall f st st',
         plainUsages content f name st = Returned st' ->
         valueOf (componentInstancesFunc st') name
         = valueOf (componentInstancesFunc st) name
           ++ repeat f
                (if includes (valueOf (componentInstancesJSX st') name) f
                 then 0
                 else List.length
                        (execAll (functionCallPattern (Lit name)) content))).
Proof.
  intros Hp. pose proof (splice_plain _ Hp) as Hs.
  split; [exact Hs |]. split; [| split].
  - intros m. apply call_match_shape.
  - intros pre post m Ec Hm Hi.
    apply call_match_shape in Hm as [pre' [ws [post' [Ec' [Ei [_ [Hd _]]]]]]].
    rewrite Hi in Ei.
    assert (pre ++ ch "." :: name ++ post = (pre ++ [ch "."]) ++ name ++ post) as E
        by now rewrite <- app_assoc.
    rewrite Ec, E in Ec'.
    apply app_same_length in Ec' as [<- _].
    + apply Hd. apply lastOr_snoc.
    + rewrite length_app. simpl. lia.
  - intros f st st' H.
    destruct (plainUsages_spec _ _ _ _ _ _ _ Hs H eq_refl)
      as [_ [a [b [_ [Pb [_ Hret]]]]]].
    destruct (Hret eq_refl) as [_ ->].
    rewrite (Pb name), str_eqb_refl. reflexivity.
Qed.

Lemma call_matches_allow_space_witness :
  isPlain (lit "Button") = true
  /\ forall m,
      In m (execAll (functionCallPattern (Lit (lit "Button"))) spacedCallFile) ->
      exists pre ws post,
        spacedCallFile = pre ++ lit "Button" ++ ws ++ ch "(" :: post
        /\ index m = List.length pre
        /\ Forall (fun c => isSpace c = true) ws
        /\ lastOr None pre <> Some (ch ".")
        /\ lastOr None pre <> Some (ch "<").
Proof.
  split; [reflexivity |].
  exact (proj1 (proj2 (call_matches_allow_space spacedCallFile (lit "Button")
                         eq_refl))).
Defined.




(** ** Counting the occurrences of a file *)

Lemma onlyPushes_refl f st : onlyPushes f st st.
Proof. exists (fun _ => 0), (fun _ => 0). split; apply pushes_none. Qed.

Lemma onlyPushes_trans f st1 st2 st3 :
  onlyPushes f st1 st2 -> onlyPushes f st2 st3 -> onlyPushes f st1 st3.
Proof.
  intros [a1 [b1 [A1 B1]]] [a2 [b2 [A2 B2]]].
  exists (fun k => a1 k + a2 k), (fun k => b1 k + b2 k).
  split; eapply pushes_trans; eauto.
Qed.

Lemma findComponentUsages_onlyPushes content f st r st' :
  findComponentUsages content f st = r -> finalState r = Some st' ->
  onlyPushes f st st'.
Proof.
  unfold findComponentUsages.
  apply (forEach_final_keeps _ _ (componentUsages content f) (onlyPushes f)).
  - apply onlyPushes_refl.
  - apply onlyPushes_trans.
  - intros x a r0 a' Hr Hf.
    destruct (componentUsages_spec _ _ _ _ _ _ Hr Hf) as [_ [a0 [b0 [Pa [Pb _]]]]].
    now exists a0, b0.
Qed.

Lemma processFile_onlyPushes p c st st' flag :
  processFile p c st = Some (st', flag) -> onlyPushes p st st'.
Proof.
  intros H.
  destruct (processFile_cases _ _ _ _ _ H) as [u [_ [_ [-> | [r [_ [Er [Hf _]]]]]]]].
  - exists (fun _ => 0), (fun _ => 0). split; apply pushes_none.
  - destruct (findComponentUsages_onlyPushes _ _ _ _ _ Er Hf) as [a [b [Pa Pb]]].
    now exists a, b.
Qed.

(** The occurrences of a path are not touched by the other files. *)
Lemma walk_other_counts files p :
  ~ In p (map fst files) ->
  forall st st' errors,
    walk files st = Some (st', errors) ->
    forall k,
      count p (valueOf (componentInstancesJSX st') k)
      = count p (valueOf (componentInstancesJSX st) k)
      /\ count p (valueOf (componentInstancesFunc st') k)
         = count p (valueOf (componentInstancesFunc st) k).
Proof.
  induction files as [|[q d] files IH]; intros Hp st st' errors; simpl.
  - intros [= <- _] k. now split.
  - destruct (processFile q d st) as [[st1 flag]|] eqn:E; [| discriminate].
    destruct (walk files st1) as [[st2 errs]|] eqn:Ew; [| discriminate].
    intros [= <- _] k.
    assert (p <> q) as Hne by (intros ->; apply Hp; now left).
    assert (~ In p (map fst files)) as Hp' by (intros H; apply Hp; now right).
    destruct (IH Hp' st1 st2 errs Ew k) as [-> ->].
    destruct (processFile_onlyPushes _ _ _ _ _ E) as [a [b [Pa Pb]]].
    split; eapply pushes_count_other; eauto.
Qed.

Lemma walk_app pre post :
  forall st st' errors,
    walk (pre ++ post) st = Some (st', errors) ->
    exists st1 e1 e2,
      walk pre st = Some (st1, e1) /\ walk post st1 = Some (st', e2)
      /\ errors = e1 ++ e2.
Proof.
  induction pre as [|[q d] pre IH]; intros st st' errors; simpl.
  - intros H. exists st, [], errors. auto.
  - destruct (processFile q d st) as [[st1 flag]|] eqn:E; [| discriminate].
    destruct (walk (pre ++ post) st1) as [[st2 errs]|] eqn:Ew; [| discriminate].
    intros [= <- <-].
    destruct (IH _ _ _ Ew) as [st3 [e1 [e2 [H1 [H2 ->]]]]].
    rewrite H1. exists st3, (if flag then q :: e1 else e1), e2.
    split; [reflexivity |]. split; [assumption |]. now destruct flag.
Qed.

Lemma plain_not_star name : isPlain name = true -> startsWith [ch "*"] name = false.
Proof.
  destruct name as [|c name]; [reflexivity |].
  unfold isPlain. cbn [forallb startsWith]. intros H.
  apply andb_true_iff in H as [H _]. apply negb_true_iff in H.
  apply orb_false_iff in H as [H _]. apply orb_false_iff in H as [H _].
  apply orb_false_iff in H as [H _].
  destruct (N.eqb (ch "*") c) eqn:E; [| reflexivity].
  apply N.eqb_eq in E. subst c. discriminate.
Qed.

Lemma plain_no_dot name : isPlain name = true -> ~ In (ch ".") name.
Proof.
  unfold isPlain. intros H Hin. rewrite forallb_forall in H.
  specialize (H _ Hin). discriminate.
Qed.

(** The iteration for another symbol leaves the lists of a plain name as
    they are. *)
Lemma other_symbol_leaves_plain content f name symbol st r st' :
  isPlain name = true -> symbol <> name ->
  componentUsages content f symbol st = r -> finalState r = Some st' ->
  valueOf (componentInstancesJSX st') name
  = valueOf (componentInstancesJSX st) name
  /\ valueOf (componentInstancesFunc st') name
     = valueOf (componentInstancesFunc st) name.
Proof.
  intros Hp Hne Hr Hf.
  destruct (componentUsages_spec _ _ _ _ _ _ Hr Hf) as [_ [a [b [Pa [Pb [Hown _]]]]]].
  assert (~ owns symbol name) as Hno.
  { unfold owns. destruct (startsWith [ch "*"] symbol).
    - intros [m [E _]]. apply (plain_no_dot _ Hp). rewrite E, in_app_iff.
      right. now left.
    - congruence. }
  assert (a name = 0 /\ b name = 0) as [Ha Hb].
  { split.
    - destruct (a name) eqn:E; [reflexivity |]. exfalso. apply Hno, Hown. lia.
    - destruct (b name) eqn:E; [reflexivity |]. exfalso. apply Hno, Hown. lia. }
  rewrite (Pa name), (Pb name), Ha, Hb. simpl. now rewrite !app_nil_r.
Qed.

(** The loop that returns, seen from a plain name: it is searched for if and
    only if it is a key, and then its markup matches are all pushed, and its
    call matches are pushed unless the file is in its markup list. *)
Lemma findComponentUsages_plain content f name l :
  isPlain name = true -> NoDup l ->
  forall st st',
    forEach (componentUsages content f) l st = Returned st' ->
    let jsx := List.length (extractJSXUsage content (Lit name)) in
    let calls := List.length (execAll (functionCallPattern (Lit name)) content) in
    valueOf (componentInstancesJSX st') name
    = valueOf (componentInstancesJSX st) name
      ++ repeat f (if includes l name then jsx else 0)
    /\ valueOf (componentInstancesFunc st') name
       = valueOf (componentInstancesFunc st) name
         ++ repeat f
              (if includes l name
               then if includes (valueOf (componentInstancesJSX st) name
                                 ++ repeat f jsx) f
                    then 0 else calls
               else 0).
Proof.
  intros Hp. induction l as [|x l IH]; intros Hnd st st' H jsx calls.
  - simpl in H. injection H as <-. simpl. now rewrite !app_nil_r.
  - cbn [forEach] in H.
    destruct (componentUsages content f x st) as [st1|st1|] eqn:E; try discriminate.
    inversion Hnd as [|? ? Hx Hnd']; subst.
    specialize (IH Hnd' st1 st' H). cbv zeta in IH. destruct IH as [IHj IHf].
    destruct (str_eq_dec x name) as [-> | Hne].
    + assert (includes l name = false) as Hl by now apply includes_not_In.
      rewrite Hl in IHj, IHf. simpl in IHj, IHf. rewrite app_nil_r in IHj, IHf.
      assert (includes (name :: l) name = true) as ->
          by (apply includes_In; now left).
      unfold componentUsages in E. rewrite (plain_not_star _ Hp) in E.
      destruct (plainUsages_spec _ _ _ _ _ _ _ (splice_plain _ Hp) E eq_refl)
        as [_ [a [b [Pa [Pb [_ Hret]]]]]].
      destruct (Hret eq_refl) as [Ea Eb].
      pose proof (Pa name) as Pj. pose proof (Pb name) as Pf.
      cbv beta in Pj, Pf.
      rewrite str_eqb_refl in Pj, Pf. rewrite Ea in Pj.
      rewrite IHj, IHf, Pj, Pf. split; [reflexivity |].
      rewrite Eb, Pj. reflexivity.
    + assert (includes (x :: l) name = includes l name) as ->.
      { unfold includes. simpl. rewrite (str_eqb_sym name x).
        assert (Str.eqb x name = false) as -> by now apply str_eqb_neq.
        reflexivity. }
      destruct (other_symbol_leaves_plain _ _ _ _ _ _ _ Hp Hne E eq_refl)
        as [Ej Ef].
      rewrite IHj, IHf, Ej, Ef. now split.
Qed.

(** ** Which symbols are known when a file is searched *)

Lemma addImport_keys f c u u' :
  addImport f c u = Returned u' ->
  forall k, In k (Obj.keys u') <-> In k (Obj.keys u) \/ k = c.
Proof.
  unfold addImport.
  destruct (Obj.lookup u c); try discriminate; intros [= <-] k;
    rewrite keys_set; tauto.
Qed.

Lemma loop_keys (X : Type) (body : X -> Obj.t fileSet -> result (Obj.t fileSet))
      (names : X -> list Str.t) :
  (forall x a a', body x a = Returned a' ->
                  forall k, In k (Obj.keys a') <-> In k (Obj.keys a) \/ In k (names x)) ->
  forall l a a', forEach body l a = Returned a' ->
                 forall k, In k (Obj.keys a')
                           <-> In k (Obj.keys a) \/ In k (flat_map names l).
Proof.
  intros Hb l. induction l as [|x l IH]; intros a a' H k.
  - simpl in H. injection H as <-. simpl. tauto.
  - cbn [forEach] in H. destruct (body x a) as [a1|?|] eqn:E; try discriminate.
    rewrite (IH a1 a' H k), (Hb x a a1 E k). simpl. rewrite in_app_iff. tauto.
Qed.

Lemma import_loop_keys f l u u' :
  forEach (addImport f) l u = Returned u' ->
  forall k, In k (Obj.keys u') <-> In k (Obj.keys u) \/ In k l.
Proof.
  intros H k.
  assert (forall x a a', addImport f x a = Returned a' ->
                         forall k, In k (Obj.keys a')
                                   <-> In k (Obj.keys a) \/ In k [x]) as Hb.
  { intros x a a' E k0. rewrite (addImport_keys _ _ _ _ E k0). simpl. intuition. }
  rewrite (loop_keys _ (addImport f) (fun c => [c]) Hb l u u' H k).
  assert (flat_map (fun c : Str.t => [c]) l = l) as ->.
  { clear H. induction l as [|y l' IH]; simpl; [reflexivity | now rewrite IH]. }
  reflexivity.
Qed.

(** The keys after a [findImports] that returns. *)
Lemma findImports_keys content f u u' :
  findImports content f u = Returned u' ->
  forall k, In k (Obj.keys u') <-> In k (Obj.keys u) \/ In k (importedNames content).
Proof.
  intros H k.
  destruct (findImports_returned _ _ _ _ H) as [u1 [u2 [u3 [u4 [H1 [H2 [H3 [H4 H5]]]]]]]].
  assert (In k (Obj.keys u1)
          <-> In k (Obj.keys u)
              \/ In k (flat_map namedComponents (execAll namedImportPattern content)))
    as K1.
  { refine (loop_keys _ (fun m => forEach (addImport f) (namedComponents m))
              namedComponents _ _ u u1 H1 k).
    intros m a a'. apply import_loop_keys. }
  assert (In k (Obj.keys u2)
          <-> In k (Obj.keys u1)
              \/ In k (filter (fun c => negb (Str.eqb c targetPackageName))
                         (map (fun m => trim (group 1 (groups m)))
                            (execAll defaultImportPattern content)))) as K2.
  { rewrite <- (flat_map_if _ (fun c => negb (Str.eqb c targetPackageName))).
    refine (loop_keys _ (addDefaultImport f) _ _ _ u1 u2 H2 k).
    intros m a a'. unfold addDefaultImport.
    destruct (negb (Str.eqb (trim (group 1 (groups m))) targetPackageName)).
    - intros E k0. rewrite (addImport_keys _ _ _ _ E k0). simpl. intuition.
    - intros [= <-] k0. simpl. tauto. }
  assert (In k (Obj.keys u3)
          <-> In k (Obj.keys u2)
              \/ In k (map (fun m => ch "*" :: trim (group 1 (groups m)))
                         (execAll namespaceImportPattern content))) as K3.
  { rewrite <- flat_map_one.
    refine (loop_keys _ (addNamespaceImport f) _ _ _ u2 u3 H3 k).
    intros m a a' E k0. unfold addNamespaceImport in E.
    rewrite (addImport_keys _ _ _ _ E k0). simpl. intuition. }
  assert (In k (Obj.keys u4)
          <-> In k (Obj.keys u3)
              \/ In k (flat_map requireComponents (execAll requirePattern content)))
    as K4.
  { refine (loop_keys _ (fun m => forEach (addImport f) (requireComponents m))
              requireComponents _ _ u3 u4 H4 k).
    intros m a a'. apply import_loop_keys. }
  assert (In k (Obj.keys u')
          <-> In k (Obj.keys u4)
              \/ In k (map (fun m => trim (group 1 (groups m)))
                         (execAll requireDefaultPattern content))) as K5.
  { rewrite <- flat_map_one.
    refine (loop_keys _ (addRequireDefault f) _ _ _ u4 u' H5 k).
    intros m a a' E k0. unfold addRequireDefault in E.
    rewrite (addImport_keys _ _ _ _ E k0). simpl. intuition. }
  unfold importedNames. rewrite !in_app_iff. tauto.
Qed.

(** A file processed without an error. *)
Lemma processFile_clean p c st st' :
  processFile p c st = Some (st', false) ->
  exists u,
    findImports c p (componentUsage st) = Returned u
    /\ componentUsage st' = u
    /\ ((Obj.keys u = []
         /\ st' = State u (componentInstancesJSX st) (componentInstancesFunc st))
        \/ findComponentUsages c p
             (State u (componentInstancesJSX st) (componentInstancesFunc st))
           = Returned st').
Proof.
  unfold processFile.
  destruct (findImports c p (componentUsage st)) as [u|u|] eqn:Ei;
    try discriminate.
  destruct (Obj.keys u) as [|k ks] eqn:Ek; simpl.
  - intros [= <-]. exists u. rewrite Ek. auto.
  - destruct (findComponentUsages c p
                (State u (componentInstancesJSX st) (componentInstancesFunc st)))
      as [st2|st2|] eqn:Eu; try discriminate.
    intros [= <-]. exists u. split; [reflexivity |].
    split; [now rewrite (findComponentUsages_usage _ _ _ _ _ Eu eq_refl) |].
    now right.
Qed.

(** After a walk without errors, the keys are those of the start and the
    names that the files import. *)
Lemma walk_clean_keys files :
  forall st st',
    walk files st = Some (st', []) ->
    forall k, In k (Obj.keys (componentUsage st'))
              <-> In k (Obj.keys (componentUsage st)) \/ importedIn files k.
Proof.
  induction files as [|[p c] files IH]; intros st st'; simpl.
  - intros [= <-] k. unfold importedIn. split; [now left |].
    intros [H | [f [[] _]]]. exact H.
  - destruct (processFile p c st) as [[st1 flag]|] eqn:E; [| discriminate].
    destruct (walk files st1) as [[st2 errs]|] eqn:Ew; [| discriminate].
    intros H k.
    assert (flag = false /\ errs = [] /\ st2 = st') as [-> [-> ->]].
    { destruct flag; [discriminate |]. now injection H as -> ->. }
    rewrite (IH st1 st' Ew k).
    destruct (processFile_clean _ _ _ _ E) as [u [Ei [Hu _]]].
    rewrite Hu, (findImports_keys _ _ _ _ Ei k). unfold importedIn. split.
    + intros [[H1 | H1] | [f [Hf Hi]]].
      * now left.
      * right. exists (p, c). split; [now left | exact H1].
      * right. exists f. split; [now right | exact Hi].
    + intros [H1 | [f [[<- | Hf] Hi]]].
      * left. now left.
      * left. now right.
      * right. exists f. now split.
Qed.

Lemma includes_app_repeat l f n :
  ~ In f l -> includes (l ++ repeat f n) f = negb (n =? 0).
Proof.
  intros Hl. destruct n as [|n]; simpl.
  - rewrite app_nil_r. now apply includes_not_In.
  - apply includes_In. rewrite in_app_iff. right. now left.
Qed.

(** The occurrences of a file under a plain name, after a walk without
    errors in which the file is processed once: if some file up to and
    including this one imports the name, every markup match of the file is
    there, and every call match when there is no markup match; otherwise
    nothing is. *)
Lemma plain_counts pre post p c name st :
  NoDup (map fst (pre ++ (p, c) :: post)) ->
  walk (pre ++ (p, c) :: post) initial = Some (st, []) ->
  isPlain name = true ->
  (importedIn (pre ++ [(p, c)]) name \/ ~ importedIn (pre ++ [(p, c)]) name)
  /\ (importedIn (pre ++ [(p, c)]) name ->
      count p (valueOf (componentInstancesJSX st) name)
      = List.length (extractJSXUsage c (Lit name))
      /\ count p (valueOf (componentInstancesFunc st) name)
         = if List.length (extractJSXUsage c (Lit name)) =? 0
           then List.length (execAll (functionCallPattern (Lit name)) c)
           else 0)
  /\ (~ importedIn (pre ++ [(p, c)]) name ->
      count p (valueOf (componentInstancesJSX st) name) = 0
      /\ count p (valueOf (componentInstancesFunc st) name) = 0).
Proof.
  intros Hnd Hw Hp.
  apply walk_app in Hw as [st0 [e0 [e2 [Hpre [Hrest He]]]]].
  symmetry in He. apply app_eq_nil in He as [-> ->].
  simpl in Hrest.
  destruct (processFile p c st0) as [[st1 flag]|] eqn:E; [| discriminate].
  destruct (walk post st1) as [[st2 errs]|] eqn:Epost; [| discriminate].
  assert (flag = false /\ errs = [] /\ st2 = st) as [-> [-> ->]].
  { destruct flag; [discriminate |]. now injection Hrest as -> ->. }
  rewrite map_app in Hnd. simpl in Hnd.
  pose proof (NoDup_remove_2 _ _ _ Hnd) as Hnot. rewrite in_app_iff in Hnot.
  assert (~ In p (map fst pre)) as Hnpre by tauto.
  assert (~ In p (map fst post)) as Hnpost by tauto.
  destruct (walk_other_counts pre p Hnpre _ _ _ Hpre name) as [J0 F0].
  destruct (walk_other_counts post p Hnpost _ _ _ Epost name) as [J2 F2].
  simpl in J0, F0. rewrite J2, F2.
  assert (~ In p (valueOf (componentInstancesJSX st0) name)) as Hfresh.
  { apply count_zero_not_In. exact J0. }
  destruct (processFile_clean _ _ _ _ E) as [u [Ei [Hu Hcases]]].
  assert (In name (Obj.keys u) <-> importedIn (pre ++ [(p, c)]) name) as Hknown.
  { rewrite (findImports_keys _ _ _ _ Ei name), (walk_clean_keys _ _ _ Hpre name).
    unfold importedIn. simpl. split.
    - intros [[[] | [f [Hf Hi]]] | Hi].
      + exists f. rewrite in_app_iff. auto.
      + exists (p, c). rewrite in_app_iff. simpl. auto.
    - intros [f [Hf Hi]]. rewrite in_app_iff in Hf.
      destruct Hf as [Hf | [<- | []]]; [left; right; now exists f | now right]. }
  assert (NoDup (Obj.keys u)) as Hndk.
  { apply keys_NoDup.
    apply (findImports_extends c p (componentUsage st0)); [now rewrite Ei |].
    apply (walk_extends _ _ _ _ Hpre). constructor. }
  split; [| split].
  - rewrite <- Hknown. destruct (includes (Obj.keys u) name) eqn:Ek.
    + left. now apply includes_In.
    + right. now apply includes_not_In.
  - intros Hin. apply Hknown in Hin. destruct Hcases as [[Hk _] | Hu'].
    + rewrite Hk in Hin. contradiction.
    + unfold findComponentUsages in Hu'. simpl in Hu'.
      destruct (findComponentUsages_plain c p name (Obj.keys u) Hp Hndk _ _ Hu')
        as [Hj Hf].
      simpl in Hj, Hf. apply includes_In in Hin. rewrite Hin in Hj, Hf.
      rewrite Hj, Hf, !count_app, !count_repeat_same, J0, F0.
      rewrite includes_app_repeat by assumption.
      split; [reflexivity |].
      now destruct (List.length (extractJSXUsage c (Lit name)) =? 0).
  - intros Hin. rewrite <- Hknown in Hin. destruct Hcases as [[_ ->] | Hu'].
    + simpl. now split.
    + unfold findComponentUsages in Hu'. simpl in Hu'.
      destruct (findComponentUsages_plain c p name (Obj.keys u) Hp Hndk _ _ Hu')
        as [Hj Hf].
      simpl in Hj, Hf. apply includes_not_In in Hin. rewrite Hin in Hj, Hf.
      rewrite Hj, Hf, !count_app, J0, F0. simpl. now split.
Qed.

(** ** Counting the occurrences of a namespace member *)

Lemma count_filter_out (p : Str.t -> bool) k l :
  count k (filter p l) = if p k then count k l else 0.
Proof.
  unfold count. induction l as [|x l IH]; simpl.
  - now destruct (p k).
  - destruct (p x) eqn:Ex; simpl.
    + destruct (Str.eqb k x) eqn:E; simpl; rewrite IH.
      * apply str_eqb_eq in E. subst. now rewrite Ex.
      * reflexivity.
    + destruct (Str.eqb k x) eqn:E; simpl; rewrite IH.
      * apply str_eqb_eq in E. subst. now rewrite Ex.
      * reflexivity.
Qed.

(** The iteration for another symbol leaves the lists of a member of the
    namespace as they are, unless the symbol is a plain key that reads as
    the member's usage key. *)
Lemma other_symbol_leaves_member content f namespaceAlias member symbol st r st' :
  Forall (fun c => isMemberChar c = true) member ->
  symbol <> ch "*" :: namespaceAlias ->
  symbol <> namespaceAlias ++ ch "." :: member ->
  componentUsages content f symbol st = r -> finalState r = Some st' ->
  valueOf (componentInstancesJSX st') (namespaceAlias ++ ch "." :: member)
  = valueOf (componentInstancesJSX st) (namespaceAlias ++ ch "." :: member)
  /\ valueOf (componentInstancesFunc st') (namespaceAlias ++ ch "." :: member)
     = valueOf (componentInstancesFunc st) (namespaceAlias ++ ch "." :: member).
Proof.
  intros Hm Hns Hplain Hr Hf.
  destruct (componentUsages_spec _ _ _ _ _ _ Hr Hf) as [_ [a [b [Pa [Pb [Hown _]]]]]].
  assert (~ owns symbol (namespaceAlias ++ ch "." :: member)) as Hno.
  { unfold owns. destruct (startsWith [ch "*"] symbol) eqn:Es.
    - intros [m [E Hm']]. apply dot_split_unique in E;
        try now apply member_no_dot.
      apply Hns. rewrite (star_symbol _ Es). now rewrite E.
    - congruence. }
  assert (a (namespaceAlias ++ ch "." :: member) = 0
          /\ b (namespaceAlias ++ ch "." :: member) = 0) as [Ha Hb].
  { split.
    - destruct (a _) eqn:E; [reflexivity |]. exfalso. apply Hno, Hown. lia.
    - destruct (b _) eqn:E; [reflexivity |]. exfalso. apply Hno, Hown. lia. }
  rewrite (Pa _), (Pb _), Ha, Hb. simpl. now rewrite !app_nil_r.
Qed.

(** The loop that returns, seen from a member of a namespace. *)
Lemma findComponentUsages_member content f namespaceAlias member l :
  isPlain namespaceAlias = true ->
  Forall (fun c => isMemberChar c = true) member ->
  NoDup l ->
  ~ In (namespaceAlias ++ ch "." :: member) l ->
  forall st st',
    forEach (componentUsages content f) l st = Returned st' ->
    let key := namespaceAlias ++ ch "." :: member in
    valueOf (componentInstancesJSX st') key
    = valueOf (componentInstancesJSX st) key
      ++ repeat f (if includes l (ch "*" :: namespaceAlias)
                   then count key (namespaceJSXNames namespaceAlias content)
                   else 0)
    /\ valueOf (componentInstancesFunc st') key
       = valueOf (componentInstancesFunc st) key
         ++ repeat f
              (if includes l (ch "*" :: namespaceAlias)
               then if includes (namespaceJSXNames namespaceAlias content) key
                    then 0
                    else count key (namespaceCallNames namespaceAlias content)
               else 0).
Proof.
  intros Hp Hm. induction l as [|x l IH]; intros Hnd Hkey st st' H key.
  - simpl in H. injection H as <-. simpl. now rewrite !app_nil_r.
  - cbn [forEach] in H.
    destruct (componentUsages content f x st) as [st1|st1|] eqn:E; try discriminate.
    inversion Hnd as [|? ? Hx Hnd']; subst.
    assert (~ In key l) as Hkey' by (intros Hin; apply Hkey; now right).
    assert (x <> key) as Hxk by (intros ->; apply Hkey; now left).
    specialize (IH Hnd' Hkey' st1 st' H). cbv zeta in IH. fold key in IH.
    destruct IH as [IHj IHf].
    destruct (str_eq_dec x (ch "*" :: namespaceAlias)) as [-> | Hne].
    + assert (includes l (ch "*" :: namespaceAlias) = false) as Hl
          by now apply includes_not_In.
      rewrite Hl in IHj, IHf. simpl in IHj, IHf. rewrite app_nil_r in IHj, IHf.
      assert (includes ((ch "*" :: namespaceAlias) :: l) (ch "*" :: namespaceAlias)
              = true) as -> by (apply includes_In; now left).
      unfold componentUsages in E.
      assert (startsWith [ch "*"] (ch "*" :: namespaceAlias) = true) as Hs
          by (simpl; reflexivity).
      rewrite Hs in E. cbn [substring1 tl] in E.
      destruct (namespaceUsages_spec _ _ _ _ _ _ _ (splice_plain _ Hp) E eq_refl)
        as [_ [a [b [Pa [Pb [_ [_ Hret]]]]]]].
      destruct (Hret eq_refl key) as [Ea Eb].
      rewrite IHj, IHf, (Pa key), (Pb key), Ea, Eb.
      split; [reflexivity |].
      rewrite count_filter_out. unfold namespaceJSXNames, namespaceCallNames.
      now destruct (includes _ key).
    + assert (includes (x :: l) (ch "*" :: namespaceAlias)
              = includes l (ch "*" :: namespaceAlias)) as ->.
      { unfold includes. cbn [existsb].
        rewrite (str_eqb_sym (ch "*" :: namespaceAlias) x).
        assert (Str.eqb x (ch "*" :: namespaceAlias) = false) as ->
            by now apply str_eqb_neq.
        reflexivity. }
      destruct (other_symbol_leaves_member _ _ _ _ _ _ _ _ Hm Hne Hxk E eq_refl)
        as [Ej Ef].
      fold key in Ej, Ef. rewrite IHj, IHf, Ej, Ef. now split.
Qed.

(** The occurrences of a file under a member of a namespace, after a walk
    without errors in which the file is processed once and no plain key
    reads as the member's usage key. *)
Lemma member_counts pre post p c namespaceAlias member st :
  NoDup (map fst (pre ++ (p, c) :: post)) ->
  walk (pre ++ (p, c) :: post) initial = Some (st, []) ->
  isPlain namespaceAlias = true ->
  Forall (fun c => isMemberChar c = true) member ->
  ~ In (namespaceAlias ++ ch "." :: member) (Obj.keys (componentUsage st)) ->
  let key := namespaceAlias ++ ch "." :: member in
  let known := importedIn (pre ++ [(p, c)]) (ch "*" :: namespaceAlias) in
  (known \/ ~ known)
  /\ (known ->
      count p (valueOf (componentInstancesJSX st) key)
      = count key (namespaceJSXNames namespaceAlias c)
      /\ count p (valueOf (componentInstancesFunc st) key)
         = if includes (namespaceJSXNames namespaceAlias c) key
           then 0
           else count key (namespaceCallNames namespaceAlias c))
  /\ (~ known ->
      count p (valueOf (componentInstancesJSX st) key) = 0
      /\ count p (valueOf (componentInstancesFunc st) key) = 0).
Proof.
  intros Hnd Hw Hp Hm Hkey key known.
  apply walk_app in Hw as [st0 [e0 [e2 [Hpre [Hrest He]]]]].
  symmetry in He. apply app_eq_nil in He as [-> ->].
  simpl in Hrest.
  destruct (processFile p c st0) as [[st1 flag]|] eqn:E; [| discriminate].
  destruct (walk post st1) as [[st2 errs]|] eqn:Epost; [| discriminate].
  assert (flag = false /\ errs = [] /\ st2 = st) as [-> [-> ->]].
  { destruct flag; [discriminate |]. now injection Hrest as -> ->. }
  rewrite map_app in Hnd. simpl in Hnd.
  pose proof (NoDup_remove_2 _ _ _ Hnd) as Hnot. rewrite in_app_iff in Hnot.
  assert (~ In p (map fst pre)) as Hnpre by tauto.
  assert (~ In p (map fst post)) as Hnpost by tauto.
  destruct (walk_other_counts pre p Hnpre _ _ _ Hpre key) as [J0 F0].
  destruct (walk_other_counts post p Hnpost _ _ _ Epost key) as [J2 F2].
  simpl in J0, F0. rewrite J2, F2.
  destruct (processFile_clean _ _ _ _ E) as [u [Ei [Hu Hcases]]].
  assert (In (ch "*" :: namespaceAlias) (Obj.keys u) <-> known) as Hknown.
  { rewrite (findImports_keys _ _ _ _ Ei _), (walk_clean_keys _ _ _ Hpre _).
    unfold known, importedIn. simpl. split.
    - intros [[[] | [f [Hf Hi]]] | Hi].
      + exists f. rewrite in_app_iff. auto.
      + exists (p, c). rewrite in_app_iff. simpl. auto.
    - intros [f [Hf Hi]]. rewrite in_app_iff in Hf.
      destruct Hf as [Hf | [<- | []]]; [left; right; now exists f | now right]. }
  assert (NoDup (Obj.keys u)) as Hndk.
  { apply keys_NoDup.
    apply (findImports_extends c p (componentUsage st0)); [now rewrite Ei |].
    apply (walk_extends _ _ _ _ Hpre). constructor. }
  assert (~ In key (Obj.keys u)) as Hku.
  { intros Hin. apply Hkey. apply (walk_extends _ _ _ _ Epost). now rewrite Hu. }
  split; [| split].
  - rewrite <- Hknown.
    destruct (includes (Obj.keys u) (ch "*" :: namespaceAlias)) eqn:Ek.
    + left. now apply includes_In.
    + right. now apply includes_not_In.
  - intros Hin. apply Hknown in Hin. destruct Hcases as [[Hk _] | Hu'].
    + rewrite Hk in Hin. contradiction.
    + unfold findComponentUsages in Hu'. simpl in Hu'.
      destruct (findComponentUsages_member c p namespaceAlias member (Obj.keys u)
                  Hp Hm Hndk Hku _ _ Hu') as [Hj Hf].
      cbv zeta in Hj, Hf.
      cbn [componentInstancesJSX componentInstancesFunc] in Hj, Hf.
      fold key in Hj, Hf.
      apply includes_In in Hin. rewrite Hin in Hj, Hf.
      rewrite Hj, Hf, !count_app, !count_repeat_same, J0, F0.
      now split.
  - intros Hin. rewrite <- Hknown in Hin. destruct Hcases as [[_ ->] | Hu'].
    + simpl. now split.
    + unfold findComponentUsages in Hu'. simpl in Hu'.
      destruct (findComponentUsages_member c p namespaceAlias member (Obj.keys u)
                  Hp Hm Hndk Hku _ _ Hu') as [Hj Hf].
      cbv zeta in Hj, Hf.
      cbn [componentInstancesJSX componentInstancesFunc] in Hj, Hf.
      fold key in Hj, Hf.
      apply includes_not_In in Hin. rewrite Hin in Hj, Hf.
      rewrite Hj, Hf, !count_app, J0, F0. simpl. now split.
Qed.

(** ** The scope of the search *)

(** C6, as stated, fails: [src/b.js] imports [Button], [src/a.js] has the
    text [Button(] and is scanned, yet nothing is recorded for [src/a.js]:
    it was processed before the import was seen. *)
Lemma usage_before_import_is_not_recorded :
  exists st,
    walk lateImportFiles initial = Some (st, [])
    /\ In (lit "Button") (Obj.keys (componentUsage st))
    /\ List.length (execAll (functionCallPattern (Lit (lit "Button")))
                      (lit "Button(1);")) = 1
    /\ valueOf (componentInstancesFunc st) (lit "Button")
       = [lit "src/c.js"; lit "src/c.js"].
Proof.
  eexists. split; [vm_compute; reflexivity |].
  split; [vm_compute; left; reflexivity |].
  split; vm_compute; reflexivity.
Qed.

(** C10: usage recording depends on more than the order of the walk.
    In [callAfterInheritedImport] the file [src/a.js] imports [A], and
    [src/b.js], processed after it, has the call [A(1)]; but [src/b.js]
    also imports [toString], a name that every object inherits: its
    registration throws, the error is logged, and the file is never
    searched, so that nothing is recorded for it.  And in [dollarFiles]
    the imported name [$], spliced unescaped, stands for the end of the
    text: the file has the call [$(] and nothing is recorded. *)
Theorem usage_after_inherited_import_is_not_recorded :
  (In (lit "A") (importedNames (importLine "{ A }"))
   /\ map index
        (execAll (functionCallPattern (Lit (lit "A")))
           (importLine "{ toString }" ++ lit "A(1);")) = [46%nat]
   /\ exists st,
       walk callAfterInheritedImport initial = Some (st, [lit "src/b.js"])
       /\ Obj.keys (componentUsage st) = [lit "A"]
       /\ componentInstancesJSX st = []
       /\ componentInstancesFunc st = [])
  /\ (In (lit "$") (importedNames (importLine "$"))
      /\ map index
           (execAll (Lit (lit "$(")) (importLine "$" ++ lit "$('#root').show();"))
         = [35%nat]
      /\ exists st,
          walk dollarFiles initial = Some (st, [])
          /\ Obj.keys (componentUsage st) = [lit "$"]
          /\ componentInstancesJSX st = []
          /\ componentInstancesFunc st = []).
Proof.
  split.
  - split; [vm_compute; now left |]. split; [vm_compute; reflexivity |].
    exists (State [(lit "A", [lit "src/a.js"])] [] []).
    repeat split; vm_compute; reflexivity.
  - split; [vm_compute; now left |]. split; [vm_compute; reflexivity |].
    exists (State [(lit "$", [appJs])] [] []).
    repeat split; vm_compute; reflexivity.
Qed.

(** Without logged errors, recording depends on the order of the walk
    only.  In a walk without errors over distinct paths, and for a symbol
    without pattern syntax characters: a file has a recorded occurrence of
    the symbol if and only if the file has a markup or call match of it and
    some file processed no later than this one imports the symbol.  The
    matches of a file processed before the first importing file are never
    recorded.  The same holds for the members of a namespace alias, whose
    usage key no plain key repeats. *)
Theorem usage_recorded_iff_imported_by_then
        (pre post : list file) (p c name : Str.t) (st : state) :
  NoDup (map fst (pre ++ (p, c) :: post)) ->
  walk (pre ++ (p, c) :: post) initial = Some (st, []) ->
  isPlain name = true ->
  ((In p (valueOf (componentInstancesJSX st) name)
    \/ In p (valueOf (componentInstancesFunc st) name))
   <-> (importedIn (pre ++ [(p, c)]) name
        /\ 0 < List.length (extractJSXUsage c (Lit name))
               + List.length (execAll (functionCallPattern (Lit name)) c)))
  /\ (~ importedIn (pre ++ [(p, c)]) name ->
      ~ In p (valueOf (componentInstancesJSX st) name)
      /\ ~ In p (valueOf (componentInstancesFunc st) name))
  /\ (forall member,
         Forall (fun c => isMemberChar c = true) member ->
         ~ In (name ++ ch "." :: member) (Obj.keys (componentUsage st)) ->
         ((In p (valueOf (componentInstancesJSX st) (name ++ ch "." :: member))
           \/ In p (valueOf (componentInstancesFunc st) (name ++ ch "." :: member)))
          <-> (importedIn (pre ++ [(p, c)]) (ch "*" :: name)
               /\ (In (name ++ ch "." :: member) (namespaceJSXNames name c)
                   \/ In (name ++ ch "." :: member) (namespaceCallNames name c))))).
Proof.
  intros Hnd Hw Hp.
  destruct (plain_counts pre post p c name st Hnd Hw Hp) as [Hdec [Hyes Hno]].
  split; [| split].
  - rewrite <- !count_pos_In. split.
    + intros H. destruct Hdec as [Hin | Hout].
      * split; [exact Hin |]. destruct (Hyes Hin) as [Hj Hf].
        rewrite Hj, Hf in H.
        destruct (List.length (extractJSXUsage c (Lit name))); simpl in *; lia.
      * destruct (Hno Hout) as [Hj Hf]. lia.
    + intros [Hin Hpos]. destruct (Hyes Hin) as [Hj Hf]. rewrite Hj, Hf.
      destruct (List.length (extractJSXUsage c (Lit name))); simpl in *; lia.
  - intros Hout. destruct (Hno Hout) as [Hj Hf].
    rewrite <- !count_zero_not_In. now split.
  - intros member Hm Hkey.
    destruct (member_counts pre post p c name member st Hnd Hw Hp Hm Hkey)
      as [Mdec [Myes Mno]].
    rewrite <- !count_pos_In. split.
    + intros H. destruct Mdec as [Hin | Hout].
      * split; [exact Hin |]. destruct (Myes Hin) as [Hj Hf].
        rewrite Hj, Hf in H.
        destruct (includes (namespaceJSXNames name c) (name ++ ch "." :: member))
          eqn:Ei.
        -- left. apply count_pos_In. now apply includes_In.
        -- exact H.
      * destruct (Mno Hout) as [Hj Hf]. lia.
    + intros [Hin Hocc]. destruct (Myes Hin) as [Hj Hf]. rewrite Hj, Hf.
      destruct (includes (namespaceJSXNames name c) (name ++ ch "." :: member))
        eqn:Ei.
      * left. apply count_pos_In. now apply includes_In.
      * exact Hocc.
Qed.

Lemma usage_recorded_iff_imported_by_then_witness :
  NoDup (map fst lateImportFiles)
  /\ (exists st,
         walk lateImportFiles initial = Some (st, [])
         /\ ~ In (lit "src/a.js")
              (valueOf (componentInstancesFunc st) (lit "Button"))).
Proof.
  assert (NoDup (map fst lateImportFiles)) as Hnd.
  { repeat constructor; simpl; intuition discriminate. }
  split; [exact Hnd |].
  eexists. split; [vm_compute; reflexivity |].
  refine (proj2 (proj1 (proj2 (usage_recorded_iff_imported_by_then
                                 [] [(lit "src/b.js", importLine "{ Button }");
                                     (lit "src/c.js", lit "Button(2); Button(3);")]
                                 (lit "src/a.js") (lit "Button(1);")
                                 (lit "Button") _ Hnd _ eq_refl)) _)).
  - vm_compute; reflexivity.
  - intros [f [[<- | []] Hi]]. vm_compute in Hi. exact Hi.
Defined.

(** ** The report *)

Lemma pushInstances_nonEmpty f key n t r t' :
  pushInstances f key n t = r -> finalState r = Some t' ->
  nonEmptyLists t -> nonEmptyLists t'.
Proof.
  unfold pushInstances. intros <-. destruct n as [|n].
  - now intros [= <-].
  - destruct (Obj.lookup t key) as [a| |]; intros [= <-] Ht; try exact Ht.
    + intros k v. destruct (str_eq_dec key k) as [<- | Hne].
      * rewrite get_set_same. intros [= <-]. simpl.
        intros E. apply app_eq_nil in E as [_ E]. discriminate.
      * rewrite get_set_other by assumption. apply Ht.
    + intros k v. destruct (str_eq_dec key k) as [<- | Hne].
      * rewrite get_set_same. intros [= <-]. discriminate.
      * rewrite get_set_other by assumption. apply Ht.
Qed.

Lemma push_loop_nonEmpty f names t r t' :
  forEach (fun name => pushInstances f name 1) names t = r ->
  finalState r = Some t' ->
  nonEmptyLists t -> nonEmptyLists t'.
Proof.
  apply (forEach_final_keeps _ _ (fun name => pushInstances f name 1)
           (fun a b => nonEmptyLists a -> nonEmptyLists b)); auto.
  intros x a r0 a'. apply pushInstances_nonEmpty.
Qed.

Lemma componentUsages_nonEmpty content f symbol st r st' :
  componentUsages content f symbol st = r -> finalState r = Some st' ->
  nonEmptyTables st -> nonEmptyTables st'.
Proof.
  unfold componentUsages, nonEmptyTables. intros Hr Hf [Hj Hc].
  destruct (startsWith [ch "*"] symbol).
  - unfold namespaceUsages in Hr.
    destruct (splice (substring1 symbol)) as [re|]; [| subst r; discriminate].
    match type of Hr with
    | match forEach ?b ?l ?t with _ => _ end = _ =>
        destruct (forEach b l t) as [jsx|jsx|] eqn:Ej
    end.
    + pose proof (push_loop_nonEmpty _ _ _ _ jsx Ej eq_refl Hj) as Hj'.
      match type of Hr with
      | match forEach ?b ?l ?t with _ => _ end = _ =>
          destruct (forEach b l t) as [func|func|] eqn:Ef
      end.
      * pose proof (push_loop_nonEmpty _ _ _ _ func Ef eq_refl Hc) as Hc'.
        subst r. injection Hf as <-. now split.
      * pose proof (push_loop_nonEmpty _ _ _ _ func Ef eq_refl Hc) as Hc'.
        subst r. injection Hf as <-. now split.
      * subst r. discriminate.
    + pose proof (push_loop_nonEmpty _ _ _ _ jsx Ej eq_refl Hj) as Hj'.
      subst r. injection Hf as <-. now split.
    + subst r. discriminate.
  - unfold plainUsages in Hr.
    destruct (splice symbol) as [re|]; [| subst r; discriminate].
    destruct (pushInstances f symbol (List.length (extractJSXUsage content re))
                (componentInstancesJSX st)) as [jsx|jsx|] eqn:Ej.
    + pose proof (pushInstances_nonEmpty _ _ _ _ _ jsx Ej eq_refl Hj) as Hj'.
      destruct (usedAsJSX jsx symbol f) as [[|]|].
      * subst r. injection Hf as <-. now split.
      * destruct (pushInstances f symbol
                    (List.length (execAll (functionCallPattern re) content))
                    (componentInstancesFunc st)) as [func|func|] eqn:Ef.
        -- pose proof (pushInstances_nonEmpty _ _ _ _ _ func Ef eq_refl Hc) as Hc'.
           subst r. injection Hf as <-. now split.
        -- pose proof (pushInstances_nonEmpty _ _ _ _ _ func Ef eq_refl Hc) as Hc'.
           subst r. injection Hf as <-. now split.
        -- subst r. discriminate.
      * subst r. injection Hf as <-. now split.
    + pose proof (pushInstances_nonEmpty _ _ _ _ _ jsx Ej eq_refl Hj) as Hj'.
      subst r. injection Hf as <-. now split.
    + subst r. discriminate.
Qed.

Lemma processFile_nonEmpty p c st st' flag :
  processFile p c st = Some (st', flag) -> nonEmptyTables st -> nonEmptyTables st'.
Proof.
  intros H Hne.
  destruct (processFile_cases _ _ _ _ _ H) as [u [_ [_ [-> | [r [_ [Er [Hf _]]]]]]]].
  - exact Hne.
  - unfold findComponentUsages in Er.
    refine (forEach_final_keeps _ _ (componentUsages c p)
              (fun a b => nonEmptyTables a -> nonEmptyTables b) _ _ _
              _ _ _ _ Er Hf Hne); auto.
    intros x a r0 a'. apply componentUsages_nonEmpty.
Qed.

(** In the tables of a walk, a key has at least one occurrence. *)
Lemma walk_nonEmpty files :
  forall st st' errors,
    walk files st = Some (st', errors) -> nonEmptyTables st -> nonEmptyTables st'.
Proof.
  induction files as [|[p c] files IH]; intros st st' errors; simpl.
  - now intros [= <- _].
  - destruct (processFile p c st) as [[st1 flag]|] eqn:E; [| discriminate].
    destruct (walk files st1) as [[st2 errs]|] eqn:Ew; [| discriminate].
    intros [= <- _] Hne. eapply IH; eauto. eapply processFile_nonEmpty; eauto.
Qed.

Lemma key_has_occurrences t k :
  nonEmptyLists t -> (In k (Obj.keys t) <-> valueOf t k <> []).
Proof.
  intros Hne. rewrite keys_In_get. unfold valueOf.
  destruct (Obj.get t k) as [v|] eqn:E.
  - split; [intros _; now apply (Hne k) | discriminate].
  - split; intros H; exfalso; now apply H.
Qed.

Lemma insertBy_In (A : Type) (le : A -> A -> bool) x y l :
  In y (insertBy le x l) <-> y = x \/ In y l.
Proof.
  induction l as [|z l IH]; simpl.
  - intuition.
  - destruct (le x z); simpl; [intuition | rewrite IH; intuition].
Qed.

Lemma sortBy_In (A : Type) (le : A -> A -> bool) y l :
  In y (sortBy le l) <-> In y l.
Proof.
  unfold sortBy. induction l as [|x l IH]; simpl; [reflexivity |].
  rewrite insertBy_In, IH. intuition.
Qed.

Lemma unusedComponents_spec st c :
  nonEmptyTables st ->
  (In c (unusedComponents st)
   <-> In c (Obj.keys (componentUsage st))
       /\ startsWith [ch "*"] c = false
       /\ valueOf (componentInstancesJSX st) c = []
       /\ valueOf (componentInstancesFunc st) c = []).
Proof.
  intros [Hj Hc]. unfold unusedComponents, isUsed.
  rewrite filter_In, andb_true_iff, !negb_true_iff, includes_not_In, in_app_iff.
  rewrite (key_has_occurrences _ c Hj), (key_has_occurrences _ c Hc).
  destruct (valueOf (componentInstancesJSX st) c),
    (valueOf (componentInstancesFunc st) c); intuition congruence.
Qed.

(** C7: the last block of the report.  After any walk, the components of
    the block are exactly the keys of the symbol table that do not start
    with a star and have no occurrence in the markup table nor in the call
    table; the block prints them sorted, one on each line, and it ends the
    report.  A namespace key is never in the block.  With two imported
    symbols of which one has an occurrence, the block is the line of the
    other. *)
Theorem unused_block_lists_symbols_without_usage
        (files : list file) (st : state) (errors : list Str.t) :
  walk files initial = Some (st, errors) ->
  (forall c,
      In c (sortStrings (unusedComponents st))
      <-> In c (Obj.keys (componentUsage st))
          /\ startsWith [ch "*"] c = false
          /\ valueOf (componentInstancesJSX st) c = []
          /\ valueOf (componentInstancesFunc st) c = [])
  /\ (forall namespaceAlias,
         ~ In (ch "*" :: namespaceAlias) (sortStrings (unusedComponents st)))
  /\ (forall X Y,
         Obj.keys (componentUsage st) = [X; Y]
         \/ Obj.keys (componentUsage st) = [Y; X] ->
         valueOf (componentInstancesJSX st) X <> []
         \/ valueOf (componentInstancesFunc st) X <> [] ->
         valueOf (componentInstancesJSX st) Y = [] ->
         valueOf (componentInstancesFunc st) Y = [] ->
         startsWith [ch "*"] Y = false ->
         unusedSection st = Y ++ nl ++ nl)
  /\ (unusedSection st
      = if List.length (unusedComponents st) =? 0
        then lit "All imported components are used." ++ nl ++ nl
        else List.concat (map (fun c => c ++ nl)
                            (sortStrings (unusedComponents st))) ++ nl)
  /\ (forall now, exists before,
         generateReport now st
         = before ++ lit "COMPONENTS WITH NO USAGE FOUND" ++ nl ++ rule
           ++ unusedSection st).
Proof.
  intros Hw.
  assert (nonEmptyTables st) as Hne.
  { apply (walk_nonEmpty _ _ _ _ Hw). split; intros k v; discriminate. }
  split; [| split; [| split; [| split]]].
  - intros c. unfold sortStrings. rewrite sortBy_In.
    now apply unusedComponents_spec.
  - intros namespaceAlias H. unfold sortStrings in H. rewrite sortBy_In in H.
    apply (unusedComponents_spec _ _ Hne) in H as [_ [H _]].
    simpl in H. discriminate.
  - intros X Y Hk HX HYj HYc HYs.
    assert (isUsed st X = true) as UX.
    { unfold isUsed. apply includes_In. rewrite in_app_iff.
      destruct Hne as [Hj Hc].
      rewrite (key_has_occurrences _ X Hj), (key_has_occurrences _ X Hc).
      exact HX. }
    assert (isUsed st Y = false) as UY.
    { unfold isUsed. apply includes_not_In. rewrite in_app_iff.
      destruct Hne as [Hj Hc].
      rewrite (key_has_occurrences _ Y Hj), (key_has_occurrences _ Y Hc).
      intros [H | H]; now apply H. }
    assert (unusedComponents st = [Y]) as E.
    { unfold unusedComponents.
      destruct Hk as [-> | ->]; cbn [filter]; rewrite UX, UY, HYs; reflexivity. }
    unfold unusedSection. rewrite E. unfold sortStrings, sortBy.
    cbn [List.length Nat.eqb fold_right insertBy map List.concat].
    now rewrite app_nil_r, <- app_assoc.
  - reflexivity.
  - intros now. unfold generateReport, reportBody. cbv zeta.
    eexists. rewrite !app_assoc. reflexivity.
Qed.

Lemma unused_block_lists_symbols_without_usage_witness :
  exists st,
    walk unusedFiles initial = Some (st, [])
    /\ Obj.keys (componentUsage st) = [lit "X"; lit "Y"; lit "*NS"]
    /\ unusedSection st = lit "Y" ++ nl ++ nl
    /\ forall c,
        In c (sortStrings (unusedComponents st))
        <-> In c (Obj.keys (componentUsage st))
            /\ startsWith [ch "*"] c = false
            /\ valueOf (componentInstancesJSX st) c = []
            /\ valueOf (componentInstancesFunc st) c = [].
Proof.
  eexists. split; [vm_compute; reflexivity |].
  split; [vm_compute; reflexivity |]. split; [vm_compute; reflexivity |].
  refine (proj1 (unused_block_lists_symbols_without_usage unusedFiles _ [] _)).
  vm_compute; reflexivity.
Defined.

(** ** Two runs *)

Lemma split_line cur a b :
  ~ In newline a ->
  splitAux nl 0 cur (a ++ newline :: b) = (rev cur ++ a) :: splitAux nl 0 [] b.
Proof.
  revert cur. induction a as [|x a IH]; intros cur Hn.
  - simpl app. cbn [splitAux]. unfold nl at 1. cbn [startsWith].
    rewrite N.eqb_refl. simpl. now rewrite app_nil_r.
  - assert (x <> newline) as Hx by (intros ->; apply Hn; now left).
    assert (~ In newline a) as Ha by (intros H; apply Hn; now right).
    change ((x :: a) ++ newline :: b) with (x :: a ++ newline :: b).
    cbn [splitAux]. unfold nl at 1. cbn [startsWith].
    assert (N.eqb newline x = false) as -> by (apply N.eqb_neq; congruence).
    cbn [andb]. rewrite (IH (x :: cur) Ha). simpl. now rewrite <- app_assoc.
Qed.

(** The first two lines of a report. *)
Lemma report_lines now st :
  ~ In newline now ->
  exists others,
    lines (generateReport now st)
    = titleLine :: (lit "Generated on: " ++ now) :: others
    /\ others = splitAux nl 0 [] (tl (reportBody st)).
Proof.
  intros Hn. eexists. split; [| reflexivity].
  assert (generateReport now st
          = titleLine
            ++ newline :: (lit "Generated on: " ++ now)
            ++ newline :: tl (reportBody st)) as ->.
  { unfold generateReport, reportHead, titleLine.
    change (reportBody st) with (newline :: tl (reportBody st)).
    rewrite <- !app_assoc. reflexivity. }
  unfold lines, split.
  rewrite split_line by (vm_compute; intuition discriminate).
  rewrite split_line.
  - reflexivity.
  - rewrite in_app_iff. intros [H | H]; [| now apply Hn].
    vm_compute in H. intuition discriminate.
Qed.

(** C8: two runs over the same files, in the same order, at two moments.
    The tables do not depend on the moment: both runs end within the model
    or neither does, and both reports are the same head, then the time
    stamp, then the same body.  When the time stamps have no line break, as
    ISO-8601 time stamps have none, the reports are line for line the same
    but for their second line, [Generated on: ] and the time stamp. *)
Theorem reports_differ_in_timestamp_only (files : list file) (now1 now2 : Str.t) :
  ~ In newline now1 -> ~ In newline now2 ->
  (main now1 files = None <-> main now2 files = None)
  /\ (forall r1 r2,
         main now1 files = Some r1 -> main now2 files = Some r2 ->
         (exists body,
             r1 = reportHead ++ now1 ++ body /\ r2 = reportHead ++ now2 ++ body)
         /\ (exists others,
                lines r1 = titleLine :: (lit "Generated on: " ++ now1) :: others
                /\ lines r2 = titleLine :: (lit "Generated on: " ++ now2) :: others)).
Proof.
  intros H1 H2. unfold main.
  destruct (walk files initial) as [[st errors]|].
  - split; [split; discriminate |].
    intros r1 r2 [= <-] [= <-]. split.
    + exists (reportBody st). now split.
    + destruct (report_lines now1 st H1) as [o1 [E1 ->]].
      destruct (report_lines now2 st H2) as [o2 [E2 ->]].
      eexists. split; eassumption.
  - split; [tauto | discriminate].
Qed.

Lemma reports_differ_in_timestamp_only_witness :
  ~ In newline morning /\ ~ In newline evening
  /\ exists r1 r2 others,
      main morning demoFiles = Some r1 /\ main evening demoFiles = Some r2
      /\ lines r1 = titleLine :: (lit "Generated on: " ++ morning) :: others
      /\ lines r2 = titleLine :: (lit "Generated on: " ++ evening) :: others.
Proof.
  assert (~ In newline morning) as Hm by (vm_compute; intuition discriminate).
  assert (~ In newline evening) as He by (vm_compute; intuition discriminate).
  split; [exact Hm |]. split; [exact He |].
  destruct (main morning demoFiles) as [r1|] eqn:E1;
    [| vm_compute in E1; discriminate].
  destruct (main evening demoFiles) as [r2|] eqn:E2;
    [| vm_compute in E2; discriminate].
  destruct (proj2 (reports_differ_in_timestamp_only demoFiles morning evening
                     Hm He) r1 r2 E1 E2) as [_ [others [L1 L2]]].
  exists r1, r2, others. repeat split; assumption.
Defined.

(** ** The merged variant *)

(** The second script differs where C4 and C7 speak: its call pattern has
    no look-behind, so the [Button] of [obj.Button(] is counted, and its
    last block keeps the namespace keys, which never have an instance list
    of their own. *)
Lemma merged_variant_differs :
  (exists st,
      Merged.walk [(appJs, importLine "{ Button }" ++ lit "obj.Button(1);")]
        Merged.initial = Some (st, [])
      /\ valueOf (Merged.componentInstances st) (lit "Button") = [appJs])
  /\ (exists st,
         walk [(appJs, importLine "{ Button }" ++ lit "obj.Button(1);")] initial
         = Some (st, [])
         /\ valueOf (componentInstancesFunc st) (lit "Button") = [])
  /\ (exists st,
         Merged.walk unusedFiles Merged.initial = Some (st, [])
         /\ Merged.unusedComponents st = [lit "Y"; lit "*NS"]).
Proof.
  split; [| split].
  - exists (Merged.State [(lit "Button", [appJs])] [(lit "Button", [appJs])]).
    split; vm_compute; reflexivity.
  - exists (State [(lit "Button", [appJs])] [] []).
    split; vm_compute; reflexivity.
  - exists (Merged.State
              [(lit "X", [appJs]); (lit "Y", [appJs]); (lit "*NS", [appJs])]
              [(lit "X", [appJs])]).
    split; vm_compute; reflexivity.
Qed.

(** * Further properties *)

(** ** What the import loops keep *)

Lemma forEach_final_keeps_in (A X : Type) (body : X -> A -> result A)
      (R : A -> A -> Prop) l :
  (forall a, R a a) -> (forall a b c, R a b -> R b c -> R a c) ->
  (forall x a r a', In x l -> body x a = r -> finalState r = Some a' -> R a a') ->
  forall a r a', forEach body l a = r -> finalState r = Some a' -> R a a'.
Proof.
  intros Hrefl Htrans. induction l as [|x l IH]; intros Hstep a r a' Hr Hf.
  - simpl in Hr. subst r. injection Hf as <-. apply Hrefl.
  - cbn [forEach] in Hr. destruct (body x a) as [a1|a1|] eqn:E.
    + eapply Htrans; [eapply (Hstep x a _ a1 (or_introl eq_refl) E eq_refl) |].
      eapply IH; [| exact Hr | exact Hf].
      intros y b r' b' Hy. apply Hstep. now right.
    + subst r. injection Hf as <-.
      apply (Hstep x a _ a1 (or_introl eq_refl) E eq_refl).
    + subst r. discriminate.
Qed.

(** A relation between tables that every registration of a name the text
    imports keeps, however it ends, holds between the table before and
    after [findImports]. *)
Lemma findImports_steps (R : Obj.t fileSet -> Obj.t fileSet -> Prop) content f :
  (forall a, R a a) -> (forall a b c, R a b -> R b c -> R a c) ->
  (forall c u r u',
      In c (importedNames content) ->
      addImport f c u = r -> finalState r = Some u' -> R u u') ->
  forall u u', finalState (findImports content f u) = Some u' -> R u u'.
Proof.
  intros Hrefl Htrans Hstep u u' H. unfold findImports in H.
  assert (forall (names : jsmatch -> list Str.t) l,
             (forall m c, In m l -> In c (names m) ->
                          In c (importedNames content)) ->
             forall a r a',
               forEach (fun m => forEach (addImport f) (names m)) l a = r ->
               finalState r = Some a' -> R a a') as Hnamed.
  { intros names l Hin. apply forEach_final_keeps_in; [exact Hrefl | exact Htrans |].
    intros m a r a' Hm.
    apply forEach_final_keeps_in; [exact Hrefl | exact Htrans |].
    intros c b r' b' Hc. apply Hstep. now apply (Hin m). }
  assert (forall (body : jsmatch -> Obj.t fileSet -> result (Obj.t fileSet)) l,
             (forall m a r a', In m l -> body m a = r -> finalState r = Some a' ->
                               R a a') ->
             forall a r a', forEach body l a = r -> finalState r = Some a' ->
                            R a a') as Hloop.
  { intros body l Hb. apply forEach_final_keeps_in;
      [exact Hrefl | exact Htrans | exact Hb]. }
  assert (forall m c, In m (execAll namedImportPattern content) ->
                      In c (namedComponents m) ->
                      In c (importedNames content)) as I1.
  { intros m c Hm Hc. unfold importedNames. apply in_or_app. left.
    apply in_flat_map. now exists m. }
  assert (forall m a r a', In m (execAll defaultImportPattern content) ->
                           addDefaultImport f m a = r ->
                           finalState r = Some a' -> R a a') as I2.
  { intros m a r a' Hm. unfold addDefaultImport.
    destruct (negb (Str.eqb (trim (group 1 (groups m))) targetPackageName))
      eqn:E.
    - apply Hstep. unfold importedNames. apply in_or_app. right.
      apply in_or_app. left. apply filter_In. split; [| exact E].
      apply in_map_iff. now exists m.
    - intros <- [= <-]. apply Hrefl. }
  assert (forall m a r a', In m (execAll namespaceImportPattern content) ->
                           addNamespaceImport f m a = r ->
                           finalState r = Some a' -> R a a') as I3.
  { intros m a r a' Hm. unfold addNamespaceImport. apply Hstep.
    unfold importedNames. apply in_or_app. right. apply in_or_app. right.
    apply in_or_app. left. apply in_map_iff. now exists m. }
  assert (forall m c, In m (execAll requirePattern content) ->
                      In c (requireComponents m) ->
                      In c (importedNames content)) as I4.
  { intros m c Hm Hc. unfold importedNames. apply in_or_app. right.
    apply in_or_app. right. apply in_or_app. right. apply in_or_app. left.
    apply in_flat_map. now exists m. }
  assert (forall m a r a', In m (execAll requireDefaultPattern content) ->
                           addRequireDefault f m a = r ->
                           finalState r = Some a' -> R a a') as I5.
  { intros m a r a' Hm. unfold addRequireDefault. apply Hstep.
    unfold importedNames. apply in_or_app. right. apply in_or_app. right.
    apply in_or_app. right. apply in_or_app. right.
    apply in_map_iff. now exists m. }
  apply andThen_final in H as [[u1 [E1 H]] | E1].
  2: { eapply (Hnamed _ _ I1); [exact E1 | reflexivity]. }
  apply (Hnamed _ _ I1 _ _ u1) in E1; [| reflexivity].
  apply andThen_final in H as [[u2 [E2 H]] | E2].
  2: { eapply Htrans; [exact E1 |].
       eapply (Hloop _ _ I2); [exact E2 | reflexivity]. }
  apply (Hloop _ _ I2 _ _ u2) in E2; [| reflexivity].
  apply andThen_final in H as [[u3 [E3 H]] | E3].
  2: { eapply Htrans; [exact E1 |]. eapply Htrans; [exact E2 |].
       eapply (Hloop _ _ I3); [exact E3 | reflexivity]. }
  apply (Hloop _ _ I3 _ _ u3) in E3; [| reflexivity].
  apply andThen_final in H as [[u4 [E4 H]] | E4].
  2: { eapply Htrans; [exact E1 |]. eapply Htrans; [exact E2 |].
       eapply Htrans; [exact E3 |].
       eapply (Hnamed _ _ I4); [exact E4 | reflexivity]. }
  apply (Hnamed _ _ I4 _ _ u4) in E4; [| reflexivity].
  eapply Htrans; [exact E1 |]. eapply Htrans; [exact E2 |].
  eapply Htrans; [exact E3 |]. eapply Htrans; [exact E4 |].
  eapply (Hloop _ _ I5); [reflexivity | exact H].
Qed.

(** A property of the symbol table that every registration keeps is kept
    by [processFile]. *)
Lemma processFile_usage_keeps (P : Obj.t fileSet -> Prop) p c st st' flag :
  (forall name u r u',
      In name (importedNames c) ->
      addImport p name u = r -> finalState r = Some u' -> P u -> P u') ->
  processFile p c st = Some (st', flag) ->
  P (componentUsage st) -> P (componentUsage st').
Proof.
  intros Hstep H.
  destruct (processFile_cases _ _ _ _ _ H) as [u [Hu [-> _]]].
  revert Hu.
  apply (findImports_steps (fun a b => P a -> P b) c p);
    [tauto | tauto | exact Hstep].
Qed.

(** ** Inherited names and logged errors *)

Lemma prototypeNames_no_dot k : In k Obj.prototypeNames -> ~ In (ch ".") k.
Proof.
  intros Hk Hd.
  assert (forallb (fun n => negb (existsb (N.eqb (ch ".")) n)) Obj.prototypeNames
          = true) as H by (vm_compute; reflexivity).
  rewrite forallb_forall in H. specialize (H k Hk).
  apply negb_true_iff in H.
  assert (existsb (N.eqb (ch ".")) k = true) as H'.
  { apply existsb_exists. exists (ch "."). split; [exact Hd | apply N.eqb_refl]. }
  congruence.
Qed.

Lemma addImport_noInherited f c u r u' :
  addImport f c u = r -> finalState r = Some u' ->
  noInheritedKey u -> noInheritedKey u'.
Proof.
  unfold addImport. intros <-.
  destruct (Obj.lookup u c) as [s| |] eqn:E; simpl; intros [= <-] Hu;
    [| exact Hu |]; intros k Hk; apply keys_set in Hk as [-> | Hk];
    try now apply Hu.
  - apply Hu. apply keys_In_get. apply lookup_own in E. congruence.
  - unfold Obj.lookup in E. destruct (Obj.get u c); [discriminate |].
    destruct (includes Obj.prototypeNames c) eqn:Ei; [discriminate |].
    now apply includes_not_In.
Qed.

Lemma forEach_modelled (A X : Type) (body : X -> A -> result A) l :
  (forall x a, body x a <> Unmodelled) ->
  forall a, forEach body l a <> Unmodelled.
Proof.
  intros Hb. induction l as [|x l IH]; intros a; cbn [forEach].
  - discriminate.
  - destruct (body x a) as [a1|a1|] eqn:E; [apply IH | discriminate |].
    now apply Hb in E.
Qed.

Lemma addImport_modelled f c u : addImport f c u <> Unmodelled.
Proof. unfold addImport. destruct (Obj.lookup u c); discriminate. Qed.

Lemma findImports_modelled content f u : findImports content f u <> Unmodelled.
Proof.
  unfold findImports.
  assert (forall (names : jsmatch -> list Str.t) l a,
             forEach (fun m => forEach (addImport f) (names m)) l a
             <> Unmodelled) as Hnamed.
  { intros names l. apply forEach_modelled. intros m a.
    apply forEach_modelled. intros c b. apply addImport_modelled. }
  assert (forall (x : result (Obj.t fileSet)) g,
             x <> Unmodelled -> (forall a, g a <> Unmodelled) ->
             andThen x g <> Unmodelled) as Hthen.
  { intros x g Hx Hg. destruct x; simpl; [apply Hg | discriminate | exact Hx]. }
  apply Hthen; [apply Hnamed |]. intros u1.
  apply Hthen.
  { apply forEach_modelled. intros m a. unfold addDefaultImport.
    destruct (negb _); [apply addImport_modelled | discriminate]. }
  intros u2. apply Hthen.
  { apply forEach_modelled. intros m a. apply addImport_modelled. }
  intros u3. apply Hthen; [apply Hnamed |]. intros u4.
  apply forEach_modelled. intros m a. apply addImport_modelled.
Qed.

Lemma importsInheritedb_spec content :
  importsInheritedb content = true <-> importsInherited content.
Proof.
  unfold importsInheritedb, importsInherited. rewrite existsb_exists.
  split; intros [c [H1 H2]]; exists c; (split; [exact H1 |]);
    now apply includes_In.
Qed.

(** From a table without inherited keys, [findImports] throws exactly when
    the text imports an inherited name. *)
Lemma findImports_threw_iff content f u :
  noInheritedKey u ->
  ((exists u', findImports content f u = Threw u') <-> importsInherited content).
Proof.
  intros Hu. split.
  - intros [u' H]. apply importsInheritedb_spec.
    destruct (importsInheritedb content) eqn:E; [reflexivity |].
    destruct (findImports_returns content f u) as [u'' H'']; [| congruence].
    intros c Hc Hp.
    assert (importsInheritedb content = true); [| congruence].
    apply importsInheritedb_spec. now exists c.
  - intros [c [Hc Hp]].
    destruct (findImports content f u) as [u'|u'|] eqn:E.
    + exfalso.
      assert (noInheritedKey u') as Hu'.
      { revert Hu.
        apply (findImports_steps (fun a b => noInheritedKey a -> noInheritedKey b)
                 content f); [tauto | tauto | | now rewrite E].
        intros name a r a' _. apply addImport_noInherited. }
      apply (Hu' c); [| exact Hp].
      apply (findImports_keys _ _ _ _ E). now right.
    + now exists u'.
    + now apply findImports_modelled in E.
Qed.

Lemma pushInstances_no_throw f key n t t' :
  ~ In key Obj.prototypeNames -> pushInstances f key n t <> Threw t'.
Proof.
  intros Hk. unfold pushInstances. destruct n; [discriminate |].
  destruct (Obj.lookup t key) eqn:E; try discriminate.
  apply lookup_inherited in E. tauto.
Qed.

Lemma forEach_no_throw (A X : Type) (body : X -> A -> result A) l :
  (forall x a a', In x l -> body x a <> Threw a') ->
  forall a a', forEach body l a <> Threw a'.
Proof.
  induction l as [|x l IH]; intros Hb a a'; cbn [forEach].
  - discriminate.
  - destruct (body x a) as [a1|a1|] eqn:E.
    + apply IH. intros y b b' Hy. apply Hb. now right.
    + exfalso. apply (Hb x a a1); [now left | exact E].
    + discriminate.
Qed.

Lemma fullComponentName_not_inherited namespaceAlias m :
  ~ In (fullComponentName namespaceAlias m) Obj.prototypeNames.
Proof.
  intros H. apply prototypeNames_no_dot in H. apply H.
  unfold fullComponentName. apply in_or_app. right. now left.
Qed.

Lemma push_loop_no_throw f names t t' :
  (forall name, In name names -> ~ In name Obj.prototypeNames) ->
  forEach (fun name => pushInstances f name 1) names t <> Threw t'.
Proof.
  intros Hn. apply forEach_no_throw. intros name a a' Hin.
  apply pushInstances_no_throw. now apply Hn.
Qed.

Lemma namespaceUsages_no_throw content f namespaceAlias st st' :
  namespaceUsages content f namespaceAlias st <> Threw st'.
Proof.
  unfold namespaceUsages. destruct (splice namespaceAlias) as [re|]; [| discriminate].
  cbv zeta.
  destruct (forEach (fun name => pushInstances f name 1)
              (map (fullComponentName namespaceAlias)
                 (execAll (namespaceJSXPattern re) content))
              (componentInstancesJSX st)) as [jsx|jsx|] eqn:E1.
  - match goal with
    | |- context [forEach ?b ?l (componentInstancesFunc st)] =>
        destruct (forEach b l (componentInstancesFunc st)) as [func|func|] eqn:E2
    end; try discriminate.
    exfalso. revert E2. apply push_loop_no_throw.
    intros name Hn. apply filter_In in Hn as [Hn _].
    apply in_map_iff in Hn as [m [<- _]].
    apply fullComponentName_not_inherited.
  - exfalso. revert E1. apply push_loop_no_throw.
    intros name Hn. apply in_map_iff in Hn as [m [<- _]].
    apply fullComponentName_not_inherited.
  - discriminate.
Qed.

Lemma plainUsages_no_throw content f component st st' :
  ~ In component Obj.prototypeNames ->
  plainUsages content f component st <> Threw st'.
Proof.
  intros Hc. unfold plainUsages.
  destruct (splice component) as [re|]; [| discriminate]. cbv zeta.
  destruct (pushInstances f component (List.length (extractJSXUsage content re))
              (componentInstancesJSX st)) as [jsx|jsx|] eqn:E1.
  - unfold usedAsJSX. destruct (Obj.lookup jsx component) as [a| |] eqn:El.
    + destruct (includes a f); [discriminate |].
      match goal with
      | |- context [pushInstances f component ?n (componentInstancesFunc st)] =>
          destruct (pushInstances f component n (componentInstancesFunc st))
            as [func|func|] eqn:E2
      end; try discriminate.
      now apply pushInstances_no_throw in E2.
    + apply lookup_inherited in El. tauto.
    + match goal with
      | |- context [pushInstances f component ?n (componentInstancesFunc st)] =>
          destruct (pushInstances f component n (componentInstancesFunc st))
            as [func|func|] eqn:E2
      end; try discriminate.
      now apply pushInstances_no_throw in E2.
  - now apply pushInstances_no_throw in E1.
  - discriminate.
Qed.

(** With a symbol table without inherited keys, the search for usages does
    not throw. *)
Lemma findComponentUsages_no_throw content f st st' :
  noInheritedKey (componentUsage st) ->
  findComponentUsages content f st <> Threw st'.
Proof.
  intros Hu. unfold findComponentUsages. apply forEach_no_throw.
  intros symbol a a' Hs. unfold componentUsages.
  destruct (startsWith [ch "*"] symbol).
  - apply namespaceUsages_no_throw.
  - apply plainUsages_no_throw. now apply Hu.
Qed.

(** [processFile] logs an error exactly for a text that imports an
    inherited name. *)
Lemma processFile_flag p c st st' flag :
  noInheritedKey (componentUsage st) ->
  processFile p c st = Some (st', flag) ->
  noInheritedKey (componentUsage st')
  /\ (flag = true <-> importsInherited c).
Proof.
  intros Hu H. split.
  - revert Hu. apply (processFile_usage_keeps (@noInheritedKey fileSet) p c st st' flag);
      [| exact H].
    intros name u r u' _. apply addImport_noInherited.
  - rewrite <- (findImports_threw_iff c p (componentUsage st) Hu).
    unfold processFile in H.
    destruct (findImports c p (componentUsage st)) as [u|u|] eqn:E;
      [| | discriminate].
    + assert (noInheritedKey u) as Hu'.
      { revert Hu.
        apply (findImports_steps (fun a b => noInheritedKey a -> noInheritedKey b)
                 c p); [tauto | tauto | | now rewrite E].
        intros name a r a' _. apply addImport_noInherited. }
      destruct (0 <? List.length (Obj.keys u)).
      * destruct (findComponentUsages c p
                    (State u (componentInstancesJSX st) (componentInstancesFunc st)))
          as [st2|st2|] eqn:E2; [| | discriminate].
        -- injection H as <- <-. split; [discriminate | intros [u' Hx]; discriminate].
        -- now apply findComponentUsages_no_throw in E2.
      * injection H as <- <-. split; [discriminate | intros [u' Hx]; discriminate].
    + injection H as <- <-. split; [intros _; now exists u | reflexivity].
Qed.

Lemma walk_errors files :
  forall st st' errors,
    noInheritedKey (componentUsage st) ->
    walk files st = Some (st', errors) ->
    noInheritedKey (componentUsage st')
    /\ forall p, In p errors
                 <-> exists content, In (p, content) files /\ importsInherited content.
Proof.
  induction files as [|[q c] files IH]; intros st st' errors Hu; simpl.
  - intros [= <- <-]. split; [exact Hu |]. intros p. split; [intros [] |].
    intros [content [[] _]].
  - destruct (processFile q c st) as [[st1 flag]|] eqn:E; [| discriminate].
    destruct (walk files st1) as [[st2 errs]|] eqn:Ew; [| discriminate].
    intros [= <- <-].
    destruct (processFile_flag _ _ _ _ _ Hu E) as [Hu1 Hflag].
    destruct (IH _ _ _ Hu1 Ew) as [Hu2 Herrs]. split; [exact Hu2 |].
    intros p. split.
    + intros Hp.
      assert (p = q /\ flag = true \/ In p errs) as [[-> Hf] | Hp'].
      { destruct flag; [destruct Hp as [<- | Hp]; [left | right] | right]; auto. }
      * exists c. split; [now left | now apply Hflag].
      * apply Herrs in Hp' as [content [Hin Hi]]. exists content.
        split; [now right | exact Hi].
    + intros [content [[Heq | Hin] Hi]].
      * injection Heq as <- <-. apply Hflag in Hi. rewrite Hi. now left.
      * assert (In p errs) by (apply Herrs; now exists content).
        destruct flag; [now right | assumption].
Qed.

Lemma initial_noInheritedKey : noInheritedKey (componentUsage initial).
Proof. intros k []. Qed.

(** *** Names whose patterns are within the model *)

Lemma splice_some name :
  forallb (fun c => negb (isOtherSyntax c)) name = true ->
  exists re, splice name = Some re.
Proof.
  induction name as [|c name IH]; intros H.
  - now exists Eps.
  - cbn [forallb] in H. apply andb_true_iff in H as [Hc Hn].
    destruct (IH Hn) as [re Hre]. cbn [splice]. rewrite Hre.
    unfold spliceChar. apply negb_true_iff in Hc. rewrite Hc.
    destruct (N.eqb c (ch ".")); [eexists; reflexivity |].
    destruct (N.eqb c (ch "^")); [eexists; reflexivity |].
    destruct (N.eqb c (ch "$")); eexists; reflexivity.
Qed.

Lemma pushInstances_modelled_always f key n t :
  pushInstances f key n t <> Unmodelled.
Proof.
  unfold pushInstances. destruct n; [discriminate |].
  destruct (Obj.lookup t key); discriminate.
Qed.

Lemma forEach_modelled_in (A X : Type) (body : X -> A -> result A) l :
  (forall x a, In x l -> body x a <> Unmodelled) ->
  forall a, forEach body l a <> Unmodelled.
Proof.
  induction l as [|x l IH]; intros Hb a; cbn [forEach].
  - discriminate.
  - destruct (body x a) as [a1|a1|] eqn:E.
    + apply IH. intros y b Hy. apply Hb. now right.
    + discriminate.
    + exfalso. apply (Hb x a); [now left | exact E].
Qed.

Lemma componentUsages_modelled content f symbol st :
  spliceable symbol = true ->
  componentUsages content f symbol st <> Unmodelled.
Proof.
  unfold spliceable, splicedText, componentUsages. intros H.
  destruct (startsWith [ch "*"] symbol).
  - destruct (splice_some _ H) as [re Hre]. unfold namespaceUsages.
    rewrite Hre. cbv zeta.
    match goal with
    | |- context [forEach ?b ?l (componentInstancesJSX st)] =>
        pose proof (forEach_modelled _ _ b l
                      (fun x a => pushInstances_modelled_always f x 1 a)
                      (componentInstancesJSX st)) as H1;
        destruct (forEach b l (componentInstancesJSX st)) as [jsx|jsx|]
    end; [| discriminate | congruence].
    match goal with
    | |- context [forEach ?b ?l (componentInstancesFunc st)] =>
        pose proof (forEach_modelled _ _ b l
                      (fun x a => pushInstances_modelled_always f x 1 a)
                      (componentInstancesFunc st)) as H2;
        destruct (forEach b l (componentInstancesFunc st)) as [func|func|]
    end; [discriminate | discriminate | congruence].
  - destruct (splice_some _ H) as [re Hre]. unfold plainUsages.
    rewrite Hre. cbv zeta.
    match goal with
    | |- context [pushInstances f symbol ?n (componentInstancesJSX st)] =>
        pose proof (pushInstances_modelled_always f symbol n
                      (componentInstancesJSX st)) as H1;
        destruct (pushInstances f symbol n (componentInstancesJSX st))
          as [jsx|jsx|]
    end; [| discriminate | congruence].
    destruct (usedAsJSX jsx symbol f) as [[|]|]; try discriminate.
    match goal with
    | |- context [pushInstances f symbol ?n (componentInstancesFunc st)] =>
        pose proof (pushInstances_modelled_always f symbol n
                      (componentInstancesFunc st)) as H2;
        destruct (pushInstances f symbol n (componentInstancesFunc st))
          as [func|func|]
    end; [discriminate | discriminate | congruence].
Qed.

Lemma findComponentUsages_modelled content f st :
  (forall k, In k (Obj.keys (componentUsage st)) -> spliceable k = true) ->
  findComponentUsages content f st <> Unmodelled.
Proof.
  intros Hk. unfold findComponentUsages. apply forEach_modelled_in.
  intros symbol a Hs. apply componentUsages_modelled. now apply Hk.
Qed.

Lemma addImport_spliceable f c u r u' :
  spliceable c = true ->
  addImport f c u = r -> finalState r = Some u' ->
  (forall k, In k (Obj.keys u) -> spliceable k = true) ->
  forall k, In k (Obj.keys u') -> spliceable k = true.
Proof.
  unfold addImport. intros Hc <-.
  destruct (Obj.lookup u c) as [s| |]; simpl; intros [= <-] Hu k Hk;
    try (apply keys_set in Hk as [-> | Hk]); auto.
Qed.

(** A file whose imported names are within the model is processed within
    it, and leaves such names only in the symbol table. *)
Lemma processFile_modelled p c st :
  forallb spliceable (importedNames c) = true ->
  (forall k, In k (Obj.keys (componentUsage st)) -> spliceable k = true) ->
  exists st' flag,
    processFile p c st = Some (st', flag)
    /\ forall k, In k (Obj.keys (componentUsage st')) -> spliceable k = true.
Proof.
  intros Hc Hu. rewrite forallb_forall in Hc.
  assert (forall st' flag,
             processFile p c st = Some (st', flag) ->
             forall k, In k (Obj.keys (componentUsage st')) -> spliceable k = true)
    as Hkeep.
  { intros st' flag H.
    apply (processFile_usage_keeps
             (fun u => forall k, In k (Obj.keys u) -> spliceable k = true)
             p c st st' flag); [| exact H | exact Hu].
    intros name u r u' Hn. apply addImport_spliceable. now apply Hc. }
  destruct (processFile p c st) as [[st' flag]|] eqn:E.
  - exists st', flag. split; [reflexivity | now apply (Hkeep st' flag)].
  - exfalso. unfold processFile in E.
    destruct (findImports c p (componentUsage st)) as [u|u|] eqn:Ei;
      [| discriminate | now apply findImports_modelled in Ei].
    destruct (0 <? List.length (Obj.keys u)); [| discriminate].
    destruct (findComponentUsages c p
                (State u (componentInstancesJSX st) (componentInstancesFunc st)))
      as [st2|st2|] eqn:Eu; try discriminate.
    revert Eu. apply findComponentUsages_modelled.
    cbn [componentUsage]. revert Hu.
    apply (findImports_steps
             (fun a b => (forall k, In k (Obj.keys a) -> spliceable k = true) ->
                         forall k, In k (Obj.keys b) -> spliceable k = true)
             c p); [tauto | auto | | now rewrite Ei].
    intros name a r a' Hn. apply addImport_spliceable. now apply Hc.
Qed.

(** A tree whose imported names are within the model is walked within
    it. *)
Lemma walk_modelled files :
  spliceableImports files = true ->
  forall st,
    (forall k, In k (Obj.keys (componentUsage st)) -> spliceable k = true) ->
    exists st' errors,
      walk files st = Some (st', errors)
      /\ forall k, In k (Obj.keys (componentUsage st')) -> spliceable k = true.
Proof.
  unfold spliceableImports.
  induction files as [|[q c] files IH]; intros Hf st Hu; cbn [walk].
  - exists st, []. now split.
  - cbn [forallb snd] in Hf. apply andb_true_iff in Hf as [Hc Hf].
    destruct (processFile_modelled q c st Hc Hu) as [st1 [flag [E Hu1]]].
    rewrite E.
    destruct (IH Hf st1 Hu1) as [st2 [errs [Ew Hu2]]]. rewrite Ew.
    eexists _, _. split; [reflexivity | exact Hu2].
Qed.

Lemma importsPrototypeName_spec content :
  importsPrototypeName content = true <-> importsInherited content.
Proof. apply importsInheritedb_spec. Qed.

(** And when no text imports an inherited name either, no error is
    logged. *)
Lemma walk_clean files :
  spliceableImports files = true -> noInheritedImports files = true ->
  exists st, walk files initial = Some (st, []).
Proof.
  intros Hs Hn.
  destruct (walk_modelled files Hs initial) as [st [errors [Hw _]]].
  { intros k []. }
  exists st. rewrite Hw. f_equal. f_equal.
  destruct (walk_errors files _ _ _ initial_noInheritedKey Hw) as [_ He].
  destruct errors as [|p errors]; [reflexivity | exfalso].
  destruct (proj1 (He p) (or_introl eq_refl)) as [content [Hin Hi]].
  unfold noInheritedImports in Hn. rewrite forallb_forall in Hn.
  specialize (Hn _ Hin). cbn [snd] in Hn.
  apply importsPrototypeName_spec in Hi. rewrite Hi in Hn. discriminate.
Qed.

(** X1: in a tree whose imported names have none of the characters
    [\ * + ? ( ) [ ] { } |], so that every pattern built from a name is
    within the model, the walk returns, and the files for which it logs an
    error are exactly the files whose text imports a name that every object
    inherits ([constructor], [toString], ...): the registration of such a
    name throws, and nothing else in [processFile] does.  The symbol table
    never gets such a name as a key; and from a symbol table without such
    keys, whose names have none of these characters, the search for usages
    returns. *)
Theorem errors_are_imports_of_inherited_names (files : list file) :
  spliceableImports files = true ->
  (exists st errors,
      walk files initial = Some (st, errors)
      /\ (forall p,
             In p errors
             <-> exists content, In (p, content) files /\ importsInherited content)
      /\ (forall k,
             In k (Obj.keys (componentUsage st)) -> ~ In k Obj.prototypeNames))
  /\ (forall content f st0,
         noInheritedKey (componentUsage st0) ->
         (forall k, In k (Obj.keys (componentUsage st0)) -> spliceable k = true) ->
         exists st1, findComponentUsages content f st0 = Returned st1).
Proof.
  intros Hs. split.
  - destruct (walk_modelled files Hs initial) as [st [errors [H _]]].
    { intros k []. }
    destruct (walk_errors files _ _ _ initial_noInheritedKey H) as [Hu He].
    exists st, errors. split; [exact H |]. split; [exact He | exact Hu].
  - intros content f st0 Hu Hk.
    destruct (findComponentUsages content f st0) as [st1|st1|] eqn:E.
    + now exists st1.
    + now apply findComponentUsages_no_throw in E.
    + now apply findComponentUsages_modelled in E.
Qed.

Lemma errors_are_imports_of_inherited_names_witness :
  spliceableImports inheritedImportFiles = true
  /\ exists st errors,
      walk inheritedImportFiles initial = Some (st, errors)
      /\ errors = [lit "src/b.js"]
      /\ (forall p,
             In p errors
             <-> exists content,
                 In (p, content) inheritedImportFiles /\ importsInherited content).
Proof.
  assert (spliceableImports inheritedImportFiles = true) as Hs
      by (vm_compute; reflexivity).
  split; [exact Hs |].
  destruct (proj1 (errors_are_imports_of_inherited_names inheritedImportFiles Hs))
    as [st [errors [Hw [He _]]]].
  exists st, errors. split; [exact Hw |]. split; [| exact He].
  assert (option_map snd (walk inheritedImportFiles initial)
          = Some [lit "src/b.js"]) as Hc by (vm_compute; reflexivity).
  rewrite Hw in Hc. now injection Hc.
Defined.

(** ** The symbol table is the relation between names and importing files *)

Lemma addImport_threw_same f c u u' : addImport f c u = Threw u' -> u' = u.
Proof.
  unfold addImport. destruct (Obj.lookup u c); try discriminate. now intros [= <-].
Qed.

Lemma addImport_final_sound f c u r u' :
  addImport f c u = r -> finalState r = Some u' ->
  forall k g, In g (valueOf u' k) -> In g (valueOf u k) \/ (g = f /\ k = c).
Proof.
  intros <- Hf k g Hg. destruct (addImport f c u) as [a|a|] eqn:E;
    simpl in Hf; [| | discriminate]; injection Hf as ->.
  - apply (addImport_returned _ _ _ _ E) in Hg. tauto.
  - apply addImport_threw_same in E. subst. now left.
Qed.

Lemma addImport_final_grows f c u r u' :
  addImport f c u = r -> finalState r = Some u' -> grows u u'.
Proof.
  intros <- Hf. destruct (addImport f c u) as [a|a|] eqn:E;
    simpl in Hf; [| | discriminate]; injection Hf as ->.
  - now apply addImport_grows in E.
  - apply addImport_threw_same in E. subst. apply grows_refl.
Qed.

Lemma setAdd_NoDup s x : NoDup s -> NoDup (setAdd s x).
Proof.
  intros H. unfold setAdd. destruct (includes s x) eqn:E; [exact H |].
  apply includes_not_In in E. apply NoDup_app; [exact H | | ].
  - repeat constructor. intros [].
  - intros y Hy [<- | []]. contradiction.
Qed.

Lemma setAdd_nonEmpty s x : setAdd s x <> [].
Proof.
  unfold setAdd. destruct (includes s x) eqn:E.
  - apply includes_In in E. intros ->. exact E.
  - destruct s; discriminate.
Qed.

Lemma addImport_final_NoDup f c u r u' k :
  addImport f c u = r -> finalState r = Some u' ->
  NoDup (valueOf u k) -> NoDup (valueOf u' k).
Proof.
  unfold addImport. intros <-.
  destruct (Obj.lookup u c) as [s| |] eqn:E; simpl; intros [= <-] H;
    [| exact H |]; destruct (str_eq_dec c k) as [-> | Hne];
    try (now rewrite valueOf_set_other).
  - rewrite valueOf_set_same. apply setAdd_NoDup.
    apply lookup_own in E. now rewrite (valueOf_get _ _ _ _ E) in H.
  - rewrite valueOf_set_same. apply setAdd_NoDup. constructor.
Qed.

Lemma set_nonEmpty (t : instances) k v :
  v <> [] -> nonEmptyLists t -> nonEmptyLists (Obj.set t k v).
Proof.
  intros Hv Ht k' v' H. destruct (str_eq_dec k k') as [-> | Hne].
  - rewrite get_set_same in H. now injection H as <-.
  - rewrite (get_set_other _ t k k' v Hne) in H. now apply (Ht k').
Qed.

Lemma addImport_final_nonEmpty f c u r u' :
  addImport f c u = r -> finalState r = Some u' ->
  nonEmptyLists u -> nonEmptyLists u'.
Proof.
  unfold addImport. intros <-.
  destruct (Obj.lookup u c) as [s| |]; simpl; intros [= <-] H;
    [| exact H |]; (apply set_nonEmpty; [apply setAdd_nonEmpty | exact H]).
Qed.

(** A property of the symbol table that every registration keeps is kept
    by the walk. *)
Lemma walk_usage_keeps (P : Obj.t fileSet -> Prop) :
  (forall p name u r u',
      addImport p name u = r -> finalState r = Some u' -> P u -> P u') ->
  forall files st st' errors,
    walk files st = Some (st', errors) ->
    P (componentUsage st) -> P (componentUsage st').
Proof.
  intros Hstep. induction files as [|[q c] files IH]; intros st st' errors; simpl.
  - now intros [= <- <-].
  - destruct (processFile q c st) as [[st1 flag]|] eqn:E; [| discriminate].
    destruct (walk files st1) as [[st2 errs]|] eqn:Ew; [| discriminate].
    intros [= <- <-] H. apply (IH _ _ _ Ew).
    revert H. apply (processFile_usage_keeps P q c st st1 flag); [| exact E].
    intros name u r u' _. apply Hstep.
Qed.

Lemma loop_table (X : Type) (body : X -> Obj.t fileSet -> result (Obj.t fileSet))
      (names : X -> list Str.t) f :
  (forall x a a', body x a = Returned a' ->
                  forall k g, In g (valueOf a' k)
                              <-> In g (valueOf a k) \/ (g = f /\ In k (names x))) ->
  forall l a a', forEach body l a = Returned a' ->
                 forall k g, In g (valueOf a' k)
                             <-> In g (valueOf a k)
                                 \/ (g = f /\ In k (flat_map names l)).
Proof.
  intros Hb l. induction l as [|x l IH]; intros a a' H k g.
  - simpl in H. injection H as <-. simpl. tauto.
  - cbn [forEach] in H. destruct (body x a) as [a1|?|] eqn:E; try discriminate.
    rewrite (IH a1 a' H k g), (Hb x a a1 E k g). simpl. rewrite in_app_iff. tauto.
Qed.

Lemma import_loop_table f l u u' :
  forEach (addImport f) l u = Returned u' ->
  forall k g, In g (valueOf u' k) <-> In g (valueOf u k) \/ (g = f /\ In k l).
Proof.
  intros H k g.
  assert (forall x a a', addImport f x a = Returned a' ->
                         forall k g, In g (valueOf a' k)
                                     <-> In g (valueOf a k) \/ (g = f /\ In k [x]))
    as Hb.
  { intros x a a' E k0 g0. rewrite (addImport_returned _ _ _ _ E k0 g0).
    simpl. intuition. }
  rewrite (loop_table _ (addImport f) (fun c => [c]) f Hb l u u' H k g).
  now rewrite (flat_map_one _ (fun c : Str.t => c)), map_id.
Qed.

(** The table after a [findImports] that returns. *)
Lemma findImports_table content f u u' :
  findImports content f u = Returned u' ->
  forall k g, In g (valueOf u' k)
              <-> In g (valueOf u k) \/ (g = f /\ In k (importedNames content)).
Proof.
  intros H k g.
  destruct (findImports_returned _ _ _ _ H) as [u1 [u2 [u3 [u4 [H1 [H2 [H3 [H4 H5]]]]]]]].
  assert (In g (valueOf u1 k)
          <-> In g (valueOf u k)
              \/ (g = f
                  /\ In k (flat_map namedComponents
                             (execAll namedImportPattern content)))) as K1.
  { refine (loop_table _ (fun m => forEach (addImport f) (namedComponents m))
              namedComponents f _ _ u u1 H1 k g).
    intros m a a'. apply import_loop_table. }
  assert (In g (valueOf u2 k)
          <-> In g (valueOf u1 k)
              \/ (g = f
                  /\ In k (filter (fun c => negb (Str.eqb c targetPackageName))
                             (map (fun m => trim (group 1 (groups m)))
                                (execAll defaultImportPattern content))))) as K2.
  { rewrite <- (flat_map_if _ (fun c => negb (Str.eqb c targetPackageName))).
    refine (loop_table _ (addDefaultImport f) _ f _ _ u1 u2 H2 k g).
    intros m a a'. unfold addDefaultImport.
    destruct (negb (Str.eqb (trim (group 1 (groups m))) targetPackageName)).
    - intros E k0 g0. rewrite (addImport_returned _ _ _ _ E k0 g0).
      simpl. intuition.
    - intros [= <-] k0 g0. simpl. tauto. }
  assert (In g (valueOf u3 k)
          <-> In g (valueOf u2 k)
              \/ (g = f
                  /\ In k (map (fun m => ch "*" :: trim (group 1 (groups m)))
                             (execAll namespaceImportPattern content)))) as K3.
  { rewrite <- flat_map_one.
    refine (loop_table _ (addNamespaceImport f) _ f _ _ u2 u3 H3 k g).
    intros m a a' E k0 g0. unfold addNamespaceImport in E.
    rewrite (addImport_returned _ _ _ _ E k0 g0). simpl. intuition. }
  assert (In g (valueOf u4 k)
          <-> In g (valueOf u3 k)
              \/ (g = f
                  /\ In k (flat_map requireComponents
                             (execAll requirePattern content)))) as K4.
  { refine (loop_table _ (fun m => forEach (addImport f) (requireComponents m))
              requireComponents f _ _ u3 u4 H4 k g).
    intros m a a'. apply import_loop_table. }
  assert (In g (valueOf u' k)
          <-> In g (valueOf u4 k)
              \/ (g = f
                  /\ In k (map (fun m => trim (group 1 (groups m)))
                             (execAll requireDefaultPattern content)))) as K5.
  { rewrite <- flat_map_one.
    refine (loop_table _ (addRequireDefault f) _ f _ _ u4 u' H5 k g).
    intros m a a' E k0 g0. unfold addRequireDefault in E.
    rewrite (addImport_returned _ _ _ _ E k0 g0). simpl. intuition. }
  unfold importedNames. rewrite !in_app_iff. tauto.
Qed.

Lemma processFile_table_sound p c st st' flag k g :
  processFile p c st = Some (st', flag) ->
  In g (valueOf (componentUsage st') k) ->
  In g (valueOf (componentUsage st) k) \/ (g = p /\ In k (importedNames c)).
Proof.
  intros H. destruct (processFile_cases _ _ _ _ _ H) as [u [Hu [-> _]]].
  revert Hu.
  apply (findImports_steps
           (fun a b => In g (valueOf b k) ->
                       In g (valueOf a k) \/ (g = p /\ In k (importedNames c)))
           c p); [tauto | tauto |].
  intros name a r a' Hname E Hf Hg.
  destruct (addImport_final_sound _ _ _ _ _ E Hf k g Hg) as [Hg' | [-> ->]];
    [now left | now right].
Qed.

Lemma walk_table_sound files :
  forall st st' errors,
    walk files st = Some (st', errors) ->
    forall k g,
      In g (valueOf (componentUsage st') k) ->
      In g (valueOf (componentUsage st) k)
      \/ exists content, In (g, content) files /\ In k (importedNames content).
Proof.
  induction files as [|[q c] files IH]; intros st st' errors; simpl.
  - intros [= <- <-] k g H. now left.
  - destruct (processFile q c st) as [[st1 flag]|] eqn:E; [| discriminate].
    destruct (walk files st1) as [[st2 errs]|] eqn:Ew; [| discriminate].
    intros [= <- <-] k g H.
    destruct (IH _ _ _ Ew k g H) as [H1 | [content [Hin Hk]]].
    + destruct (processFile_table_sound _ _ _ _ _ _ _ E H1) as [H0 | [-> Hk]].
      * now left.
      * right. exists c. split; [now left | exact Hk].
    + right. exists content. split; [now right | exact Hk].
Qed.

Lemma walk_table_complete files :
  forall st st',
    walk files st = Some (st', []) ->
    forall k g content,
      In (g, content) files -> In k (importedNames content) ->
      In g (valueOf (componentUsage st') k).
Proof.
  induction files as [|[q c] files IH]; intros st st'; simpl.
  - intros _ k g content [].
  - destruct (processFile q c st) as [[st1 flag]|] eqn:E; [| discriminate].
    destruct (walk files st1) as [[st2 errs]|] eqn:Ew; [| discriminate].
    intros H k g content Hin Hk.
    assert (flag = false /\ errs = [] /\ st2 = st') as [-> [-> ->]].
    { destruct flag; [discriminate |]. now injection H as -> ->. }
    destruct Hin as [Heq | Hin].
    + injection Heq as -> ->.
      destruct (processFile_clean _ _ _ _ E) as [u [Hu [Hst1 _]]].
      assert (In g (valueOf (componentUsage st1) k)) as H1.
      { rewrite Hst1. apply (findImports_table _ _ _ _ Hu). now right. }
      revert H1.
      refine (walk_usage_keeps (fun u => In g (valueOf u k)) _ files st1 st' [] Ew).
      intros p name a r a' Ea Hf. now apply (addImport_final_grows _ _ _ _ _ Ea Hf).
    + now apply (IH _ _ Ew k g content).
Qed.

(** X2: after a walk from the empty tables, a file is in the set of a
    symbol only if its text has an import of that symbol, and when no error
    was logged every importing file is in the set; no set lists a file
    twice, however often the file imports the symbol; and the keys of the
    table are the symbols with a non-empty set. *)
Theorem symbol_table_lists_importing_files
        (files : list file) (st : state) (errors : list Str.t) :
  walk files initial = Some (st, errors) ->
  (forall k f,
      In f (valueOf (componentUsage st) k) ->
      exists content, In (f, content) files /\ In k (importedNames content))
  /\ (errors = [] ->
      forall k f content,
        In (f, content) files -> In k (importedNames content) ->
        In f (valueOf (componentUsage st) k))
  /\ (forall k, NoDup (valueOf (componentUsage st) k))
  /\ (forall k,
         In k (Obj.keys (componentUsage st))
         <-> valueOf (componentUsage st) k <> []).
Proof.
  intros H. split; [| split; [| split]].
  - intros k f Hf.
    destruct (walk_table_sound _ _ _ _ H k f Hf) as [[] | Hx]. exact Hx.
  - intros -> k f content. now apply (walk_table_complete _ _ _ H).
  - intros k.
    refine (walk_usage_keeps (fun u => NoDup (valueOf u k)) _ files initial st
              errors H _).
    + intros p name u r u'. apply addImport_final_NoDup.
    + constructor.
  - intros k. apply key_has_occurrences.
    refine (walk_usage_keeps nonEmptyLists _ files initial st errors H _).
    + intros p name u r u'. apply addImport_final_nonEmpty.
    + intros k' v. discriminate.
Qed.

Lemma symbol_table_lists_importing_files_witness :
  exists st,
    walk inheritedImportFiles initial = Some (st, [lit "src/b.js"])
    /\ valueOf (componentUsage st) (lit "A") = [lit "src/a.js"; lit "src/c.js"]
    /\ valueOf (componentUsage st) (lit "D") = []
    /\ forall k, NoDup (valueOf (componentUsage st) k).
Proof.
  destruct (walk inheritedImportFiles initial) as [[st errors]|] eqn:E;
    [| vm_compute in E; discriminate].
  assert (Some (st, errors)
          = Some (State [(lit "A", [lit "src/a.js"; lit "src/c.js"]);
                          (lit "B", [lit "src/a.js"]);
                          (lit "C", [lit "src/b.js"])]
                    [(lit "A", [lit "src/a.js"])]
                    [(lit "B", [lit "src/c.js"])],
                  [lit "src/b.js"])) as Hst.
  { rewrite <- E. vm_compute. reflexivity. }
  injection Hst as -> ->.
  eexists. split; [reflexivity |]. split; [reflexivity |].
  split; [reflexivity |].
  exact (proj1 (proj2 (proj2 (symbol_table_lists_importing_files
                                inheritedImportFiles _ _ E)))).
Defined.

(** ** The shape of the import statements *)

Lemma chr_steps c k s e :
  matcher (Chr c) k s = Some e ->
  exists s', stepsTo s [c] s' /\ caps s' = caps s /\ k s' = Some e.
Proof.
  intros H. apply chr_inv in H as [t [E H]]. exists (advance c t s).
  split; [now apply stepsTo_advance | split; [reflexivity | exact H]].
Qed.

Lemma space_class w :
  Forall (fun c => inClass false [CSpace] c = true) w ->
  Forall (fun c => isSpace c = true) w.
Proof.
  apply Forall_impl. intros c Hc. unfold inClass in Hc. simpl in Hc.
  now rewrite orb_false_r in Hc.
Qed.

Lemma blank_inv k s e :
  matcher (Plus space) k s = Some e ->
  exists ws s', blank ws /\ stepsTo s ws s' /\ caps s' = caps s /\ k s' = Some e.
Proof.
  intros H. apply plus_cls_inv in H as [w [s' [Hne [St [Hc [Hw H]]]]]].
  exists w, s'. split; [split; [exact Hne | now apply space_class] |].
  split; [exact St | split; [exact Hc | exact H]].
Qed.

Lemma spaces_inv k s e :
  matcher (Star true space) k s = Some e ->
  exists ws s', Forall (fun c => isSpace c = true) ws
                /\ stepsTo s ws s' /\ caps s' = caps s /\ k s' = Some e.
Proof.
  intros H. apply star_cls_inv in H as [w [s' [St [Hc [Hw H]]]]].
  exists w, s'. split; [now apply space_class |].
  split; [exact St | split; [exact Hc | exact H]].
Qed.

Lemma quote_inv k s e :
  matcher quoteClass k s = Some e ->
  exists q s', isQuote q = true /\ stepsTo s [q] s' /\ caps s' = caps s
               /\ k s' = Some e.
Proof.
  intros H. apply cls_inv in H as [x [t [E [Hx H]]]].
  exists x, (advance x t s). split; [exact Hx |].
  split; [now apply stepsTo_advance | split; [reflexivity | exact H]].
Qed.

Lemma stepsTo_setCap s w s' n v : stepsTo s w s' -> stepsTo s w (setCap n v s').
Proof. intros H. exact H. Qed.

(** A captured run of code units of a class. *)
Lemma group_star_inv neg items k s e :
  matcher (Group 1 (Star true (Cls neg items))) k s = Some e ->
  exists w s', stepsTo s w s'
               /\ Forall (fun c => inClass neg items c = true) w
               /\ caps s' = caps s /\ k (setCap 1 w s') = Some e.
Proof.
  cbn [matcher]. intros H.
  apply (star_cls_inv neg items true) in H as [w [s' [St [Hc [Hw H]]]]].
  rewrite (firstn_read _ _ _ St) in H. exists w, s'.
  split; [exact St | split; [exact Hw | split; [exact Hc | exact H]]].
Qed.

Lemma group_plus_inv neg items k s e :
  matcher (Group 1 (Plus (Cls neg items))) k s = Some e ->
  exists w s', w <> [] /\ stepsTo s w s'
               /\ Forall (fun c => inClass neg items c = true) w
               /\ caps s' = caps s /\ k (setCap 1 w s') = Some e.
Proof.
  cbn [matcher]. intros H.
  apply plus_cls_inv in H as [w [s' [Hne [St [Hc [Hw H]]]]]].
  rewrite (firstn_read _ _ _ St) in H. exists w, s'.
  split; [exact Hne |].
  split; [exact St | split; [exact Hw | split; [exact Hc | exact H]]].
Qed.

Lemma lit_steps w k s e :
  matcher (Lit w) k s = Some e ->
  exists s', stepsTo s w s' /\ caps s' = caps s /\ k s' = Some e.
Proof. apply lit_inv. Qed.

(** The end of the import patterns. *)
Lemma fromTail_inv k s e :
  matcher fromTail k s = Some e ->
  exists text s', fromClause text /\ stepsTo s text s' /\ caps s' = caps s
                  /\ k s' = Some e.
Proof.
  unfold fromTail.
  change (matcher (Plus space >> Lit (lit "from") >> Plus space >> quoteClass
                   >> Lit targetPackageName >> quoteClass) k s)
    with (matcher (Plus space)
            (matcher (Lit (lit "from"))
               (matcher (Plus space)
                  (matcher quoteClass
                     (matcher (Lit targetPackageName)
                        (matcher quoteClass k))))) s).
  intros H.
  apply blank_inv in H as [ws1 [s1 [B1 [S1 [C1 H]]]]].
  apply lit_steps in H as [s2 [S2 [C2 H]]].
  apply blank_inv in H as [ws2 [s3 [B2 [S3 [C3 H]]]]].
  apply quote_inv in H as [q1 [s4 [Q1 [S4 [C4 H]]]]].
  apply lit_steps in H as [s5 [S5 [C5 H]]].
  apply quote_inv in H as [q2 [s6 [Q2 [S6 [C6 H]]]]].
  exists (ws1 ++ lit "from" ++ ws2 ++ q1 :: targetPackageName ++ [q2]), s6.
  split; [| split; [| split; [congruence | exact H]]].
  - exists ws1, ws2, q1, q2. repeat split; try assumption; apply B1 || apply B2.
  - apply (stepsTo_trans _ _ _ _ _ S1). apply (stepsTo_trans _ _ _ _ _ S2).
    apply (stepsTo_trans _ _ _ _ _ S3).
    apply (stepsTo_trans s3 [q1] s4 (targetPackageName ++ [q2]) s6 S4).
    apply (stepsTo_trans _ _ _ _ _ S5). exact S6.
Qed.

(** The end of the require patterns. *)
Lemma requireTail_inv k s e :
  matcher requireTail k s = Some e ->
  exists text s', requireClause text /\ stepsTo s text s' /\ caps s' = caps s
                  /\ k s' = Some e.
Proof.
  unfold requireTail.
  change (matcher (Plus space >> Chr (ch "=") >> Plus space >> Lit (lit "require")
                   >> Star true space >> Chr (ch "(") >> Star true space
                   >> quoteClass >> Lit targetPackageName >> quoteClass
                   >> Star true space >> Chr (ch ")")) k s)
    with (matcher (Plus space)
            (matcher (Chr (ch "="))
               (matcher (Plus space)
                  (matcher (Lit (lit "require"))
                     (matcher (Star true space)
                        (matcher (Chr (ch "("))
                           (matcher (Star true space)
                              (matcher quoteClass
                                 (matcher (Lit targetPackageName)
                                    (matcher quoteClass
                                       (matcher (Star true space)
                                          (matcher (Chr (ch ")")) k))))))))))) s).
  intros H.
  apply blank_inv in H as [ws1 [s1 [B1 [S1 [C1 H]]]]].
  apply chr_steps in H as [s2 [S2 [C2 H]]].
  apply blank_inv in H as [ws2 [s3 [B2 [S3 [C3 H]]]]].
  apply lit_steps in H as [s4 [S4 [C4 H]]].
  apply spaces_inv in H as [ws3 [s5 [B3 [S5 [C5 H]]]]].
  apply chr_steps in H as [s6 [S6 [C6 H]]].
  apply spaces_inv in H as [ws4 [s7 [B4 [S7 [C7 H]]]]].
  apply quote_inv in H as [q1 [s8 [Q1 [S8 [C8 H]]]]].
  apply lit_steps in H as [s9 [S9 [C9 H]]].
  apply quote_inv in H as [q2 [s10 [Q2 [S10 [C10 H]]]]].
  apply spaces_inv in H as [ws5 [s11 [B5 [S11 [C11 H]]]]].
  apply chr_steps in H as [s12 [S12 [C12 H]]].
  exists (ws1 ++ ch "=" :: ws2 ++ lit "require" ++ ws3 ++ ch "(" :: ws4
          ++ q1 :: targetPackageName ++ q2 :: ws5 ++ [ch ")"]), s12.
  split; [| split; [| split; [congruence | exact H]]].
  - exists ws1, ws2, ws3, ws4, ws5, q1, q2.
    repeat split; try assumption; apply B1 || apply B2.
  - apply (stepsTo_trans _ _ _ _ _ S1).
    apply (stepsTo_trans s1 [ch "="] s2 _ s12 S2).
    apply (stepsTo_trans _ _ _ _ _ S3). apply (stepsTo_trans _ _ _ _ _ S4).
    apply (stepsTo_trans _ _ _ _ _ S5).
    apply (stepsTo_trans s5 [ch "("] s6 _ s12 S6).
    apply (stepsTo_trans _ _ _ _ _ S7).
    apply (stepsTo_trans s7 [q1] s8 _ s12 S8).
    apply (stepsTo_trans _ _ _ _ _ S9).
    apply (stepsTo_trans s9 [q2] s10 _ s12 S10).
    apply (stepsTo_trans _ _ _ _ _ S11). exact S12.
Qed.

Lemma declarator_inv k s e :
  matcher declarator k s = Some e ->
  exists d s', isDeclarator d /\ stepsTo s d s' /\ caps s' = caps s
               /\ k s' = Some e.
Proof.
  unfold declarator. cbn [matcher]. intros H.
  apply orElse_some in H as [H | H]; [| apply orElse_some in H as [H | H]];
    apply lit_steps in H as [s' [St [C H]]].
  - exists (lit "const"), s'. unfold isDeclarator. auto.
  - exists (lit "let"), s'. unfold isDeclarator. auto.
  - exists (lit "var"), s'. unfold isDeclarator. auto.
Qed.

Lemma not_brace_class w :
  Forall (fun c => inClass true [CChar (ch "}")] c = true) w -> ~ In (ch "}") w.
Proof.
  intros H Hin. rewrite Forall_forall in H. specialize (H _ Hin).
  vm_compute in H. discriminate.
Qed.

Lemma named_import_shape content m :
  In m (execAll namedImportPattern content) ->
  exists pre ws tail post,
    content = pre ++ lit "import" ++ ws ++ ch "{" :: group 1 (groups m)
              ++ ch "}" :: tail ++ post
    /\ index m = List.length pre
    /\ blank ws /\ ~ In (ch "}") (group 1 (groups m)) /\ fromClause tail.
Proof.
  intros H. apply execAll_inv in H as [pre [suf [e [Ec [Ei [H [_ Hg]]]]]]].
  unfold namedImportPattern in H.
  change (matcher (Lit (lit "import") >> Plus space >> Chr (ch "{")
                   >> Group 1 (Star true (Cls true [CChar (ch "}")]))
                   >> Chr (ch "}") >> Plus space >> Lit (lit "from")
                   >> Plus space >> quoteClass >> Lit targetPackageName
                   >> quoteClass) Some (stateAt pre suf))
    with (matcher (Lit (lit "import"))
            (matcher (Plus space)
               (matcher (Chr (ch "{"))
                  (matcher (Group 1 (Star true (Cls true [CChar (ch "}")])))
                     (matcher (Chr (ch "}")) (matcher fromTail Some)))))
            (stateAt pre suf)) in H.
  apply lit_steps in H as [s1 [S1 [C1 H]]].
  apply blank_inv in H as [ws [s2 [B2 [S2 [C2 H]]]]].
  apply chr_steps in H as [s3 [S3 [C3 H]]].
  apply group_star_inv in H as [w [s4 [S4 [Hw [C4 H]]]]].
  apply chr_steps in H as [s5 [S5 [C5 H]]].
  apply fromTail_inv in H as [tail [s6 [T [S6 [C6 [= <-]]]]]].
  assert (group 1 (groups m) = w) as ->.
  { rewrite Hg, C6, C5. cbn [caps setCap group Nat.eqb]. reflexivity. }
  exists pre, ws, tail, (rest s6).
  split; [| split; [exact Ei | split; [exact B2 | split; [| exact T]]]].
  - assert (stepsTo (stateAt pre suf)
              (lit "import" ++ ws ++ [ch "{"] ++ w ++ [ch "}"] ++ tail) s6) as St.
    { apply (stepsTo_trans _ _ _ _ _ S1). apply (stepsTo_trans _ _ _ _ _ S2).
      apply (stepsTo_trans _ _ _ _ _ S3). apply (stepsTo_trans _ _ _ _ _ (stepsTo_setCap _ _ _ 1 w S4)).
      apply (stepsTo_trans _ _ _ _ _ S5). exact S6. }
    destruct St as [R _]. rewrite stateAt_rest in R. rewrite Ec, R.
    rewrite <- !app_assoc. reflexivity.
  - now apply not_brace_class.
Qed.

Lemma default_import_shape content m :
  In m (execAll defaultImportPattern content) ->
  exists pre ws tail post,
    content = pre ++ lit "import" ++ ws ++ group 1 (groups m) ++ tail ++ post
    /\ index m = List.length pre
    /\ blank ws /\ group 1 (groups m) <> []
    /\ Forall (fun c => c <> ch "{" /\ isSpace c = false) (group 1 (groups m))
    /\ fromClause tail.
Proof.
  intros H. apply execAll_inv in H as [pre [suf [e [Ec [Ei [H [_ Hg]]]]]]].
  unfold defaultImportPattern in H.
  change (matcher (Lit (lit "import") >> Plus space
                   >> Group 1 (Plus (Cls true [CChar (ch "{"); CSpace]))
                   >> Plus space >> Lit (lit "from")
                   >> Plus space >> quoteClass >> Lit targetPackageName
                   >> quoteClass) Some (stateAt pre suf))
    with (matcher (Lit (lit "import"))
            (matcher (Plus space)
               (matcher (Group 1 (Plus (Cls true [CChar (ch "{"); CSpace])))
                  (matcher fromTail Some)))
            (stateAt pre suf)) in H.
  apply lit_steps in H as [s1 [S1 [C1 H]]].
  apply blank_inv in H as [ws [s2 [B2 [S2 [C2 H]]]]].
  apply group_plus_inv in H as [w [s3 [Hne [S3 [Hw [C3 H]]]]]].
  apply fromTail_inv in H as [tail [s4 [T [S4 [C4 [= <-]]]]]].
  assert (group 1 (groups m) = w) as ->.
  { rewrite Hg, C4. cbn [caps setCap group Nat.eqb]. reflexivity. }
  exists pre, ws, tail, (rest s4).
  split; [| split; [exact Ei | split; [exact B2 | split; [exact Hne |
          split; [| exact T]]]]].
  - assert (stepsTo (stateAt pre suf) (lit "import" ++ ws ++ w ++ tail) s4) as St.
    { apply (stepsTo_trans _ _ _ _ _ S1). apply (stepsTo_trans _ _ _ _ _ S2).
      apply (stepsTo_trans _ _ _ _ _ (stepsTo_setCap _ _ _ 1 w S3)). exact S4. }
    destruct St as [R _]. rewrite stateAt_rest in R. rewrite Ec, R.
    rewrite <- !app_assoc. reflexivity.
  - eapply Forall_impl; [| exact Hw]. intros c Hc.
    unfold inClass in Hc. simpl in Hc. rewrite orb_false_r in Hc.
    apply negb_true_iff in Hc. apply orb_false_iff in Hc as [Hb Hs].
    split; [now apply N.eqb_neq | exact Hs].
Qed.

Lemma namespace_import_shape content m :
  In m (execAll namespaceImportPattern content) ->
  exists pre ws1 ws2 ws3 tail post,
    content = pre ++ lit "import" ++ ws1 ++ ch "*" :: ws2 ++ lit "as" ++ ws3
              ++ group 1 (groups m) ++ tail ++ post
    /\ index m = List.length pre
    /\ blank ws1 /\ blank ws2 /\ blank ws3
    /\ group 1 (groups m) <> []
    /\ Forall (fun c => isSpace c = false) (group 1 (groups m))
    /\ fromClause tail.
Proof.
  intros H. apply execAll_inv in H as [pre [suf [e [Ec [Ei [H [_ Hg]]]]]]].
  unfold namespaceImportPattern in H.
  change (matcher (Lit (lit "import") >> Plus space >> Chr (ch "*") >> Plus space
                   >> Lit (lit "as") >> Plus space
                   >> Group 1 (Plus (Cls true [CSpace]))
                   >> Plus space >> Lit (lit "from")
                   >> Plus space >> quoteClass >> Lit targetPackageName
                   >> quoteClass) Some (stateAt pre suf))
    with (matcher (Lit (lit "import"))
            (matcher (Plus space)
               (matcher (Chr (ch "*"))
                  (matcher (Plus space)
                     (matcher (Lit (lit "as"))
                        (matcher (Plus space)
                           (matcher (Group 1 (Plus (Cls true [CSpace])))
                              (matcher fromTail Some)))))))
            (stateAt pre suf)) in H.
  apply lit_steps in H as [s1 [S1 [C1 H]]].
  apply blank_inv in H as [ws1 [s2 [B2 [S2 [C2 H]]]]].
  apply chr_steps in H as [s3 [S3 [C3 H]]].
  apply blank_inv in H as [ws2 [s4 [B4 [S4 [C4 H]]]]].
  apply lit_steps in H as [s5 [S5 [C5 H]]].
  apply blank_inv in H as [ws3 [s6 [B6 [S6 [C6 H]]]]].
  apply group_plus_inv in H as [w [s7 [Hne [S7 [Hw [C7 H]]]]]].
  apply fromTail_inv in H as [tail [s8 [T [S8 [C8 [= <-]]]]]].
  assert (group 1 (groups m) = w) as ->.
  { rewrite Hg, C8. cbn [caps setCap group Nat.eqb]. reflexivity. }
  exists pre, ws1, ws2, ws3, tail, (rest s8).
  split; [| split; [exact Ei | split; [exact B2 | split; [exact B4 |
          split; [exact B6 | split; [exact Hne | split; [| exact T]]]]]]].
  - assert (stepsTo (stateAt pre suf)
              (lit "import" ++ ws1 ++ [ch "*"] ++ ws2 ++ lit "as" ++ ws3
               ++ w ++ tail) s8) as St.
    { apply (stepsTo_trans _ _ _ _ _ S1). apply (stepsTo_trans _ _ _ _ _ S2).
      apply (stepsTo_trans _ _ _ _ _ S3). apply (stepsTo_trans _ _ _ _ _ S4).
      apply (stepsTo_trans _ _ _ _ _ S5). apply (stepsTo_trans _ _ _ _ _ S6).
      apply (stepsTo_trans _ _ _ _ _ (stepsTo_setCap _ _ _ 1 w S7)). exact S8. }
    destruct St as [R _]. rewrite stateAt_rest in R. rewrite Ec, R.
    rewrite <- !app_assoc. reflexivity.
  - eapply Forall_impl; [| exact Hw]. intros c Hc.
    unfold inClass in Hc. simpl in Hc. rewrite orb_false_r in Hc.
    now apply negb_true_iff in Hc.
Qed.

Lemma require_shape content m :
  In m (execAll requirePattern content) ->
  exists pre d ws tail post,
    content = pre ++ d ++ ws ++ ch "{" :: group 1 (groups m)
              ++ ch "}" :: tail ++ post
    /\ index m = List.length pre
    /\ isDeclarator d /\ blank ws
    /\ ~ In (ch "}") (group 1 (groups m)) /\ requireClause tail.
Proof.
  intros H. apply execAll_inv in H as [pre [suf [e [Ec [Ei [H [_ Hg]]]]]]].
  unfold requirePattern in H.
  change (matcher (declarator >> Plus space >> Chr (ch "{")
                   >> Group 1 (Star true (Cls true [CChar (ch "}")]))
                   >> Chr (ch "}") >> requireTail) Some (stateAt pre suf))
    with (matcher declarator
            (matcher (Plus space)
               (matcher (Chr (ch "{"))
                  (matcher (Group 1 (Star true (Cls true [CChar (ch "}")])))
                     (matcher (Chr (ch "}")) (matcher requireTail Some)))))
            (stateAt pre suf)) in H.
  apply declarator_inv in H as [d [s1 [D [S1 [C1 H]]]]].
  apply blank_inv in H as [ws [s2 [B2 [S2 [C2 H]]]]].
  apply chr_steps in H as [s3 [S3 [C3 H]]].
  apply group_star_inv in H as [w [s4 [S4 [Hw [C4 H]]]]].
  apply chr_steps in H as [s5 [S5 [C5 H]]].
  apply requireTail_inv in H as [tail [s6 [T [S6 [C6 [= <-]]]]]].
  assert (group 1 (groups m) = w) as ->.
  { rewrite Hg, C6, C5. cbn [caps setCap group Nat.eqb]. reflexivity. }
  exists pre, d, ws, tail, (rest s6).
  split; [| split; [exact Ei | split; [exact D | split; [exact B2 |
          split; [| exact T]]]]].
  - assert (stepsTo (stateAt pre suf)
              (d ++ ws ++ [ch "{"] ++ w ++ [ch "}"] ++ tail) s6) as St.
    { apply (stepsTo_trans _ _ _ _ _ S1). apply (stepsTo_trans _ _ _ _ _ S2).
      apply (stepsTo_trans _ _ _ _ _ S3). apply (stepsTo_trans _ _ _ _ _ (stepsTo_setCap _ _ _ 1 w S4)).
      apply (stepsTo_trans _ _ _ _ _ S5). exact S6. }
    destruct St as [R _]. rewrite stateAt_rest in R. rewrite Ec, R.
    rewrite <- !app_assoc. reflexivity.
  - now apply not_brace_class.
Qed.

Lemma require_default_shape content m :
  In m (execAll requireDefaultPattern content) ->
  exists pre d ws tail post,
    content = pre ++ d ++ ws ++ group 1 (groups m) ++ tail ++ post
    /\ index m = List.length pre
    /\ isDeclarator d /\ blank ws /\ group 1 (groups m) <> []
    /\ Forall (fun c => c <> ch "{" /\ isSpace c = false) (group 1 (groups m))
    /\ requireClause tail.
Proof.
  intros H. apply execAll_inv in H as [pre [suf [e [Ec [Ei [H [_ Hg]]]]]]].
  unfold requireDefaultPattern in H.
  change (matcher (declarator >> Plus space
                   >> Group 1 (Plus (Cls true [CChar (ch "{"); CSpace]))
                   >> requireTail) Some (stateAt pre suf))
    with (matcher declarator
            (matcher (Plus space)
               (matcher (Group 1 (Plus (Cls true [CChar (ch "{"); CSpace])))
                  (matcher requireTail Some)))
            (stateAt pre suf)) in H.
  apply declarator_inv in H as [d [s1 [D [S1 [C1 H]]]]].
  apply blank_inv in H as [ws [s2 [B2 [S2 [C2 H]]]]].
  apply group_plus_inv in H as [w [s3 [Hne [S3 [Hw [C3 H]]]]]].
  apply requireTail_inv in H as [tail [s4 [T [S4 [C4 [= <-]]]]]].
  assert (group 1 (groups m) = w) as ->.
  { rewrite Hg, C4. cbn [caps setCap group Nat.eqb]. reflexivity. }
  exists pre, d, ws, tail, (rest s4).
  split; [| split; [exact Ei | split; [exact D | split; [exact B2 |
          split; [exact Hne | split; [| exact T]]]]]].
  - assert (stepsTo (stateAt pre suf) (d ++ ws ++ w ++ tail) s4) as St.
    { apply (stepsTo_trans _ _ _ _ _ S1). apply (stepsTo_trans _ _ _ _ _ S2).
      apply (stepsTo_trans _ _ _ _ _ (stepsTo_setCap _ _ _ 1 w S3)). exact S4. }
    destruct St as [R _]. rewrite stateAt_rest in R. rewrite Ec, R.
    rewrite <- !app_assoc. reflexivity.
  - eapply Forall_impl; [| exact Hw]. intros c Hc.
    unfold inClass in Hc. simpl in Hc. rewrite orb_false_r in Hc.
    apply negb_true_iff in Hc. apply orb_false_iff in Hc as [Hb Hs].
    split; [now apply N.eqb_neq | exact Hs].
Qed.

(** X3: every match of the five import patterns is a statement of the
    expected shape that names the module exactly: [import], a brace list
    without a closing brace in it (or a name without white space and
    without an opening brace, or [* as] and a name), then [from] and the
    module name between two quote characters; for the require forms
    [const], [let] or [var], the list or the name, and
    [= require("your-package-name")].  The capture is the list or the
    name. *)
Theorem import_matches_name_the_module (content : Str.t) :
  (forall m,
      In m (execAll namedImportPattern content) ->
      exists pre ws tail post,
        content = pre ++ lit "import" ++ ws ++ ch "{" :: group 1 (groups m)
                  ++ ch "}" :: tail ++ post
        /\ index m = List.length pre
        /\ blank ws /\ ~ In (ch "}") (group 1 (groups m)) /\ fromClause tail)
  /\ (forall m,
         In m (execAll defaultImportPattern content) ->
         exists pre ws tail post,
           content = pre ++ lit "import" ++ ws ++ group 1 (groups m) ++ tail ++ post
           /\ index m = List.length pre
           /\ blank ws /\ group 1 (groups m) <> []
           /\ Forall (fun c => c <> ch "{" /\ isSpace c = false)
                (group 1 (groups m))
           /\ fromClause tail)
  /\ (forall m,
         In m (execAll namespaceImportPattern content) ->
         exists pre ws1 ws2 ws3 tail post,
           content = pre ++ lit "import" ++ ws1 ++ ch "*" :: ws2 ++ lit "as" ++ ws3
                     ++ group 1 (groups m) ++ tail ++ post
           /\ index m = List.length pre
           /\ blank ws1 /\ blank ws2 /\ blank ws3
           /\ group 1 (groups m) <> []
           /\ Forall (fun c => isSpace c = false) (group 1 (groups m))
           /\ fromClause tail)
  /\ (forall m,
         In m (execAll requirePattern content) ->
         exists pre d ws tail post,
           content = pre ++ d ++ ws ++ ch "{" :: group 1 (groups m)
                     ++ ch "}" :: tail ++ post
           /\ index m = List.length pre
           /\ isDeclarator d /\ blank ws
           /\ ~ In (ch "}") (group 1 (groups m)) /\ requireClause tail)
  /\ (forall m,
         In m (execAll requireDefaultPattern content) ->
         exists pre d ws tail post,
           content = pre ++ d ++ ws ++ group 1 (groups m) ++ tail ++ post
           /\ index m = List.length pre
           /\ isDeclarator d /\ blank ws /\ group 1 (groups m) <> []
           /\ Forall (fun c => c <> ch "{" /\ isSpace c = false)
                (group 1 (groups m))
           /\ requireClause tail).
Proof.
  split; [| split; [| split; [| split]]]; intros m.
  - apply named_import_shape.
  - apply default_import_shape.
  - apply namespace_import_shape.
  - apply require_shape.
  - apply require_default_shape.
Qed.

(** ** A text that does not name the module *)

Lemma skipn_length_app (A : Type) (a b : list A) : skipn (List.length a) (a ++ b) = b.
Proof. induction a as [|x a IH]; simpl; [reflexivity | exact IH]. Qed.

Lemma namesModule_occurrence pre q1 q2 post :
  isQuote q1 = true -> isQuote q2 = true ->
  namesModule (pre ++ q1 :: targetPackageName ++ q2 :: post) = true.
Proof.
  intros H1 H2. induction pre as [|c pre IH].
  - cbn [app namesModule]. rewrite H1, startsWith_app, skipn_length_app, H2.
    reflexivity.
  - cbn [app namesModule]. rewrite IH. apply orb_true_r.
Qed.

(** Both sides of an equation between texts, with the brackets of [++] to
    the right. *)
Ltac same_text :=
  repeat first [rewrite <- !app_assoc | progress cbn [app]]; reflexivity.

Lemma fromClause_names pre tail post :
  fromClause tail -> namesModule (pre ++ tail ++ post) = true.
Proof.
  intros [ws1 [ws2 [q1 [q2 [-> [_ [_ [Q1 Q2]]]]]]]].
  replace (pre ++ (ws1 ++ lit "from" ++ ws2 ++ q1 :: targetPackageName ++ [q2])
           ++ post)
    with ((pre ++ ws1 ++ lit "from" ++ ws2) ++ q1 :: targetPackageName ++ q2 :: post).
  - now apply namesModule_occurrence.
  - same_text.
Qed.

Lemma requireClause_names pre tail post :
  requireClause tail -> namesModule (pre ++ tail ++ post) = true.
Proof.
  intros [ws1 [ws2 [ws3 [ws4 [ws5 [q1 [q2 [-> [_ [_ [_ [_ [_ [Q1 Q2]]]]]]]]]]]]]].
  replace (pre ++ (ws1 ++ ch "=" :: ws2 ++ lit "require" ++ ws3 ++ ch "(" :: ws4
                   ++ q1 :: targetPackageName ++ q2 :: ws5 ++ [ch ")"]) ++ post)
    with ((pre ++ ws1 ++ ch "=" :: ws2 ++ lit "require" ++ ws3 ++ ch "(" :: ws4)
          ++ q1 :: targetPackageName ++ q2 :: (ws5 ++ [ch ")"]) ++ post).
  - now apply namesModule_occurrence.
  - same_text.
Qed.

Lemma no_match_nil (l : list jsmatch) : (forall m, In m l -> False) -> l = [].
Proof. destruct l as [|m l]; [reflexivity |]. intros H. destruct (H m). now left. Qed.

(** X4: a text in which the module name between two quote characters does
    not occur imports nothing: none of the five patterns has a match, and
    [findImports] returns with the symbol table as it was.  An import from
    a sub-path of the module, or from a module whose name only contains the
    name, is not an import of the module. *)
Theorem text_without_module_name_imports_nothing
        (content filePath : Str.t) (u : Obj.t fileSet) :
  namesModule content = false ->
  importedNames content = []
  /\ findImports content filePath u = Returned u.
Proof.
  intros Hn.
  assert (forall pre tail post, content = pre ++ tail ++ post ->
                                fromClause tail -> False) as Hf.
  { intros pre tail post -> T.
    rewrite (fromClause_names pre tail post T) in Hn. discriminate. }
  assert (forall pre tail post, content = pre ++ tail ++ post ->
                                requireClause tail -> False) as Hr.
  { intros pre tail post -> T.
    rewrite (requireClause_names pre tail post T) in Hn. discriminate. }
  assert (execAll namedImportPattern content = []) as E1.
  { apply no_match_nil. intros m Hm.
    apply named_import_shape in Hm as [pre [ws [tail [post [Ec [_ [_ [_ T]]]]]]]].
    apply (Hf (pre ++ lit "import" ++ ws ++ ch "{" :: group 1 (groups m)
               ++ [ch "}"]) tail post); [| exact T].
    rewrite Ec. same_text. }
  assert (execAll defaultImportPattern content = []) as E2.
  { apply no_match_nil. intros m Hm.
    apply default_import_shape in Hm
        as [pre [ws [tail [post [Ec [_ [_ [_ [_ T]]]]]]]]].
    apply (Hf (pre ++ lit "import" ++ ws ++ group 1 (groups m)) tail post);
      [| exact T].
    rewrite Ec. same_text. }
  assert (execAll namespaceImportPattern content = []) as E3.
  { apply no_match_nil. intros m Hm.
    apply namespace_import_shape in Hm
        as [pre [ws1 [ws2 [ws3 [tail [post [Ec [_ [_ [_ [_ [_ [_ T]]]]]]]]]]]]].
    apply (Hf (pre ++ lit "import" ++ ws1 ++ ch "*" :: ws2 ++ lit "as" ++ ws3
               ++ group 1 (groups m)) tail post); [| exact T].
    rewrite Ec. same_text. }
  assert (execAll requirePattern content = []) as E4.
  { apply no_match_nil. intros m Hm.
    apply require_shape in Hm as [pre [d [ws [tail [post [Ec [_ [_ [_ [_ T]]]]]]]]]].
    apply (Hr (pre ++ d ++ ws ++ ch "{" :: group 1 (groups m) ++ [ch "}"])
             tail post); [| exact T].
    rewrite Ec. same_text. }
  assert (execAll requireDefaultPattern content = []) as E5.
  { apply no_match_nil. intros m Hm.
    apply require_default_shape in Hm
        as [pre [d [ws [tail [post [Ec [_ [_ [_ [_ [_ T]]]]]]]]]]].
    apply (Hr (pre ++ d ++ ws ++ group 1 (groups m)) tail post); [| exact T].
    rewrite Ec. same_text. }
  split.
  - unfold importedNames. rewrite E1, E2, E3, E4, E5. reflexivity.
  - unfold findImports. rewrite E1, E2, E3, E4, E5. reflexivity.
Qed.

Lemma text_without_module_name_imports_nothing_witness :
  namesModule otherModuleFile = false
  /\ importedNames otherModuleFile = []
  /\ findImports otherModuleFile appJs [] = Returned [].
Proof.
  assert (namesModule otherModuleFile = false) as H by (vm_compute; reflexivity).
  split; [exact H |].
  exact (text_without_module_name_imports_nothing otherModuleFile appJs [] H).
Defined.

(** ** A blank piece of an import list *)

Lemma trimStart_blank pad : forallb isSpace pad = true -> trimStart pad = [].
Proof.
  induction pad as [|x pad IH]; simpl; [reflexivity |].
  intros H. apply andb_true_iff in H as [Hx Hp]. rewrite Hx. now apply IH.
Qed.

Lemma namedComponent_blank pad :
  forallb isSpace pad = true -> namedComponent pad = [].
Proof.
  intros H. unfold namedComponent, trim. now rewrite (trimStart_blank _ H).
Qed.

Lemma requireComponent_blank pad :
  forallb isSpace pad = true -> requireComponent pad = [].
Proof.
  intros H. unfold requireComponent, trim. now rewrite (trimStart_blank _ H).
Qed.

Lemma split_no_separator c0 s :
  ~ In c0 s -> forall cur, splitAux [c0] 0 cur s = [rev cur ++ s].
Proof.
  induction s as [|x s IH]; intros Hn cur.
  - simpl. now rewrite app_nil_r.
  - cbn [splitAux startsWith].
    destruct (N.eqb c0 x) eqn:E.
    + apply N.eqb_eq in E. subst. exfalso. apply Hn. now left.
    + cbn [andb]. rewrite IH; [| intros H; apply Hn; now right].
      simpl. now rewrite <- app_assoc.
Qed.

(** What stands after the last separator is a piece of the split. *)
Lemma split_last_piece c0 body pad :
  ~ In c0 pad ->
  forall cur, In pad (splitAux [c0] 0 cur (body ++ c0 :: pad)).
Proof.
  intros Hn. induction body as [|x body IH]; intros cur.
  - cbn [app splitAux startsWith]. rewrite N.eqb_refl. cbn [andb List.length Nat.sub].
    right. rewrite (split_no_separator c0 pad Hn []). now left.
  - cbn [app splitAux startsWith]. destruct (N.eqb c0 x); cbn [andb].
    + right. cbn [List.length Nat.sub]. apply IH.
    + apply IH.
Qed.

Lemma blank_no_comma pad : forallb isSpace pad = true -> ~ In (ch ",") pad.
Proof.
  intros H Hin. rewrite forallb_forall in H. specialize (H _ Hin).
  vm_compute in H. discriminate.
Qed.

(** X5: a named import list, or a destructured require list, that ends in
    a comma followed by white space only (the usual layout of a list over
    several lines) has a last piece that trims to the empty string: when
    [findImports] returns, the empty string is a key of the symbol table,
    with the file in its set. *)
Theorem trailing_comma_registers_empty_name
        (content filePath : Str.t) (u : Obj.t fileSet) (m : jsmatch)
        (body pad : Str.t) :
  (forall c, In c (importedNames content) -> ~ In c Obj.prototypeNames) ->
  In m (execAll namedImportPattern content)
  \/ In m (execAll requirePattern content) ->
  group 1 (groups m) = body ++ ch "," :: pad ->
  forallb isSpace pad = true ->
  exists u',
    findImports content filePath u = Returned u'
    /\ In [] (Obj.keys u')
    /\ In filePath (valueOf u' []).
Proof.
  intros Hn Hm Hg Hp.
  destruct (findImports_returns content filePath u Hn) as [u' H].
  exists u'. split; [exact H |].
  assert (In pad (split (lit ",") (group 1 (groups m)))) as Hpiece.
  { rewrite Hg. unfold split. change (lit ",") with [ch ","].
    apply split_last_piece. now apply blank_no_comma. }
  assert (In [] (importedNames content)) as Hi.
  { unfold importedNames. destruct Hm as [Hm | Hm].
    - apply in_or_app. left. apply in_flat_map. exists m. split; [exact Hm |].
      unfold namedComponents. rewrite <- (namedComponent_blank pad Hp).
      now apply in_map.
    - apply in_or_app. right. apply in_or_app. right. apply in_or_app. right.
      apply in_or_app. left. apply in_flat_map. exists m. split; [exact Hm |].
      unfold requireComponents. rewrite <- (requireComponent_blank pad Hp).
      now apply in_map. }
  split.
  - apply (findImports_keys _ _ _ _ H). now right.
  - apply (findImports_table _ _ _ _ H). right. now split.
Qed.

Lemma trailing_comma_registers_empty_name_witness :
  (forall c, In c (importedNames trailingCommaFile) -> ~ In c Obj.prototypeNames)
  /\ importedNames trailingCommaFile = [lit "Button"; lit "Card"; []]
  /\ exists u',
      findImports trailingCommaFile appJs [] = Returned u'
      /\ In [] (Obj.keys u')
      /\ In appJs (valueOf u' []).
Proof.
  assert (forall c, In c (importedNames trailingCommaFile) ->
                    ~ In c Obj.prototypeNames) as Hn.
  { apply no_inherited_name_check. vm_compute. reflexivity. }
  split; [exact Hn |]. split; [vm_compute; reflexivity |].
  apply (trailing_comma_registers_empty_name trailingCommaFile appJs []
           (JsMatch 0 53 [(1%nat, nl ++ lit "  Button," ++ nl ++ lit "  Card," ++ nl)])
           (nl ++ lit "  Button," ++ nl ++ lit "  Card") nl Hn).
  - left. vm_compute. left. reflexivity.
  - vm_compute. reflexivity.
  - vm_compute. reflexivity.
Defined.

(** ** Matches that are found *)

(** A position where the pattern matches makes [exec] succeed (at that
    position or before it). *)
Lemma search_complete r suf e :
  forall skipped p i,
    matcher r Some (MState (lastOr p skipped) suf (i + List.length skipped) [])
    = Some e ->
    exists m e', search r p (skipped ++ suf) i = Some (m, e').
Proof.
  induction skipped as [|c skipped IH]; intros p i H.
  - cbn [app List.length lastOr fold_left] in *. rewrite Nat.add_0_r in H.
    destruct suf as [|x suf']; cbn [search]; rewrite H; eauto.
  - cbn [app search].
    destruct (matcher r Some (MState p (c :: skipped ++ suf) i [])) as [e0|];
      [eauto |].
    apply IH. cbn [List.length] in H. rewrite Nat.add_succ_r in H. exact H.
Qed.

Lemma execAll_nonempty r pre suf e :
  matcher r Some (stateAt pre suf) = Some e -> execAll r (pre ++ suf) <> [].
Proof.
  intros H. unfold execAll. cbn [scan].
  destruct (search_complete r suf e pre None 0 H) as [m [e' ->]]. discriminate.
Qed.

Lemma chr_fwd c k s t :
  rest s = c :: t -> matcher (Chr c) k s = k (advance c t s).
Proof. intros R. cbn [matcher]. rewrite R. now rewrite N.eqb_refl. Qed.

Lemma wordB_fwd k s :
  xorb (isWordAt (prev s)) (isWordAt (hd_error (rest s))) = true ->
  matcher WordB k s = k s.
Proof. intros H. cbn [matcher]. now rewrite H. Qed.

(** Reading a literal. *)
Lemma lit_fwd w :
  forall k s t,
    rest s = w ++ t ->
    matcher (Lit w) k s
    = k (MState (lastOr (prev s) w) t (List.length w + pos s) (caps s)).
Proof.
  induction w as [|c w IH]; intros k s t R.
  - destruct s as [p r i g]. simpl in R. subst. reflexivity.
  - cbn [Lit matcher]. rewrite R. cbn [app]. rewrite N.eqb_refl.
    rewrite (IH k (advance c (w ++ t) s) t eq_refl).
    cbn [advance prev pos caps List.length]. rewrite Nat.add_succ_r. reflexivity.
Qed.

(** White space before what the continuation accepts: the greedy star
    finds a way. *)
Lemma greedy_spaces_fwd k ws :
  forall fuel s t e,
    rest s = ws ++ t -> Forall (fun c => isSpace c = true) ws ->
    List.length ws < fuel ->
    k (MState (lastOr (prev s) ws) t (List.length ws + pos s) (caps s)) = Some e ->
    exists e', starLoop (matcher space) true k fuel s = Some e'.
Proof.
  induction ws as [|c ws IH]; intros fuel s t e R F L K;
    (destruct fuel as [|fuel]; [inversion L |]); cbn [starLoop].
  - match goal with |- context [orElse ?a _] => destruct a as [e0|] end;
      [now exists e0 |].
    cbn [orElse]. exists e. destruct s as [p r i g]. simpl in R. subst. exact K.
  - inversion F as [|? ? Hc F']; subst.
    unfold space at 1. cbn [matcher]. rewrite R. cbn [app].
    assert (inClass false [CSpace] c = true) as ->.
    { unfold inClass. simpl. now rewrite Hc. }
    cbn [advance pos].
    assert ((S (pos s) =? pos s) = false) as -> by (apply Nat.eqb_neq; lia).
    destruct (IH fuel (advance c (ws ++ t) s) t e)
      as [e' ->]; [reflexivity | exact F' | simpl in L; lia | | now exists e'].
    cbn [advance prev pos caps]. cbn [List.length] in K.
    rewrite Nat.add_succ_r. exact K.
Qed.

(** A [>] further on: the lazy star of a tag finds an end. *)
Lemma lazy_tag_fwd mid :
  forall fuel s b,
    rest s = mid ++ ch ">" :: b -> List.length mid < fuel ->
    exists e,
      starLoop (matcher (Cls true [CChar (ch ">")])) false
        (matcher (Alt (Chr (ch ">")) (Lit (lit "/>"))) Some) fuel s = Some e.
Proof.
  induction mid as [|c mid IH]; intros fuel s b R L;
    (destruct fuel as [|fuel]; [inversion L |]); cbn [starLoop].
  - assert (matcher (Alt (Chr (ch ">")) (Lit (lit "/>"))) Some s
            = Some (advance (ch ">") b s)) as ->.
    { cbn [matcher]. rewrite R. cbn [app]. rewrite N.eqb_refl. reflexivity. }
    cbn [orElse]. eauto.
  - destruct (matcher (Alt (Chr (ch ">")) (Lit (lit "/>"))) Some s) as [e0|] eqn:K;
      cbn [orElse]; [now exists e0 |].
    cbn [matcher]. rewrite R. cbn [app].
    destruct (N.eqb c (ch ">")) eqn:Ec.
    + exfalso. apply N.eqb_eq in Ec. subst c.
      cbn [matcher] in K. rewrite R in K. cbn [app] in K.
      rewrite N.eqb_refl in K. discriminate.
    + assert (inClass true [CChar (ch ">")] c = true) as ->.
      { unfold inClass. cbn [existsb inItem]. rewrite orb_false_r, Ec.
        reflexivity. }
      cbn [advance pos].
      assert ((S (pos s) =? pos s) = false) as -> by (apply Nat.eqb_neq; lia).
      apply (IH fuel (advance c (mid ++ ch ">" :: b) s) b);
        [reflexivity | simpl in L; lia].
Qed.

Lemma notAhead_fwd k s :
  startsWithWordOrHyphen (rest s) = false ->
  matcher (NotAhead wordOrHyphen) k s = k s.
Proof.
  intros H. cbn [matcher]. unfold wordOrHyphen. cbn [matcher].
  destruct (rest s) as [|x t]; [reflexivity |].
  unfold startsWithWordOrHyphen, isWordOrHyphen in H. now rewrite H.
Qed.

(** An opening tag of the name, closed further on, is a markup match. *)
Lemma jsxPattern_fwd name s mid b :
  rest s = ch "<" :: name ++ mid ++ ch ">" :: b ->
  startsWithWordOrHyphen (mid ++ [ch ">"]) = false ->
  exists e, matcher (jsxPattern (Lit name)) Some s = Some e.
Proof.
  intros R Hb. unfold jsxPattern.
  change (matcher (Chr (ch "<") >> Lit name >> NotAhead wordOrHyphen
                   >> NotAhead wordOrHyphen >> tagTail) Some s)
    with (matcher (Chr (ch "<"))
            (matcher (Lit name)
               (matcher (NotAhead wordOrHyphen)
                  (matcher (NotAhead wordOrHyphen) (matcher tagTail Some)))) s).
  rewrite (chr_fwd _ _ s _ R).
  rewrite (lit_fwd name _ (advance (ch "<") (name ++ mid ++ ch ">" :: b) s)
             (mid ++ ch ">" :: b) eq_refl).
  assert (startsWithWordOrHyphen (mid ++ ch ">" :: b) = false) as Hb'.
  { destruct mid; [reflexivity | exact Hb]. }
  rewrite !notAhead_fwd by exact Hb'.
  unfold tagTail.
  change (matcher (Star false (Cls true [CChar (ch ">")])
                   >> Alt (Chr (ch ">")) (Lit (lit "/>"))) Some ?s0)
    with (starLoop (matcher (Cls true [CChar (ch ">")])) false
            (matcher (Alt (Chr (ch ">")) (Lit (lit "/>"))) Some)
            (S (List.length (rest s0))) s0).
  apply (lazy_tag_fwd mid _ _ b); [reflexivity |].
  cbn [rest]. rewrite length_app. lia.
Qed.

Lemma not_behind_fwd k s :
  prev s <> Some (ch ".") -> prev s <> Some (ch "<") ->
  matcher (NotBehind [CChar (ch "."); CChar (ch "<")]) k s = k s.
Proof.
  intros H1 H2. cbn [matcher]. destruct (prev s) as [c|]; [| reflexivity].
  assert (inClass false [CChar (ch "."); CChar (ch "<")] c = false) as ->;
    [| reflexivity].
  unfold inClass. simpl. rewrite orb_false_r. apply orb_false_iff.
  split; apply N.eqb_neq; intros ->; [now apply H1 | now apply H2].
Qed.

(** The name at a word boundary, not after a dot or [<], followed by white
    space if any and [(], is a call match. *)
Lemma functionCallPattern_fwd name s ws b :
  rest s = name ++ ws ++ ch "(" :: b ->
  Forall (fun c => isSpace c = true) ws ->
  prev s <> Some (ch ".") -> prev s <> Some (ch "<") ->
  xorb (isWordAt (prev s)) (isWordAt (hd_error (rest s))) = true ->
  exists e, matcher (functionCallPattern (Lit name)) Some s = Some e.
Proof.
  intros R F H1 H2 Hw. unfold functionCallPattern.
  change (matcher (NotBehind [CChar (ch "."); CChar (ch "<")] >> WordB
                   >> Lit name >> Star true space >> Chr (ch "(")) Some s)
    with (matcher (NotBehind [CChar (ch "."); CChar (ch "<")])
            (matcher WordB
               (matcher (Lit name)
                  (matcher (Star true space) (matcher (Chr (ch "(")) Some)))) s).
  rewrite (not_behind_fwd _ s H1 H2).
  rewrite (wordB_fwd _ s Hw).
  rewrite (lit_fwd name _ s (ws ++ ch "(" :: b) R).
  change (matcher (Star true space) ?k0 ?s0)
    with (starLoop (matcher space) true k0 (S (List.length (rest s0))) s0).
  apply (greedy_spaces_fwd _ ws _ _ (ch "(" :: b)
           (MState (Some (ch "(")) b
              (S (List.length ws + (List.length name + pos s))) (caps s)));
    [reflexivity | exact F | cbn [rest]; rewrite length_app; lia |].
  cbn [matcher rest prev pos caps]. rewrite N.eqb_refl. reflexivity.
Qed.

Lemma markup_found content name a mid b :
  content = a ++ ch "<" :: name ++ mid ++ ch ">" :: b ->
  startsWithWordOrHyphen (mid ++ [ch ">"]) = false ->
  extractJSXUsage content (Lit name) <> [].
Proof.
  intros -> H. unfold extractJSXUsage.
  destruct (jsxPattern_fwd name (stateAt a (ch "<" :: name ++ mid ++ ch ">" :: b))
              mid b eq_refl H) as [e He].
  exact (execAll_nonempty _ _ _ e He).
Qed.

Lemma hd_error_app3 (name ws : Str.t) c b :
  hd_error (name ++ ws ++ c :: b) = hd_error (name ++ ws ++ [c]).
Proof. destruct name; [destruct ws |]; reflexivity. Qed.

Lemma call_found content name a ws b :
  content = a ++ name ++ ws ++ ch "(" :: b ->
  Forall (fun c => isSpace c = true) ws ->
  lastOr None a <> Some (ch ".") -> lastOr None a <> Some (ch "<") ->
  atWordBoundary a (name ++ ws ++ [ch "("]) = true ->
  execAll (functionCallPattern (Lit name)) content <> [].
Proof.
  intros -> F H1 H2 Hw.
  destruct (functionCallPattern_fwd name (stateAt a (name ++ ws ++ ch "(" :: b))
              ws b eq_refl F H1 H2) as [e He].
  - cbn [stateAt prev rest]. rewrite hd_error_app3. exact Hw.
  - exact (execAll_nonempty _ _ _ e He).
Qed.

Lemma length_pos_nonempty (A : Type) (l : list A) : l <> [] -> 0 < List.length l.
Proof. destruct l; [congruence | simpl; lia]. Qed.

(** X6: the search finds what is there.  In a tree in which no text
    imports a name that every object inherits (so that no error is logged)
    nor a name with one of the characters [\ * + ? ( ) [ ] { } |], for a
    symbol without pattern syntax characters that is imported by the file
    or by a file walked before it: a file whose text has [<], the symbol,
    no word character or hyphen next, and a [>] further on is recorded as a
    markup user of the symbol; a file whose text has the symbol at a word
    boundary, not after a dot or [<], followed by white space if any and
    [(], is recorded as a user of the symbol, in the call table when it has
    no markup match of it. *)
Theorem tags_and_calls_of_known_symbols_are_recorded
        (pre post : list file) (p c name : Str.t) :
  NoDup (map fst (pre ++ (p, c) :: post)) ->
  spliceableImports (pre ++ (p, c) :: post) = true ->
  noInheritedImports (pre ++ (p, c) :: post) = true ->
  isPlain name = true ->
  importedIn (pre ++ [(p, c)]) name ->
  exists st,
    walk (pre ++ (p, c) :: post) initial = Some (st, [])
    /\ (forall a mid b,
           c = a ++ ch "<" :: name ++ mid ++ ch ">" :: b ->
           startsWithWordOrHyphen (mid ++ [ch ">"]) = false ->
           In p (valueOf (componentInstancesJSX st) name))
    /\ (forall a ws b,
           c = a ++ name ++ ws ++ ch "(" :: b ->
           Forall (fun x => isSpace x = true) ws ->
           lastOr None a <> Some (ch ".") -> lastOr None a <> Some (ch "<") ->
           atWordBoundary a (name ++ ws ++ [ch "("]) = true ->
           In p (valueOf (componentInstancesJSX st) name)
           \/ (extractJSXUsage c (Lit name) = []
               /\ In p (valueOf (componentInstancesFunc st) name))).
Proof.
  intros Hnd Hs Hn Hp Hi.
  destruct (walk_clean _ Hs Hn) as [st Hw]. exists st. split; [exact Hw |].
  destruct (plain_counts pre post p c name st Hnd Hw Hp) as [_ [Hk _]].
  destruct (Hk Hi) as [Hj Hf]. split.
  - intros a mid b Ec Hb. apply count_pos_In. rewrite Hj.
    apply length_pos_nonempty. now apply (markup_found c name a mid b).
  - intros a ws b Ec F H1 H2 Hb.
    destruct (extractJSXUsage c (Lit name)) as [|m l] eqn:Ej.
    + right. split; [reflexivity |]. apply count_pos_In. rewrite Hf.
      cbn [List.length Nat.eqb]. apply length_pos_nonempty.
      now apply (call_found c name a ws b).
    + left. apply count_pos_In. rewrite Hj. simpl. lia.
Qed.

Lemma tags_and_calls_of_known_symbols_are_recorded_witness :
  NoDup (map fst usageFiles)
  /\ spliceableImports usageFiles = true
  /\ noInheritedImports usageFiles = true
  /\ exists st,
      walk usageFiles initial = Some (st, [])
      /\ In (lit "src/page.js") (valueOf (componentInstancesJSX st) (lit "Button")).
Proof.
  assert (NoDup (map fst usageFiles)) as Hnd.
  { repeat constructor; simpl; intuition discriminate. }
  split; [exact Hnd |].
  assert (spliceableImports usageFiles = true) as Hs by (vm_compute; reflexivity).
  assert (noInheritedImports usageFiles = true) as Hn by (vm_compute; reflexivity).
  split; [exact Hs |]. split; [exact Hn |].
  destruct (tags_and_calls_of_known_symbols_are_recorded
              [(appJs, importLine "{ Button }")]
              [(lit "src/util.js", lit "export const u = Button (1);")]
              (lit "src/page.js")
              (lit "export const p = <Button kind='x'>text</Button>;")
              (lit "Button") Hnd Hs Hn eq_refl
              (ex_intro _ (appJs, importLine "{ Button }")
                 (conj (or_introl eq_refl) (or_introl eq_refl))))
    as [st [Hw [Hj _]]].
  exists st. split; [exact Hw |].
  apply (Hj (lit "export const p = ") (lit " kind='x'") (lit "text</Button>;"));
    reflexivity.
Defined.

(** ** The scope of the search in a tree *)

(** C6, amended: the search is not by file but by the symbol table as it
    stands.  In a tree of distinct paths in which no text imports a name
    that every object inherits (so that no error is logged) nor a name with
    one of the characters [\ * + ? ( ) [ ] { } |], the walk returns, and
    for a symbol without pattern syntax characters: when some file
    processed no later than [B] imports it ([B] itself need not), every
    call-style match of the symbol in [B] is recorded for [B], as long as
    [B] has no markup match of it, and with markup matches these are
    recorded and the calls are not; a text in which the symbol stands at a
    word boundary, not after a dot or [<], followed by white space if any
    and [(], has such a match.  When no file processed no later than [B]
    imports the symbol, nothing is recorded for [B] under it. *)
Theorem search_covers_files_from_first_import
        (pre post : list file) (p c name : Str.t) :
  NoDup (map fst (pre ++ (p, c) :: post)) ->
  spliceableImports (pre ++ (p, c) :: post) = true ->
  noInheritedImports (pre ++ (p, c) :: post) = true ->
  isPlain name = true ->
  exists st,
    walk (pre ++ (p, c) :: post) initial = Some (st, [])
    /\ (importedIn (pre ++ [(p, c)]) name ->
        (extractJSXUsage c (Lit name) = [] ->
         count p (valueOf (componentInstancesFunc st) name)
         = List.length (execAll (functionCallPattern (Lit name)) c))
        /\ (extractJSXUsage c (Lit name) <> [] ->
            count p (valueOf (componentInstancesJSX st) name)
            = List.length (extractJSXUsage c (Lit name))
            /\ count p (valueOf (componentInstancesFunc st) name) = 0)
        /\ (forall a ws b,
               c = a ++ name ++ ws ++ ch "(" :: b ->
               Forall (fun x => isSpace x = true) ws ->
               lastOr None a <> Some (ch ".") -> lastOr None a <> Some (ch "<") ->
               atWordBoundary a (name ++ ws ++ [ch "("]) = true ->
               extractJSXUsage c (Lit name) = [] ->
               In p (valueOf (componentInstancesFunc st) name)))
    /\ (~ importedIn (pre ++ [(p, c)]) name ->
        count p (valueOf (componentInstancesJSX st) name) = 0
        /\ count p (valueOf (componentInstancesFunc st) name) = 0).
Proof.
  intros Hnd Hs Hn Hp.
  destruct (walk_clean _ Hs Hn) as [st Hw]. exists st. split; [exact Hw |].
  destruct (plain_counts pre post p c name st Hnd Hw Hp) as [_ [Hyes Hno]].
  split; [| exact Hno].
  intros Hin. destruct (Hyes Hin) as [Hj Hf]. split; [| split].
  - intros E. rewrite Hf, E. reflexivity.
  - intros E. split; [exact Hj |]. rewrite Hf.
    destruct (extractJSXUsage c (Lit name)); [contradiction | reflexivity].
  - intros a ws b Ec F H1 H2 Hb E. apply count_pos_In. rewrite Hf, E.
    cbn [List.length Nat.eqb]. apply length_pos_nonempty.
    now apply (call_found c name a ws b).
Qed.

Lemma search_covers_files_from_first_import_witness :
  NoDup (map fst lateImportFiles)
  /\ spliceableImports lateImportFiles = true
  /\ noInheritedImports lateImportFiles = true
  /\ exists st,
      walk lateImportFiles initial = Some (st, [])
      /\ count (lit "src/c.js")
           (valueOf (componentInstancesFunc st) (lit "Button")) = 2
      /\ count (lit "src/a.js")
           (valueOf (componentInstancesFunc st) (lit "Button")) = 0.
Proof.
  assert (NoDup (map fst lateImportFiles)) as Hnd.
  { repeat constructor; simpl; intuition discriminate. }
  assert (spliceableImports lateImportFiles = true) as Hs
      by (vm_compute; reflexivity).
  assert (noInheritedImports lateImportFiles = true) as Hn
      by (vm_compute; reflexivity).
  split; [exact Hnd |]. split; [exact Hs |]. split; [exact Hn |].
  destruct (search_covers_files_from_first_import
              [(lit "src/a.js", lit "Button(1);");
               (lit "src/b.js", importLine "{ Button }")]
              [] (lit "src/c.js") (lit "Button(2); Button(3);")
              (lit "Button") Hnd Hs Hn eq_refl) as [st [Hw [Hyes _]]].
  destruct (search_covers_files_from_first_import
              [] [(lit "src/b.js", importLine "{ Button }");
                  (lit "src/c.js", lit "Button(2); Button(3);")]
              (lit "src/a.js") (lit "Button(1);")
              (lit "Button") Hnd Hs Hn eq_refl) as [st' [Hw' [_ Hno]]].
  assert (st' = st) as ->.
  { change (walk lateImportFiles initial = Some (st, [])) in Hw.
    change (walk lateImportFiles initial = Some (st', [])) in Hw'.
    rewrite Hw in Hw'. now injection Hw'. }
  exists st. split; [exact Hw |]. split.
  - destruct Hyes as [Hcalls _].
    + exists (lit "src/b.js", importLine "{ Button }").
      split; [right; now left | vm_compute; now left].
    + rewrite Hcalls; vm_compute; reflexivity.
  - apply Hno. intros [f [[<- | []] Hi]]. vm_compute in Hi. exact Hi.
Defined.

(** ** The empty name as a symbol *)

Lemma isWord_not_dot w : isWord w = true -> w <> ch "." /\ w <> ch "<".
Proof. intros H. split; intros ->; vm_compute in H; discriminate. Qed.

Lemma isSpace_not_word c : isSpace c = true -> isWord c = false.
Proof.
  intros H. unfold isSpace in H. apply existsb_exists in H as [x [Hin Heq]].
  apply N.eqb_eq in Heq. subst x. simpl in Hin.
  repeat (destruct Hin as [<- | Hin]; [reflexivity |]). contradiction.
Qed.

(** X7: once the empty name is a symbol (X5), the patterns built from it
    match far more than a component: in a walk without logged errors,
    every file processed from then on whose text has a closing tag is
    recorded as a markup user of the empty name, and every file whose text
    has a call (a word character, white space if any, and an opening
    parenthesis) is recorded as a user of it. *)
Theorem empty_name_matches_closing_tags_and_calls
        (pre post : list file) (p c : Str.t) (st : state) :
  NoDup (map fst (pre ++ (p, c) :: post)) ->
  walk (pre ++ (p, c) :: post) initial = Some (st, []) ->
  importedIn (pre ++ [(p, c)]) [] ->
  (forall a tag b,
      c = a ++ lit "</" ++ tag ++ ch ">" :: b ->
      In p (valueOf (componentInstancesJSX st) []))
  /\ (forall a w ws b,
         c = a ++ w :: ws ++ ch "(" :: b ->
         isWord w = true -> Forall (fun x => isSpace x = true) ws ->
         In p (valueOf (componentInstancesJSX st) [])
         \/ In p (valueOf (componentInstancesFunc st) [])).
Proof.
  intros Hnd Hw Hi.
  destruct (plain_counts pre post p c [] st Hnd Hw eq_refl) as [_ [Hk _]].
  destruct (Hk Hi) as [Hj Hf]. split.
  - intros a tag b Ec. apply count_pos_In. rewrite Hj.
    apply length_pos_nonempty.
    apply (markup_found c [] a (ch "/" :: tag) b); [| reflexivity].
    rewrite Ec. reflexivity.
  - intros a w ws b Ec Hword F.
    destruct (extractJSXUsage c (Lit [])) as [|m l] eqn:Ej.
    + right. apply count_pos_In. rewrite Hf. cbn [List.length Nat.eqb].
      apply length_pos_nonempty.
      destruct (isWord_not_dot w Hword) as [Hd Hl].
      apply (call_found c [] (a ++ [w]) ws b).
      * rewrite Ec, <- app_assoc. reflexivity.
      * exact F.
      * rewrite lastOr_snoc. congruence.
      * rewrite lastOr_snoc. congruence.
      * unfold atWordBoundary. rewrite lastOr_snoc. cbn [isWordAt app].
        rewrite Hword. destruct ws as [|x ws']; [reflexivity |].
        inversion F; subst. cbn [app hd_error isWordAt].
        now rewrite isSpace_not_word.
    + left. apply count_pos_In. rewrite Hj. simpl. lia.
Qed.

Lemma empty_name_matches_closing_tags_and_calls_witness :
  NoDup (map fst [(appJs, trailingCommaFile)])
  /\ importedIn [(appJs, trailingCommaFile)] []
  /\ exists st,
      walk [(appJs, trailingCommaFile)] initial = Some (st, [])
      /\ In appJs (valueOf (componentInstancesJSX st) []).
Proof.
  assert (NoDup (map fst [(appJs, trailingCommaFile)])) as Hnd.
  { repeat constructor; simpl; intuition discriminate. }
  assert (importedIn [(appJs, trailingCommaFile)] []) as Hi.
  { exists (appJs, trailingCommaFile). split; [now left |].
    vm_compute. right. right. left. reflexivity. }
  split; [exact Hnd |]. split; [exact Hi |].
  destruct (walk [(appJs, trailingCommaFile)] initial) as [[st errors]|] eqn:E;
    [| vm_compute in E; discriminate].
  assert (errors = []) as ->.
  { vm_compute in E. injection E as _ <-. reflexivity. }
  exists st. split; [reflexivity |].
  apply (proj1 (empty_name_matches_closing_tags_and_calls
                  [] [] appJs trailingCommaFile st Hnd E Hi)
           (lit "import {" ++ nl ++ lit "  Button," ++ nl ++ lit "  Card," ++ nl
            ++ lit "} from " ++ [quote] ++ targetPackageName ++ [quote]
            ++ lit ";" ++ nl ++ lit "render(<div>text")
           (lit "div") (lit ");")).
  vm_compute. reflexivity.
Defined.

(** ** Whose the usage keys are *)

Lemma componentUsages_accounts content f symbol st r st' :
  componentUsages content f symbol st = r -> finalState r = Some st' ->
  componentUsage st' = componentUsage st
  /\ forall k g,
      In g (valueOf (componentInstancesJSX st') k)
      \/ In g (valueOf (componentInstancesFunc st') k) ->
      (In g (valueOf (componentInstancesJSX st) k)
       \/ In g (valueOf (componentInstancesFunc st) k))
      \/ (g = f /\ owns symbol k).
Proof.
  intros Hr Hf.
  destruct (componentUsages_spec _ _ _ _ _ _ Hr Hf)
    as [Hu [a [b [Pa [Pb [Ho _]]]]]].
  split; [exact Hu |]. intros k g [Hg | Hg].
  - apply (pushes_In _ _ _ _ Pa) in Hg as [Hg | [-> Hpos]]; [now left; left |].
    right. split; [reflexivity | apply Ho; now left].
  - apply (pushes_In _ _ _ _ Pb) in Hg as [Hg | [-> Hpos]]; [now left; right |].
    right. split; [reflexivity | apply Ho; now right].
Qed.

Lemma usage_loop_accounts content f l :
  forall st r st',
    forEach (componentUsages content f) l st = r -> finalState r = Some st' ->
    componentUsage st' = componentUsage st
    /\ forall k g,
        In g (valueOf (componentInstancesJSX st') k)
        \/ In g (valueOf (componentInstancesFunc st') k) ->
        (In g (valueOf (componentInstancesJSX st) k)
         \/ In g (valueOf (componentInstancesFunc st) k))
        \/ (g = f /\ exists s, In s l /\ owns s k).
Proof.
  apply (forEach_final_keeps_in _ _ (componentUsages content f)
           (fun st st' =>
              componentUsage st' = componentUsage st
              /\ forall k g,
                  In g (valueOf (componentInstancesJSX st') k)
                  \/ In g (valueOf (componentInstancesFunc st') k) ->
                  (In g (valueOf (componentInstancesJSX st) k)
                   \/ In g (valueOf (componentInstancesFunc st) k))
                  \/ (g = f /\ exists s, In s l /\ owns s k)) l).
  - intros st. split; [reflexivity | intros k g H; now left].
  - intros st1 st2 st3 [U12 H12] [U23 H23]. split; [congruence |].
    intros k g H. destruct (H23 k g H) as [H2 | H2]; [| now right].
    exact (H12 k g H2).
  - intros symbol st r st' Hin Hr Hf.
    destruct (componentUsages_accounts _ _ _ _ _ _ Hr Hf) as [Hu Hk].
    split; [exact Hu |]. intros k g H.
    destruct (Hk k g H) as [H0 | [-> Ho]]; [now left |].
    right. split; [reflexivity |]. now exists symbol.
Qed.

Lemma processFile_accounted p c st st' flag processed :
  accounted processed st ->
  processFile p c st = Some (st', flag) ->
  accounted (processed ++ [p]) st'.
Proof.
  intros Ha H.
  pose proof (processFile_extends _ _ _ _ _ H) as [Hkeys _].
  destruct (processFile_cases _ _ _ _ _ H) as [u [Hu [Hst [-> | [r [Hi [Hr [Hf _]]]]]]]].
  - intros k g Hg. cbn [componentInstancesJSX componentInstancesFunc] in Hg.
    destruct (Ha k g Hg) as [[s [Hs Ho]] Hp]. split.
    + exists s. split; [now apply Hkeys | exact Ho].
    + apply in_or_app. now left.
  - unfold findComponentUsages in Hr.
    destruct (usage_loop_accounts _ _ _ _ _ _ Hr Hf) as [Hu' Hk].
    cbn [componentUsage componentInstancesJSX componentInstancesFunc] in Hu', Hk.
    intros k g Hg. destruct (Hk k g Hg) as [H0 | [-> [s [Hs Ho]]]].
    + destruct (Ha k g H0) as [[s [Hs Ho]] Hp]. split.
      * exists s. split; [now apply Hkeys | exact Ho].
      * apply in_or_app. now left.
    + split.
      * exists s. split; [now rewrite Hu' | exact Ho].
      * apply in_or_app. right. now left.
Qed.

Lemma walk_accounted files :
  forall st processed st' errors,
    accounted processed st ->
    walk files st = Some (st', errors) ->
    accounted (processed ++ map fst files) st'.
Proof.
  induction files as [|[q c] files IH]; intros st processed st' errors Ha; simpl.
  - intros [= <- <-]. now rewrite app_nil_r.
  - destruct (processFile q c st) as [[st1 flag]|] eqn:E; [| discriminate].
    destruct (walk files st1) as [[st2 errs]|] eqn:Ew; [| discriminate].
    intros [= <- <-].
    pose proof (IH _ _ _ _ (processFile_accounted _ _ _ _ _ _ Ha E) Ew) as H.
    now rewrite <- app_assoc in H.
Qed.

(** X8: in a tree whose imported names have none of the characters
    [\ * + ? ( ) [ ] { } |], whatever errors the walk logs, an entry of a
    usage table is accounted for: its key is a key of the symbol table, or
    the alias of a namespace key followed by a dot and a member name of
    [[A-Za-z0-9_]]; its list is not empty; and the list names processed
    files only. *)
Theorem usage_keys_belong_to_imported_symbols (files : list file) :
  spliceableImports files = true ->
  exists st errors,
    walk files initial = Some (st, errors)
    /\ forall k,
        In k (Obj.keys (componentInstancesJSX st))
        \/ In k (Obj.keys (componentInstancesFunc st)) ->
        (exists s, In s (Obj.keys (componentUsage st)) /\ owns s k)
        /\ (valueOf (componentInstancesJSX st) k <> []
            \/ valueOf (componentInstancesFunc st) k <> [])
        /\ (forall g,
               In g (valueOf (componentInstancesJSX st) k)
               \/ In g (valueOf (componentInstancesFunc st) k) ->
               In g (map fst files)).
Proof.
  intros Hs.
  destruct (walk_modelled files Hs initial) as [st [errors [H _]]].
  { intros k []. }
  exists st, errors. split; [exact H |]. intros k Hk.
  assert (accounted [] initial) as Ha0.
  { intros k0 g [[] | []]. }
  pose proof (walk_accounted files initial [] st errors Ha0 H) as Ha.
  assert (nonEmptyTables initial) as Hn0.
  { split; intros k0 v; discriminate. }
  destruct (walk_nonEmpty files initial st errors H Hn0) as [Hj Hf].
  assert (valueOf (componentInstancesJSX st) k <> []
          \/ valueOf (componentInstancesFunc st) k <> []) as Hne.
  { destruct Hk as [Hk | Hk]; [left | right]; now apply key_has_occurrences. }
  assert (exists g, In g (valueOf (componentInstancesJSX st) k)
                    \/ In g (valueOf (componentInstancesFunc st) k)) as [g Hg].
  { destruct Hne as [Hne | Hne];
      [destruct (valueOf (componentInstancesJSX st) k) as [|g l] eqn:E
      | destruct (valueOf (componentInstancesFunc st) k) as [|g l] eqn:E];
      try congruence; exists g; [left | right]; now left. }
  split; [exact (proj1 (Ha k g Hg)) |]. split; [exact Hne |].
  intros g' Hg'. exact (proj2 (Ha k g' Hg')).
Qed.

Lemma usage_keys_belong_to_imported_symbols_witness :
  spliceableImports demoFiles = true
  /\ exists st errors,
      walk demoFiles initial = Some (st, errors)
      /\ In (lit "NS.Card") (Obj.keys (componentInstancesJSX st))
      /\ exists s, In s (Obj.keys (componentUsage st)) /\ owns s (lit "NS.Card").
Proof.
  assert (spliceableImports demoFiles = true) as Hs by (vm_compute; reflexivity).
  split; [exact Hs |].
  destruct (usage_keys_belong_to_imported_symbols demoFiles Hs)
    as [st [errors [Hw Hk]]].
  exists st, errors. split; [exact Hw |].
  assert (In (lit "NS.Card") (Obj.keys (componentInstancesJSX st))) as Hin.
  { assert (option_map (fun r => Obj.keys (componentInstancesJSX (fst r)))
              (walk demoFiles initial)
            = Some [lit "Button"; lit "NS.Card"]) as Hc
        by (vm_compute; reflexivity).
    rewrite Hw in Hc. cbn [option_map fst] in Hc. injection Hc as ->.
    right. now left. }
  split; [exact Hin |].
  exact (proj1 (Hk (lit "NS.Card") (or_introl Hin))).
Defined.

(** ** The order of the report's lists *)

Section Sorting.

Variable A : Type.
Variable le : A -> A -> bool.
Hypothesis le_total : forall a b, le a b = true \/ le b a = true.
Hypothesis le_trans : forall a b c, le a b = true -> le b c = true -> le a c = true.

Lemma insertBy_perm x l : Permutation (insertBy le x l) (x :: l).
Proof.
  induction l as [|y l IH]; simpl; [apply Permutation_refl |].
  destruct (le x y); [apply Permutation_refl |].
  apply perm_trans with (y :: x :: l); [now apply perm_skip | apply perm_swap].
Qed.

Lemma sortBy_perm l : Permutation (sortBy le l) l.
Proof.
  induction l as [|x l IH]; simpl; [apply perm_nil |].
  apply perm_trans with (x :: sortBy le l);
    [apply insertBy_perm | now apply perm_skip].
Qed.

Lemma insertBy_sorted x l :
  StronglySorted (fun a b => le a b = true) l ->
  StronglySorted (fun a b => le a b = true) (insertBy le x l).
Proof.
  induction l as [|y l IH]; simpl; intros H.
  - repeat constructor.
  - inversion H as [|? ? Hl Hy]; subst. destruct (le x y) eqn:E.
    + constructor; [exact H |]. constructor; [exact E |].
      eapply Forall_impl; [| exact Hy]. intros z Hz. now apply (le_trans x y z).
    + constructor; [now apply IH |].
      apply Forall_forall. intros z Hz. apply insertBy_In in Hz as [-> | Hz].
      * destruct (le_total x y) as [H1 | H1]; [congruence | exact H1].
      * rewrite Forall_forall in Hy. now apply Hy.
Qed.

Lemma sortBy_sorted l : StronglySorted (fun a b => le a b = true) (sortBy le l).
Proof.
  induction l as [|x l IH]; simpl; [constructor | now apply insertBy_sorted].
Qed.

End Sorting.

Lemma leb_total a : forall b, Str.leb a b = true \/ Str.leb b a = true.
Proof.
  induction a as [|x a IH]; intros b; [now left |].
  destruct b as [|y b]; [now right |]. simpl.
  destruct (N.lt_total x y) as [H | [H | H]].
  - left. apply N.ltb_lt in H. now rewrite H.
  - subst y. rewrite N.eqb_refl, N.ltb_irrefl. simpl. apply IH.
  - right. apply N.ltb_lt in H. now rewrite H.
Qed.

Lemma leb_trans a : forall b c,
  Str.leb a b = true -> Str.leb b c = true -> Str.leb a c = true.
Proof.
  induction a as [|x a IH]; intros b c H1 H2; [reflexivity |].
  destruct b as [|y b]; [discriminate |]. destruct c as [|z c]; [discriminate |].
  simpl in *.
  apply orb_true_iff in H1 as [H1 | H1]; apply orb_true_iff in H2 as [H2 | H2].
  - apply N.ltb_lt in H1, H2. apply orb_true_iff. left. apply N.ltb_lt. lia.
  - apply andb_true_iff in H2 as [H2 _]. apply N.eqb_eq in H2. subst.
    now rewrite H1.
  - apply andb_true_iff in H1 as [H1 _]. apply N.eqb_eq in H1. subst.
    now rewrite H2.
  - apply andb_true_iff in H1 as [E1 H1]. apply andb_true_iff in H2 as [E2 H2].
    apply N.eqb_eq in E1, E2. subst. rewrite N.eqb_refl, (IH b c H1 H2).
    apply orb_true_r.
Qed.

Lemma sortStrings_ascending l : ascending (sortStrings l).
Proof. apply sortBy_sorted; [apply leb_total | apply leb_trans]. Qed.

Lemma distinct_In x l : In x (distinct l) <-> In x l.
Proof.
  induction l as [|y l IH]; simpl; [tauto |].
  rewrite filter_In, IH. destruct (str_eq_dec y x) as [-> | Hne]; [tauto |].
  apply str_eqb_neq in Hne. rewrite Hne. simpl. intuition.
Qed.

Lemma distinct_NoDup l : NoDup (distinct l).
Proof.
  induction l as [|y l IH]; simpl; constructor.
  - rewrite filter_In. intros [_ H]. now rewrite str_eqb_refl in H.
  - now apply NoDup_filter.
Qed.

(** The sort by count keeps, among the keys of one count, the order in
    which it found them. *)
Lemma insertBy_count_stable (table : instances) n x l :
  withCount table n
    (insertBy (fun a b => List.length (valueOf table b)
                          <=? List.length (valueOf table a)) x l)
  = withCount table n (x :: l).
Proof.
  unfold withCount. induction l as [|y l IH]; [reflexivity |].
  cbn [insertBy].
  destruct (List.length (valueOf table y) <=? List.length (valueOf table x)) eqn:E;
    [reflexivity |].
  apply Nat.leb_gt in E. cbn [filter] in *. rewrite IH.
  destruct (List.length (valueOf table x) =? n) eqn:Ex; [| reflexivity].
  apply Nat.eqb_eq in Ex.
  assert ((List.length (valueOf table y) =? n) = false) as ->
      by (apply Nat.eqb_neq; lia).
  reflexivity.
Qed.

Lemma sortedByCount_stable (table : instances) n l :
  withCount table n
    (sortBy (fun a b => List.length (valueOf table b)
                        <=? List.length (valueOf table a)) l)
  = withCount table n l.
Proof.
  induction l as [|x l IH]; [reflexivity |].
  cbn [sortBy fold_right]. rewrite insertBy_count_stable.
  unfold withCount in *. cbn [filter]. fold (sortBy (fun a b => List.length (valueOf table b) <=? List.length (valueOf table a)) l).
  now rewrite IH.
Qed.

Lemma StronglySorted_weaken (A : Type) (R R' : A -> A -> Prop) l :
  (forall a b, R a b -> R' a b) -> StronglySorted R l -> StronglySorted R' l.
Proof.
  intros HR H. induction H as [|x l Hl IH Hx]; constructor; [exact IH |].
  eapply Forall_impl; [| exact Hx]. intros y. apply HR.
Qed.

Lemma sortedByCount_descending (table : instances) :
  byDescendingCount table (sortedByCount table).
Proof.
  unfold byDescendingCount, sortedByCount.
  apply (StronglySorted_weaken _
           (fun a b => (List.length (valueOf table b)
                        <=? List.length (valueOf table a)) = true)).
  - intros a b H. now apply Nat.leb_le.
  - apply sortBy_sorted.
    + intros a b.
      destruct (Nat.le_ge_cases (List.length (valueOf table b))
                  (List.length (valueOf table a))) as [H | H];
        [left | right]; now apply Nat.leb_le.
    + intros a b c H1 H2. apply Nat.leb_le in H1, H2. apply Nat.leb_le. lia.
Qed.

Lemma fileGroups_files occurrences :
  map fst (fileGroups occurrences) = sortStrings (distinct occurrences).
Proof.
  unfold fileGroups. rewrite map_map. cbn [fst]. apply map_id.
Qed.

(** X9: the order of the report.  The imported components and the unused
    ones are listed in ascending order of code units, the files of a usage
    block likewise, each file once; the blocks of a usage section are in
    descending order of the number of occurrences, and the keys with the
    same number keep the order in which [Object.keys] lists them: the keys
    that are array indices first, by ascending number, then the other keys
    in the order in which the table got them (so [3] and [5], entered
    after [Mid], come before it).  Each of these lists has exactly the
    members of the list that was sorted. *)
Theorem report_lists_are_sorted (st : state) :
  (ascending (sortStrings (Obj.keys (componentUsage st)))
   /\ Permutation (sortStrings (Obj.keys (componentUsage st)))
        (Obj.keys (componentUsage st)))
  /\ (ascending (sortStrings (unusedComponents st))
      /\ Permutation (sortStrings (unusedComponents st)) (unusedComponents st))
  /\ (forall table : instances,
         byDescendingCount table (sortedByCount table)
         /\ Permutation (sortedByCount table) (Obj.keys table)
         /\ forall n,
             withCount table n (sortedByCount table)
             = withCount table n (Obj.keys table))
  /\ (forall occurrences : list Str.t,
         ascending (map fst (fileGroups occurrences))
         /\ NoDup (map fst (fileGroups occurrences))
         /\ forall f, In f (map fst (fileGroups occurrences)) <-> In f occurrences)
  /\ sortedByCount
       [(lit "Mid", [appJs]); (lit "5", [appJs]); (lit "3", [appJs]);
        (lit "Top", [appJs; appJs])]
     = [lit "Top"; lit "3"; lit "5"; lit "Mid"].
Proof.
  split; [| split; [| split; [| split; [| vm_compute; reflexivity]]]].
  - split; [apply sortStrings_ascending | apply sortBy_perm].
  - split; [apply sortStrings_ascending | apply sortBy_perm].
  - intros table. split; [apply sortedByCount_descending |].
    split; [apply sortBy_perm |].
    intros n. apply sortedByCount_stable.
  - intros occurrences. rewrite fileGroups_files.
    split; [apply sortStrings_ascending |]. split.
    + apply (Permutation_NoDup (l := distinct occurrences));
        [apply Permutation_sym, sortBy_perm | apply distinct_NoDup].
    + intros f. unfold sortStrings. rewrite sortBy_In. apply distinct_In.
Qed.

(** ** The numbers of the report *)

Lemma list_sum_perm l l' : Permutation l l' -> list_sum l = list_sum l'.
Proof. induction 1; simpl; lia. Qed.

Lemma count_partition x l :
  count x l + List.length (filter (fun y => negb (Str.eqb x y)) l) = List.length l.
Proof.
  unfold count. induction l as [|y l IH]; [reflexivity |].
  cbn [filter]. destruct (Str.eqb x y); cbn [negb List.length]; lia.
Qed.

Lemma filter_comm (A : Type) (p q : A -> bool) l :
  filter p (filter q l) = filter q (filter p l).
Proof.
  induction l as [|x l IH]; [reflexivity |]. cbn [filter].
  destruct (p x) eqn:Ep, (q x) eqn:Eq; cbn [filter];
    rewrite ?Ep, ?Eq, IH; reflexivity.
Qed.

Lemma filter_idem (A : Type) (p : A -> bool) l : filter p (filter p l) = filter p l.
Proof.
  induction l as [|x l IH]; [reflexivity |]. cbn [filter].
  destruct (p x) eqn:Ep; cbn [filter]; rewrite ?Ep, IH; reflexivity.
Qed.

Lemma distinct_filter x l :
  distinct (filter (fun y => negb (Str.eqb x y)) l)
  = filter (fun y => negb (Str.eqb x y)) (distinct l).
Proof.
  induction l as [|y l IH]; [reflexivity |]. cbn [filter distinct].
  destruct (Str.eqb x y) eqn:E; cbn [negb].
  - apply str_eqb_eq in E. subst y. now rewrite IH, filter_idem.
  - cbn [distinct]. rewrite IH. f_equal. apply filter_comm.
Qed.

Lemma count_cons_same x l : count x (x :: l) = S (count x l).
Proof. unfold count. cbn [filter]. now rewrite str_eqb_refl. Qed.

Lemma count_cons_other x y l : x <> y -> count x (y :: l) = count x l.
Proof.
  intros H. unfold count. cbn [filter]. apply str_eqb_neq in H. now rewrite H.
Qed.

(** The occurrences of the distinct members add up to the length. *)
Lemma sum_distinct n :
  forall l, List.length l <= n ->
            list_sum (map (fun f => count f l) (distinct l)) = List.length l.
Proof.
  induction n as [|n IH]; intros l Hl.
  - destruct l; [reflexivity | simpl in Hl; lia].
  - destruct l as [|x l]; [reflexivity |].
    cbn [distinct map list_sum]. rewrite <- distinct_filter.
    rewrite count_cons_same.
    assert (map (fun f => count f (x :: l))
              (distinct (filter (fun y => negb (Str.eqb x y)) l))
            = map (fun f => count f (filter (fun y => negb (Str.eqb x y)) l))
                (distinct (filter (fun y => negb (Str.eqb x y)) l))) as ->.
    { apply map_ext_in. intros f Hf. apply (proj1 (distinct_In _ _)) in Hf.
      apply filter_In in Hf as [_ Hne].
      rewrite (count_filter_out (fun y => negb (Str.eqb x y)) f l), Hne.
      apply count_cons_other. apply negb_true_iff in Hne.
      apply str_eqb_neq in Hne. congruence. }
    change (list_sum (?a :: ?r)) with (a + list_sum r).
    rewrite (IH (filter (fun y => negb (Str.eqb x y)) l)).
    + pose proof (count_partition x l). cbn [List.length]. lia.
    + pose proof (count_partition x l). cbn [List.length] in Hl. lia.
Qed.

Lemma fold_left_sum (l : list (list Str.t)) n :
  fold_left (fun sum a => sum + List.length a) l n
  = n + list_sum (map (@List.length Str.t) l).
Proof.
  revert n. induction l as [|a l IH]; intros n; simpl; [lia |].
  rewrite IH. lia.
Qed.

Lemma sum_values (table : instances) ks :
  list_sum (map (@List.length Str.t)
              (flat_map (fun k => match Obj.get table k with
                                  | Some v => [v]
                                  | None => []
                                  end) ks))
  = list_sum (map (fun k => List.length (valueOf table k)) ks).
Proof.
  induction ks as [|k ks IH]; [reflexivity |].
  cbn [flat_map map list_sum]. rewrite map_app, list_sum_app, IH.
  unfold valueOf. destruct (Obj.get table k); simpl; lia.
Qed.

(** X10: the numbers of the report agree with each other.  In a usage
    block, the instance counts of the listed files add up to the number of
    times in the block's head; and the total of a table in the summary is
    the sum of the numbers in the heads of the table's blocks. *)
Theorem report_counts_add_up :
  (forall occurrences : list Str.t,
      list_sum (map snd (fileGroups occurrences)) = List.length occurrences)
  /\ (forall table : instances,
         totalInstances table
         = list_sum (map (fun k => List.length (valueOf table k))
                       (sortedByCount table))).
Proof.
  split.
  - intros occurrences. unfold fileGroups. rewrite map_map. cbn [snd].
    rewrite (list_sum_perm _ (map (fun f => count f occurrences)
                                (distinct occurrences))).
    + now apply (sum_distinct (List.length occurrences)).
    + apply Permutation_map. apply sortBy_perm.
  - intros table. unfold totalInstances, Obj.values.
    rewrite fold_left_sum, sum_values. cbn [Nat.add].
    apply list_sum_perm. apply Permutation_map. apply Permutation_sym.
    apply sortBy_perm.
Qed.

(** ** The walk over the directory tree *)

Lemma walk_join pre post :
  forall st st1 e1 st2 e2,
    walk pre st = Some (st1, e1) -> walk post st1 = Some (st2, e2) ->
    walk (pre ++ post) st = Some (st2, e1 ++ e2).
Proof.
  induction pre as [|[p c] pre IH]; intros st st1 e1 st2 e2; simpl.
  - now intros [= <- <-].
  - destruct (processFile p c st) as [[st' flag]|]; [| discriminate].
    destruct (walk pre st') as [[st'' errs]|] eqn:E; [| discriminate].
    intros [= <- <-] H2. rewrite (IH _ _ _ _ _ E H2).
    now destruct flag.
Qed.

Lemma processes_refl os r : processes os [] r r.
Proof.
  split; [now exists [] |]. split; [constructor |].
  exists []. now rewrite app_nil_r.
Qed.

Lemma processes_trans os seen1 seen2 r1 r2 r3 :
  processes os seen1 r1 r2 -> processes os seen2 r2 r3 ->
  processes os (seen1 ++ seen2) r1 r3.
Proof.
  intros [[e1 W1] [F1 [v1 L1]]] [[e2 W2] [F2 [v2 L2]]]. split; [| split].
  - exists (e1 ++ e2). unfold relativeTo. rewrite map_app.
    exact (walk_join _ _ _ _ _ _ _ W1 W2).
  - apply Forall_app. now split.
  - exists (v1 ++ v2). now rewrite L2, L1, app_assoc.
Qed.

Lemma processes_logError os e r : processes os [] r (Fs.logError e r).
Proof.
  split; [now exists [] |]. split; [constructor |]. now exists [e].
Qed.

(** What [processFile] does to the tables is what the walk over that one
    file does. *)
Lemma fs_processFile_processes os p r r' :
  Fs.ignored p = false -> Fs.stat os p = Some Fs.RegularFile ->
  includes Fs.fileExtensions (Fs.pathExtname os p) = true ->
  Fs.processFile os p r = Some r' ->
  exists seen, processes os seen r r'.
Proof.
  intros Hi Hs He. unfold Fs.processFile.
  destruct (Fs.readFile os p) as [content|] eqn:Er.
  - destruct (processFile (Fs.pathRelative os p) content (Fs.tables r))
      as [[st failed]|] eqn:Ep; [| discriminate].
    intros [= <-]. exists [(p, content)]. split; [| split].
    + exists (if failed then [Fs.pathRelative os p] else []).
      cbn [relativeTo map fst snd walk]. rewrite Ep. now destruct failed.
    + constructor; [| constructor]. repeat split; assumption.
    + destruct failed; [now exists [Fs.ProcessingError p] |].
      exists []. cbn [Fs.logged]. now rewrite app_nil_r.
  - intros [= <-]. exists []. apply processes_logError.
Qed.

Lemma forEntries_processes os walkInto dirPath entries :
  (forall p r r', walkInto p r = Some r' -> exists seen, processes os seen r r') ->
  forall r r' thrown,
    Fs.forEntries os walkInto dirPath entries r = Some (r', thrown) ->
    exists seen, processes os seen r r'.
Proof.
  intros Hw. induction entries as [|entry entries IH]; intros r r' thrown.
  - intros [= <- <-]. exists []. apply processes_refl.
  - cbn [Fs.forEntries]. cbv zeta.
    destruct (Fs.ignored (Fs.pathJoin os dirPath entry)) eqn:Ei; [apply IH |].
    destruct (Fs.stat os (Fs.pathJoin os dirPath entry)) as [[| |]|] eqn:Es.
    + destruct (walkInto (Fs.pathJoin os dirPath entry) r) as [r1|] eqn:E1;
        [| discriminate].
      intros H. destruct (Hw _ _ _ E1) as [seen1 P1].
      destruct (IH _ _ _ H) as [seen2 P2].
      exists (seen1 ++ seen2). exact (processes_trans _ _ _ _ _ _ P1 P2).
    + destruct (includes Fs.fileExtensions
                  (Fs.pathExtname os (Fs.pathJoin os dirPath entry))) eqn:Ee;
        [| apply IH].
      destruct (Fs.processFile os (Fs.pathJoin os dirPath entry) r)
        as [r1|] eqn:E1; [| discriminate].
      intros H. destruct (fs_processFile_processes _ _ _ _ Ei Es Ee E1) as [seen1 P1].
      destruct (IH _ _ _ H) as [seen2 P2].
      exists (seen1 ++ seen2). exact (processes_trans _ _ _ _ _ _ P1 P2).
    + apply IH.
    + intros [= <- <-]. exists []. apply processes_refl.
Qed.

Lemma walkDirectory_processes os fuel :
  forall dirPath r r',
    Fs.walkDirectory os fuel dirPath r = Some r' ->
    exists seen, processes os seen r r'.
Proof.
  induction fuel as [|fuel IH]; intros dirPath r r'; [discriminate |].
  cbn [Fs.walkDirectory].
  destruct (Fs.readdir os dirPath) as [entries|].
  - destruct (Fs.forEntries os (Fs.walkDirectory os fuel) dirPath entries r)
      as [[r1 thrown]|] eqn:E; [| discriminate].
    destruct (forEntries_processes os _ dirPath entries IH _ _ _ E) as [seen P].
    destruct thrown; intros [= <-].
    + exists (seen ++ []).
      exact (processes_trans _ _ _ _ _ _ P (processes_logError os _ r1)).
    + now exists seen.
  - intros [= <-]. exists []. apply processes_logError.
Qed.

(** The bound on the depth does not matter once it is large enough. *)
Lemma forEntries_ext os f g dirPath entries :
  (forall p r r', f p r = Some r' -> g p r = Some r') ->
  forall r x, Fs.forEntries os f dirPath entries r = Some x ->
              Fs.forEntries os g dirPath entries r = Some x.
Proof.
  intros Hfg. induction entries as [|entry entries IH]; intros r x;
    [trivial |].
  cbn [Fs.forEntries]. cbv zeta.
  destruct (Fs.ignored (Fs.pathJoin os dirPath entry)); [apply IH |].
  destruct (Fs.stat os (Fs.pathJoin os dirPath entry)) as [[| |]|];
    [| | apply IH | trivial].
  - destruct (f (Fs.pathJoin os dirPath entry) r) as [r1|] eqn:E; [| discriminate].
    rewrite (Hfg _ _ _ E). apply IH.
  - destruct (includes Fs.fileExtensions
                (Fs.pathExtname os (Fs.pathJoin os dirPath entry)));
      [| apply IH].
    destruct (Fs.processFile os (Fs.pathJoin os dirPath entry) r); [apply IH | trivial].
Qed.

Lemma walkDirectory_more_fuel os fuel :
  forall fuel' dirPath r r',
    fuel <= fuel' ->
    Fs.walkDirectory os fuel dirPath r = Some r' ->
    Fs.walkDirectory os fuel' dirPath r = Some r'.
Proof.
  induction fuel as [|fuel IH]; intros fuel' dirPath r r' Hle; [discriminate |].
  destruct fuel' as [|fuel']; [lia |]. cbn [Fs.walkDirectory].
  destruct (Fs.readdir os dirPath) as [entries|]; [| trivial].
  destruct (Fs.forEntries os (Fs.walkDirectory os fuel) dirPath entries r)
    as [x|] eqn:E; [| discriminate].
  rewrite (forEntries_ext os _ (Fs.walkDirectory os fuel') dirPath entries
             (fun p a b => IH fuel' p a b (le_S_n _ _ Hle)) r x E).
  trivial.
Qed.

(** X11: what [walkDirectory] does to the tables is what processing a
    list of files, one after the other, does: when it returns, there are
    files, each of them a regular file that could be read, whose path has
    no ignored pattern in it and whose extension is one of the four, such
    that the tables are those of the walk over these files under their
    relative paths; the log is only added to; and a larger bound on the
    depth gives the same result. *)
Theorem directory_walk_processes_scanned_files
        (os : Fs.platform) (fuel : nat) (dirPath : Str.t) (r r' : Fs.run) :
  Fs.walkDirectory os fuel dirPath r = Some r' ->
  (exists seen errors,
      walk (relativeTo os seen) (Fs.tables r) = Some (Fs.tables r', errors)
      /\ Forall (scanned os) seen)
  /\ (exists events, Fs.logged r' = Fs.logged r ++ events)
  /\ (forall fuel', fuel <= fuel' ->
                    Fs.walkDirectory os fuel' dirPath r = Some r').
Proof.
  intros H.
  destruct (walkDirectory_processes os fuel dirPath r r' H)
    as [seen [[errors W] [F L]]].
  split; [now exists seen, errors |]. split; [exact L |].
  intros fuel' Hle. exact (walkDirectory_more_fuel os fuel fuel' _ _ _ Hle H).
Qed.

Lemma directory_walk_processes_scanned_files_witness :
  exists r',
    Fs.walkDirectory disk 2 (lit "proj") (Fs.Run initial []) = Some r'
    /\ Fs.logged r' = [Fs.WalkingError (lit "proj/src")]
    /\ exists seen errors,
        walk (relativeTo disk seen) initial = Some (Fs.tables r', errors)
        /\ Forall (scanned disk) seen.
Proof.
  destruct (Fs.walkDirectory disk 2 (lit "proj") (Fs.Run initial [])) as [r'|] eqn:E;
    [| vm_compute in E; discriminate].
  exists r'. split; [reflexivity |]. split.
  - vm_compute in E. injection E as <-. reflexivity.
  - exact (proj1 (directory_walk_processes_scanned_files disk 2 (lit "proj")
                    (Fs.Run initial []) r' E)).
Defined.

(** ** Entries that are not looked at *)

Lemma forEntries_app os walkInto dirPath before after r :
  Fs.forEntries os walkInto dirPath (before ++ after) r
  = match Fs.forEntries os walkInto dirPath before r with
    | Some (r1, false) => Fs.forEntries os walkInto dirPath after r1
    | other => other
    end.
Proof.
  revert r. induction before as [|entry before IH]; intros r; [reflexivity |].
  cbn [app Fs.forEntries]. cbv zeta.
  destruct (Fs.ignored (Fs.pathJoin os dirPath entry)); [apply IH |].
  destruct (Fs.stat os (Fs.pathJoin os dirPath entry)) as [[| |]|];
    [| | apply IH | reflexivity].
  - destruct (walkInto (Fs.pathJoin os dirPath entry) r); [apply IH | reflexivity].
  - destruct (includes Fs.fileExtensions
                (Fs.pathExtname os (Fs.pathJoin os dirPath entry)));
      [| apply IH].
    destruct (Fs.processFile os (Fs.pathJoin os dirPath entry) r);
      [apply IH | reflexivity].
Qed.

(** X12: an entry for which [stat] rejects ends the walk of its
    directory: the entries listed after it are not looked at, whatever they
    are, and the error is logged for the directory; the walk of the parent
    directory goes on, since [walkDirectory] returns normally. *)
Theorem failed_stat_ends_the_directory
        (os : Fs.platform) (fuel : nat) (dirPath entry : Str.t)
        (before after : list Str.t) (r : Fs.run) :
  Fs.ignored (Fs.pathJoin os dirPath entry) = false ->
  Fs.stat os (Fs.pathJoin os dirPath entry) = None ->
  (forall walkInto,
      Fs.forEntries os walkInto dirPath (before ++ entry :: after) r
      = match Fs.forEntries os walkInto dirPath before r with
        | Some (r1, _) => Some (r1, true)
        | None => None
        end)
  /\ (Fs.readdir os dirPath = Some (before ++ entry :: after) ->
      Fs.walkDirectory os (S fuel) dirPath r
      = match Fs.forEntries os (Fs.walkDirectory os fuel) dirPath before r with
        | Some (r1, _) => Some (Fs.logError (Fs.WalkingError dirPath) r1)
        | None => None
        end).
Proof.
  intros Hi Hs.
  assert (forall walkInto,
             Fs.forEntries os walkInto dirPath (before ++ entry :: after) r
             = match Fs.forEntries os walkInto dirPath before r with
               | Some (r1, _) => Some (r1, true)
               | None => None
               end) as H.
  { intros walkInto. rewrite forEntries_app.
    destruct (Fs.forEntries os walkInto dirPath before r) as [[r1 [|]]|];
      [reflexivity | | reflexivity].
    cbn [Fs.forEntries]. cbv zeta. now rewrite Hi, Hs. }
  split; [exact H |].
  intros Hr. cbn [Fs.walkDirectory]. rewrite Hr, H.
  destruct (Fs.forEntries os (Fs.walkDirectory os fuel) dirPath before r)
    as [[r1 thrown]|]; reflexivity.
Qed.

Lemma failed_stat_ends_the_directory_witness :
  Fs.ignored (Fs.pathJoin disk (lit "proj/src") (lit "gone")) = false
  /\ Fs.stat disk (Fs.pathJoin disk (lit "proj/src") (lit "gone")) = None
  /\ Fs.readdir disk (lit "proj/src")
     = Some ([lit "App.js"; lit "distance.js"] ++ lit "gone" :: [lit "util.js"])
  /\ Fs.walkDirectory disk 1 (lit "proj/src") (Fs.Run initial [])
     = match Fs.forEntries disk (Fs.walkDirectory disk 0) (lit "proj/src")
               [lit "App.js"; lit "distance.js"] (Fs.Run initial []) with
       | Some (r1, _) =>
           Some (Fs.logError (Fs.WalkingError (lit "proj/src")) r1)
       | None => None
       end.
Proof.
  assert (Fs.ignored (Fs.pathJoin disk (lit "proj/src") (lit "gone")) = false)
    as Hi by (vm_compute; reflexivity).
  assert (Fs.stat disk (Fs.pathJoin disk (lit "proj/src") (lit "gone")) = None)
    as Hs by (vm_compute; reflexivity).
  assert (Fs.readdir disk (lit "proj/src")
          = Some ([lit "App.js"; lit "distance.js"] ++ lit "gone" :: [lit "util.js"]))
    as Hr by (vm_compute; reflexivity).
  split; [exact Hi |]. split; [exact Hs |]. split; [exact Hr |].
  exact (proj2 (failed_stat_ends_the_directory disk 0 (lit "proj/src") (lit "gone")
                  [lit "App.js"; lit "distance.js"] [lit "util.js"]
                  (Fs.Run initial []) Hi Hs) Hr).
Defined.

(** ** Ignoring is by substring of the path *)

Lemma startsWith_more p s suffix :
  startsWith p s = true -> startsWith p (s ++ suffix) = true.
Proof.
  revert s. induction p as [|x p IH]; intros s H; [reflexivity |].
  destruct s as [|y s]; [discriminate |]. cbn [app startsWith] in *.
  apply andb_true_iff in H as [H1 H2]. now rewrite H1, (IH s H2).
Qed.

Lemma includesText_right s pattern suffix :
  Fs.includesText s pattern = true ->
  Fs.includesText (s ++ suffix) pattern = true.
Proof.
  induction s as [|c s IH]; cbn [Fs.includesText app]; intros H.
  - rewrite orb_false_r in H. destruct pattern; [| discriminate].
    destruct suffix; reflexivity.
  - apply orb_true_iff in H as [H | H].
    + change (c :: s ++ suffix) with ((c :: s) ++ suffix).
      now rewrite (startsWith_more _ _ suffix H).
    + rewrite (IH H). apply orb_true_r.
Qed.

Lemma includesText_left prefix s pattern :
  Fs.includesText s pattern = true ->
  Fs.includesText (prefix ++ s) pattern = true.
Proof.
  intros H. induction prefix as [|c prefix IH]; [exact H |].
  cbn [app Fs.includesText]. rewrite IH. apply orb_true_r.
Qed.

Lemma ignored_pattern p pattern :
  In pattern Fs.ignorePatterns -> Fs.includesText p pattern = true ->
  Fs.ignored p = true.
Proof.
  intros Hin H. unfold Fs.ignored. apply existsb_exists. now exists pattern.
Qed.

(** X13: the test against the ignore list is a substring test on the
    joined path.  When the joined path ends with the entry's name, an entry
    whose name has [node_modules], [dist], [build] or [.git] anywhere in it
    (a file [distance.ts], a directory [.github]) is skipped: it is neither
    entered nor processed, and [stat] is not asked about it. *)
Theorem entry_with_ignored_substring_is_skipped
        (os : Fs.platform) (walkInto : Str.t -> Fs.run -> option Fs.run)
        (dirPath entry pattern : Str.t) (entries : list Str.t) (r : Fs.run) :
  In pattern Fs.ignorePatterns ->
  Fs.includesText entry pattern = true ->
  (exists prefix, Fs.pathJoin os dirPath entry = prefix ++ entry) ->
  Fs.ignored (Fs.pathJoin os dirPath entry) = true
  /\ Fs.forEntries os walkInto dirPath (entry :: entries) r
     = Fs.forEntries os walkInto dirPath entries r.
Proof.
  intros Hin Hp [prefix Hj].
  assert (Fs.ignored (Fs.pathJoin os dirPath entry) = true) as Hi.
  { apply (ignored_pattern _ pattern Hin). rewrite Hj.
    now apply includesText_left. }
  split; [exact Hi |]. cbn [Fs.forEntries]. cbv zeta. now rewrite Hi.
Qed.

Lemma entry_with_ignored_substring_is_skipped_witness :
  In (lit "dist") Fs.ignorePatterns
  /\ Fs.includesText (lit "distance.js") (lit "dist") = true
  /\ Fs.forEntries disk (Fs.walkDirectory disk 1) (lit "proj/src")
       [lit "distance.js"; lit "util.js"] (Fs.Run initial [])
     = Fs.forEntries disk (Fs.walkDirectory disk 1) (lit "proj/src")
         [lit "util.js"] (Fs.Run initial []).
Proof.
  assert (In (lit "dist") Fs.ignorePatterns) as Hin.
  { right. left. reflexivity. }
  assert (Fs.includesText (lit "distance.js") (lit "dist") = true) as Hp
      by (vm_compute; reflexivity).
  split; [exact Hin |]. split; [exact Hp |].
  apply (entry_with_ignored_substring_is_skipped disk (Fs.walkDirectory disk 1)
           (lit "proj/src") (lit "distance.js") (lit "dist") [lit "util.js"]
           (Fs.Run initial []) Hin Hp).
  exists (lit "proj/src/"). vm_compute. reflexivity.
Defined.

Lemma forEntries_all_ignored os walkInto dirPath entries r :
  (forall entry, In entry entries ->
                 Fs.ignored (Fs.pathJoin os dirPath entry) = true) ->
  Fs.forEntries os walkInto dirPath entries r = Some (r, false).
Proof.
  induction entries as [|entry entries IH]; intros H; [reflexivity |].
  cbn [Fs.forEntries]. cbv zeta. rewrite (H entry (or_introl eq_refl)).
  apply IH. intros e He. apply H. now right.
Qed.

(** X14: when the joined paths start with the directory's path, a
    directory whose own path has one of the ignored patterns in it is not
    scanned at all: every entry is skipped, the tables stay as they were,
    and nothing is logged unless the directory cannot be listed.  So
    [main], run on such a directory, reports on the empty tables. *)
Theorem directory_with_ignored_path_is_not_scanned
        (os : Fs.platform) (fuel : nat) (dirPath pattern : Str.t) (r : Fs.run) :
  In pattern Fs.ignorePatterns ->
  Fs.includesText dirPath pattern = true ->
  (forall entry, exists suffix, Fs.pathJoin os dirPath entry = dirPath ++ suffix) ->
  Fs.walkDirectory os (S fuel) dirPath r
  = Some (match Fs.readdir os dirPath with
          | Some _ => r
          | None => Fs.logError (Fs.WalkingError dirPath) r
          end)
  /\ (forall cwd now,
         dirPath <> [] ->
         exists events,
           Fs.main os (S fuel) (Some dirPath) cwd now
           = Some (generateReport now initial, events)).
Proof.
  intros Hin Hp Hj.
  assert (forall r0,
             Fs.walkDirectory os (S fuel) dirPath r0
             = Some (match Fs.readdir os dirPath with
                     | Some _ => r0
                     | None => Fs.logError (Fs.WalkingError dirPath) r0
                     end)) as H.
  { intros r0. cbn [Fs.walkDirectory].
    destruct (Fs.readdir os dirPath) as [entries|]; [| reflexivity].
    rewrite forEntries_all_ignored; [reflexivity |].
    intros entry _. apply (ignored_pattern _ pattern Hin).
    destruct (Hj entry) as [suffix ->]. now apply includesText_right. }
  split; [apply H |].
  intros cwd now Hne. unfold Fs.main.
  destruct dirPath as [|c d]; [congruence |]. rewrite H.
  destruct (Fs.readdir os (c :: d)); eexists; reflexivity.
Qed.

Lemma directory_with_ignored_path_is_not_scanned_witness :
  In (lit "build") Fs.ignorePatterns
  /\ Fs.includesText (lit "proj/build") (lit "build") = true
  /\ Fs.readdir disk (lit "proj/build") = Some [lit "bundle.js"]
  /\ Fs.walkDirectory disk 1 (lit "proj/build") (Fs.Run initial [])
     = Some (Fs.Run initial []).
Proof.
  assert (In (lit "build") Fs.ignorePatterns) as Hin.
  { right. right. left. reflexivity. }
  assert (Fs.includesText (lit "proj/build") (lit "build") = true) as Hp
      by (vm_compute; reflexivity).
  split; [exact Hin |]. split; [exact Hp |]. split; [vm_compute; reflexivity |].
  refine (proj1 (directory_with_ignored_path_is_not_scanned disk 0
                   (lit "proj/build") (lit "build") (Fs.Run initial [])
                   Hin Hp _)).
  intros entry. exists (ch "/" :: entry). reflexivity.
Defined.

(** ** The merged variant: namespace imports in the last block *)

Lemma pushInstances_final_keys f key n t r t' :
  pushInstances f key n t = r -> finalState r = Some t' ->
  forall k, In k (Obj.keys t') -> In k (Obj.keys t) \/ k = key.
Proof.
  unfold pushInstances. intros <-. destruct n as [|n].
  - intros [= <-] k Hk. now left.
  - destruct (Obj.lookup t key) as [a| |]; simpl; intros [= <-] k Hk;
      try (now left); apply keys_set in Hk; tauto.
Qed.

Lemma pushInstances_noStar f key n t r t' :
  startsWith [ch "*"] key = false ->
  pushInstances f key n t = r -> finalState r = Some t' ->
  noStarKey t -> noStarKey t'.
Proof.
  intros Hkey Hr Hf Ht k Hk.
  destruct (pushInstances_final_keys _ _ _ _ _ _ Hr Hf k Hk) as [H | ->];
    [now apply Ht | exact Hkey].
Qed.

Lemma spliced_alias_no_star namespaceAlias re m :
  splice namespaceAlias = Some re ->
  startsWith [ch "*"] (fullComponentName namespaceAlias m) = false.
Proof.
  unfold fullComponentName. destruct namespaceAlias as [|c a]; [reflexivity |].
  cbn [splice app startsWith]. unfold spliceChar.
  destruct (isOtherSyntax c) eqn:E; [discriminate |]. intros _.
  destruct (N.eqb (ch "*") c) eqn:Ec; [| reflexivity].
  apply N.eqb_eq in Ec. subst c. vm_compute in E. discriminate.
Qed.

Lemma merged_componentUsages_noStar content f symbol st r st' :
  Merged.componentUsages content f symbol st = r -> finalState r = Some st' ->
  Merged.componentUsage st' = Merged.componentUsage st
  /\ (noStarKey (Merged.componentInstances st) ->
      noStarKey (Merged.componentInstances st')).
Proof.
  unfold Merged.componentUsages.
  destruct (startsWith [ch "*"] symbol) eqn:Es.
  - cbv zeta. destruct (splice (substring1 symbol)) as [re|] eqn:Ea;
      [| intros <-; discriminate].
    destruct (forEach (fun name => pushInstances f name 1)
                (map (fullComponentName (substring1 symbol))
                   (execAll (Merged.namespacePattern re) content))
                (Merged.componentInstances st)) as [t|t|] eqn:El;
      intros <- Hf; try discriminate; injection Hf as <-;
      (split; [reflexivity |]); cbn [Merged.componentInstances]; intros Hn;
      revert Hn;
      refine (forEach_final_keeps_in _ _ (fun name => pushInstances f name 1)
                (fun a b => noStarKey a -> noStarKey b) _ _ _ _ _ _ _ El eq_refl);
      try tauto; intros name a r a' Hin;
      apply in_map_iff in Hin as [m [<- _]];
      apply pushInstances_noStar; now apply (spliced_alias_no_star _ re).
  - destruct (splice symbol) as [re|]; [| intros <-; discriminate]. cbv zeta.
    destruct (pushInstances f symbol
                (List.length (execAll (Merged.jsxPattern re) content))
                (Merged.componentInstances st)) as [t1|t1|] eqn:E1;
      cbn [andThen].
    + destruct (pushInstances f symbol
                  (List.length (execAll (Merged.functionCallPattern re) content))
                  t1) as [t2|t2|] eqn:E2;
        intros <- Hf; try discriminate; injection Hf as <-;
        (split; [reflexivity |]); cbn [Merged.componentInstances]; intros Hn;
        apply (pushInstances_noStar _ _ _ _ _ _ Es E2 eq_refl);
        apply (pushInstances_noStar _ _ _ _ _ _ Es E1 eq_refl Hn).
    + intros <- Hf. injection Hf as <-. split; [reflexivity |].
      cbn [Merged.componentInstances].
      apply (pushInstances_noStar _ _ _ _ _ _ Es E1 eq_refl).
    + intros <-. discriminate.
Qed.

Lemma merged_processFile_noStar p c st st' flag :
  Merged.processFile p c st = Some (st', flag) ->
  noStarKey (Merged.componentInstances st) ->
  noStarKey (Merged.componentInstances st').
Proof.
  unfold Merged.processFile.
  destruct (findImports c p (Merged.componentUsage st)) as [u|u|];
    [| now intros [= <- <-] | discriminate].
  destruct (0 <? List.length (Obj.keys u)); [| now intros [= <- <-]].
  destruct (Merged.findComponentUsages c p
              (Merged.State u (Merged.componentInstances st))) as [st2|st2|] eqn:E;
    [| | discriminate]; intros [= <- <-];
    unfold Merged.findComponentUsages in E;
    refine (forEach_final_keeps _ _ (Merged.componentUsages c p)
              (fun a b => noStarKey (Merged.componentInstances a) ->
                          noStarKey (Merged.componentInstances b))
              _ _ _ _ _ _ _ E eq_refl);
    try tauto; intros symbol a r a' Hr Hf;
    exact (proj2 (merged_componentUsages_noStar _ _ _ _ _ _ Hr Hf)).
Qed.

Lemma star_not_inherited k :
  startsWith [ch "*"] k = true -> includes Obj.prototypeNames k = false.
Proof.
  intros H. apply includes_not_In. intros Hin.
  assert (forallb (fun n => negb (startsWith [ch "*"] n)) Obj.prototypeNames
          = true) as Hp by (vm_compute; reflexivity).
  rewrite forallb_forall in Hp. specialize (Hp k Hin). rewrite H in Hp.
  discriminate.
Qed.

(** ** The merged variant: the scan and [lastIndex] *)

Lemma execAllFrom_zero r content :
  LastIndex.execAllFrom r content 0 = execAll r content.
Proof. reflexivity. Qed.

Lemma execAllFrom_beyond r content n :
  List.length content < n -> LastIndex.execAllFrom r content n = [].
Proof.
  intros H. unfold LastIndex.execAllFrom.
  apply Nat.ltb_lt in H. now rewrite H.
Qed.

Lemma whileExec_fst (A : Type) (body : jsmatch -> A -> result A) l :
  forall a, fst (LastIndex.whileExec body l a) = forEach body l a.
Proof.
  induction l as [|m l IH]; intros a; [reflexivity |].
  cbn [LastIndex.whileExec forEach]. destruct (body m a); [apply IH | |];
    reflexivity.
Qed.

(** A loop that comes to its end leaves [lastIndex] at 0. *)
Lemma whileExec_returned (A : Type) (body : jsmatch -> A -> result A) l :
  forall a a' i, LastIndex.whileExec body l a = (Returned a', i) -> i = 0.
Proof.
  induction l as [|m l IH]; intros a a' i; cbn [LastIndex.whileExec].
  - now intros [= _ <-].
  - destruct (body m a) as [a1|a1|]; [apply IH | discriminate | discriminate].
Qed.

(** A loop left by a throw leaves [lastIndex] at the end of the match at
    which it threw. *)
Lemma whileExec_threw (A : Type) (body : jsmatch -> A -> result A) l1 m l2 :
  forall a a0 a1,
    forEach body l1 a = Returned a0 -> body m a0 = Threw a1 ->
    LastIndex.whileExec body (l1 ++ m :: l2) a = (Threw a1, endIndex m).
Proof.
  induction l1 as [|x l1 IH]; intros a a0 a1; cbn [app forEach LastIndex.whileExec].
  - intros [= <-] ->. reflexivity.
  - destruct (body x a) as [a'|a'|]; [apply IH | discriminate | discriminate].
Qed.

Lemma lastIndex_findImports_fst content f u cs :
  fst (LastIndex.findImports content f u cs)
  = importLoops f
      (LastIndex.execAllFrom namedImportPattern content (LastIndex.named cs))
      (LastIndex.execAllFrom defaultImportPattern content (LastIndex.default cs))
      (LastIndex.execAllFrom namespaceImportPattern content
         (LastIndex.namespace cs))
      (LastIndex.execAllFrom requirePattern content (LastIndex.require cs))
      (LastIndex.execAllFrom requireDefaultPattern content
         (LastIndex.requireDefault cs))
      u.
Proof.
  unfold LastIndex.findImports, importLoops.
  rewrite <- !whileExec_fst.
  destruct (LastIndex.whileExec _ _ u) as [[u1|u1|] i1]; cbn [fst andThen];
    try reflexivity.
  rewrite <- !whileExec_fst.
  destruct (LastIndex.whileExec _ _ u1) as [[u2|u2|] i2]; cbn [fst andThen];
    try reflexivity.
  rewrite <- !whileExec_fst.
  destruct (LastIndex.whileExec _ _ u2) as [[u3|u3|] i3]; cbn [fst andThen];
    try reflexivity.
  rewrite <- !whileExec_fst.
  destruct (LastIndex.whileExec _ _ u3) as [[u4|u4|] i4]; cbn [fst andThen];
    try reflexivity.
  rewrite <- !whileExec_fst.
  destruct (LastIndex.whileExec _ _ u4) as [r5 i5]. reflexivity.
Qed.

Lemma lastIndex_findImports_returned content f u cs u' cs' :
  LastIndex.findImports content f u cs = (Returned u', cs') ->
  cs' = LastIndex.start.
Proof.
  unfold LastIndex.findImports.
  destruct (LastIndex.whileExec _ _ u) as [[u1|u1|] i1] eqn:E1;
    try discriminate.
  destruct (LastIndex.whileExec _ _ u1) as [[u2|u2|] i2] eqn:E2;
    try discriminate.
  destruct (LastIndex.whileExec _ _ u2) as [[u3|u3|] i3] eqn:E3;
    try discriminate.
  destruct (LastIndex.whileExec _ _ u3) as [[u4|u4|] i4] eqn:E4;
    try discriminate.
  destruct (LastIndex.whileExec _ _ u4) as [r5 i5] eqn:E5.
  intros [= -> <-].
  apply whileExec_returned in E1, E2, E3, E4, E5. now subst.
Qed.

Lemma findImports_loops content f u :
  findImports content f u
  = importLoops f (execAll namedImportPattern content)
      (execAll defaultImportPattern content)
      (execAll namespaceImportPattern content)
      (execAll requirePattern content)
      (execAll requireDefaultPattern content) u.
Proof. reflexivity. Qed.

(** With every [lastIndex] at 0 the merged [findImports] is the split
    one. *)
Lemma lastIndex_findImports_start content f u :
  fst (LastIndex.findImports content f u LastIndex.start) = findImports content f u.
Proof. rewrite lastIndex_findImports_fst. reflexivity. Qed.

Lemma lastIndex_processFile_start p c st st' cs' :
  LastIndex.processFile p c st LastIndex.start = Some (st', cs', false) ->
  cs' = LastIndex.start /\ Merged.processFile p c st = Some (st', false).
Proof.
  unfold LastIndex.processFile, Merged.processFile.
  rewrite <- (lastIndex_findImports_start c p (Merged.componentUsage st)).
  destruct (LastIndex.findImports c p (Merged.componentUsage st) LastIndex.start)
    as [[u|u|] cs1] eqn:E; cbn [fst]; try discriminate.
  apply lastIndex_findImports_returned in E. subst cs1.
  destruct (0 <? List.length (Obj.keys u)).
  - destruct (Merged.findComponentUsages c p
                (Merged.State u (Merged.componentInstances st)));
      try discriminate.
    intros [= <- <-]. now split.
  - intros [= <- <-]. now split.
Qed.

Lemma lastIndex_walk_start files :
  forall st st' cs',
    LastIndex.walk files st LastIndex.start = Some (st', cs', []) ->
    cs' = LastIndex.start /\ Merged.walk files st = Some (st', []).
Proof.
  induction files as [|[q c] files IH]; intros st st' cs'; simpl.
  - intros [= <- <-]. now split.
  - destruct (LastIndex.processFile q c st LastIndex.start)
      as [[[st1 cs1] flag]|] eqn:E; [| discriminate].
    destruct (LastIndex.walk files st1 cs1) as [[[st2 cs2] errs]|] eqn:Ew;
      [| discriminate].
    intros H.
    assert (flag = false /\ errs = [] /\ st2 = st' /\ cs2 = cs')
      as [-> [-> [-> ->]]].
    { destruct flag; [discriminate |]. now injection H as -> -> ->. }
    destruct (lastIndex_processFile_start _ _ _ _ _ E) as [-> Hp].
    destruct (IH _ _ _ Ew) as [-> Hw]. split; [reflexivity |].
    now rewrite Hp, Hw.
Qed.

(** X16: as long as no error is logged, the merged script scans like the
    split one: with every [lastIndex] at 0 its [findImports] gives the
    result of the split [findImports], a call that returns leaves every
    [lastIndex] at 0, and a walk without logged errors ends with the tables
    of the walk that starts every scan at 0. *)
Theorem merged_scan_agrees_without_errors :
  (forall content f u,
      fst (LastIndex.findImports content f u LastIndex.start)
      = findImports content f u)
  /\ (forall content f u cs u' cs',
         LastIndex.findImports content f u cs = (Returned u', cs') ->
         cs' = LastIndex.start)
  /\ (forall files st st' cs',
         LastIndex.walk files st LastIndex.start = Some (st', cs', []) ->
         cs' = LastIndex.start /\ Merged.walk files st = Some (st', [])).
Proof.
  split; [exact lastIndex_findImports_start |].
  split; [exact lastIndex_findImports_returned | exact lastIndex_walk_start].
Qed.

(** A relation between tables that every registration of a name of the
    matches keeps holds across the five loops. *)
Lemma importLoops_steps (R : Obj.t fileSet -> Obj.t fileSet -> Prop)
      f l1 l2 l3 l4 l5 :
  (forall a, R a a) -> (forall a b c, R a b -> R b c -> R a c) ->
  (forall c u r u',
      In c (loopNames l1 l2 l3 l4 l5) ->
      addImport f c u = r -> finalState r = Some u' -> R u u') ->
  forall u u', finalState (importLoops f l1 l2 l3 l4 l5 u) = Some u' -> R u u'.
Proof.
  intros Hrefl Htrans Hstep u u' H. unfold importLoops in H.
  assert (forall (names : jsmatch -> list Str.t) l,
             (forall m c, In m l -> In c (names m) ->
                          In c (loopNames l1 l2 l3 l4 l5)) ->
             forall a r a',
               forEach (fun m => forEach (addImport f) (names m)) l a = r ->
               finalState r = Some a' -> R a a') as Hnamed.
  { intros names l Hin. apply forEach_final_keeps_in; [exact Hrefl | exact Htrans |].
    intros m a r a' Hm.
    apply forEach_final_keeps_in; [exact Hrefl | exact Htrans |].
    intros c b r' b' Hc. apply Hstep. now apply (Hin m). }
  assert (forall (body : jsmatch -> Obj.t fileSet -> result (Obj.t fileSet)) l,
             (forall m a r a', In m l -> body m a = r -> finalState r = Some a' ->
                               R a a') ->
             forall a r a', forEach body l a = r -> finalState r = Some a' ->
                            R a a') as Hloop.
  { intros body l Hb. apply forEach_final_keeps_in;
      [exact Hrefl | exact Htrans | exact Hb]. }
  assert (forall m c, In m l1 -> In c (namedComponents m) ->
                      In c (loopNames l1 l2 l3 l4 l5)) as I1.
  { intros m c Hm Hc. unfold loopNames. apply in_or_app. left.
    apply in_flat_map. now exists m. }
  assert (forall m a r a', In m l2 -> addDefaultImport f m a = r ->
                           finalState r = Some a' -> R a a') as I2.
  { intros m a r a' Hm. unfold addDefaultImport.
    destruct (negb (Str.eqb (trim (group 1 (groups m))) targetPackageName))
      eqn:E.
    - apply Hstep. unfold loopNames. apply in_or_app. right.
      apply in_or_app. left. apply filter_In. split; [| exact E].
      apply in_map_iff. now exists m.
    - intros <- [= <-]. apply Hrefl. }
  assert (forall m a r a', In m l3 -> addNamespaceImport f m a = r ->
                           finalState r = Some a' -> R a a') as I3.
  { intros m a r a' Hm. unfold addNamespaceImport. apply Hstep.
    unfold loopNames. apply in_or_app. right. apply in_or_app. right.
    apply in_or_app. left. apply in_map_iff. now exists m. }
  assert (forall m c, In m l4 -> In c (requireComponents m) ->
                      In c (loopNames l1 l2 l3 l4 l5)) as I4.
  { intros m c Hm Hc. unfold loopNames. apply in_or_app. right.
    apply in_or_app. right. apply in_or_app. right. apply in_or_app. left.
    apply in_flat_map. now exists m. }
  assert (forall m a r a', In m l5 -> addRequireDefault f m a = r ->
                           finalState r = Some a' -> R a a') as I5.
  { intros m a r a' Hm. unfold addRequireDefault. apply Hstep.
    unfold loopNames. apply in_or_app. right. apply in_or_app. right.
    apply in_or_app. right. apply in_or_app. right.
    apply in_map_iff. now exists m. }
  apply andThen_final in H as [[u1 [E1 H]] | E1].
  2: { eapply (Hnamed _ _ I1); [exact E1 | reflexivity]. }
  apply (Hnamed _ _ I1 _ _ u1) in E1; [| reflexivity].
  apply andThen_final in H as [[u2 [E2 H]] | E2].
  2: { eapply Htrans; [exact E1 |].
       eapply (Hloop _ _ I2); [exact E2 | reflexivity]. }
  apply (Hloop _ _ I2 _ _ u2) in E2; [| reflexivity].
  apply andThen_final in H as [[u3 [E3 H]] | E3].
  2: { eapply Htrans; [exact E1 |]. eapply Htrans; [exact E2 |].
       eapply (Hloop _ _ I3); [exact E3 | reflexivity]. }
  apply (Hloop _ _ I3 _ _ u3) in E3; [| reflexivity].
  apply andThen_final in H as [[u4 [E4 H]] | E4].
  2: { eapply Htrans; [exact E1 |]. eapply Htrans; [exact E2 |].
       eapply Htrans; [exact E3 |].
       eapply (Hnamed _ _ I4); [exact E4 | reflexivity]. }
  apply (Hnamed _ _ I4 _ _ u4) in E4; [| reflexivity].
  eapply Htrans; [exact E1 |]. eapply Htrans; [exact E2 |].
  eapply Htrans; [exact E3 |]. eapply Htrans; [exact E4 |].
  eapply (Hloop _ _ I5); [reflexivity | exact H].
Qed.

Lemma search_index_ge r :
  forall s p i m e, search r p s i = Some (m, e) -> i <= index m /\ i <= pos e.
Proof.
  induction s as [|c s IH]; intros p i m e; cbn [search].
  - destruct (matcher r Some (MState p [] i [])) as [e0|] eqn:E; [| discriminate].
    intros [= <- <-]. cbn [index]. split; [lia |].
    apply matcher_reaches in E as [w [s' [[_ [P _]] [[= ->] _]]]].
    cbn [pos] in P. lia.
  - destruct (matcher r Some (MState p (c :: s) i [])) as [e0|] eqn:E.
    + intros [= <- <-]. cbn [index]. split; [lia |].
      apply matcher_reaches in E as [w [s' [[_ [P _]] [[= ->] _]]]].
      cbn [pos] in P. lia.
    + intros H. apply IH in H. lia.
Qed.

Lemma scan_index_ge r fuel :
  forall p s i m, In m (scan r fuel p s i) -> i <= index m.
Proof.
  induction fuel as [|fuel IH]; intros p s i m; cbn [scan]; [intros [] |].
  destruct (search r p s i) as [[m0 e]|] eqn:E; [| intros []].
  apply search_index_ge in E as [Hi He]. intros [<- | Hin]; [exact Hi |].
  destruct (endIndex m0 =? index m0); [destruct Hin |].
  apply IH in Hin. lia.
Qed.

(** The scan that resumes at [lastIndex] meets no match that starts before
    it. *)
Lemma execAllFrom_index_ge r content n m :
  In m (LastIndex.execAllFrom r content n) -> n <= index m.
Proof.
  unfold LastIndex.execAllFrom.
  destruct (List.length content <? n); [intros [] | apply scan_index_ge].
Qed.

(** X17: in the merged script an error in one file spoils the scan of the
    next.  When the registration of a named import of a file throws,
    [findImports] leaves the [lastIndex] of the named import pattern at the
    end of that match; the scan of the next file resumes there and meets no
    named import that starts before that offset; and a next file that is
    shorter than the offset has none of its named imports seen: a name that
    it imports in named lists only gets no file from it.  (The split script
    resets [lastIndex] on entry.) *)
Theorem merged_scan_resumes_where_an_error_left_it
        (contentA fA contentB fB : Str.t) (u u0 u1 : Obj.t fileSet)
        (l1 l2 : list jsmatch) (m : jsmatch) :
  execAll namedImportPattern contentA = l1 ++ m :: l2 ->
  forEach (fun m0 => forEach (addImport fA) (namedComponents m0)) l1 u
  = Returned u0 ->
  forEach (addImport fA) (namedComponents m) u0 = Threw u1 ->
  LastIndex.findImports contentA fA u LastIndex.start
  = (Threw u1, LastIndex.Cursors (endIndex m) 0 0 0 0)
  /\ (forall m',
         In m' (LastIndex.execAllFrom namedImportPattern contentB (endIndex m)) ->
         endIndex m <= index m')
  /\ (List.length contentB < endIndex m ->
      exists r cs',
        LastIndex.findImports contentB fB u1
          (LastIndex.Cursors (endIndex m) 0 0 0 0) = (r, cs')
        /\ LastIndex.named cs' = 0
        /\ forall u2 name,
            finalState r = Some u2 ->
            ~ In name (otherThanNamed contentB) ->
            forall g, In g (valueOf u2 name) -> In g (valueOf u1 name)).
Proof.
  intros Hm H0 H1. split; [| split].
  - unfold LastIndex.findImports. cbn [LastIndex.named LastIndex.start].
    rewrite execAllFrom_zero, Hm.
    rewrite (whileExec_threw _
               (fun m0 => forEach (addImport fA) (namedComponents m0))
               l1 m l2 u u0 u1 H0 H1).
    reflexivity.
  - intros m'. apply execAllFrom_index_ge.
  - intros Hlen.
    destruct (LastIndex.findImports contentB fB u1
                (LastIndex.Cursors (endIndex m) 0 0 0 0)) as [r cs'] eqn:E.
    exists r, cs'. split; [reflexivity |]. split.
    + unfold LastIndex.findImports in E. cbn [LastIndex.named] in E.
      rewrite (execAllFrom_beyond _ _ _ Hlen) in E.
      cbn [LastIndex.whileExec] in E.
      destruct (LastIndex.whileExec _ _ u1) as [[a2|a2|] i2] in E;
        [| now injection E as _ <- | now injection E as _ <-].
      destruct (LastIndex.whileExec _ _ a2) as [[a3|a3|] i3] in E;
        [| now injection E as _ <- | now injection E as _ <-].
      destruct (LastIndex.whileExec _ _ a3) as [[a4|a4|] i4] in E;
        [| now injection E as _ <- | now injection E as _ <-].
      destruct (LastIndex.whileExec _ _ a4) as [r5 i5] in E.
      now injection E as _ <-.
    + intros u2 name Hf Hn g.
      assert (r = fst (LastIndex.findImports contentB fB u1
                         (LastIndex.Cursors (endIndex m) 0 0 0 0))) as Hr
          by now rewrite E.
      rewrite lastIndex_findImports_fst in Hr.
      cbn [LastIndex.named LastIndex.default LastIndex.namespace
             LastIndex.require LastIndex.requireDefault] in Hr.
      rewrite (execAllFrom_beyond _ _ _ Hlen), !execAllFrom_zero in Hr.
      subst r. revert Hf.
      apply (importLoops_steps
               (fun a b => In g (valueOf b name) -> In g (valueOf a name))
               fB [] (execAll defaultImportPattern contentB)
               (execAll namespaceImportPattern contentB)
               (execAll requirePattern contentB)
               (execAll requireDefaultPattern contentB)); [tauto | tauto |].
      intros c a r a' Hc Ea Hfa Hg.
      destruct (addImport_final_sound _ _ _ _ _ Ea Hfa name g Hg)
        as [Hg' | [_ ->]]; [exact Hg' |].
      exfalso. apply Hn. exact Hc.
Qed.

Lemma merged_scan_resumes_where_an_error_left_it_witness :
  LastIndex.walk staleFiles Merged.initial LastIndex.start
  = Some (Merged.initial, LastIndex.start, [lit "src/a.js"])
  /\ (exists st,
         walk staleFiles initial = Some (st, [lit "src/a.js"])
         /\ componentUsage st = [(lit "Card", [lit "src/b.js"])])
  /\ LastIndex.findImports (importLine "{ toString }") (lit "src/a.js") []
       LastIndex.start
     = (Threw [], LastIndex.Cursors 44 0 0 0 0).
Proof.
  split; [vm_compute; reflexivity |]. split.
  - exists (State [(lit "Card", [lit "src/b.js"])] [] []).
    split; vm_compute; reflexivity.
  - refine (proj1 (merged_scan_resumes_where_an_error_left_it
                     (importLine "{ toString }") (lit "src/a.js")
                     (importLine "{ Card }") (lit "src/b.js") [] [] []
                     [] [] (JsMatch 0 44 [(1%nat, lit " toString ")]) _ _ _)).
    + vm_compute. reflexivity.
    + reflexivity.
    + vm_compute. reflexivity.
Defined.

(** ** The merged variant: namespace imports in the last block *)

Lemma lastIndex_processFile_noStar p c st cs st' cs' flag :
  LastIndex.processFile p c st cs = Some (st', cs', flag) ->
  noStarKey (Merged.componentInstances st) ->
  noStarKey (Merged.componentInstances st').
Proof.
  unfold LastIndex.processFile.
  destruct (LastIndex.findImports c p (Merged.componentUsage st) cs)
    as [[u|u|] cs1]; [| now intros [= <- <- <-] | discriminate].
  destruct (0 <? List.length (Obj.keys u)); [| now intros [= <- <- <-]].
  destruct (Merged.findComponentUsages c p
              (Merged.State u (Merged.componentInstances st))) as [st2|st2|] eqn:E;
    [| | discriminate]; intros [= <- <- <-];
    unfold Merged.findComponentUsages in E;
    refine (forEach_final_keeps _ _ (Merged.componentUsages c p)
              (fun a b => noStarKey (Merged.componentInstances a) ->
                          noStarKey (Merged.componentInstances b))
              _ _ _ _ _ _ _ E eq_refl);
    try tauto; intros symbol a r a' Hr Hf;
    exact (proj2 (merged_componentUsages_noStar _ _ _ _ _ _ Hr Hf)).
Qed.

Lemma lastIndex_walk_noStar files :
  forall st cs st' cs' errors,
    LastIndex.walk files st cs = Some (st', cs', errors) ->
    noStarKey (Merged.componentInstances st) ->
    noStarKey (Merged.componentInstances st').
Proof.
  induction files as [|[q c] files IH]; intros st cs st' cs' errors; simpl.
  - now intros [= <- <- <-].
  - destruct (LastIndex.processFile q c st cs) as [[[st1 cs1] flag]|] eqn:E;
      [| discriminate].
    destruct (LastIndex.walk files st1 cs1) as [[[st2 cs2] errs]|] eqn:Ew;
      [| discriminate].
    intros [= <- <- <-] H. apply (IH _ _ _ _ _ Ew).
    exact (lastIndex_processFile_noStar _ _ _ _ _ _ _ E H).
Qed.

(** X15: in the merged variant ([part_000]) a namespace import is always
    reported as having no instances: the usages of its members are recorded
    under [alias.member], never under the key [*alias] that the last block
    looks up, so after any walk from the empty tables every key of the
    symbol table that starts with a star is in the list of the last
    block. *)
Theorem merged_variant_lists_every_namespace_as_unused
        (files : list file) (st : Merged.state) (cs : LastIndex.cursors)
        (errors : list Str.t) :
  LastIndex.walk files Merged.initial LastIndex.start = Some (st, cs, errors) ->
  forall k,
    In k (Obj.keys (Merged.componentUsage st)) ->
    startsWith [ch "*"] k = true ->
    In k (Merged.unusedComponents st).
Proof.
  intros H k Hk Hs.
  assert (noStarKey (Merged.componentInstances st)) as Hn.
  { apply (lastIndex_walk_noStar files Merged.initial LastIndex.start st cs
             errors H).
    intros k0 []. }
  unfold Merged.unusedComponents. apply filter_In. split; [exact Hk |].
  unfold Obj.lookup.
  destruct (Obj.get (Merged.componentInstances st) k) as [v|] eqn:E.
  - assert (In k (Obj.keys (Merged.componentInstances st))) as Hin.
    { apply keys_In_get. congruence. }
    apply Hn in Hin. congruence.
  - now rewrite (star_not_inherited k Hs).
Qed.

Lemma merged_variant_lists_every_namespace_as_unused_witness :
  exists st,
    LastIndex.walk [(appJs, namespaceUseFile)] Merged.initial LastIndex.start
    = Some (st, LastIndex.start, [])
    /\ Merged.componentInstances st
       = [(lit "NS.Card", [appJs]); (lit "NS.format", [appJs])]
    /\ In (lit "*NS") (Merged.unusedComponents st).
Proof.
  exists (Merged.State [(lit "*NS", [appJs])]
            [(lit "NS.Card", [appJs]); (lit "NS.format", [appJs])]).
  assert (LastIndex.walk [(appJs, namespaceUseFile)] Merged.initial LastIndex.start
          = Some (Merged.State [(lit "*NS", [appJs])]
                    [(lit "NS.Card", [appJs]); (lit "NS.format", [appJs])],
                  LastIndex.start, [])) as E by (vm_compute; reflexivity).
  split; [exact E |]. split; [reflexivity |].
  apply (merged_variant_lists_every_namespace_as_unused _ _ _ _ E).
  - vm_compute. left. reflexivity.
  - reflexivity.
Defined.

(** ** Matches do not overlap *)

Lemma search_end r :
  forall s p i m e,
    search r p s i = Some (m, e) ->
    endIndex m = pos e
    /\ pos e + List.length (rest e) = i + List.length s.
Proof.
  induction s as [|c s IH]; intros p i m e; cbn [search].
  - destruct (matcher r Some (MState p [] i [])) as [e0|] eqn:E; [| discriminate].
    intros [= <- <-]. split; [reflexivity |].
    apply matcher_reaches in E as [w [s' [[R [P _]] [[= ->] _]]]].
    cbn [rest pos] in R, P.
    assert (List.length (@nil cu) = List.length (w ++ rest e0)) as L by now rewrite R.
    rewrite length_app in L. lia.
  - destruct (matcher r Some (MState p (c :: s) i [])) as [e0|] eqn:E.
    + intros [= <- <-]. split; [reflexivity |].
      apply matcher_reaches in E as [w [s' [[R [P _]] [[= ->] _]]]].
      cbn [rest pos] in R, P.
      assert (List.length (c :: s) = List.length (w ++ rest e0)) as L
          by now rewrite R.
      rewrite length_app in L. lia.
    + intros H. apply IH in H as [H1 H2]. split; [exact H1 |].
      cbn [List.length]. lia.
Qed.

Lemma scan_apart r :
  consumes r = true ->
  forall fuel p s i,
    StronglySorted (fun a b => endIndex a <= index b) (scan r fuel p s i)
    /\ Forall (fun m => i <= index m /\ index m < endIndex m
                        /\ endIndex m <= i + List.length s)
         (scan r fuel p s i).
Proof.
  intros Hc. induction fuel as [|fuel IH]; intros p s i; cbn [scan].
  - split; constructor.
  - destruct (search r p s i) as [[m e]|] eqn:E; [| split; constructor].
    destruct (search_progress _ _ _ _ _ _ Hc E) as [Hi Hl].
    destruct (search_end _ _ _ _ _ _ E) as [He Hlen].
    destruct (search_index_ge _ _ _ _ _ _ E) as [Hge _].
    assert ((endIndex m =? index m) = false) as -> by (apply Nat.eqb_neq; lia).
    destruct (IH (prev e) (rest e) (pos e)) as [Hs Hf].
    split.
    + constructor; [exact Hs |].
      eapply Forall_impl; [| exact Hf]. intros b Hb. cbv beta in Hb. lia.
    + constructor; [lia |].
      eapply Forall_impl; [| exact Hf]. intros b Hb. cbv beta in Hb. lia.
Qed.

Lemma execAll_apart r content :
  consumes r = true -> apart content (execAll r content).
Proof.
  intros Hc. unfold apart, execAll.
  destruct (scan_apart r Hc (S (List.length content)) None content 0) as [Hs Hf].
  split; [exact Hs |].
  eapply Forall_impl; [| exact Hf]. intros m Hm. cbv beta in Hm. lia.
Qed.

(** X18: what a loop over [exec] counts does not overlap.  For each of
    the patterns of the program (the five import patterns, and the markup
    and call patterns of a symbol or alias that has none of the characters
    [\ * + ? ( ) [ ] { } |], which is then spliced in as one piece) the
    matches in a text are not empty, lie within the text, and each starts
    at or after the end of the one before it: a piece of text is counted
    at most once for a pattern. *)
Theorem matches_of_a_pattern_do_not_overlap
        (content name : Str.t) (re : regex) :
  splice name = Some re ->
  apart content (extractJSXUsage content re)
  /\ apart content (execAll (functionCallPattern re) content)
  /\ apart content (execAll (namespaceJSXPattern re) content)
  /\ apart content (execAll (namespaceFuncPattern re) content)
  /\ apart content (execAll namedImportPattern content)
  /\ apart content (execAll defaultImportPattern content)
  /\ apart content (execAll namespaceImportPattern content)
  /\ apart content (execAll requirePattern content)
  /\ apart content (execAll requireDefaultPattern content).
Proof.
  intros _.
  assert (forall r, consumes r = true -> apart content (execAll r content)) as H
      by (intros r; apply execAll_apart).
  unfold extractJSXUsage.
  split; [apply H; reflexivity |].
  split; [apply H; simpl; now rewrite !orb_true_r |].
  split; [apply H; reflexivity |].
  split; [apply H; simpl; now rewrite !orb_true_r |].
  split; [apply H; reflexivity |].
  split; [apply H; reflexivity |].
  split; [apply H; reflexivity |].
  split; apply H; reflexivity.
Qed.

Lemma matches_of_a_pattern_do_not_overlap_witness :
  splice (lit "Button") = Some (Lit (lit "Button"))
  /\ map (fun m => (index m, endIndex m))
       (extractJSXUsage tagsFile (Lit (lit "Button"))) = [(0, 14)]
  /\ apart tagsFile (extractJSXUsage tagsFile (Lit (lit "Button"))).
Proof.
  split; [reflexivity |]. split; [vm_compute; reflexivity |].
  exact (proj1 (matches_of_a_pattern_do_not_overlap tagsFile (lit "Button")
                  (Lit (lit "Button")) eq_refl)).
Defined.

(** ** The report of a run *)

(** X19: the report that [main] writes after walking a directory is the
    report of the list model of the run: there are scanned files (readable
    regular files that passed the two filters) such that the text is what
    [generateReport] gives for the tables of the walk over them, under
    their relative paths, from the empty tables. *)
Theorem main_reports_on_the_scanned_files
        (os : Fs.platform) (fuel : nat) (argument : option Str.t)
        (cwd now report : Str.t) (events : list Fs.event) :
  Fs.main os fuel argument cwd now = Some (report, events) ->
  exists seen,
    main now (relativeTo os seen) = Some report
    /\ Forall (scanned os) seen.
Proof.
  unfold Fs.main, main. cbv zeta.
  destruct (Fs.walkDirectory os fuel _ (Fs.Run initial [])) as [r'|] eqn:E;
    [| discriminate].
  intros [= <- <-].
  destruct (walkDirectory_processes os fuel _ _ _ E)
    as [seen [[errors W] [F _]]].
  exists seen. cbn [Fs.tables] in W. rewrite W. now split.
Qed.

Lemma main_reports_on_the_scanned_files_witness :
  exists report events seen,
    Fs.main disk 2 (Some (lit "proj")) (lit "proj") morning
    = Some (report, events)
    /\ main morning (relativeTo disk seen) = Some report
    /\ Forall (scanned disk) seen.
Proof.
  destruct (Fs.main disk 2 (Some (lit "proj")) (lit "proj") morning)
    as [[report events]|] eqn:E; [| vm_compute in E; discriminate].
  destruct (main_reports_on_the_scanned_files disk 2 (Some (lit "proj"))
              (lit "proj") morning report events E) as [seen [Hm Hs]].
  exists report, events, seen. split; [reflexivity |]. now split.
Defined.

(** ** The merged variant: what its usage patterns match *)

Lemma member_plus_inv k s e :
  matcher memberName k s = Some e ->
  exists w s', w <> [] /\ stepsTo s w s' /\ caps s' = caps s
               /\ Forall (fun c => isMemberChar c = true) w
               /\ k s' = Some e.
Proof.
  unfold memberName. intros H.
  apply plus_cls_inv in H as [w [s' [Hne [St [Hc [Hw H]]]]]].
  exists w, s'. split; [exact Hne |]. split; [exact St |].
  split; [exact Hc |]. split; [exact Hw | exact H].
Qed.

Lemma tagEnd_inv k s e :
  matcher Merged.tagEnd k s = Some e ->
  exists c s', isTagEnd c = true /\ stepsTo s [c] s' /\ k s' = Some e.
Proof.
  intros H. apply cls_inv in H as [x [t [E [Hx H]]]].
  exists x, (advance x t s). split; [exact Hx |].
  split; [now apply stepsTo_advance | exact H].
Qed.

Lemma merged_jsx_match_shape content name m :
  In m (execAll (Merged.jsxPattern (Lit name)) content) ->
  exists pre c post,
    index m = List.length pre /\ isTagEnd c = true
    /\ (content = pre ++ ch "<" :: name ++ c :: post
        \/ exists member,
            member <> []
            /\ Forall (fun x => isMemberChar x = true) member
            /\ content = pre ++ ch "<" :: name ++ ch "." :: member ++ c :: post).
Proof.
  intros H. apply execAll_inv in H as [pre [suf [e [Ec [Ei [H _]]]]]].
  unfold Merged.jsxPattern in H. cbn [matcher] in H.
  apply orElse_some in H as [H | H].
  - change (matcher (Chr (ch "<")) (matcher (Lit name >> Merged.tagEnd) Some)
              (stateAt pre suf))
      with (matcher (Chr (ch "<"))
              (matcher (Lit name) (matcher Merged.tagEnd Some))
              (stateAt pre suf)) in H.
    apply chr_steps in H as [s1 [S1 [_ H]]].
    apply lit_steps in H as [s2 [S2 [_ H]]].
    apply tagEnd_inv in H as [c [s3 [Hc [S3 _]]]].
    exists pre, c, (rest s3). split; [exact Ei |]. split; [exact Hc |]. left.
    assert (stepsTo (stateAt pre suf) ([ch "<"] ++ name ++ [c]) s3) as St.
    { apply (stepsTo_trans _ _ _ _ _ S1). apply (stepsTo_trans _ _ _ _ _ S2).
      exact S3. }
    destruct St as [R _]. rewrite stateAt_rest in R. rewrite Ec, R. same_text.
  - change (matcher (Chr (ch "<"))
              (matcher (Lit name >> Chr (ch ".") >> memberName >> Merged.tagEnd)
                 Some) (stateAt pre suf))
      with (matcher (Chr (ch "<"))
              (matcher (Lit name)
                 (matcher (Chr (ch "."))
                    (matcher memberName (matcher Merged.tagEnd Some))))
              (stateAt pre suf)) in H.
    apply chr_steps in H as [s1 [S1 [_ H]]].
    apply lit_steps in H as [s2 [S2 [_ H]]].
    apply chr_steps in H as [s3 [S3 [_ H]]].
    apply member_plus_inv in H as [w [s4 [Hne [S4 [_ [Hw H]]]]]].
    apply tagEnd_inv in H as [c [s5 [Hc [S5 _]]]].
    exists pre, c, (rest s5). split; [exact Ei |]. split; [exact Hc |]. right.
    exists w. split; [exact Hne |]. split; [exact Hw |].
    assert (stepsTo (stateAt pre suf)
              ([ch "<"] ++ name ++ [ch "."] ++ w ++ [c]) s5) as St.
    { apply (stepsTo_trans _ _ _ _ _ S1). apply (stepsTo_trans _ _ _ _ _ S2).
      apply (stepsTo_trans _ _ _ _ _ S3). apply (stepsTo_trans _ _ _ _ _ S4).
      exact S5. }
    destruct St as [R _]. rewrite stateAt_rest in R. rewrite Ec, R. same_text.
Qed.

Lemma merged_call_match_shape content name m :
  In m (execAll (Merged.functionCallPattern (Lit name)) content) ->
  exists pre post,
    content = pre ++ name ++ ch "(" :: post
    /\ index m = List.length pre
    /\ atWordBoundary pre (name ++ [ch "("]) = true.
Proof.
  intros H. apply execAll_inv in H as [pre [suf [e [Ec [Ei [H _]]]]]].
  unfold Merged.functionCallPattern in H.
  change (matcher (WordB >> Lit name >> Chr (ch "(")) Some (stateAt pre suf))
    with (matcher WordB (matcher (Lit name) (matcher (Chr (ch "(")) Some))
            (stateAt pre suf)) in H.
  apply wordB_inv in H as [H Hw].
  apply lit_steps in H as [s1 [S1 [_ H]]].
  apply chr_steps in H as [s2 [S2 _]].
  assert (stepsTo (stateAt pre suf) (name ++ [ch "("]) s2) as St.
  { apply (stepsTo_trans _ _ _ _ _ S1). exact S2. }
  destruct St as [R _]. rewrite stateAt_rest in R.
  exists pre, (rest s2). split; [| split; [exact Ei |]].
  - rewrite Ec, R. same_text.
  - unfold atWordBoundary. cbn [stateAt prev rest] in Hw. rewrite R in Hw.
    assert (hd_error (name ++ [ch "("])
            = hd_error ((name ++ [ch "("]) ++ rest s2)) as ->
        by (destruct name; reflexivity).
    exact Hw.
Qed.

Lemma merged_namespace_match_shape content namespaceAlias m :
  In m (execAll (Merged.namespacePattern (Lit namespaceAlias)) content) ->
  exists pre post,
    content = pre ++ namespaceAlias ++ ch "." :: group 1 (groups m) ++ post
    /\ index m = List.length pre
    /\ group 1 (groups m) <> []
    /\ Forall (fun x => isMemberChar x = true) (group 1 (groups m)).
Proof.
  intros H. apply execAll_inv in H as [pre [suf [e [Ec [Ei [H [_ Hg]]]]]]].
  unfold Merged.namespacePattern in H.
  change (matcher (Lit namespaceAlias >> Chr (ch ".") >> Group 1 memberName)
            Some (stateAt pre suf))
    with (matcher (Lit namespaceAlias)
            (matcher (Chr (ch ".")) (matcher (Group 1 memberName) Some))
            (stateAt pre suf)) in H.
  apply lit_steps in H as [s1 [S1 [C1 H]]].
  apply chr_steps in H as [s2 [S2 [C2 H]]].
  apply member_group_inv in H as [w [s3 [Hne [S3 [Hw [[= <-] C3]]]]]].
  assert (group 1 (groups m) = w) as ->.
  { rewrite Hg. cbn [caps setCap group Nat.eqb]. reflexivity. }
  assert (stepsTo (stateAt pre suf) (namespaceAlias ++ [ch "."] ++ w) s3) as St.
  { apply (stepsTo_trans _ _ _ _ _ S1). apply (stepsTo_trans _ _ _ _ _ S2).
    exact S3. }
  destruct St as [R _]. rewrite stateAt_rest in R.
  exists pre, (rest s3). split; [| split; [exact Ei | split; [exact Hne | exact Hw]]].
  rewrite Ec, R. same_text.
Qed.

(** A call of the name right after a dot is a match of the merged call
    pattern. *)
Lemma merged_method_call_found content name a b c :
  content = a ++ ch "." :: (c :: name) ++ ch "(" :: b ->
  isWord c = true ->
  execAll (Merged.functionCallPattern (Lit (c :: name))) content <> [].
Proof.
  intros -> Hc.
  replace (a ++ ch "." :: (c :: name) ++ ch "(" :: b)
    with ((a ++ [ch "."]) ++ (c :: name) ++ ch "(" :: b) by same_text.
  apply (execAll_nonempty _ (a ++ [ch "."]) ((c :: name) ++ ch "(" :: b)
           (MState (Some (ch "(")) b
              (S (List.length (c :: name) + List.length (a ++ [ch "."]))) [])).
  unfold Merged.functionCallPattern.
  change (matcher (WordB >> Lit (c :: name) >> Chr (ch "(")) Some ?s0)
    with (matcher WordB (matcher (Lit (c :: name)) (matcher (Chr (ch "(")) Some))
            s0).
  rewrite wordB_fwd.
  - rewrite (lit_fwd (c :: name) _
               (stateAt (a ++ [ch "."]) ((c :: name) ++ ch "(" :: b))
               (ch "(" :: b) eq_refl).
    erewrite chr_fwd by reflexivity. reflexivity.
  - cbn [stateAt prev rest app hd_error isWordAt]. rewrite lastOr_snoc.
    cbn [isWordAt]. now rewrite Hc.
Qed.

Lemma starLoop_total body greedy k fuel s :
  (forall s', k s' <> None) ->
  starLoop body greedy k (S fuel) s <> None.
Proof.
  intros Hk. cbn [starLoop].
  destruct (k s) as [e|] eqn:E; [| now apply Hk in E].
  destruct greedy; [| discriminate].
  match goal with |- orElse ?a _ <> None => destruct a end; discriminate.
Qed.

(** The alias, a dot and a member character, wherever they stand, are a
    match of the merged namespace pattern. *)
Lemma merged_member_found content namespaceAlias a w b :
  content = a ++ namespaceAlias ++ ch "." :: w :: b ->
  isMemberChar w = true ->
  execAll (Merged.namespacePattern (Lit namespaceAlias)) content <> [].
Proof.
  intros -> Hw.
  destruct (matcher (Merged.namespacePattern (Lit namespaceAlias)) Some
              (stateAt a (namespaceAlias ++ ch "." :: w :: b))) as [e|] eqn:E;
    [exact (execAll_nonempty _ _ _ e E) |].
  exfalso. revert E. unfold Merged.namespacePattern.
  change (matcher (Lit namespaceAlias >> Chr (ch ".") >> Group 1 memberName)
            Some ?s0)
    with (matcher (Lit namespaceAlias)
            (matcher (Chr (ch ".")) (matcher (Group 1 memberName) Some)) s0).
  rewrite (lit_fwd namespaceAlias _
             (stateAt a (namespaceAlias ++ ch "." :: w :: b))
             (ch "." :: w :: b) eq_refl).
  erewrite chr_fwd by reflexivity.
  unfold memberName, Plus. cbn [matcher advance rest].
  fold (isMemberChar w). rewrite Hw.
  apply starLoop_total. discriminate.
Qed.

(** X20: what the usage patterns of the merged script ([part_000])
    match, for a name without pattern syntax characters.  A markup match is
    [<], the name, and a white space, [/] or [>], or [<], the name, a dot,
    a member name and one of these; a call match is the name at a word
    boundary with [(] right after it, and the name in [obj.name(] is such a
    match; a namespace match is the alias, a dot and a member name,
    wherever they stand, be it in a closing tag. *)
Theorem merged_patterns_match_members_and_method_calls
        (content name : Str.t) :
  isPlain name = true ->
  splice name = Some (Lit name)
  /\ (forall m,
         In m (execAll (Merged.jsxPattern (Lit name)) content) ->
         exists pre c post,
           index m = List.length pre /\ isTagEnd c = true
           /\ (content = pre ++ ch "<" :: name ++ c :: post
               \/ exists member,
                   member <> []
                   /\ Forall (fun x => isMemberChar x = true) member
                   /\ content
                      = pre ++ ch "<" :: name ++ ch "." :: member ++ c :: post))
  /\ (forall m,
         In m (execAll (Merged.functionCallPattern (Lit name)) content) ->
         exists pre post,
           content = pre ++ name ++ ch "(" :: post
           /\ index m = List.length pre
           /\ atWordBoundary pre (name ++ [ch "("]) = true)
  /\ (forall a b,
         content = a ++ ch "." :: name ++ ch "(" :: b ->
         isWordAt (hd_error name) = true ->
         execAll (Merged.functionCallPattern (Lit name)) content <> [])
  /\ (forall m,
         In m (execAll (Merged.namespacePattern (Lit name)) content) ->
         exists pre post,
           content = pre ++ name ++ ch "." :: group 1 (groups m) ++ post
           /\ index m = List.length pre
           /\ group 1 (groups m) <> []
           /\ Forall (fun x => isMemberChar x = true) (group 1 (groups m)))
  /\ (forall a w b,
         content = a ++ name ++ ch "." :: w :: b ->
         isMemberChar w = true ->
         execAll (Merged.namespacePattern (Lit name)) content <> []).
Proof.
  intros Hp. split; [now apply splice_plain |].
  split; [intros m; apply merged_jsx_match_shape |].
  split; [intros m; apply merged_call_match_shape |].
  split.
  - intros a b Ec Hw. destruct name as [|c name']; [discriminate |].
    now apply (merged_method_call_found content name' a b c).
  - split; [intros m; apply merged_namespace_match_shape |].
    intros a w b. apply merged_member_found.
Qed.

Lemma merged_patterns_match_members_and_method_calls_witness :
  isPlain (lit "Button") = true
  /\ execAll (Merged.functionCallPattern (Lit (lit "Button"))) mergedUseFile <> []
  /\ execAll (functionCallPattern (Lit (lit "Button"))) mergedUseFile = [].
Proof.
  assert (isPlain (lit "Button") = true) as Hp by reflexivity.
  split; [exact Hp |]. split; [| vm_compute; reflexivity].
  apply (proj1 (proj2 (proj2 (proj2
           (merged_patterns_match_members_and_method_calls
              mergedUseFile (lit "Button") Hp))))
           (lit "obj") (lit "1); </NS.Card>; <Button.Group>")).
  - vm_compute. reflexivity.
  - reflexivity.
Defined.
